(** * repeat: a shallow embedding of [repeat.c] and its verified properties

    [repeat] runs a command again and again, governed by a repeat count, an
    interval between runs and stop conditions on the command's termination
    status.  This development embeds the two functions of [repeat.c] that
    carry logic, [parse_arguments] and [main], and the time primitive
    [timespec_add], and proves (or refutes, with a concrete input) the
    properties the specification states about them.

    Conventions.  C integers are [Z] with the conversion that narrows them
    written out ([CInt]).  The process talks to its environment through
    [system], [fork]/[wait], [clock_gettime] and [clock_nanosleep]; the
    environment's answers are an oracle ([Loop.environment]) and what the
    process does is a trace of events.  The [while (true)] loops take fuel;
    running out of fuel is reported as [Running], never as an exit. *)

From Stdlib Require Import ZArith List String Ascii Bool Arith Lia.
Import ListNotations.

Local Open Scope Z_scope.

(** ** Machine integers *)

Module CInt.

(** Conversion to an unsigned type of [bits] bits. *)
Definition wrap_unsigned (bits z : Z) : Z := z mod 2 ^ bits.

(** Conversion to a signed two's complement type of [bits] bits, as the
    target machine does it. *)
Definition wrap_signed (bits z : Z) : Z :=
  (z + 2 ^ (bits - 1)) mod 2 ^ bits - 2 ^ (bits - 1).

Definition to_uint32 : Z -> Z := wrap_unsigned 32.
Definition to_int : Z -> Z := wrap_signed 32.
Definition to_long : Z -> Z := wrap_signed 64.

Definition INT_MAX : Z := 2 ^ 31 - 1.
Definition INT_MIN : Z := - 2 ^ 31.
Definition LONG_MAX : Z := 2 ^ 63 - 1.
Definition LONG_MIN : Z := - 2 ^ 63.

End CInt.

(** ** Time values: [struct timespec] and [timespec_add] *)

Module Timespec.
Import CInt.

Record timespec : Set := mkTimespec { tv_sec : Z; tv_nsec : Z }.

Definition NS_IN_SEC : Z := 1000000000.

(** [timespec_add], repeat.c lines 180-189.  [nsecs] is a [uint32_t]: the
    sum of the two remainders is converted modulo 2^32.  [%] and [/] on the
    signed [tv_nsec] truncate towards zero ([Z.rem], [Z.quot]); on the
    unsigned [nsecs] they are the unsigned operations.  [tv_sec] is a
    64-bit [time_t]. *)
Definition timespec_add (a b : timespec) : timespec :=
  let nsecs := to_uint32 (Z.rem (tv_nsec a) NS_IN_SEC + Z.rem (tv_nsec b) NS_IN_SEC) in
  {| tv_sec := to_long (tv_sec a + tv_sec b
                        + Z.quot (tv_nsec a) NS_IN_SEC
                        + Z.quot (tv_nsec b) NS_IN_SEC
                        + nsecs / NS_IN_SEC);
     tv_nsec := nsecs mod NS_IN_SEC |}.

(** The instant a time value denotes, in nanoseconds. *)
Definition to_ns (t : timespec) : Z := tv_sec t * NS_IN_SEC + tv_nsec t.

(** Non-negative components, nanoseconds below one second. *)
Definition normalized (t : timespec) : Prop :=
  0 <= tv_sec t /\ 0 <= tv_nsec t < NS_IN_SEC.

Definition normalizedb (t : timespec) : bool :=
  (0 <=? tv_sec t) && (0 <=? tv_nsec t) && (tv_nsec t <? NS_IN_SEC).

(** [k] successive additions of [step] to [t]. *)
Fixpoint add_times (k : nat) (t step : timespec) : timespec :=
  match k with
  | O => t
  | S k' => timespec_add (add_times k' t step) step
  end.

(** Upper bound on the seconds reached by adding every element of [l] to a
    value whose seconds are [s]: one carry at most per addition. *)
Definition sec_budget (s : Z) (l : list timespec) : Z :=
  fold_left (fun acc t => acc + tv_sec t + 1) l s.

(** The nanoseconds a list of time values adds up to. *)
Definition total_ns (l : list timespec) : Z :=
  fold_right (fun t acc => to_ns t + acc) 0 l.

End Timespec.

(** ** Termination statuses: the [<sys/wait.h>] macros *)

Module WaitStatus.
Import CInt.

(** Signal and error numbers of the target platform (Linux). *)
Definition SIGINT : Z := 2.
Definition SIGQUIT : Z := 3.
Definition SIGKILL : Z := 9.
Definition EINTR : Z := 4.
Definition EINVAL : Z := 22.
Definition ECHILD : Z := 10.

(** The status macros as the C library's headers define them:
    [WEXITSTATUS(s) = (s & 0xff00) >> 8], [WTERMSIG(s) = s & 0x7f],
    [WIFEXITED(s) = (WTERMSIG(s) == 0)] and
    [WIFSIGNALED(s) = ((signed char) ((s & 0x7f) + 1) >> 1) > 0]. *)
Definition WEXITSTATUS (status : Z) : Z := Z.shiftr (Z.land status 65280) 8.
Definition WTERMSIG (status : Z) : Z := Z.land status 127.
Definition WIFEXITED (status : Z) : bool := WTERMSIG status =? 0.
Definition WIFSIGNALED (status : Z) : bool :=
  0 <? Z.shiftr (wrap_signed 8 (Z.land status 127 + 1)) 1.

(** How a child can terminate, and the status word the kernel reports for
    it: the exit code in bits 8-15, or the signal number in bits 0-6 with
    the core-dump flag in bit 7. *)
Inductive termination : Set :=
| NormalExit (code : Z)
| Signaled (sig : Z) (core : bool).

Definition encode (t : termination) : Z :=
  match t with
  | NormalExit code => Z.shiftl code 8
  | Signaled sig core => sig + (if core then 128 else 0)
  end.

Definition well_formed (t : termination) : Prop :=
  match t with
  | NormalExit code => 0 <= code <= 255
  | Signaled sig _ => 1 <= sig <= 64
  end.

Definition is_interrupt (t : termination) : bool :=
  match t with
  | NormalExit _ => false
  | Signaled sig _ => (sig =? SIGINT) || (sig =? SIGQUIT)
  end.

(** What the macros must answer on the status word of a normal exit and
    on that of a death by signal (checked over all of them below). *)
Definition exit_status_ok (code : Z) : bool :=
  let s := encode (NormalExit code) in
  (0 <=? s) && (WEXITSTATUS s =? code) && (WTERMSIG s =? 0)
  && WIFEXITED s && negb (WIFSIGNALED s).

Definition signal_status_ok (core : bool) (sig : Z) : bool :=
  let s := encode (Signaled sig core) in
  (0 <=? s) && (WEXITSTATUS s =? 0) && (WTERMSIG s =? sig)
  && negb (WIFEXITED s) && WIFSIGNALED s.

End WaitStatus.

(** ** The configuration: the module-level variables of [repeat.c] *)

Module Globals.
Import Timespec.

(** Lines 45-53.  [command] is [NULL] or points to the buffer that
    [parse_arguments] allocates and fills. *)
Record globals : Type := mkGlobals {
  times : Z;
  interval_ts : timespec;
  precise : bool;
  exit_on_error : bool;
  exit_on_success : bool;
  use_exec : bool;
  debug : bool;
  cmd_arg_idx : nat;
  command : option (list ascii)
}.

Definition initial : globals :=
  {| times := 0; interval_ts := {| tv_sec := 0; tv_nsec := 0 |};
     precise := false; exit_on_error := false; exit_on_success := false;
     use_exec := false; debug := false; cmd_arg_idx := 0%nat; command := None |}.

Definition set_times (v : Z) (g : globals) : globals :=
  mkGlobals v (interval_ts g) (precise g) (exit_on_error g) (exit_on_success g)
            (use_exec g) (debug g) (cmd_arg_idx g) (command g).
Definition set_interval_ts (v : timespec) (g : globals) : globals :=
  mkGlobals (times g) v (precise g) (exit_on_error g) (exit_on_success g)
            (use_exec g) (debug g) (cmd_arg_idx g) (command g).
Definition set_precise (v : bool) (g : globals) : globals :=
  mkGlobals (times g) (interval_ts g) v (exit_on_error g) (exit_on_success g)
            (use_exec g) (debug g) (cmd_arg_idx g) (command g).
Definition set_exit_on_error (v : bool) (g : globals) : globals :=
  mkGlobals (times g) (interval_ts g) (precise g) v (exit_on_success g)
            (use_exec g) (debug g) (cmd_arg_idx g) (command g).
Definition set_exit_on_success (v : bool) (g : globals) : globals :=
  mkGlobals (times g) (interval_ts g) (precise g) (exit_on_error g) v
            (use_exec g) (debug g) (cmd_arg_idx g) (command g).
Definition set_use_exec (v : bool) (g : globals) : globals :=
  mkGlobals (times g) (interval_ts g) (precise g) (exit_on_error g) (exit_on_success g)
            v (debug g) (cmd_arg_idx g) (command g).
Definition set_debug (v : bool) (g : globals) : globals :=
  mkGlobals (times g) (interval_ts g) (precise g) (exit_on_error g) (exit_on_success g)
            (use_exec g) v (cmd_arg_idx g) (command g).
Definition set_cmd_arg_idx (v : nat) (g : globals) : globals :=
  mkGlobals (times g) (interval_ts g) (precise g) (exit_on_error g) (exit_on_success g)
            (use_exec g) (debug g) v (command g).
Definition set_command (v : option (list ascii)) (g : globals) : globals :=
  mkGlobals (times g) (interval_ts g) (precise g) (exit_on_error g) (exit_on_success g)
            (use_exec g) (debug g) (cmd_arg_idx g) v.

End Globals.

(** ** What the process does: events *)

Module Events.
Import Timespec.

(** The texts the program writes.  [MsgUsage] is [USAGE] formatted with
    the program name (lines 87, 98, 137), [MsgUsageRaw] the same text
    printed through ["%s\n"] (line 148); [MsgGetopt] stands for the
    diagnostics [getopt_long] prints by itself when [opterr] is set. *)
Inductive message : Set :=
| MsgUsage | MsgUsageRaw | MsgVersion | MsgBadUnit | MsgDebugEnabled
| MsgCantHappen | MsgGetopt | MsgDebugDump
| MsgFatalTime | MsgFatalWait | MsgCouldntRun.

Definition is_usage (m : message) : bool :=
  match m with MsgUsage | MsgUsageRaw => true | _ => false end.

Inductive event : Set :=
| EvStdout (m : message)
| EvStderr (m : message)
| EvSystem (cmd : option string)    (* system(command); [None] for NULL *)
| EvFork (argv : list string)       (* fork(); the child calls execvp *)
| EvSleep (deadline : timespec).    (* clock_nanosleep(..., &next_exec, NULL) *)

(** The deadlines the process has slept to, most recent first. *)
Fixpoint sleep_deadlines (log : list event) : list timespec :=
  match log with
  | [] => []
  | EvSleep d :: rest => d :: sleep_deadlines rest
  | _ :: rest => sleep_deadlines rest
  end.

(** A launch of the command, through the shell or directly. *)
Definition is_launch (e : event) : bool :=
  match e with EvSystem _ | EvFork _ => true | _ => false end.

Definition launch_count (log : list event) : nat :=
  List.length (filter is_launch log).

Definition usage_on_stderr (log : list event) : bool :=
  existsb (fun e => match e with EvStderr m => is_usage m | _ => false end) log.

Definition message_eq_dec (a b : message) : {a = b} + {a <> b}.
Proof. decide equality. Defined.

Definition on_stderr (m : message) (log : list event) : bool :=
  existsb (fun e => match e with
                    | EvStderr m' => if message_eq_dec m m' then true else false
                    | _ => false end) log.

End Events.

(** ** C strings in a buffer *)

Module CString.

Definition NUL : ascii := Ascii.zero.

(** The string a [char *] denotes: the characters from the start of the
    buffer up to the first NUL. *)
Fixpoint c_string (buf : list ascii) : string :=
  match buf with
  | [] => EmptyString
  | c :: rest => if Ascii.eqb c NUL then EmptyString else String c (c_string rest)
  end.

(** An argument is a C string when no NUL occurs inside it. *)
Definition nul_free (s : string) : Prop := ~ In NUL (list_ascii_of_string s).

(** [calloc(n, 1)]: [n] zero bytes. *)
Definition calloc (n : Z) : list ascii := repeat NUL (Z.to_nat n).

(** Store [bytes] at offset [off]; [None] when the store would run past
    the end of the allocation (undefined behaviour in C). *)
Definition write_at (buf : list ascii) (off : nat) (bytes : list ascii)
  : option (list ascii) :=
  if (off + List.length bytes <=? List.length buf)%nat
  then Some (firstn off buf ++ bytes ++ skipn (off + List.length bytes) buf)
  else None.

(** [strcpy(buf + off, src)] copies the characters and the final NUL. *)
Definition strcpy (buf : list ascii) (off : nat) (src : string) : option (list ascii) :=
  write_at buf off (list_ascii_of_string src ++ [NUL]).

(** Each argument of [rest] with a space before it. *)
Definition spaced (rest : list string) : string :=
  fold_right (fun t acc => String " " (t ++ acc)) EmptyString rest.

(** The characters of the arguments and one more for each. *)
Definition weight (args : list string) : nat :=
  list_sum (map (fun a => S (String.length a)) args).

End CString.

(** ** The execution loop of [main] *)

Module Loop.
Import CInt Timespec WaitStatus Globals Events CString.

(** What one [wait(&ret)] call reports: its return value (a pid, or -1),
    [errno] when it is -1, and the status it stores in [ret] otherwise. *)
Record wait_result : Set := mkWait { w_ret : Z; w_errno : Z; w_status : Z }.

(** The environment's answers.  [system_ret n] is what [system] returns
    for launch number [n] (from 0); [wait_ret n j] what the [j]-th [wait]
    call after launch [n] reports; [clock_ret k] the return value and the
    time of the [k]-th [clock_gettime] call; [sleep_ret n j] what the
    [j]-th [clock_nanosleep] call of the pause after launch [n] returns. *)
Record environment : Type := mkEnv {
  system_ret : nat -> Z;
  wait_ret : nat -> nat -> wait_result;
  clock_ret : nat -> Z * timespec;
  sleep_ret : nat -> nat -> Z
}.

(** The statement through which the process leaves [main]. *)
Inductive stop_reason : Set :=
| ParseExit          (* line 199 *)
| FatalClock         (* lines 216 and 276 *)
| FatalWait          (* line 237 *)
| LaunchFailed       (* line 249 *)
| StopOnError        (* line 252 *)
| StopOnSuccess      (* line 255 *)
| ChildInterrupted   (* line 260 *)
| CountExhausted.    (* line 266 *)

(** [Running]: the process has not left [main] within the fuel given. *)
Inductive status : Set :=
| Running
| Exited (why : stop_reason) (code : Z).

(** The loop's variables: the remaining count, the deadline, and the
    bookkeeping of the model (launches and clock reads so far, and the
    events so far, most recent first). *)
Record loop_state : Set := mkState {
  ls_times : Z;
  ls_next_exec : timespec;
  ls_launches : nat;
  ls_clocks : nat;
  ls_log : list event
}.

Definition log_event (e : event) (st : loop_state) : loop_state :=
  mkState (ls_times st) (ls_next_exec st) (ls_launches st) (ls_clocks st) (e :: ls_log st).
Definition set_next_exec (t : timespec) (st : loop_state) : loop_state :=
  mkState (ls_times st) t (ls_launches st) (ls_clocks st) (ls_log st).
Definition set_ls_times (t : Z) (st : loop_state) : loop_state :=
  mkState t (ls_next_exec st) (ls_launches st) (ls_clocks st) (ls_log st).
Definition count_launch (st : loop_state) : loop_state :=
  mkState (ls_times st) (ls_next_exec st) (S (ls_launches st)) (ls_clocks st) (ls_log st).
Definition count_clock (st : loop_state) : loop_state :=
  mkState (ls_times st) (ls_next_exec st) (ls_launches st) (S (ls_clocks st)) (ls_log st).

Inductive step_result : Set :=
| Next (st : loop_state)
| Halt (s : status) (st : loop_state).

(** How an attempt to run the command once ends for the parent: [ret] is
    set, the process dies at line 237, or it is still blocked. *)
Inductive launch_outcome : Set :=
| Returned (ret : Z)
| WaitDied
| Blocked.

Section Run.
Variable g : globals.
Variable argv : list string.
Variable env : environment.

(** Lines 232-242: [wait] until a child is reaped; a return of -1 with
    [errno == EINTR] calls [wait] again, any other -1 is fatal.  The
    second component counts the [wait] calls made. *)
Fixpoint wait_loop (n : nat) (fuel : nat) (j : nat) : launch_outcome * nat :=
  match fuel with
  | O => (Blocked, j)
  | S fuel' =>
      let r := wait_ret env n j in
      if w_ret r =? -1 then
        if negb (w_errno r =? EINTR) then (WaitDied, S j)
        else wait_loop n fuel' (S j)
      else (Returned (w_status r), S j)
  end.

(** Lines 281-283: [do err = clock_nanosleep(...) while (err != 0)].
    [Some k]: the pause completed with the [k]-th call. *)
Fixpoint sleep_loop (n : nat) (fuel : nat) (j : nat) : option nat :=
  match fuel with
  | O => None
  | S fuel' =>
      if negb (sleep_ret env n j =? 0) then sleep_loop n fuel' (S j)
      else Some (S j)
  end.

(** Lines 226-245: launch number [n]. *)
Definition launch_event : event :=
  if use_exec g then EvFork (skipn (cmd_arg_idx g) argv)
  else EvSystem (option_map c_string (command g)).

Definition run_command (fuel n : nat) : launch_outcome :=
  if use_exec g then fst (wait_loop n fuel 0)
  else Returned (system_ret env n).

(** Lines 247-261: the checks on [ret], in the order of the source. *)
Definition check_status (ret : Z) : option (stop_reason * Z) :=
  if ret <? 0 then Some (LaunchFailed, 1)
  else if negb (WEXITSTATUS ret =? 0) && exit_on_error g
       then Some (StopOnError, WEXITSTATUS ret)
  else if (WEXITSTATUS ret =? 0) && exit_on_success g
       then Some (StopOnSuccess, 0)
  else if WIFSIGNALED ret && ((WTERMSIG ret =? SIGINT) || (WTERMSIG ret =? SIGQUIT))
       then Some (ChildInterrupted, 0)
  else None.

(** Lines 263-268: the remaining count after the run, and whether the
    run was the last one. *)
Definition count_down (t : Z) : Z * bool :=
  if 0 <? t then (t - 1, t - 1 =? 0) else (t, false).

(** Lines 270-284: the pause before the next run. *)
Definition pause (fuel n : nat) (st : loop_state) : step_result :=
  if negb (tv_sec (interval_ts g) =? 0) || negb (tv_nsec (interval_ts g) =? 0) then
    let armed :=
      if negb (precise g) then
        let '(err, now) := clock_ret env (ls_clocks st) in
        if err <? 0 then None
        else Some (set_next_exec (timespec_add now (interval_ts g)) (count_clock st))
      else Some st in
    match armed with
    | None => Halt (Exited FatalClock 1) (log_event (EvStderr MsgFatalTime) (count_clock st))
    | Some st1 =>
        let st2 := log_event (EvSleep (ls_next_exec st1)) st1 in
        match sleep_loop n fuel 0 with
        | Some _ => Next st2
        | None => Halt Running st2
        end
    end
  else Next st.

(** Lines 221-284: one turn of the [while (true)] loop. *)
Definition iteration (fuel : nat) (st : loop_state) : step_result :=
  let n := ls_launches st in
  let st1 := if precise g
             then set_next_exec (timespec_add (ls_next_exec st) (interval_ts g)) st
             else st in
  let st2 := count_launch (log_event launch_event st1) in
  match run_command fuel n with
  | Blocked => Halt Running st2
  | WaitDied => Halt (Exited FatalWait 1) (log_event (EvStderr MsgFatalWait) st2)
  | Returned ret =>
      match check_status ret with
      | Some (LaunchFailed, code) =>
          Halt (Exited LaunchFailed code) (log_event (EvStderr MsgCouldntRun) st2)
      | Some (why, code) => Halt (Exited why code) st2
      | None =>
          let '(t, last) := count_down (ls_times st2) in
          let st3 := set_ls_times t st2 in
          if last then Halt (Exited CountExhausted (WEXITSTATUS ret)) st3
          else pause fuel n st3
      end
  end.

(** Lines 220-285.  Each turn, and each inner loop of a turn, may use the
    fuel that is left. *)
Fixpoint main_loop (fuel : nat) (st : loop_state) : status * loop_state :=
  match fuel with
  | O => (Running, st)
  | S fuel' =>
      match iteration fuel' st with
      | Next st' => main_loop fuel' st'
      | Halt s st' => (s, st')
      end
  end.

(** Lines 196-218: the state in which the loop is entered.  [next_exec]
    is not initialised in C unless [precise] is set; it is then written
    at line 273 before it is read, so its initial value here is
    immaterial. *)
Definition enter (out : list event) : step_result :=
  let st0 := mkState (times g) {| tv_sec := 0; tv_nsec := 0 |} 0 0
                     (if debug g then EvStdout MsgDebugDump :: out else out) in
  if precise g then
    let '(err, now) := clock_ret env 0 in
    if err <? 0
    then Halt (Exited FatalClock 1) (log_event (EvStderr MsgFatalTime) (count_clock st0))
    else Next (set_next_exec now (count_clock st0))
  else Next st0.

Definition run_loop (fuel : nat) (out : list event) : status * loop_state :=
  match enter out with
  | Next st => main_loop fuel st
  | Halt s st => (s, st)
  end.

(** Launch [n] hands the status word [ret] to the parent. *)
Definition child_returns (n : nat) (ret : Z) : Prop :=
  exists fuel, run_command fuel n = Returned ret.

(** The pause after launch [n] comes to an end. *)
Definition sleep_completes (n : nat) : Prop :=
  exists fuel k, sleep_loop n fuel 0 = Some k.

(** [clock_gettime] does not fail. *)
Definition clock_works : Prop :=
  forall k, 0 <= fst (clock_ret env k).

(** The sleeps so far, in the order they were made, went to the
    deadlines of a fixed cadence from [origin]: the [k]-th to [origin]
    plus [k] intervals. *)
Definition sleeps_on_cadence (origin : timespec) (log : list event) : Prop :=
  forall k d, nth_error (rev (sleep_deadlines log)) k = Some d ->
              d = add_times (S k) origin (interval_ts g).

(** The clock has been read once, and the deadline is [origin] plus one
    interval per launch. *)
Definition on_cadence (origin : timespec) (st : loop_state) : Prop :=
  ls_clocks st = 1%nat
  /\ ls_next_exec st = add_times (ls_launches st) origin (interval_ts g)
  /\ sleeps_on_cadence origin (ls_log st).

(** Between turns: one sleep per launch when there is an interval, none
    without. *)
Definition slept_each_turn (st : loop_state) : Prop :=
  List.length (sleep_deadlines (ls_log st))
  = if negb (tv_sec (interval_ts g) =? 0) || negb (tv_nsec (interval_ts g) =? 0)
    then ls_launches st else 0%nat.

End Run.

End Loop.

(** ** The C library's [strtol], base 10 *)

Module Strtol.
Import CInt.

Definition isspace (c : ascii) : bool :=
  let n := nat_of_ascii c in
  ((9 <=? n) && (n <=? 13) || (n =? 32))%nat.

Definition isdigit (c : ascii) : bool :=
  let n := nat_of_ascii c in
  ((48 <=? n) && (n <=? 57))%nat.

Definition digit_value (c : ascii) : Z := Z.of_nat (nat_of_ascii c) - 48.

(** Leading white space: how many characters, and what follows. *)
Fixpoint skip_space (s : string) : nat * string :=
  match s with
  | String c rest =>
      if isspace c then let '(k, r) := skip_space rest in (S k, r) else (O, s)
  | EmptyString => (O, s)
  end.

(** The longest run of decimal digits at the start of [s], accumulated on
    [acc]: its value and its length. *)
Fixpoint digits (s : string) (acc : Z) : Z * nat :=
  match s with
  | String c rest =>
      if isdigit c
      then let '(v, k) := digits rest (acc * 10 + digit_value c) in (v, S k)
      else (acc, O)
  | EmptyString => (acc, O)
  end.

Definition clamp_long (z : Z) : Z := Z.max LONG_MIN (Z.min LONG_MAX z).

(** [strtol(s, &endp, 10)]: optional white space, an optional sign, then
    digits.  The result is the value, clamped to the range of [long], and
    [endp - s], the number of characters used; with no digit nothing is
    converted: the value is 0 and [endp == s]. *)
Definition strtol (s : string) : Z * nat :=
  let '(sp, s1) := skip_space s in
  let '(neg, sg, s2) :=
    match s1 with
    | String "-" r => (true, 1%nat, r)
    | String "+" r => (false, 1%nat, r)
    | _ => (false, 0%nat, s1)
    end in
  let '(v, k) := digits s2 0 in
  if (k =? 0)%nat then (0, 0%nat)
  else (clamp_long (if neg then - v else v), (sp + sg + k)%nat).

End Strtol.

(** ** The C library's [getopt_long] *)

Module Getopt.

Inductive has_arg_kind : Set := no_argument | required_argument.

(** One [struct option]; the [flag] field is [NULL] in every entry of this
    program and is left out. *)
Record long_option : Set := mkOpt { name : string; has_arg : has_arg_kind; val : ascii }.

(** [optind], and what is left of the argument whose option letters are
    being read ([nextchar]; empty between arguments). *)
Record state : Set := mkGetopt { optind : nat; nextchar : string }.

Definition start : state := {| optind := 1; nextchar := EmptyString |}.

(** One call's result: the return value ([None] for -1), [optarg], the
    state for the next call, and whether a diagnostic was printed
    ([opterr] is 1). *)
Record answer : Set := mkAnswer {
  ret : option ascii;
  optarg : option string;
  next : state;
  diagnosed : bool
}.

Definition finished (st : state) : answer := mkAnswer None None st false.
Definition bad (st : state) : answer := mkAnswer (Some "?"%char) None st true.

(** Whether letter [c] is in the option string, and whether a colon
    follows it there. *)
Fixpoint lookup_short (c : ascii) (optstring : string) : option bool :=
  match optstring with
  | EmptyString => None
  | String d rest =>
      if Ascii.eqb c d
      then Some (match rest with String ":" _ => true | _ => false end)
      else lookup_short c rest
  end.

(** The next letter of an argument that starts with a single dash. *)
Definition short_option (argv : list string) (optstring : string)
           (ind : nat) (c : ascii) (rest : string) : answer :=
  let ind' := match rest with EmptyString => S ind | _ => ind end in
  let known := if Ascii.eqb c ":" || Ascii.eqb c ";" then None
               else lookup_short c optstring in
  match known with
  | None => bad (mkGetopt ind' rest)
  | Some false => mkAnswer (Some c) None (mkGetopt ind' rest) false
  | Some true =>
      match rest with
      | String _ _ => mkAnswer (Some c) (Some rest) (mkGetopt (S ind) EmptyString) false
      | EmptyString =>
          match nth_error argv ind' with
          | Some a => mkAnswer (Some c) (Some a) (mkGetopt (S ind') EmptyString) false
          | None => bad (mkGetopt ind' EmptyString)
          end
      end
  end.

(** The name of a long option and, after [=], its value. *)
Fixpoint split_eq (s : string) : string * option string :=
  match s with
  | EmptyString => (EmptyString, None)
  | String c rest =>
      if Ascii.eqb c "=" then (EmptyString, Some rest)
      else let '(n, v) := split_eq rest in (String c n, v)
  end.

Inductive lookup_result : Set :=
| Found (o : long_option)
| NotFound
| Ambiguous.

Definition has_arg_eqb (a b : has_arg_kind) : bool :=
  match a, b with
  | no_argument, no_argument | required_argument, required_argument => true
  | _, _ => false
  end.

(** An exact match wins; otherwise the name may abbreviate one option, or
    several that do not differ in [has_arg] and [val]. *)
Definition lookup_long (longopts : list long_option) (nm : string) : lookup_result :=
  match find (fun o => String.eqb (name o) nm) longopts with
  | Some o => Found o
  | None =>
      match filter (fun o => String.prefix nm (name o)) longopts with
      | [] => NotFound
      | o :: others =>
          if forallb (fun p => has_arg_eqb (has_arg o) (has_arg p)
                               && Ascii.eqb (val o) (val p)) others
          then Found o else Ambiguous
      end
  end.

(** An argument that starts with two dashes; [body] is what follows them. *)
Definition long_option_at (argv : list string) (longopts : list long_option)
           (ind : nat) (body : string) : answer :=
  let '(nm, value) := split_eq body in
  match lookup_long longopts nm with
  | NotFound | Ambiguous => bad (mkGetopt (S ind) EmptyString)
  | Found o =>
      match value, has_arg o with
      | Some v, required_argument =>
          mkAnswer (Some (val o)) (Some v) (mkGetopt (S ind) EmptyString) false
      | Some _, no_argument => bad (mkGetopt (S ind) EmptyString)
      | None, no_argument =>
          mkAnswer (Some (val o)) None (mkGetopt (S ind) EmptyString) false
      | None, required_argument =>
          match nth_error argv (S ind) with
          | Some a => mkAnswer (Some (val o)) (Some a) (mkGetopt (S (S ind)) EmptyString) false
          | None => bad (mkGetopt (S ind) EmptyString)
          end
      end
  end.

(** [getopt_long(argc, argv, optstring, longopts, &idx)] with
    [POSIXLY_CORRECT] set: the scan ends at the first argument that is not
    an option, and arguments are never permuted.  Option strings with
    optional arguments ([::]) or a leading [+], [-] or [:] are outside
    this model; the program's has none. *)
Definition getopt_long (argv : list string) (optstring : string)
           (longopts : list long_option) (st : state) : answer :=
  match nextchar st with
  | String c rest => short_option argv optstring (optind st) c rest
  | EmptyString =>
      match nth_error argv (optind st) with
      | None => finished st
      | Some arg =>
          match arg with
          | String "-" (String "-" EmptyString) =>
              finished (mkGetopt (S (optind st)) EmptyString)
          | String "-" (String "-" body) =>
              long_option_at argv longopts (optind st) body
          | String "-" (String c rest) =>
              short_option argv optstring (optind st) c rest
          | _ => finished st
          end
      end
  end.

(** Whether the scan takes an argument for an option (or for [--]). *)
Definition looks_like_option (a : string) : bool :=
  match a with
  | String "-" (String _ _) => true
  | _ => false
  end.

(** [optind] stays within [argv]; while the letters of an argument are
    being read it points at that argument. *)
Definition in_bounds (argv : list string) (st : state) : Prop :=
  match nextchar st with
  | EmptyString => (optind st <= List.length argv)%nat
  | String _ _ => (optind st < List.length argv)%nat
  end.

(** The values a call can return with no [optarg]: the error mark, a
    letter with no colon after it, the [val] of a long option that takes
    no argument. *)
Definition flag_like (optstring : string) (longopts : list long_option) (x : ascii)
  : bool :=
  Ascii.eqb x "?"
  || match lookup_short x optstring with Some false => true | _ => false end
  || existsb (fun o => Ascii.eqb (val o) x && has_arg_eqb (has_arg o) no_argument)
             longopts.

(** What is left for the scan to read; every call that does not end the
    scan makes it smaller, which bounds the number of calls. *)
Definition remaining (argv : list string) (st : state) : nat :=
  match nextchar st with
  | EmptyString => CString.weight (skipn (optind st) argv)
  | String _ _ =>
      (String.length (nextchar st) + CString.weight (skipn (S (optind st)) argv))%nat
  end.

End Getopt.

(** ** [parse_arguments] *)

Module Parse.
Import CInt Timespec Globals Events CString Strtol Getopt.

(** The single-precision arithmetic of the [-i] option.  [strtof] and the
    [float] operations belong to the C library and the hardware; the
    embedding takes them as an interface: [strtof s] is the value and the
    number of characters used, [fscale x k] is [x *= k], [fsec x] is
    [(int)x] and [fnsec x] is [(x - (int)x) * NS_IN_SEC] as stored in
    [tv_nsec]. *)
Class FloatOps : Type := mkFloatOps {
  float : Type;
  strtof : string -> float * nat;
  fscale : float -> Z -> float;
  fsec : float -> Z;
  fnsec : float -> Z
}.

(** Line 80 and lines 57-67. *)
Definition optstring : string := "t:i:ezdhpVx".

Definition long_options : list long_option :=
  [ mkOpt "times" required_argument "t";
    mkOpt "interval" required_argument "i";
    mkOpt "precise" no_argument "p";
    mkOpt "untilerr" no_argument "e";
    mkOpt "untilsuccess" no_argument "s";
    mkOpt "noshell" no_argument "x";
    mkOpt "version" no_argument "V";
    mkOpt "help" no_argument "h" ].

(** The statement at which [parse_arguments] returns. *)
Inductive parse_point : Set :=
| AtBadOption     (* line 83 *)
| AtBadTimes      (* line 89 *)
| AtBadInterval   (* line 100 *)
| AtBadUnit       (* line 115 *)
| AtVersion       (* line 135 *)
| AtHelp          (* line 138 *)
| AtCantHappen    (* line 142 *)
| AtNoCommand     (* line 150 *)
| AtEnd.          (* line 176 *)

(** The function's result ([exit_now]), [*return_val], where it returned,
    the module-level variables and what it printed (most recent first). *)
Record parse_result : Type := mkParse {
  exit_now : bool;
  return_val : Z;
  at_point : parse_point;
  config : globals;
  output : list event
}.

(** Lines 159-162: [total_len] is an [int]. *)
Definition total_length (tokens : list string) : Z :=
  fold_left (fun acc t => to_int (acc + Z.of_nat (String.length t)))
            tokens (to_int (Z.of_nat (List.length tokens) - 1)).

(** Lines 167-171: a space, then the next argument, at [write_pt]. *)
Fixpoint append_rest (buf : list ascii) (write_pt : nat) (rest : list string)
  : option (list ascii) :=
  match rest with
  | [] => Some buf
  | t :: rest' =>
      match write_at buf write_pt [" "%char] with
      | None => None
      | Some buf1 =>
          match strcpy buf1 (S write_pt) t with
          | None => None
          | Some buf2 => append_rest buf2 (S write_pt + String.length t) rest'
          end
      end
  end.

(** Lines 157-171: the buffer [command] points to.  [None]: a store
    outside the allocation. *)
Definition join_arguments (tokens : list string) : option (list ascii) :=
  match tokens with
  | [] => None
  | first :: rest =>
      let buf := calloc (to_int (total_length tokens + 1)) in
      match strcpy buf 0 first with
      | None => None
      | Some buf1 => append_rest buf1 (String.length first) rest
      end
  end.

(** Lines 146-176, after the option scan. *)
Definition finish (argv : list string) (ind : nat) (g : globals) (out : list event)
  : option parse_result :=
  let arg_count := Z.of_nat (List.length argv) - Z.of_nat ind in
  if arg_count =? 0 then
    Some (mkParse true 1 AtNoCommand g (EvStderr MsgUsageRaw :: out))
  else
    let g1 := set_cmd_arg_idx ind g in
    if negb (use_exec g1) then
      match join_arguments (skipn ind argv) with
      | Some buf => Some (mkParse false 0 AtEnd (set_command (Some buf) g1) out)
      | None => None
      end
    else Some (mkParse false 0 AtEnd g1 out).

(** What the function leaves behind when it returns [false]: there is a
    command at [cmd_arg_idx], and without [-x] the buffer holds the
    arguments from there on, joined by single spaces and closed by a NUL. *)
Definition joined (argv : list string) (r : parse_result) : Prop :=
  exit_now r = false ->
  return_val r = 0 /\
  exists first rest,
    skipn (cmd_arg_idx (config r)) argv = first :: rest /\
    (use_exec (config r) = false ->
     command (config r)
     = Some (list_ascii_of_string (String.concat " " (first :: rest)) ++ [NUL])%list).

(** What a return with [true] amounts to, by the statement it is made
    at: nothing has been launched; where the function finds a count or an
    interval with no number, or no command, it has printed the usage text
    on the error stream and set [*return_val] to 1; for a bad unit it has
    printed its own message instead, with the same [*return_val].  The
    other returns are not described here. *)
Definition reported (r : parse_result) : Prop :=
  exit_now r = true ->
  launch_count (output r) = 0%nat /\
  match at_point r with
  | AtBadTimes | AtBadInterval | AtNoCommand =>
      return_val r = 1 /\ usage_on_stderr (output r) = true
  | AtBadUnit =>
      return_val r = 1 /\ on_stderr MsgBadUnit (output r) = true
      /\ usage_on_stderr (output r) = false
  | _ => True
  end.

(** What the scan itself may print while it goes on. *)
Definition quiet (e : event) : Prop :=
  e = EvStdout MsgDebugEnabled \/ e = EvStderr MsgGetopt.

Section WithFloat.
Context {F : FloatOps}.

(** What one turn of the [switch] does: go on scanning, or return. *)
Inductive turn : Type :=
| Go (g : globals) (out : list event)
| Return (r : parse_result)
| Undefined.

(** Lines 95-120. *)
Definition interval_option (s : string) (g : globals) (out : list event) : turn :=
  let '(x, used) := strtof s in
  if (used =? 0)%nat then
    Return (mkParse true 1 AtBadInterval g (EvStderr MsgUsage :: out))
  else
    let scaled :=
      match String.get used s with
      | None => Some x
      | Some "d"%char => Some (fscale x 86400)
      | Some "h"%char => Some (fscale x 3600)
      | Some "m"%char => Some (fscale x 60)
      | Some "s"%char => Some x
      | Some _ => None
      end in
    match scaled with
    | None => Return (mkParse true 1 AtBadUnit g (EvStderr MsgBadUnit :: out))
    | Some y => Go (set_interval_ts {| tv_sec := fsec y; tv_nsec := fnsec y |} g) out
    end.

(** Lines 84-91: [times] is an [int], [strtol] returns a [long]. *)
Definition times_option (s : string) (g : globals) (out : list event) : turn :=
  let '(v, used) := strtol s in
  let g' := set_times (to_int v) g in
  if (used =? 0)%nat then
    Return (mkParse true 1 AtBadTimes g' (EvStderr MsgUsage :: out))
  else Go g' out.

(** Lines 81-143.  At line 83 the function returns 1, that is [true],
    and [*return_val] keeps the 0 of line 73. *)
Definition switch (c : ascii) (arg : option string) (g : globals) (out : list event)
  : turn :=
  match c with
  | "?"%char => Return (mkParse true 0 AtBadOption g out)
  | "t"%char => match arg with Some s => times_option s g out | None => Undefined end
  | "d"%char => Go (set_debug true g) (EvStdout MsgDebugEnabled :: out)
  | "i"%char => match arg with Some s => interval_option s g out | None => Undefined end
  | "p"%char => Go (set_precise true g) out
  | "e"%char => Go (set_exit_on_error true g) out
  | "s"%char => Go (set_exit_on_success true g) out
  | "x"%char => Go (set_use_exec true g) out
  | "V"%char => Return (mkParse true 0 AtVersion g (EvStdout MsgVersion :: out))
  | "h"%char => Return (mkParse true 0 AtHelp g (EvStdout MsgUsage :: out))
  | _ => Return (mkParse true 1 AtCantHappen g (EvStderr MsgCantHappen :: out))
  end.

(** Lines 80-144 and what follows the loop. *)
Fixpoint parse_loop (fuel : nat) (argv : list string) (st : Getopt.state)
         (g : globals) (out : list event) : option parse_result :=
  match fuel with
  | O => None
  | S fuel' =>
      let a := getopt_long argv optstring long_options st in
      let out1 := if diagnosed a then EvStderr MsgGetopt :: out else out in
      match ret a with
      | None => finish argv (optind (next a)) g out1
      | Some c =>
          match switch c (optarg a) g out1 with
          | Go g' out' => parse_loop fuel' argv (next a) g' out'
          | Return r => Some r
          | Undefined => None
          end
      end
  end.

(** [parse_arguments(argc, argv, &return_val)], lines 55-177, started in
    the initial values of the module-level variables.  [None] stands for
    undefined behaviour: a store outside [command]'s allocation. *)
Definition parse_arguments (argv : list string) : option parse_result :=
  parse_loop (S (weight argv)) argv Getopt.start Globals.initial [].

End WithFloat.

End Parse.

(** ** [main] *)

Module Main.
Import Globals Events Loop Parse.

Section WithFloat.
Context {F : FloatOps}.

(** Lines 191-286: the status and the final state of the process after
    at most [fuel] turns of the loop. *)
Definition main (argv : list string) (env : environment) (fuel : nat)
  : option (status * loop_state) :=
  match parse_arguments argv with
  | None => None
  | Some r =>
      if exit_now r
      then Some (Exited ParseExit (return_val r),
                 mkState (times (config r)) (Timespec.mkTimespec 0 0) 0 0 (output r))
      else Some (run_loop (config r) argv env fuel (output r))
  end.

End WithFloat.

End Main.

(** ** Views of the loop's state used in the statements *)

Module Views.
Import Timespec Globals Events Loop.

(** Line 270: whether the loop pauses between two runs. *)
Definition pauses (g : globals) : bool :=
  negb (tv_sec (interval_ts g) =? 0) || negb (tv_nsec (interval_ts g) =? 0).

(** Between two turns: with a count, the counter is positive and it and
    the number of launches add up to the count; without one, the counter
    keeps its value. *)
Definition counting_down (g : globals) (st : loop_state) : Prop :=
  (0 < times g -> 0 < ls_times st /\ ls_times st = times g - Z.of_nat (ls_launches st))
  /\ (times g <= 0 -> ls_times st = times g).

(** The sleeps so far, in the order they were made, each went to the
    time of a clock reading plus the interval: the [k]-th sleep to the
    [k]-th reading. *)
Definition sleeps_follow_clock (g : globals) (env : environment) (log : list event)
  : Prop :=
  forall k d, nth_error (rev (sleep_deadlines log)) k = Some d ->
              d = timespec_add (snd (clock_ret env k)) (interval_ts g).

(** The state [st] had [earlier] been written before everything in its
    log (the log has the most recent event first). *)
Definition preceded_by (earlier : list event) (st : loop_state) : loop_state :=
  mkState (ls_times st) (ls_next_exec st) (ls_launches st) (ls_clocks st)
          (ls_log st ++ earlier).

Definition step_preceded_by (earlier : list event) (r : step_result) : step_result :=
  match r with
  | Next st => Next (preceded_by earlier st)
  | Halt s st => Halt s (preceded_by earlier st)
  end.

(** The state with its deadline put aside. *)
Definition without_deadline (st : loop_state) : loop_state :=
  set_next_exec (mkTimespec 0 0) st.

End Views.

(** ** The spellings of the options *)

Module Spellings.
Import Globals Events.

(** The arguments that set one variable and do nothing else, each with
    the letter the [switch] gets for it: the letters [d], [p], [e] and [x]
    of the option string of line 80 and the long options of lines 60-63
    that take no argument.  ([s] is not in the option string: the
    stop-on-success flag has the long spelling only.) *)
Definition setting_flags : list (string * ascii) :=
  [ ("-d"%string, "d"%char);
    ("-p"%string, "p"%char); ("--precise"%string, "p"%char);
    ("-e"%string, "e"%char); ("--untilerr"%string, "e"%char);
    ("--untilsuccess"%string, "s"%char);
    ("-x"%string, "x"%char); ("--noshell"%string, "x"%char) ].

Definition letter_of (a : string) : option ascii :=
  option_map snd (find (fun p => String.eqb (fst p) a) setting_flags).

(** Whether one of [flags] is a spelling of the letter [c]. *)
Definition mentions (c : ascii) (flags : list string) : bool :=
  existsb (fun a => match letter_of a with
                    | Some l => Ascii.eqb l c
                    | None => false
                    end) flags.

(** The variables after the [switch] has seen [flags]: lines 92-94 and
    121-132 only ever set a variable to [true]. *)
Definition with_flags (flags : list string) (g : globals) : globals :=
  mkGlobals (times g) (interval_ts g)
            (mentions "p" flags || precise g)
            (mentions "e" flags || exit_on_error g)
            (mentions "s" flags || exit_on_success g)
            (mentions "x" flags || use_exec g)
            (mentions "d" flags || debug g)
            (cmd_arg_idx g) (command g).

(** Line 93 prints once for every [-d]. *)
Definition debug_lines (flags : list string) : list event :=
  repeat (EvStdout MsgDebugEnabled) (count_occ string_dec flags "-d"%string).

(** The arguments that make the program print a text and exit. *)
Definition informational : list (string * message) :=
  [ ("-h"%string, MsgUsage); ("--help"%string, MsgUsage);
    ("-V"%string, MsgVersion); ("--version"%string, MsgVersion) ].

End Spellings.

(** ** The command line as it is typed *)

Module CommandLine.
Import CInt Timespec Globals Events CString Strtol Getopt Parse.

(** What one option asks for: a flag, by the letter the [switch] gets for
    it, a repeat count or an interval, by the option's argument. *)
Inductive setting : Set :=
| SetFlag (c : ascii)
| SetTimes (s : string)
| SetInterval (s : string).

(** An option as it is typed: a dash and letters ([-e], [-dpx]); letters
    that end in a letter which takes an argument, the argument attached or
    in the next word ([-t5], [-et5], [-t 5], [-xi 2]); a long option with
    no argument ([--precise]); a long option with its argument after [=]
    or in the next word ([--times=5], [--times 5]). *)
Inductive typed : Set :=
| Letters (ls : string)
| LettersValue (ls : string) (c : ascii) (s : string) (attached : bool)
| LongFlag (nm : string)
| LongValue (nm : string) (s : string) (attached : bool).

(** The words of [argv] an option takes. *)
Definition words (o : typed) : list string :=
  match o with
  | Letters ls => [String "-" ls]
  | LettersValue ls c s true => [String "-" (ls ++ String c s)]
  | LettersValue ls c s false => [String "-" (ls ++ String c EmptyString); s]
  | LongFlag nm => [String "-" (String "-" nm)]
  | LongValue nm s true => [String "-" (String "-" (nm ++ String "=" s))]
  | LongValue nm s false => [String "-" (String "-" nm); s]
  end.

(** The letters whose case in the [switch] sets a variable and goes on
    (lines 92-94 and 121-132) ... *)
Definition is_flag_letter (c : ascii) : bool :=
  existsb (Ascii.eqb c) ["d"; "p"; "e"; "s"; "x"]%char.

(** ... those of them that can be typed after a dash: the option string
    of line 80 has no [s] ... *)
Definition short_flag (c : ascii) : bool :=
  is_flag_letter c
  && match lookup_short c optstring with Some false => true | _ => false end.

(** ... and the letters whose case reads [optarg] (lines 84 and 95). *)
Definition value_letter (c : ascii) : bool := Ascii.eqb c "t" || Ascii.eqb c "i".

(** The name of a long option: not empty, and no [=] in it. *)
Definition plain (nm : string) : bool :=
  negb (String.eqb nm EmptyString)
  && forallb (fun c => negb (Ascii.eqb c "=")) (list_ascii_of_string nm).

(** The entry of [long_options] a name stands for, in full or
    abbreviated. *)
Definition long_named (nm : string) : option long_option :=
  match lookup_long long_options nm with
  | Found o => Some o
  | NotFound | Ambiguous => None
  end.

(** The options [getopt_long] reads without complaint and the [switch]
    has a case for that goes on: what is left out are [-h], [-V], [-z]
    and what [getopt_long] rejects. *)
Definition well_typed (o : typed) : bool :=
  match o with
  | Letters ls =>
      negb (String.eqb ls EmptyString) && forallb short_flag (list_ascii_of_string ls)
  | LettersValue ls c s attached =>
      forallb short_flag (list_ascii_of_string ls) && value_letter c
      && (if attached then negb (String.eqb s EmptyString) else true)
  | LongFlag nm =>
      plain nm
      && match long_named nm with
         | Some o => has_arg_eqb (has_arg o) no_argument && is_flag_letter (val o)
         | None => false
         end
  | LongValue nm s _ =>
      plain nm
      && match long_named nm with
         | Some o => has_arg_eqb (has_arg o) required_argument && value_letter (val o)
         | None => false
         end
  end.

(** The flags an option sets, and the letter and the argument of the
    count or interval it gives. *)
Definition flags_of (o : typed) : list ascii :=
  match o with
  | Letters ls | LettersValue ls _ _ _ => list_ascii_of_string ls
  | LongFlag nm => match long_named nm with Some o => [val o] | None => [] end
  | LongValue _ _ _ => []
  end.

Definition value_of (o : typed) : option (ascii * string) :=
  match o with
  | Letters _ | LongFlag _ => None
  | LettersValue _ c s _ => Some (c, s)
  | LongValue nm s _ => match long_named nm with Some o => Some (val o, s) | None => None end
  end.

Definition value_setting (c : ascii) (s : string) : setting :=
  if Ascii.eqb c "t" then SetTimes s else SetInterval s.

Definition settings (o : typed) : list setting :=
  (map SetFlag (flags_of o)
   ++ match value_of o with Some (c, s) => [value_setting c s] | None => [] end)%list.

Definition all_words (opts : list typed) : list string := flat_map words opts.
Definition all_settings (opts : list typed) : list setting := flat_map settings opts.

(** Whether the flag of letter [c] is among the settings. *)
Definition asks (c : ascii) (xs : list setting) : bool :=
  existsb (fun x => match x with SetFlag c' => Ascii.eqb c' c | _ => false end) xs.

(** The argument of the last repeat count among the settings. *)
Definition typed_count (xs : list setting) : option string :=
  fold_left (fun acc x => match x with SetTimes s => Some s | _ => acc end) xs None.

(** Line 93 prints once for every [d]. *)
Definition debug_output (xs : list setting) : list event :=
  repeat (EvStdout MsgDebugEnabled)
         (List.length (filter (fun x => match x with
                                        | SetFlag c => Ascii.eqb c "d"
                                        | _ => false
                                        end) xs)).

(** The scan between two words, and after a letter of word [i] with
    [rest] still to read of that word. *)
Definition at_word (i : nat) : Getopt.state := mkGetopt i EmptyString.

Definition after_letter (i : nat) (rest : string) : Getopt.state :=
  mkGetopt (match rest with EmptyString => S i | _ => i end) rest.

(** The scan after the flag letters [ls] of word [i], with [rest] still
    to read of that word: at the start of the word when there are none. *)
Definition reading (i : nat) (ls rest : string) : Getopt.state :=
  match ls with
  | EmptyString => at_word i
  | String _ _ => after_letter i rest
  end.

(** Where the command starts after the options: at a word that is not
    read as an option, or after [--]. *)
Definition starts_command (sep : list string) (cmd : string) : bool :=
  match sep with
  | [] => negb (looks_like_option cmd)
  | [dd] => String.eqb dd "--"
  | _ => false
  end.

(** A command line: the program's name, options, what ends them, the
    command and its arguments. *)
Definition command_line (prog : string) (opts : list typed) (sep : list string)
           (cmd : string) (rest : list string) : list string :=
  prog :: all_words opts ++ sep ++ cmd :: rest.

(** The units of an interval, each with the factor lines 104-109 multiply
    by, if any. *)
Definition unit_factor (u : ascii) : option (option Z) :=
  if Ascii.eqb u "d" then Some (Some 86400)
  else if Ascii.eqb u "h" then Some (Some 3600)
  else if Ascii.eqb u "m" then Some (Some 60)
  else if Ascii.eqb u "s" then Some None
  else None.

Section WithFloat.
Context {F : FloatOps}.

(** The interval an argument of [-i] stands for: a number, then nothing
    or a unit; [None] when there is no number or the unit is unknown. *)
Definition interval_of (s : string) : option timespec :=
  let '(x, used) := strtof s in
  if (used =? 0)%nat then None
  else
    match String.get used s with
    | None => Some {| tv_sec := fsec x; tv_nsec := fnsec x |}
    | Some u =>
        match unit_factor u with
        | None => None
        | Some None => Some {| tv_sec := fsec x; tv_nsec := fnsec x |}
        | Some (Some k) =>
            Some {| tv_sec := fsec (fscale x k); tv_nsec := fnsec (fscale x k) |}
        end
    end.

(** A count has a leading integer; an interval has a number and a unit
    that is known. *)
Definition accepted (x : setting) : bool :=
  match x with
  | SetFlag _ => true
  | SetTimes s => negb (snd (strtol s) =? 0)%nat
  | SetInterval s => match interval_of s with Some _ => true | None => false end
  end.

(** What a setting does to the variables. *)
Definition apply_setting (g : globals) (x : setting) : globals :=
  match x with
  | SetFlag c =>
      if Ascii.eqb c "d" then set_debug true g
      else if Ascii.eqb c "p" then set_precise true g
      else if Ascii.eqb c "e" then set_exit_on_error true g
      else if Ascii.eqb c "s" then set_exit_on_success true g
      else if Ascii.eqb c "x" then set_use_exec true g
      else g
  | SetTimes s => set_times (to_int (fst (strtol s))) g
  | SetInterval s =>
      match interval_of s with
      | Some t => set_interval_ts t g
      | None => g
      end
  end.

(** The variables after the settings, in the order they are typed. *)
Definition configure (xs : list setting) (g : globals) : globals :=
  fold_left apply_setting xs g.

(** What can be wrong after well-formed options, with the message
    [parse_arguments] has for it and the flag letters read in the same
    word before it is met: a count or an interval with no number at its
    start, an interval with an unknown unit, no command. *)
Inductive goes_wrong : list string -> message -> list ascii -> Prop :=
| wrong_count (o : typed) (s : string) (more : list string) :
    well_typed o = true -> value_of o = Some ("t"%char, s) ->
    snd (strtol s) = 0%nat ->
    goes_wrong (words o ++ more) MsgUsage (flags_of o)
| wrong_interval (o : typed) (s : string) (more : list string) :
    well_typed o = true -> value_of o = Some ("i"%char, s) ->
    snd (strtof s) = 0%nat ->
    goes_wrong (words o ++ more) MsgUsage (flags_of o)
| wrong_unit (o : typed) (s : string) (more : list string) (u : ascii) :
    well_typed o = true -> value_of o = Some ("i"%char, s) ->
    snd (strtof s) <> 0%nat -> String.get (snd (strtof s)) s = Some u ->
    unit_factor u = None ->
    goes_wrong (words o ++ more) MsgBadUnit (flags_of o)
| no_command : goes_wrong [] MsgUsageRaw []
| no_command_after_dashes : goes_wrong ["--"%string] MsgUsageRaw [].

End WithFloat.

End CommandLine.

(** ** Concrete environments and configurations used in the examples *)

Module Scenarios.
Import CInt Timespec WaitStatus Globals Events Loop.

(** A [wait] that reaps a child with the given status at once. *)
Definition reaped (status : Z) : wait_result := mkWait 4242 0 status.

(** A [wait] that fails with the given [errno]. *)
Definition wait_error (errno : Z) : wait_result := mkWait (-1) errno 0.

(** Every child ends the way [t] says; the clock reads [now] and every
    sleep completes at the first call. *)
Definition steady (t : nat -> termination) (now : timespec) : environment :=
  mkEnv (fun n => encode (t n))
        (fun n _ => reaped (encode (t n)))
        (fun _ => (0, now))
        (fun _ _ => 0).

(** As [steady], but every [clock_nanosleep] call fails with [err]. *)
Definition sleepless (t : nat -> termination) (now : timespec) (err : Z) : environment :=
  mkEnv (fun n => encode (t n))
        (fun n _ => reaped (encode (t n)))
        (fun _ => (0, now))
        (fun _ _ => err).

(** As [steady], but each [wait] and each [clock_nanosleep] is interrupted
    ([EINTR]) [k] times before it completes. *)
Definition interrupted (k : nat) (t : nat -> termination) (now : timespec) : environment :=
  mkEnv (fun n => encode (t n))
        (fun n j => if (j <? k)%nat then wait_error EINTR else reaped (encode (t n)))
        (fun _ => (0, now))
        (fun _ j => if (j <? k)%nat then EINTR else 0).

(** There is never a child to wait for: [wait] fails with [ECHILD]. *)
Definition childless : environment :=
  mkEnv (fun _ => 0)
        (fun _ _ => wait_error ECHILD)
        (fun _ => (0, mkTimespec 1000 0))
        (fun _ _ => 0).

(** The child of every launch is killed by signal [sig]. *)
Definition killed_by (sig : Z) : environment :=
  steady (fun _ => Signaled sig false) (mkTimespec 1000 0).

(** Launch [n] exits with code [n + 1] (modulo 256). *)
Definition counting : environment :=
  steady (fun n => NormalExit (Z.of_nat (S n) mod 256)) (mkTimespec 100 700000000).

(** A stand-in for the floating-point interface, enough to run the
    examples: intervals are whole numbers, read like [strtol] reads them. *)
Definition whole_numbers : Parse.FloatOps :=
  Parse.mkFloatOps Z Strtol.strtol (fun x k => x * k) (fun x => x) (fun _ => 0).

(** The command [job], found at [argv[idx]] and run through the shell. *)
Definition with_job (idx : nat) (g : globals) : globals :=
  set_command (Some (list_ascii_of_string "job" ++ [CString.NUL])%list)
              (set_cmd_arg_idx idx g).

(** What [repeat -t N job] is configured to. *)
Definition count_config (n : Z) : globals :=
  with_job 3 (set_times n Globals.initial).

(** What [repeat -i -1000d job] is configured to: an interval of minus a
    thousand days. *)
Definition past_config : globals :=
  with_job 3 (set_interval_ts (mkTimespec (-86400000) 0) Globals.initial).

(** What [repeat -p -i 1.5 job] is configured to. *)
Definition cadence_config : globals :=
  with_job 4 (set_precise true (set_interval_ts (mkTimespec 1 500000000) Globals.initial)).

(** What [repeat -e job] and [repeat --untilsuccess job] are configured
    to. *)
Definition until_error_config : globals :=
  with_job 2 (set_exit_on_error true Globals.initial).
Definition until_success_config : globals :=
  with_job 2 (set_exit_on_success true Globals.initial).

(** What [repeat job] is configured to. *)
Definition plain_config : globals := with_job 1 Globals.initial.

(** What [repeat -t 3 -i 2 job] and [repeat -i 2 job] are configured to. *)
Definition paced_config : globals :=
  with_job 5 (set_interval_ts (mkTimespec 2 0) (set_times 3 Globals.initial)).
Definition interval_config : globals :=
  with_job 3 (set_interval_ts (mkTimespec 2 0) Globals.initial).

(** What [repeat -x job] is configured to. *)
Definition exec_config : globals :=
  set_use_exec true (set_cmd_arg_idx 2 Globals.initial).

(** No child can be created: [system] returns -1. *)
Definition unlaunchable : environment :=
  mkEnv (fun _ => -1)
        (fun _ _ => wait_error ECHILD)
        (fun _ => (0, mkTimespec 1000 0))
        (fun _ _ => 0).

(** Every [clock_gettime] call fails. *)
Definition clockless : environment :=
  mkEnv (fun _ => 0)
        (fun _ _ => reaped 0)
        (fun _ => (-1, mkTimespec 0 0))
        (fun _ _ => 0).

(** Every child exits with code 0, and the clock is ten seconds further
    at each reading: 10 s, 20 s, 30 s, ... *)
Definition ticking : environment :=
  mkEnv (fun _ => 0)
        (fun _ _ => reaped 0)
        (fun k => (0, mkTimespec (10 * Z.of_nat (S k)) 0))
        (fun _ _ => 0).

(** The second run is killed ([SIGKILL]); the others exit with code 7. *)
Definition second_killed (n : nat) : termination :=
  if (n =? 1)%nat then Signaled SIGKILL false else NormalExit 7.

End Scenarios.

(* ================================================================== *)
(** * Properties *)
(* ================================================================== *)

Section TimespecFacts.
Import CInt Timespec.

Lemma to_uint32_small z : 0 <= z < 2 ^ 32 -> to_uint32 z = z.
Proof. intros H. unfold to_uint32, wrap_unsigned. apply Z.mod_small. exact H. Qed.

Lemma to_long_small z : LONG_MIN <= z <= LONG_MAX -> to_long z = z.
Proof.
  unfold to_long, wrap_signed, LONG_MIN, LONG_MAX. intros H.
  rewrite Z.mod_small; lia.
Qed.

Lemma to_int_small z : INT_MIN <= z <= INT_MAX -> to_int z = z.
Proof.
  unfold to_int, wrap_signed, INT_MIN, INT_MAX. intros H.
  rewrite Z.mod_small; lia.
Qed.

Lemma normalizedb_spec t : normalizedb t = true <-> normalized t.
Proof.
  unfold normalizedb, normalized.
  rewrite !andb_true_iff, !Z.leb_le, Z.ltb_lt. tauto.
Qed.

Lemma timespec_add_nsec_range a b :
  0 <= tv_nsec (timespec_add a b) < NS_IN_SEC.
Proof. cbn. apply Z.mod_pos_bound. reflexivity. Qed.

(** On normalized operands the addition is the schoolbook one. *)
Lemma timespec_add_normalized a b :
  normalized a -> normalized b -> tv_sec a + tv_sec b + 1 <= LONG_MAX ->
  timespec_add a b =
    if NS_IN_SEC <=? tv_nsec a + tv_nsec b
    then {| tv_sec := tv_sec a + tv_sec b + 1;
            tv_nsec := tv_nsec a + tv_nsec b - NS_IN_SEC |}
    else {| tv_sec := tv_sec a + tv_sec b;
            tv_nsec := tv_nsec a + tv_nsec b |}.
Proof.
  intros [Ha1 Ha2] [Hb1 Hb2] Hfit.
  unfold timespec_add, NS_IN_SEC in *.
  rewrite !Z.rem_small, !Z.quot_small by lia.
  rewrite to_uint32_small by lia.
  unfold LONG_MAX in Hfit.
  destruct (Z.leb_spec 1000000000 (tv_nsec a + tv_nsec b)) as [Hc | Hc].
  - assert (Hq : (tv_nsec a + tv_nsec b) / 1000000000 = 1).
    { symmetry. apply (Z.div_unique _ _ 1 (tv_nsec a + tv_nsec b - 1000000000)); lia. }
    assert (Hr : (tv_nsec a + tv_nsec b) mod 1000000000 = tv_nsec a + tv_nsec b - 1000000000).
    { symmetry. apply (Z.mod_unique _ _ 1); lia. }
    rewrite Hq, Hr, to_long_small by (unfold LONG_MIN, LONG_MAX; lia).
    f_equal; lia.
  - rewrite Z.div_small, Z.mod_small by lia.
    rewrite to_long_small by (unfold LONG_MIN, LONG_MAX; lia).
    f_equal; lia.
Qed.

Lemma timespec_add_keeps_normalized a b :
  normalized a -> normalized b -> tv_sec a + tv_sec b + 1 <= LONG_MAX ->
  normalized (timespec_add a b).
Proof.
  intros Ha Hb Hfit. rewrite timespec_add_normalized by assumption.
  destruct Ha as [Ha1 Ha2], Hb as [Hb1 Hb2]. unfold normalized, NS_IN_SEC in *.
  destruct (Z.leb_spec 1000000000 (tv_nsec a + tv_nsec b)); cbn; lia.
Qed.

Lemma timespec_add_to_ns a b :
  normalized a -> normalized b -> tv_sec a + tv_sec b + 1 <= LONG_MAX ->
  to_ns (timespec_add a b) = to_ns a + to_ns b.
Proof.
  intros Ha Hb Hfit. rewrite timespec_add_normalized by assumption.
  unfold to_ns, NS_IN_SEC.
  destruct (Z.leb_spec 1000000000 (tv_nsec a + tv_nsec b)); cbn; lia.
Qed.

Lemma timespec_add_sec_bound a b :
  normalized a -> normalized b -> tv_sec a + tv_sec b + 1 <= LONG_MAX ->
  tv_sec a + tv_sec b <= tv_sec (timespec_add a b) <= tv_sec a + tv_sec b + 1.
Proof.
  intros Ha Hb Hfit. rewrite timespec_add_normalized by assumption.
  unfold NS_IN_SEC.
  destruct (Z.leb_spec 1000000000 (tv_nsec a + tv_nsec b)); cbn; lia.
Qed.

(** A normalized value is determined by the instant it denotes. *)
Lemma normalized_to_ns_inj a b :
  normalized a -> normalized b -> to_ns a = to_ns b -> a = b.
Proof.
  destruct a as [sa na], b as [sb nb].
  unfold normalized, to_ns, NS_IN_SEC. cbn. intros Ha Hb H.
  assert (sa = sb) by nia. subst sb.
  f_equal. lia.
Qed.

End TimespecFacts.

Section TimespecRepeated.
Import CInt Timespec.

Lemma sec_budget_shift s l : sec_budget s l = s + sec_budget 0 l.
Proof.
  unfold sec_budget. revert s.
  induction l as [| t l IH]; intros s; cbn [fold_left].
  - lia.
  - rewrite (IH (s + tv_sec t + 1)), (IH (0 + tv_sec t + 1)). lia.
Qed.

Lemma sec_budget_cons s t l :
  sec_budget s (t :: l) = sec_budget (s + tv_sec t + 1) l.
Proof. reflexivity. Qed.

Lemma sec_budget_nonneg l : Forall normalized l -> 0 <= sec_budget 0 l.
Proof.
  induction 1 as [| t l [Ht _] _ IH].
  - cbn. lia.
  - rewrite sec_budget_cons, sec_budget_shift. lia.
Qed.

(** Any number of additions: the result stays normalized and denotes the
    exact sum. *)
Lemma fold_timespec_add l : forall a,
  normalized a -> Forall normalized l -> sec_budget (tv_sec a) l <= LONG_MAX ->
  normalized (fold_left timespec_add l a) /\
  to_ns (fold_left timespec_add l a) = to_ns a + total_ns l.
Proof.
  induction l as [| t l IH]; intros a Ha Hl Hfit.
  - cbn. split; [exact Ha | lia].
  - inversion Hl as [| ? ? Ht Hl']; subst.
    rewrite sec_budget_cons, sec_budget_shift in Hfit.
    pose proof (sec_budget_nonneg l Hl') as Hnn.
    assert (Hstep : tv_sec a + tv_sec t + 1 <= LONG_MAX) by lia.
    pose proof (timespec_add_sec_bound a t Ha Ht Hstep) as Hb.
    destruct (IH (timespec_add a t)) as [Hn Hs].
    + apply timespec_add_keeps_normalized; assumption.
    + exact Hl'.
    + rewrite sec_budget_shift. lia.
    + cbn [fold_left total_ns fold_right]. split; [exact Hn |].
      rewrite Hs, timespec_add_to_ns by assumption.
      fold (total_ns l). lia.
Qed.

Lemma timespec_add_assoc a b c :
  normalized a -> normalized b -> normalized c ->
  tv_sec a + tv_sec b + tv_sec c + 2 <= LONG_MAX ->
  timespec_add (timespec_add a b) c = timespec_add a (timespec_add b c).
Proof.
  intros Ha Hb Hc Hfit.
  assert (Hc0 : 0 <= tv_sec c) by apply Hc.
  assert (Ha0 : 0 <= tv_sec a) by apply Ha.
  assert (Hab : tv_sec a + tv_sec b + 1 <= LONG_MAX) by lia.
  assert (Hbc : tv_sec b + tv_sec c + 1 <= LONG_MAX) by lia.
  pose proof (timespec_add_sec_bound a b Ha Hb Hab) as B1.
  pose proof (timespec_add_sec_bound b c Hb Hc Hbc) as B2.
  pose proof (timespec_add_keeps_normalized a b Ha Hb Hab) as N1.
  pose proof (timespec_add_keeps_normalized b c Hb Hc Hbc) as N2.
  apply normalized_to_ns_inj.
  - apply timespec_add_keeps_normalized; [assumption .. | lia].
  - apply timespec_add_keeps_normalized; [assumption .. | lia].
  - rewrite !timespec_add_to_ns by (assumption || lia). lia.
Qed.

(** The [k]-th deadline of a fixed cadence. *)
Lemma add_times_exact k : forall origin step,
  normalized origin -> normalized step ->
  tv_sec origin + Z.of_nat k * (tv_sec step + 1) <= LONG_MAX ->
  normalized (add_times k origin step) /\
  tv_sec (add_times k origin step) <= tv_sec origin + Z.of_nat k * (tv_sec step + 1) /\
  to_ns (add_times k origin step) = to_ns origin + Z.of_nat k * to_ns step.
Proof.
  induction k as [| k IH]; intros origin step Ho Hs Hfit.
  - cbn. repeat split; try apply Ho; lia.
  - assert (Hs0 : 0 <= tv_sec step) by apply Hs.
    destruct (IH origin step Ho Hs) as (Hn & Hb & He); [lia |].
    cbn [add_times].
    assert (Hstep : tv_sec (add_times k origin step) + tv_sec step + 1 <= LONG_MAX) by lia.
    pose proof (timespec_add_sec_bound _ _ Hn Hs Hstep) as B.
    repeat split.
    + apply (timespec_add_keeps_normalized _ _ Hn Hs Hstep).
    + apply (timespec_add_keeps_normalized _ _ Hn Hs Hstep).
    + apply (timespec_add_keeps_normalized _ _ Hn Hs Hstep).
    + lia.
    + rewrite timespec_add_to_ns, He by assumption. lia.
Qed.

End TimespecRepeated.

(** C3.  For time values [a] and [b] with non-negative components and
    nanoseconds below 1,000,000,000 (and a sum that a [time_t] can hold),
    [timespec_add a b] carries exactly one second when the nanoseconds add
    up to 1,000,000,000 or more and none otherwise, leaves a nanosecond
    remainder in [0, 1,000,000,000), denotes exactly the sum of the two
    instants, is associative, and any further run of additions still
    yields the exact total number of nanoseconds. *)
Theorem timespec_add_carry_no_drift (a b : Timespec.timespec) :
  Timespec.normalized a -> Timespec.normalized b ->
  Timespec.tv_sec a + Timespec.tv_sec b + 1 <= CInt.LONG_MAX ->
  let r := Timespec.timespec_add a b in
  (Timespec.NS_IN_SEC <= Timespec.tv_nsec a + Timespec.tv_nsec b ->
     Timespec.tv_sec r = Timespec.tv_sec a + Timespec.tv_sec b + 1 /\
     Timespec.tv_nsec r = Timespec.tv_nsec a + Timespec.tv_nsec b - Timespec.NS_IN_SEC) /\
  (Timespec.tv_nsec a + Timespec.tv_nsec b < Timespec.NS_IN_SEC ->
     Timespec.tv_sec r = Timespec.tv_sec a + Timespec.tv_sec b /\
     Timespec.tv_nsec r = Timespec.tv_nsec a + Timespec.tv_nsec b) /\
  0 <= Timespec.tv_nsec r < Timespec.NS_IN_SEC /\
  Timespec.to_ns r = Timespec.to_ns a + Timespec.to_ns b /\
  (forall c, Timespec.normalized c ->
     Timespec.tv_sec a + Timespec.tv_sec b + Timespec.tv_sec c + 2 <= CInt.LONG_MAX ->
     Timespec.timespec_add r c = Timespec.timespec_add a (Timespec.timespec_add b c)) /\
  (forall l, Forall Timespec.normalized l ->
     Timespec.sec_budget (Timespec.tv_sec a + Timespec.tv_sec b + 1) l <= CInt.LONG_MAX ->
     0 <= Timespec.tv_nsec (fold_left Timespec.timespec_add l r) < Timespec.NS_IN_SEC /\
     Timespec.to_ns (fold_left Timespec.timespec_add l r)
       = Timespec.to_ns a + Timespec.to_ns b + Timespec.total_ns l).
Proof.
  intros Ha Hb Hfit r.
  pose proof (timespec_add_normalized a b Ha Hb Hfit) as E.
  pose proof (timespec_add_keeps_normalized a b Ha Hb Hfit) as N.
  pose proof (timespec_add_to_ns a b Ha Hb Hfit) as T.
  pose proof (timespec_add_sec_bound a b Ha Hb Hfit) as B.
  fold r in E, N, T, B.
  split; [| split; [| split; [| split; [| split]]]].
  - intros Hc. rewrite E.
    destruct (Z.leb_spec Timespec.NS_IN_SEC (Timespec.tv_nsec a + Timespec.tv_nsec b));
      [cbn; split; reflexivity | lia].
  - intros Hc. rewrite E.
    destruct (Z.leb_spec Timespec.NS_IN_SEC (Timespec.tv_nsec a + Timespec.tv_nsec b));
      [lia | cbn; split; reflexivity].
  - apply timespec_add_nsec_range.
  - exact T.
  - intros c Hc Hfit3. apply timespec_add_assoc; assumption.
  - intros l Hl Hbud.
    destruct (fold_timespec_add l r N Hl) as [Hn Hs].
    + rewrite sec_budget_shift in Hbud |- *. lia.
    + split; [apply Hn | rewrite Hs, T; reflexivity].
Qed.

(** A carry at work: 1.7 s + 2.6 s = 4.3 s, then three more additions. *)
Lemma timespec_add_carry_no_drift_witness :
  let a := Timespec.mkTimespec 1 700000000 in
  let b := Timespec.mkTimespec 2 600000000 in
  Timespec.tv_sec (Timespec.timespec_add a b) = 1 + 2 + 1 /\
  Timespec.tv_nsec (Timespec.timespec_add a b) = 700000000 + 600000000 - Timespec.NS_IN_SEC /\
  Timespec.to_ns (fold_left Timespec.timespec_add [b; b; b] (Timespec.timespec_add a b))
    = Timespec.to_ns a + Timespec.to_ns b + Timespec.total_ns [b; b; b].
Proof.
  intros a b.
  assert (Ha : Timespec.normalized a) by (apply normalizedb_spec; reflexivity).
  assert (Hb : Timespec.normalized b) by (apply normalizedb_spec; reflexivity).
  assert (Hfit : Timespec.tv_sec a + Timespec.tv_sec b + 1 <= CInt.LONG_MAX)
    by (vm_compute; discriminate).
  destruct (timespec_add_carry_no_drift a b Ha Hb Hfit) as (Hcarry & _ & _ & _ & _ & Hfold).
  destruct Hcarry as [Hs Hn]; [vm_compute; discriminate |].
  split; [exact Hs | split; [exact Hn |]].
  apply (Hfold [b; b; b]).
  - repeat constructor; apply normalizedb_spec; reflexivity.
  - vm_compute; discriminate.
Defined.

(** ** Termination statuses *)

Section StatusFacts.
Import CInt WaitStatus.

(** A property checked on every integer of a finite range. *)
Lemma Z_range_forallb (P : Z -> bool) (lo : Z) (n : nat) :
  forallb P (map (fun k => lo + Z.of_nat k) (seq 0 n)) = true ->
  forall z, lo <= z < lo + Z.of_nat n -> P z = true.
Proof.
  intros H z Hz. rewrite forallb_forall in H. apply H.
  apply in_map_iff. exists (Z.to_nat (z - lo)). split.
  - lia.
  - apply in_seq. lia.
Qed.

(** The macros decode a normal exit. *)
Lemma normal_exit_decoded code :
  well_formed (NormalExit code) ->
  let s := encode (NormalExit code) in
  0 <= s /\ WEXITSTATUS s = code /\ WTERMSIG s = 0
  /\ WIFEXITED s = true /\ WIFSIGNALED s = false.
Proof.
  intros Hwf s. cbn in Hwf.
  assert (H : exit_status_ok code = true).
  { apply (Z_range_forallb exit_status_ok 0 256); [vm_compute; reflexivity | lia]. }
  unfold exit_status_ok in H. fold s in H.
  rewrite !andb_true_iff, negb_true_iff, Z.leb_le, !Z.eqb_eq in H. tauto.
Qed.

(** The macros decode a death by signal; the exit-status byte is 0. *)
Lemma signal_death_decoded sig core :
  well_formed (Signaled sig core) ->
  let s := encode (Signaled sig core) in
  0 <= s /\ WEXITSTATUS s = 0 /\ WTERMSIG s = sig
  /\ WIFEXITED s = false /\ WIFSIGNALED s = true.
Proof.
  intros Hwf s. cbn in Hwf.
  assert (H : signal_status_ok core sig = true).
  { apply (Z_range_forallb (signal_status_ok core) 1 64);
      [destruct core; vm_compute; reflexivity | lia]. }
  unfold signal_status_ok in H. fold s in H.
  rewrite !andb_true_iff, negb_true_iff, Z.leb_le, !Z.eqb_eq in H. tauto.
Qed.

End StatusFacts.

(** ** The checks on the child's status *)

Section CheckFacts.
Import CInt WaitStatus Globals Events Loop.
Variable g : globals.

(** After a normal exit only the two stop flags matter. *)
Lemma check_status_normal_exit code :
  well_formed (NormalExit code) ->
  check_status g (encode (NormalExit code)) =
    if negb (code =? 0) && exit_on_error g then Some (StopOnError, code)
    else if (code =? 0) && exit_on_success g then Some (StopOnSuccess, 0)
    else None.
Proof.
  intros Hwf.
  destruct (normal_exit_decoded code Hwf) as (H0 & He & Ht & _ & Hs).
  unfold check_status. rewrite He, Hs.
  destruct (Z.ltb_spec (encode (NormalExit code)) 0); [lia |].
  destruct (negb (code =? 0) && exit_on_error g); [reflexivity |].
  destruct ((code =? 0) && exit_on_success g); reflexivity.
Qed.

(** After a death by signal the exit-status byte reads 0: the
    stop-on-error check never fires, the stop-on-success check fires when
    its flag is set, and the interrupt check is reached only otherwise. *)
Lemma check_status_signal_death sig core :
  well_formed (Signaled sig core) ->
  check_status g (encode (Signaled sig core)) =
    if exit_on_success g then Some (StopOnSuccess, 0)
    else if is_interrupt (Signaled sig core) then Some (ChildInterrupted, 0)
    else None.
Proof.
  intros Hwf.
  destruct (signal_death_decoded sig core Hwf) as (H0 & He & Ht & _ & Hs).
  unfold check_status. rewrite He, Hs, Ht.
  destruct (Z.ltb_spec (encode (Signaled sig core)) 0); [lia |].
  cbn [is_interrupt negb andb Z.eqb].
  destruct (exit_on_success g); [reflexivity |].
  destruct ((sig =? SIGINT) || (sig =? SIGQUIT)); reflexivity.
Qed.

End CheckFacts.

(** ** The inner loops: waiting for the child, sleeping *)

Section InnerLoops.
Import CInt WaitStatus Globals Events Loop.
Variable g : globals.
Variable argv : list string.
Variable env : environment.

(** More fuel does not change what a completed [wait] loop returned. *)
Lemma wait_loop_more_fuel n fuel : forall j o calls extra,
  wait_loop env n fuel j = (o, calls) -> o <> Blocked ->
  wait_loop env n (fuel + extra) j = (o, calls).
Proof.
  induction fuel as [| fuel IH]; intros j o calls extra H Hnb; cbn in H |- *.
  - inversion H; subst. congruence.
  - destruct (w_ret (wait_ret env n j) =? -1); [| exact H].
    destruct (negb (w_errno (wait_ret env n j) =? EINTR)); [exact H |].
    apply IH; assumption.
Qed.

Lemma sleep_loop_more_fuel n fuel : forall j k extra,
  sleep_loop env n fuel j = Some k ->
  sleep_loop env n (fuel + extra) j = Some k.
Proof.
  induction fuel as [| fuel IH]; intros j k extra H; cbn in H |- *.
  - discriminate.
  - destruct (negb (sleep_ret env n j =? 0)); [apply IH |]; exact H.
Qed.

(** A [wait] interrupted [k] times and then answered is called [k + 1]
    times and yields the status of the answer. *)
Lemma wait_loop_retries_interruptions n k : forall j fuel,
  (forall i, (i < k)%nat ->
     w_ret (wait_ret env n (j + i)) = -1 /\ w_errno (wait_ret env n (j + i)) = EINTR) ->
  w_ret (wait_ret env n (j + k)) <> -1 ->
  (k < fuel)%nat ->
  wait_loop env n fuel j = (Returned (w_status (wait_ret env n (j + k))), S (j + k)).
Proof.
  induction k as [| k IH]; intros j fuel Hintr Hok Hfuel;
    (destruct fuel as [| fuel]; [lia |]); cbn [wait_loop].
  - rewrite Nat.add_0_r in *.
    destruct (Z.eqb_spec (w_ret (wait_ret env n j)) (-1)); [contradiction | reflexivity].
  - destruct (Hintr 0%nat) as [Hr He]; [lia |].
    rewrite Nat.add_0_r in Hr, He. rewrite Hr, He. cbn.
    replace (j + S k)%nat with (S j + k)%nat in * by lia.
    apply IH; [| exact Hok | lia].
    intros i Hi. replace (S j + i)%nat with (j + S i)%nat by lia.
    apply Hintr. lia.
Qed.

(** The first failure of [wait] that is not an interruption is fatal, and
    [wait] is not called again: the loop has made just the calls up to
    the failing one. *)
Lemma wait_loop_dies_on_error n k : forall j fuel,
  (forall i, (i < k)%nat ->
     w_ret (wait_ret env n (j + i)) = -1 /\ w_errno (wait_ret env n (j + i)) = EINTR) ->
  w_ret (wait_ret env n (j + k)) = -1 ->
  w_errno (wait_ret env n (j + k)) <> EINTR ->
  (k < fuel)%nat ->
  wait_loop env n fuel j = (WaitDied, S (j + k)).
Proof.
  induction k as [| k IH]; intros j fuel Hintr Hfail Herr Hfuel;
    (destruct fuel as [| fuel]; [lia |]); cbn [wait_loop].
  - rewrite Nat.add_0_r in *. rewrite Hfail. cbn.
    destruct (Z.eqb_spec (w_errno (wait_ret env n j)) EINTR); [contradiction | reflexivity].
  - destruct (Hintr 0%nat) as [Hr He]; [lia |].
    rewrite Nat.add_0_r in Hr, He. rewrite Hr, He. cbn.
    replace (j + S k)%nat with (S j + k)%nat in * by lia.
    apply IH; [| exact Hfail | exact Herr | lia].
    intros i Hi. replace (S j + i)%nat with (j + S i)%nat by lia.
    apply Hintr. lia.
Qed.

(** A sleep whose first [k] calls fail, for whatever reason, and whose
    next call succeeds, completes with that call. *)
Lemma sleep_loop_retries n k : forall j fuel,
  (forall i, (i < k)%nat -> sleep_ret env n (j + i) <> 0) ->
  sleep_ret env n (j + k) = 0 ->
  (k < fuel)%nat ->
  sleep_loop env n fuel j = Some (S (j + k)).
Proof.
  induction k as [| k IH]; intros j fuel Hfail Hok Hfuel;
    (destruct fuel as [| fuel]; [lia |]); cbn [sleep_loop].
  - rewrite Nat.add_0_r in *. rewrite Hok. reflexivity.
  - pose proof (Hfail 0%nat ltac:(lia)) as H0. rewrite Nat.add_0_r in H0.
    destruct (Z.eqb_spec (sleep_ret env n j) 0); [contradiction |]. cbn.
    replace (j + S k)%nat with (S j + k)%nat in * by lia.
    apply IH; [| exact Hok | lia].
    intros i Hi. replace (S j + i)%nat with (j + S i)%nat by lia.
    apply Hfail. lia.
Qed.

(** A sleep whose every call fails never completes and never ends the
    process, whatever the error is. *)
Lemma sleep_loop_never_gives_up n fuel : forall j,
  (forall i, sleep_ret env n i <> 0) ->
  sleep_loop env n fuel j = None.
Proof.
  induction fuel as [| fuel IH]; intros j Hfail; cbn.
  - reflexivity.
  - destruct (Z.eqb_spec (sleep_ret env n j) 0) as [E | _].
    + elim (Hfail j E).
    + cbn. apply IH. exact Hfail.
Qed.

End InnerLoops.

(** ** One turn of the loop, and the loop *)

Section LoopFacts.
Import CInt Timespec WaitStatus Globals Events Loop.
Variable g : globals.
Variable argv : list string.
Variable env : environment.

Lemma run_command_more_fuel fuel fuel' n o :
  run_command g env fuel n = o -> o <> Blocked -> (fuel <= fuel')%nat ->
  run_command g env fuel' n = o.
Proof.
  unfold run_command. intros H Hnb Hle.
  destruct (use_exec g); [| exact H].
  destruct (wait_loop env n fuel 0) as [o' calls] eqn:E. cbn in H. subst o'.
  replace fuel' with (fuel + (fuel' - fuel))%nat by lia.
  rewrite (wait_loop_more_fuel env n fuel 0 o calls _ E Hnb). reflexivity.
Qed.

Lemma sleep_loop_enough_fuel fuel fuel' n k :
  sleep_loop env n fuel 0 = Some k -> (fuel <= fuel')%nat ->
  sleep_loop env n fuel' 0 = Some k.
Proof.
  intros H Hle. replace fuel' with (fuel + (fuel' - fuel))%nat by lia.
  apply sleep_loop_more_fuel. exact H.
Qed.

(** The events of a launch are counted once per turn. *)
Lemma launch_count_cons e log :
  launch_count (e :: log) = ((if is_launch e then 1 else 0) + launch_count log)%nat.
Proof. unfold launch_count. cbn. destruct (is_launch e); reflexivity. Qed.

Lemma is_launch_launch_event : is_launch (launch_event g argv) = true.
Proof. unfold launch_event. destruct (use_exec g); reflexivity. Qed.

(** What a pause leaves untouched, and that it ends when the clock works
    and the sleep completes. *)
Lemma pause_completes fuel n st k :
  clock_works env -> sleep_loop env n fuel 0 = Some k ->
  exists st', pause g env fuel n st = Next st'
              /\ ls_times st' = ls_times st
              /\ ls_launches st' = ls_launches st
              /\ launch_count (ls_log st') = launch_count (ls_log st).
Proof.
  intros Hclock Hsleep. unfold pause.
  destruct (negb (tv_sec (interval_ts g) =? 0) || negb (tv_nsec (interval_ts g) =? 0)).
  - destruct (negb (precise g)).
    + specialize (Hclock (ls_clocks st)).
      destruct (clock_ret env (ls_clocks st)) as [err now]. cbn in Hclock.
      destruct (Z.ltb_spec err 0); [lia |].
      rewrite Hsleep. eexists. split; [reflexivity |]. cbn. auto.
    + rewrite Hsleep. eexists. split; [reflexivity |]. cbn. auto.
  - exists st. auto.
Qed.

(** A finished or continuing turn is not changed by more fuel. *)
Lemma pause_more_fuel fuel fuel' n st r :
  pause g env fuel n st = r -> (forall st', r <> Halt Running st') ->
  (fuel <= fuel')%nat -> pause g env fuel' n st = r.
Proof.
  unfold pause. intros H Hr Hle.
  destruct (negb (tv_sec (interval_ts g) =? 0) || negb (tv_nsec (interval_ts g) =? 0));
    [| exact H].
  destruct (if negb (precise g)
            then let '(err, now) := clock_ret env (ls_clocks st) in
                 if err <? 0 then None
                 else Some (set_next_exec (timespec_add now (interval_ts g)) (count_clock st))
            else Some st) as [st1 |]; [| exact H].
  destruct (sleep_loop env n fuel 0) as [k |] eqn:E.
  - rewrite (sleep_loop_enough_fuel _ _ _ _ E Hle). exact H.
  - subst r. elim (Hr _ eq_refl).
Qed.

Lemma iteration_more_fuel fuel fuel' st r :
  iteration g argv env fuel st = r -> (forall st', r <> Halt Running st') ->
  (fuel <= fuel')%nat -> iteration g argv env fuel' st = r.
Proof.
  unfold iteration. intros H Hr Hle.
  destruct (run_command g env fuel (ls_launches st)) as [ret | |] eqn:E.
  - rewrite (run_command_more_fuel _ _ _ _ E ltac:(discriminate) Hle).
    destruct (check_status g ret) as [[why code] |]; [exact H |].
    destruct (count_down (ls_times _)) as [t last].
    destruct last; [exact H |].
    eapply pause_more_fuel; eassumption.
  - rewrite (run_command_more_fuel _ _ _ _ E ltac:(discriminate) Hle). exact H.
  - subst r. elim (Hr _ eq_refl).
Qed.

(** Once the process has exited, more fuel changes nothing. *)
Lemma main_loop_more_fuel fuel : forall fuel' st why code st',
  main_loop g argv env fuel st = (Exited why code, st') -> (fuel <= fuel')%nat ->
  main_loop g argv env fuel' st = (Exited why code, st').
Proof.
  induction fuel as [| fuel IH]; intros fuel' st why code st' H Hle.
  - cbn in H. discriminate.
  - destruct fuel' as [| fuel']; [lia |]. cbn [main_loop] in H |- *.
    destruct (iteration g argv env fuel st) as [st1 | s st1] eqn:E.
    + rewrite (iteration_more_fuel fuel fuel' st _ E ltac:(discriminate) ltac:(lia)).
      apply IH; [exact H | lia].
    + inversion H; subst.
      rewrite (iteration_more_fuel fuel fuel' st _ E ltac:(discriminate) ltac:(lia)).
      reflexivity.
Qed.

End LoopFacts.

(** ** A finite repeat count *)

Section CountedRuns.
Import CInt Timespec WaitStatus Globals Events Loop.
Variable g : globals.
Variable argv : list string.
Variable env : environment.
Variable code : nat -> Z.

Hypothesis no_stop_on_error : exit_on_error g = false.
Hypothesis no_stop_on_success : exit_on_success g = false.
Hypothesis clock_ok : clock_works env.
Hypothesis sleeps_end : forall n, sleep_completes env n.

(** With the stop flags unset a normal exit passes every check. *)
Lemma normal_exit_passes c :
  well_formed (NormalExit c) -> check_status g (encode (NormalExit c)) = None.
Proof.
  intros Hwf. rewrite check_status_normal_exit by exact Hwf.
  rewrite no_stop_on_error, no_stop_on_success, !andb_false_r. reflexivity.
Qed.

(** From a state with [t + 1] runs left, the loop launches the command
    [t + 1] more times and leaves through the count. *)
Lemma counted_runs t : forall st,
  ls_times st = Z.of_nat (S t) ->
  (forall i, (i <= t)%nat ->
     well_formed (NormalExit (code (ls_launches st + i))) /\
     child_returns g env (ls_launches st + i)
                   (encode (NormalExit (code (ls_launches st + i))))) ->
  exists fuel st',
    main_loop g argv env fuel st
      = (Exited CountExhausted (code (ls_launches st + t)), st')
    /\ ls_launches st' = (ls_launches st + S t)%nat
    /\ launch_count (ls_log st') = (launch_count (ls_log st) + S t)%nat.
Proof.
  induction t as [| t IH]; intros st Htimes Hkids.
  - destruct (Hkids 0%nat (Nat.le_refl _)) as [Hwf [f1 Hrun]].
    rewrite Nat.add_0_r in *.
    destruct (normal_exit_decoded _ Hwf) as (_ & Hcode & _).
    eexists (S f1), _. split; [| split].
    + cbn [main_loop]. unfold iteration. rewrite Hrun, (normal_exit_passes _ Hwf).
      cbn [count_launch log_event ls_times]. unfold count_down.
      replace (ls_times (if precise g then _ else st)) with (Z.of_nat 1)
        by (destruct (precise g); symmetry; exact Htimes).
      rewrite Hcode. reflexivity.
    + cbn. destruct (precise g); cbn; lia.
    + cbn [ls_log set_ls_times count_launch log_event].
      rewrite launch_count_cons, is_launch_launch_event.
      destruct (precise g); cbn [ls_log set_next_exec]; lia.
  - destruct (Hkids 0%nat ltac:(lia)) as [Hwf [f1 Hrun]].
    rewrite Nat.add_0_r in Hwf, Hrun.
    destruct (sleeps_end (ls_launches st)) as (f2 & k & Hsleep).
    set (st1 := if precise g
                then set_next_exec (timespec_add (ls_next_exec st) (interval_ts g)) st
                else st).
    set (st3 := set_ls_times (Z.of_nat (S t)) (count_launch (log_event (launch_event g argv) st1))).
    destruct (pause_completes g env f2 (ls_launches st) st3 k clock_ok Hsleep)
      as (st4 & Hpause & Ht4 & Hl4 & Hc4).
    assert (Hl3 : ls_launches st3 = S (ls_launches st))
      by (unfold st3, st1; destruct (precise g); reflexivity).
    assert (Hc3 : launch_count (ls_log st3) = S (launch_count (ls_log st))).
    { unfold st3. cbn [ls_log set_ls_times count_launch log_event].
      rewrite launch_count_cons, is_launch_launch_event.
      unfold st1. destruct (precise g); reflexivity. }
    assert (Hiter : iteration g argv env (f1 + f2) st = Next st4).
    { unfold iteration.
      rewrite (run_command_more_fuel g env f1 (f1 + f2) _ _ Hrun) by (discriminate || lia).
      rewrite (normal_exit_passes _ Hwf). fold st1.
      cbn [count_launch log_event ls_times]. unfold count_down.
      replace (ls_times st1) with (Z.of_nat (S (S t)))
        by (unfold st1; destruct (precise g); symmetry; exact Htimes).
      replace (0 <? Z.of_nat (S (S t))) with true by (symmetry; apply Z.ltb_lt; lia).
      replace (Z.of_nat (S (S t)) - 1) with (Z.of_nat (S t)) by lia.
      replace (Z.of_nat (S t) =? 0) with false by (symmetry; apply Z.eqb_neq; lia).
      fold st3.
      apply (pause_more_fuel g env f2); [exact Hpause | discriminate | lia]. }
    destruct (IH st4) as (f3 & st' & Hrest & Hl' & Hc').
    + rewrite Ht4. reflexivity.
    + intros i Hi. rewrite Hl4, Hl3.
      replace (S (ls_launches st) + i)%nat with (ls_launches st + S i)%nat by lia.
      apply Hkids. lia.
    + exists (S (f1 + f2 + f3)), st'. split; [| split].
      * cbn [main_loop].
        rewrite (iteration_more_fuel g argv env (f1 + f2) (f1 + f2 + f3) st _ Hiter)
          by (discriminate || lia).
        rewrite (main_loop_more_fuel g argv env f3 (f1 + f2 + f3) st4 _ _ _ Hrest)
          by lia.
        rewrite Hl4, Hl3. f_equal. f_equal. f_equal. lia.
      * rewrite Hl', Hl4, Hl3. lia.
      * rewrite Hc', Hc4, Hc3. lia.
Qed.

End CountedRuns.

(** With a repeat count [N >= 1] in [times], the stop-on-error and
    stop-on-success flags unset, and every child handing back the status
    of a normal exit (in an environment whose clock works and whose sleeps
    come to an end), the loop launches [N] times and the process exits,
    through the repeat-count check, with the exit code of the [N]-th
    launch.  The result is reached with some amount of fuel and stays the
    same with any more. *)
Lemma run_loop_counted
  (g : Globals.globals) (argv : list string) (env : Loop.environment)
  (out : list Events.event) (code : nat -> Z) (N : nat) :
  Globals.times g = Z.of_nat N -> (1 <= N)%nat ->
  Globals.exit_on_error g = false -> Globals.exit_on_success g = false ->
  (forall n, (n < N)%nat ->
     WaitStatus.well_formed (WaitStatus.NormalExit (code n)) /\
     Loop.child_returns g env n (WaitStatus.encode (WaitStatus.NormalExit (code n)))) ->
  Loop.clock_works env -> (forall n, Loop.sleep_completes env n) ->
  exists fuel st,
    (forall fuel', (fuel <= fuel')%nat ->
       Loop.run_loop g argv env fuel' out
         = (Loop.Exited Loop.CountExhausted (code (N - 1)%nat), st))
    /\ Loop.ls_launches st = N
    /\ Events.launch_count (Loop.ls_log st) = (Events.launch_count out + N)%nat.
Proof.
  intros Htimes HN Herr Hsucc Hkids Hclock Hsleep.
  destruct N as [| t]; [lia |].
  replace (S t - 1)%nat with t by lia.
  unfold Loop.run_loop, Loop.enter.
  set (st0 := Loop.mkState (Globals.times g) _ 0 0 _).
  assert (Hcount0 : Events.launch_count (Loop.ls_log st0) = Events.launch_count out).
  { unfold st0. cbn [Loop.ls_log]. destruct (Globals.debug g); [| reflexivity].
    rewrite launch_count_cons. reflexivity. }
  assert (Hgo : forall st, Loop.ls_times st = Z.of_nat (S t) -> Loop.ls_launches st = 0%nat ->
                Events.launch_count (Loop.ls_log st) = Events.launch_count out ->
                exists fuel st',
                  (forall fuel', (fuel <= fuel')%nat ->
                     Loop.main_loop g argv env fuel' st
                       = (Loop.Exited Loop.CountExhausted (code t), st'))
                  /\ Loop.ls_launches st' = S t
                  /\ Events.launch_count (Loop.ls_log st') = (Events.launch_count out + S t)%nat).
  { intros st Ht Hl Hc.
    destruct (counted_runs g argv env code Herr Hsucc Hclock Hsleep t st Ht)
      as (fuel & st' & Hrun & Hl' & Hc').
    - intros i Hi. rewrite Hl. apply Hkids. lia.
    - exists fuel, st'. rewrite Hl in Hrun, Hl'. rewrite Hc in Hc'. cbn in Hrun.
      split; [| split; assumption].
      intros fuel' Hle. eapply main_loop_more_fuel; eassumption. }
  destruct (Globals.precise g).
  - specialize (Hclock 0%nat). destruct (Loop.clock_ret env 0) as [err now].
    cbn in Hclock. destruct (Z.ltb_spec err 0); [lia |].
    apply Hgo; [exact Htimes | reflexivity | exact Hcount0].
  - apply Hgo; [exact Htimes | reflexivity | exact Hcount0].
Qed.

(** ** A repeat count that is not positive *)

Section UncountedRuns.
Import CInt Timespec WaitStatus Globals Events Loop.

(** A turn reads the configuration through every variable but [times],
    and [argv] through the launch only. *)
Lemma iteration_ext g g' argv argv' env fuel st :
  interval_ts g = interval_ts g' -> precise g = precise g' ->
  exit_on_error g = exit_on_error g' -> exit_on_success g = exit_on_success g' ->
  use_exec g = use_exec g' -> launch_event g argv = launch_event g' argv' ->
  iteration g argv env fuel st = iteration g' argv' env fuel st.
Proof.
  intros Hi Hp He Hs Hx Hl.
  unfold iteration, run_command, check_status, pause.
  rewrite Hi, Hp, He, Hs, Hx, Hl. reflexivity.
Qed.

Lemma main_loop_ext g g' argv argv' env fuel : forall st,
  interval_ts g = interval_ts g' -> precise g = precise g' ->
  exit_on_error g = exit_on_error g' -> exit_on_success g = exit_on_success g' ->
  use_exec g = use_exec g' -> launch_event g argv = launch_event g' argv' ->
  main_loop g argv env fuel st = main_loop g' argv' env fuel st.
Proof.
  induction fuel as [| fuel IH]; intros st Hi Hp He Hs Hx Hl; cbn [main_loop].
  - reflexivity.
  - rewrite (iteration_ext g g' argv argv' env fuel st) by assumption.
    destruct (iteration g' argv' env fuel st); [apply IH; assumption | reflexivity].
Qed.

Variable g : globals.
Variable argv : list string.
Variable env : environment.

(** The pause does not look at the count. *)
Lemma pause_set_ls_times fuel n st t :
  pause g env fuel n (set_ls_times t st) =
    match pause g env fuel n st with
    | Next st' => Next (set_ls_times t st')
    | Halt s st' => Halt s (set_ls_times t st')
    end.
Proof.
  unfold pause.
  destruct (negb (tv_sec (interval_ts g) =? 0) || negb (tv_nsec (interval_ts g) =? 0));
    [| reflexivity].
  destruct (negb (precise g)).
  - cbn [ls_clocks set_ls_times].
    destruct (clock_ret env (ls_clocks st)) as [err now].
    destruct (err <? 0); [reflexivity |].
    destruct (sleep_loop env n fuel 0); reflexivity.
  - destruct (sleep_loop env n fuel 0); reflexivity.
Qed.

Lemma pause_keeps_times fuel n st :
  match pause g env fuel n st with
  | Next st' | Halt _ st' => ls_times st' = ls_times st
  end.
Proof.
  unfold pause.
  destruct (negb (tv_sec (interval_ts g) =? 0) || negb (tv_nsec (interval_ts g) =? 0));
    [| reflexivity].
  destruct (negb (precise g)).
  - destruct (clock_ret env (ls_clocks st)) as [err now].
    destruct (err <? 0); [reflexivity |].
    destruct (sleep_loop env n fuel 0); reflexivity.
  - destruct (sleep_loop env n fuel 0); reflexivity.
Qed.

Lemma pause_never_exhausts fuel n st :
  match pause g env fuel n st with
  | Next _ => True
  | Halt s _ => forall c, s <> Exited CountExhausted c
  end.
Proof.
  unfold pause.
  destruct (negb (tv_sec (interval_ts g) =? 0) || negb (tv_nsec (interval_ts g) =? 0));
    [| exact I].
  destruct (negb (precise g)).
  - destruct (clock_ret env (ls_clocks st)) as [err now].
    destruct (err <? 0); [discriminate |].
    destruct (sleep_loop env n fuel 0); [exact I | discriminate].
  - destruct (sleep_loop env n fuel 0); [exact I | discriminate].
Qed.

Lemma check_status_never_exhausts ret why c :
  check_status g ret = Some (why, c) -> why <> CountExhausted.
Proof.
  unfold check_status.
  repeat match goal with |- context [if ?b then _ else _] => destruct b end;
    intros H; inversion H; discriminate.
Qed.

(** With a count that is not positive, a turn does what it does with
    count 0, leaves the count as it is, and does not stop on it. *)
Lemma iteration_without_count fuel st :
  ls_times st <= 0 ->
  match iteration g argv env fuel st with
  | Next st' =>
      iteration g argv env fuel (set_ls_times 0 st) = Next (set_ls_times 0 st')
      /\ ls_times st' = ls_times st
  | Halt s st' =>
      iteration g argv env fuel (set_ls_times 0 st) = Halt s (set_ls_times 0 st')
      /\ ls_times st' = ls_times st
      /\ forall c, s <> Exited CountExhausted c
  end.
Proof.
  intros Hle. unfold iteration. cbn [ls_launches set_ls_times].
  destruct (run_command g env fuel (ls_launches st)) as [ret | |].
  - destruct (check_status g ret) as [[why c] |] eqn:Hcheck.
    + pose proof (check_status_never_exhausts _ _ _ Hcheck) as Hwhy.
      destruct why, (precise g); (try congruence);
        (split; [reflexivity | split; [reflexivity | intros c' E; inversion E; congruence]]).
    + unfold count_down.
      set (st2 := count_launch (log_event (launch_event g argv)
                    (if precise g then _ else st))).
      assert (Ht2 : ls_times st2 = ls_times st)
        by (unfold st2; destruct (precise g); reflexivity).
      set (st2' := count_launch (log_event (launch_event g argv)
                     (if precise g then _ else set_ls_times 0 st))).
      assert (E2 : st2' = set_ls_times 0 st2)
        by (unfold st2', st2; destruct (precise g); reflexivity).
      rewrite E2. cbn [ls_times set_ls_times]. rewrite Ht2.
      destruct (Z.ltb_spec 0 (ls_times st)); [lia |]. cbn [Z.ltb Z.compare].
      replace (set_ls_times (ls_times st) st2) with st2
        by (rewrite <- Ht2; destruct st2; reflexivity).
      replace (set_ls_times 0 (set_ls_times 0 st2)) with (set_ls_times 0 st2)
        by reflexivity.
      rewrite pause_set_ls_times.
      pose proof (pause_keeps_times fuel (ls_launches st) st2) as K.
      pose proof (pause_never_exhausts fuel (ls_launches st) st2) as X.
      destruct (pause g env fuel (ls_launches st) st2);
        rewrite K, Ht2; auto.
  - destruct (precise g);
      (split; [reflexivity | split; [reflexivity | discriminate]]).
  - destruct (precise g);
      (split; [reflexivity | split; [reflexivity | discriminate]]).
Qed.

Lemma main_loop_without_count fuel : forall st,
  ls_times st <= 0 ->
  main_loop g argv env fuel (set_ls_times 0 st)
    = (fst (main_loop g argv env fuel st),
       set_ls_times 0 (snd (main_loop g argv env fuel st)))
  /\ ls_times (snd (main_loop g argv env fuel st)) = ls_times st
  /\ forall c, fst (main_loop g argv env fuel st) <> Exited CountExhausted c.
Proof.
  induction fuel as [| fuel IH]; intros st Hle; cbn [main_loop].
  - cbn. repeat split. discriminate.
  - pose proof (iteration_without_count fuel st Hle) as H.
    destruct (iteration g argv env fuel st) as [st' | s st'].
    + destruct H as [E Ht]. rewrite E.
      destruct (IH st') as (A & B & C); [lia |].
      rewrite A, B. auto.
    + destruct H as (E & Ht & Hs). rewrite E. cbn. auto.
Qed.

(** The same for the whole run, from the entry into the loop on. *)
Lemma run_loop_without_count fuel out :
  times g <= 0 ->
  run_loop (set_times 0 g) argv env fuel out
    = (fst (run_loop g argv env fuel out),
       set_ls_times 0 (snd (run_loop g argv env fuel out)))
  /\ ls_times (snd (run_loop g argv env fuel out)) = times g
  /\ forall c, fst (run_loop g argv env fuel out) <> Exited CountExhausted c.
Proof.
  intros Hle. unfold run_loop, enter.
  cbn [precise debug times set_times].
  set (log0 := if debug g then EvStdout MsgDebugDump :: out else out).
  destruct (precise g).
  - destruct (clock_ret env 0) as [err now].
    destruct (err <? 0).
    + cbn. repeat split. discriminate.
    + rewrite (main_loop_ext (set_times 0 g) g argv argv env fuel) by reflexivity.
      apply (main_loop_without_count fuel
               (set_next_exec now (count_clock
                  (mkState (times g) {| tv_sec := 0; tv_nsec := 0 |} 0 0 log0)))).
      exact Hle.
  - rewrite (main_loop_ext (set_times 0 g) g argv argv env fuel) by reflexivity.
    apply (main_loop_without_count fuel
             (mkState (times g) {| tv_sec := 0; tv_nsec := 0 |} 0 0 log0)).
    exact Hle.
Qed.

End UncountedRuns.

(** ** Strings and the [command] buffer *)

Section BufferFacts.
Import CInt CString.

Lemma chars_app a b :
  list_ascii_of_string (a ++ b) = (list_ascii_of_string a ++ list_ascii_of_string b)%list.
Proof. induction a as [| c a IH]; cbn; [reflexivity | rewrite IH; reflexivity]. Qed.

Lemma chars_length s : List.length (list_ascii_of_string s) = String.length s.
Proof. induction s as [| c s IH]; cbn; [reflexivity | rewrite IH; reflexivity]. Qed.

Lemma string_app_assoc (a b c : string) : ((a ++ b) ++ c = a ++ (b ++ c))%string.
Proof. induction a as [| x a IH]; cbn; [reflexivity | rewrite IH; reflexivity]. Qed.

Lemma string_app_length (a b : string) :
  String.length (a ++ b) = (String.length a + String.length b)%nat.
Proof. induction a as [| x a IH]; cbn; [reflexivity | rewrite IH; reflexivity]. Qed.

(** Joining with single spaces: the first argument, then each other one
    with a space before it. *)
Lemma concat_spaced first rest :
  String.concat " " (first :: rest) = (first ++ spaced rest)%string.
Proof.
  revert first. induction rest as [| t rest IH]; intros first.
  - cbn. induction first as [| c f IHf]; cbn; [reflexivity | rewrite <- IHf; reflexivity].
  - change (String.concat " " (first :: t :: rest))
      with (first ++ " " ++ String.concat " " (t :: rest))%string.
    rewrite IH. reflexivity.
Qed.

Lemma nul_free_app a b : nul_free a -> nul_free b -> nul_free (a ++ b).
Proof.
  unfold nul_free. rewrite chars_app. intros Ha Hb Hin.
  apply in_app_or in Hin. tauto.
Qed.

Lemma nul_free_spaced rest : Forall nul_free rest -> nul_free (spaced rest).
Proof.
  induction 1 as [| t rest Ht _ IH].
  - intros [].
  - change (spaced (t :: rest)) with (String " " (t ++ spaced rest)).
    unfold nul_free. cbn [list_ascii_of_string In]. intros [E | Hin].
    + discriminate E.
    + exact (nul_free_app t (spaced rest) Ht IH Hin).
Qed.

(** Reading back a C string that is followed by a NUL. *)
Lemma c_string_chars s tail :
  nul_free s -> c_string (list_ascii_of_string s ++ NUL :: tail) = s.
Proof.
  unfold nul_free. induction s as [| c s IH]; cbn; intros Hs.
  - reflexivity.
  - destruct (Ascii.eqb_spec c NUL) as [E | _].
    + elim Hs. left. exact E.
    + rewrite IH; [reflexivity | tauto].
Qed.

(** A store that stays inside the allocation replaces just the bytes it
    covers. *)
Lemma write_at_middle pre mid post bytes :
  List.length mid = List.length bytes ->
  write_at (pre ++ mid ++ post) (List.length pre) bytes = Some (pre ++ bytes ++ post)%list.
Proof.
  intros Hlen. unfold write_at.
  rewrite !length_app, <- Hlen.
  destruct (Nat.leb_spec (List.length pre + List.length mid)
              (List.length pre + (List.length mid + List.length post))); [| lia].
  rewrite firstn_app, Nat.sub_diag, firstn_all. cbn [firstn]. rewrite app_nil_r.
  rewrite (app_assoc pre mid post), <- length_app.
  rewrite skipn_app, skipn_all, Nat.sub_diag. reflexivity.
Qed.

Lemma weight_cons t rest : weight (t :: rest) = (S (String.length t) + weight rest)%nat.
Proof. reflexivity. Qed.

Lemma string_app_nil_r (s : string) : (s ++ "")%string = s.
Proof. induction s as [| c s IH]; cbn; [reflexivity | rewrite IH; reflexivity]. Qed.

(** Lines 167-171 append what is left, each argument after one space,
    when the buffer has room for it. *)
Lemma append_rest_spec rest : forall acc tail,
  Parse.append_rest
    (list_ascii_of_string acc ++ NUL :: repeat NUL (weight rest) ++ tail)
    (String.length acc) rest
  = Some (list_ascii_of_string (acc ++ spaced rest) ++ NUL :: tail)%list.
Proof.
  induction rest as [| t rest IH]; intros acc tail.
  - cbn. rewrite string_app_nil_r. reflexivity.
  - cbn [Parse.append_rest]. rewrite weight_cons.
    pose proof (write_at_middle (list_ascii_of_string acc) [NUL]
                  (repeat NUL (S (String.length t) + weight rest) ++ tail)
                  [" "%char] eq_refl) as W1.
    rewrite chars_length in W1. cbn [app] in W1 |- *. rewrite W1. clear W1.
    unfold strcpy.
    pose proof (write_at_middle (list_ascii_of_string acc ++ [" "%char])
                  (repeat NUL (S (String.length t)))
                  (repeat NUL (weight rest) ++ tail)
                  (list_ascii_of_string t ++ [NUL])) as W2.
    rewrite length_app, chars_length, !length_app, repeat_length, chars_length in W2.
    cbn [List.length] in W2.
    replace (String.length acc + 1)%nat with (S (String.length acc)) in W2 by lia.
    replace ((list_ascii_of_string acc ++ [" "%char]) ++
             repeat NUL (S (String.length t)) ++ repeat NUL (weight rest) ++ tail)%list
      with (list_ascii_of_string acc ++
            " "%char :: repeat NUL (S (String.length t) + weight rest) ++ tail)%list in W2
      by (rewrite repeat_app, <- !app_assoc; reflexivity).
    rewrite W2 by lia. clear W2.
    specialize (IH (acc ++ String " " t)%string tail).
    rewrite string_app_length in IH. cbn [String.length] in IH.
    replace (String.length acc + S (String.length t))%nat
      with (S (String.length acc) + String.length t)%nat in IH by lia.
    rewrite chars_app in IH. cbn [list_ascii_of_string] in IH.
    replace ((list_ascii_of_string acc ++ [" "%char]) ++
             (list_ascii_of_string t ++ [NUL]) ++ repeat NUL (weight rest) ++ tail)%list
      with ((list_ascii_of_string acc ++ " "%char :: list_ascii_of_string t) ++
            NUL :: repeat NUL (weight rest) ++ tail)%list
      by (rewrite <- !app_assoc; reflexivity).
    rewrite IH. rewrite string_app_assoc. reflexivity.
Qed.

(** Lines 159-162 compute the exact length when it fits an [int]. *)
Lemma total_length_fold tokens : forall acc,
  0 <= acc ->
  acc + Z.of_nat (list_sum (map String.length tokens)) <= INT_MAX ->
  fold_left (fun a t => to_int (a + Z.of_nat (String.length t))) tokens acc
  = acc + Z.of_nat (list_sum (map String.length tokens)).
Proof.
  induction tokens as [| t tokens IH]; intros acc H0 Hfit.
  - cbn. lia.
  - change (list_sum (map String.length (t :: tokens)))
      with (String.length t + list_sum (map String.length tokens))%nat in Hfit |- *.
    rewrite Nat2Z.inj_add in Hfit |- *. cbn [fold_left].
    rewrite to_int_small by (unfold INT_MIN, INT_MAX in *; lia).
    rewrite IH by lia. lia.
Qed.

Lemma weight_split tokens :
  weight tokens = (List.length tokens + list_sum (map String.length tokens))%nat.
Proof.
  induction tokens as [| t tokens IH]; [reflexivity |].
  rewrite weight_cons, IH.
  change (list_sum (map String.length (t :: tokens)))
    with (String.length t + list_sum (map String.length tokens))%nat.
  cbn [List.length]. lia.
Qed.

(** Lines 157-171: the buffer holds the arguments joined by single
    spaces, as they are, and the string ends there. *)
Lemma join_arguments_spec first rest :
  Z.of_nat (weight (first :: rest)) <= INT_MAX ->
  Parse.join_arguments (first :: rest)
  = Some (list_ascii_of_string (String.concat " " (first :: rest)) ++ [NUL])%list.
Proof.
  intros Hfit. unfold Parse.join_arguments, Parse.total_length.
  pose proof (weight_split (first :: rest)) as Hw.
  rewrite (to_int_small (Z.of_nat (List.length (first :: rest)) - 1))
    by (unfold INT_MIN, INT_MAX in *; cbn [List.length] in *; lia).
  rewrite total_length_fold by (cbn [List.length] in *; lia).
  rewrite to_int_small by (unfold INT_MIN, INT_MAX in *; cbn [List.length] in *; lia).
  replace (Z.of_nat (List.length (first :: rest)) - 1
           + Z.of_nat (list_sum (map String.length (first :: rest))) + 1)
    with (Z.of_nat (S (String.length first) + weight rest)).
  2: { rewrite <- weight_cons, Hw. lia. }
  unfold calloc. rewrite Nat2Z.id, repeat_app. unfold strcpy.
  pose proof (write_at_middle [] (repeat NUL (S (String.length first)))
                (repeat NUL (weight rest)) (list_ascii_of_string first ++ [NUL])) as W.
  rewrite repeat_length, length_app, chars_length in W. cbn [List.length app] in W.
  rewrite W by lia. clear W.
  pose proof (append_rest_spec rest first []) as A.
  rewrite app_nil_r in A. rewrite <- app_assoc. cbn [app].
  rewrite A, concat_spaced. reflexivity.
Qed.

End BufferFacts.

(** ** The option scan *)

Section GetoptFacts.
Import CString Getopt.
Variable argv : list string.
Variable optstring : string.
Variable longopts : list long_option.

Lemma nth_error_skipn {A} (l : list A) : forall i a,
  nth_error l i = Some a -> skipn i l = a :: skipn (S i) l.
Proof.
  induction l as [| x l IH]; intros [| i] a H; cbn in H; try discriminate.
  - inversion H. reflexivity.
  - cbn [skipn]. rewrite (IH i a H). reflexivity.
Qed.

Lemma weight_skipn_S i : (weight (skipn (S i) argv) <= weight (skipn i argv))%nat.
Proof.
  destruct (nth_error argv i) as [a |] eqn:E.
  - rewrite (nth_error_skipn _ _ _ E), weight_cons. lia.
  - apply nth_error_None in E.
    rewrite !skipn_all2 by lia. apply Nat.le_refl.
Qed.

Lemma weight_skipn_le i : (weight (skipn i argv) <= weight argv)%nat.
Proof.
  induction i as [| i IH]; [apply Nat.le_refl |].
  pose proof (weight_skipn_S i). lia.
Qed.

(** Reading a letter leaves less to read than the letters after it and
    the arguments after the current one. *)
Lemma short_option_progress ind c rest :
  (remaining argv (next (short_option argv optstring ind c rest))
   <= String.length rest + weight (skipn (S ind) argv))%nat.
Proof.
  unfold short_option.
  destruct (if (c =? ":")%char || (c =? ";")%char then None else lookup_short c optstring)
    as [[|] |].
  - destruct rest as [| r rest].
    + destruct (nth_error argv (S ind)) as [a |] eqn:E; unfold remaining; cbn.
      * pose proof (weight_skipn_S (S ind)). exact H.
      * apply Nat.le_refl.
    + unfold remaining. cbn. lia.
  - destruct rest as [| r rest]; unfold remaining; cbn; lia.
  - destruct rest as [| r rest]; unfold remaining, bad; cbn; lia.
Qed.

Lemma long_option_progress ind body :
  (remaining argv (next (long_option_at argv longopts ind body))
   <= weight (skipn (S ind) argv))%nat.
Proof.
  unfold long_option_at. destruct (split_eq body) as [nm value].
  destruct (lookup_long longopts nm) as [o | |]; try (unfold remaining, bad; cbn; lia).
  destruct value as [v |], (has_arg o); try (unfold remaining, bad; cbn; lia).
  destruct (nth_error argv (S ind)); unfold remaining, bad; cbn;
    [apply (weight_skipn_S (S ind)) | lia].
Qed.

(** Every call that returns an option leaves strictly less to read. *)
Lemma getopt_long_progress st :
  ret (getopt_long argv optstring longopts st) <> None ->
  (remaining argv (next (getopt_long argv optstring longopts st))
   < remaining argv st)%nat.
Proof.
  unfold getopt_long. destruct st as [ind [| c rest]]; cbn [nextchar optind].
  - destruct (nth_error argv ind) as [arg |] eqn:E; [| intros H; elim H; reflexivity].
    unfold remaining at 2. cbn [nextchar optind].
    rewrite (nth_error_skipn _ _ _ E), weight_cons.
    destruct arg as [| a0 [| a1 arg]]; try (intros H; elim H; reflexivity).
    + destruct a0 as [[] [] [] [] [] [] [] []]; intros H; elim H; reflexivity.
    + destruct a0 as [[] [] [] [] [] [] [] []]; try (intros H; elim H; reflexivity).
      destruct a1 as [[] [] [] [] [] [] [] []];
        try (intros _;
             match goal with
             | |- context [short_option _ _ ?i ?c ?r] =>
                 pose proof (short_option_progress i c r) as P
             end; cbn [String.length]; lia).
      destruct arg as [| a2 arg]; [intros H; elim H; reflexivity |].
      intros _. pose proof (long_option_progress ind (String a2 arg)) as P.
      cbn [String.length]. lia.
  - intros _. pose proof (short_option_progress ind c rest) as P.
    unfold remaining at 2. cbn [nextchar optind String.length]. lia.
Qed.

Lemma short_option_in_bounds ind c rest :
  (ind < List.length argv)%nat ->
  in_bounds argv (next (short_option argv optstring ind c rest)).
Proof.
  intros Hind. unfold short_option.
  destruct (if (c =? ":")%char || (c =? ";")%char then None else lookup_short c optstring)
    as [[|] |].
  - destruct rest as [| r rest].
    + destruct (nth_error argv (S ind)) as [a |] eqn:E; unfold in_bounds; cbn.
      * assert (S ind < List.length argv)%nat
          by (apply nth_error_Some; rewrite E; discriminate).
        lia.
      * lia.
    + unfold in_bounds. cbn. lia.
  - destruct rest as [| r rest]; unfold in_bounds; cbn; lia.
  - destruct rest as [| r rest]; unfold in_bounds, bad; cbn; lia.
Qed.

Lemma long_option_in_bounds ind body :
  (ind < List.length argv)%nat ->
  in_bounds argv (next (long_option_at argv longopts ind body)).
Proof.
  intros Hind. unfold long_option_at. destruct (split_eq body) as [nm value].
  destruct (lookup_long longopts nm) as [o | |]; try (unfold in_bounds, bad; cbn; lia).
  destruct value as [v |], (has_arg o); try (unfold in_bounds, bad; cbn; lia).
  destruct (nth_error argv (S ind)) eqn:E; unfold in_bounds, bad; cbn; [| lia].
  assert (S ind < List.length argv)%nat
    by (apply nth_error_Some; rewrite E; discriminate).
  lia.
Qed.

(** Reading an option never ends the scan. *)
Lemma short_option_returns ind c rest :
  ret (short_option argv optstring ind c rest) <> None.
Proof.
  unfold short_option.
  destruct (if (c =? ":")%char || (c =? ";")%char then None else lookup_short c optstring)
    as [[|] |]; try (cbn; discriminate).
  destruct rest; [| cbn; discriminate].
  destruct (nth_error argv (S ind)); cbn; discriminate.
Qed.

Lemma long_option_returns ind body :
  ret (long_option_at argv longopts ind body) <> None.
Proof.
  unfold long_option_at. destruct (split_eq body) as [nm value].
  destruct (lookup_long longopts nm) as [o | |]; try (cbn; discriminate).
  destruct value as [v |], (has_arg o); try (cbn; discriminate).
  destruct (nth_error argv (S ind)); cbn; discriminate.
Qed.

(** [optind] never leaves [argv], and the scan ends between arguments. *)
Lemma getopt_long_in_bounds st :
  in_bounds argv st ->
  in_bounds argv (next (getopt_long argv optstring longopts st))
  /\ (ret (getopt_long argv optstring longopts st) = None ->
      nextchar (next (getopt_long argv optstring longopts st)) = EmptyString).
Proof.
  unfold getopt_long. destruct st as [ind [| c rest]]; cbn [nextchar optind].
  - intros Hb. destruct (nth_error argv ind) as [arg |] eqn:E; [| split; auto].
    assert (Hind : (ind < List.length argv)%nat)
      by (apply nth_error_Some; rewrite E; discriminate).
    destruct arg as [| a0 [| a1 arg]]; try (split; auto; fail).
    + destruct a0 as [[] [] [] [] [] [] [] []]; split; auto.
    + destruct a0 as [[] [] [] [] [] [] [] []]; try (split; auto; fail).
      destruct a1 as [[] [] [] [] [] [] [] []];
        try (split; [apply short_option_in_bounds; exact Hind |];
             intros H; elim (short_option_returns _ _ _ H)).
      destruct arg as [| a2 arg].
      * split; [unfold in_bounds; cbn; lia | reflexivity].
      * split; [apply long_option_in_bounds; exact Hind |].
        intros H. elim (long_option_returns _ _ H).
  - intros Hb. unfold in_bounds in Hb. cbn in Hb.
    split; [apply short_option_in_bounds; exact Hb |].
    intros H. elim (short_option_returns _ _ _ H).
Qed.

Lemma lookup_long_in nm o : lookup_long longopts nm = Found o -> In o longopts.
Proof.
  unfold lookup_long.
  destruct (find (fun o => String.eqb (name o) nm) longopts) as [o' |] eqn:F.
  - intros H. inversion H; subst. apply (find_some _ _ F).
  - destruct (filter (fun o => String.prefix nm (name o)) longopts) as [| o' others] eqn:E;
      [discriminate |].
    destruct (forallb _ others); [| discriminate].
    intros H. inversion H; subst.
    assert (Hin : In o (filter (fun o => String.prefix nm (name o)) longopts))
      by (rewrite E; left; reflexivity).
    apply filter_In in Hin. tauto.
Qed.

Lemma short_option_no_optarg ind c rest x :
  ret (short_option argv optstring ind c rest) = Some x ->
  optarg (short_option argv optstring ind c rest) = None ->
  flag_like optstring longopts x = true.
Proof.
  unfold short_option, flag_like.
  destruct ((c =? ":")%char || (c =? ";")%char).
  - cbn. intros H _. inversion H. reflexivity.
  - destruct (lookup_short c optstring) as [[|] |] eqn:L.
    + destruct rest; [| cbn; discriminate].
      destruct (nth_error argv (S ind)); cbn; [discriminate |].
      intros H _. inversion H. reflexivity.
    + cbn. intros H _. inversion H; subst. rewrite L, orb_true_r. reflexivity.
    + cbn. intros H _. inversion H. reflexivity.
Qed.

Lemma long_option_no_optarg ind body x :
  ret (long_option_at argv longopts ind body) = Some x ->
  optarg (long_option_at argv longopts ind body) = None ->
  flag_like optstring longopts x = true.
Proof.
  unfold long_option_at, flag_like. destruct (split_eq body) as [nm value].
  destruct (lookup_long longopts nm) as [o | |] eqn:L;
    try (cbn; intros H _; inversion H; reflexivity).
  pose proof (lookup_long_in _ _ L) as Hin.
  destruct value as [v |], (has_arg o) eqn:Ha; cbn [ret optarg bad];
    try discriminate; try (intros H _; inversion H; reflexivity).
  - intros H _. inversion H; subst.
    assert (E : existsb (fun o0 => Ascii.eqb (val o0) (val o)
                                   && has_arg_eqb (has_arg o0) no_argument) longopts = true).
    { apply existsb_exists. exists o. split; [exact Hin |].
      rewrite Ascii.eqb_refl, Ha. reflexivity. }
    rewrite E, orb_true_r. reflexivity.
  - destruct (nth_error argv (S ind)); cbn [ret optarg bad]; [discriminate |].
    intros H _. inversion H. reflexivity.
Qed.

(** A call that sets no [optarg] returns a flag or the error mark. *)
Lemma getopt_long_no_optarg st x :
  ret (getopt_long argv optstring longopts st) = Some x ->
  optarg (getopt_long argv optstring longopts st) = None ->
  flag_like optstring longopts x = true.
Proof.
  unfold getopt_long. destruct st as [ind [| c rest]]; cbn [nextchar optind].
  - destruct (nth_error argv ind) as [arg |]; [| discriminate].
    destruct arg as [| a0 [| a1 arg]]; try discriminate.
    + destruct a0 as [[] [] [] [] [] [] [] []]; discriminate.
    + destruct a0 as [[] [] [] [] [] [] [] []]; try discriminate.
      destruct a1 as [[] [] [] [] [] [] [] []]; try apply short_option_no_optarg.
      destruct arg as [| a2 arg]; [discriminate | apply long_option_no_optarg].
  - apply short_option_no_optarg.
Qed.

End GetoptFacts.

(** ** [parse_arguments] *)

Section ParseFacts.
Import CInt Timespec Globals Events CString Strtol Getopt Parse.
Context {F : FloatOps}.

Lemma times_option_defined s g out : times_option s g out <> Undefined.
Proof.
  unfold times_option. destruct (strtol s) as [v used].
  destruct (used =? 0)%nat; discriminate.
Qed.

Lemma interval_option_defined s g out : interval_option s g out <> Undefined.
Proof.
  unfold interval_option. destruct (strtof s) as [x used].
  destruct (used =? 0)%nat; [discriminate |].
  destruct (match String.get used s with
            | None => Some x
            | Some "d"%char => Some (fscale x 86400)
            | Some "h"%char => Some (fscale x 3600)
            | Some "m"%char => Some (fscale x 60)
            | Some "s"%char => Some x
            | Some _ => None
            end); discriminate.
Qed.

(** With an argument at hand the [switch] never reads a null [optarg]. *)
Lemma switch_defined_with_arg c s g out : switch c (Some s) g out <> Undefined.
Proof.
  destruct c as [[] [] [] [] [] [] [] []]; cbn [switch];
    try discriminate;
    first [apply times_option_defined | apply interval_option_defined].
Qed.

Lemma switch_defined_flag c g out :
  flag_like optstring long_options c = true -> switch c None g out <> Undefined.
Proof.
  destruct c as [[] [] [] [] [] [] [] []]; cbn [switch]; intros H;
    try discriminate; vm_compute in H; discriminate.
Qed.

(** The [switch] always finds the [optarg] it reads. *)
Lemma switch_defined argv st c g out :
  ret (getopt_long argv optstring long_options st) = Some c ->
  switch c (optarg (getopt_long argv optstring long_options st)) g out <> Undefined.
Proof.
  intros Hret.
  destruct (optarg (getopt_long argv optstring long_options st)) as [s |] eqn:O.
  - apply switch_defined_with_arg.
  - apply switch_defined_flag.
    exact (getopt_long_no_optarg argv optstring long_options st c Hret O).
Qed.

Lemma times_option_exits s g out r :
  times_option s g out = Return r -> exit_now r = true.
Proof.
  unfold times_option. destruct (strtol s) as [v used].
  destruct (used =? 0)%nat; intros H; inversion H; reflexivity.
Qed.

Lemma interval_option_exits s g out r :
  interval_option s g out = Return r -> exit_now r = true.
Proof.
  unfold interval_option. destruct (strtof s) as [x used].
  destruct (used =? 0)%nat; [intros H; inversion H; reflexivity |].
  destruct (match String.get used s with
            | None => Some x
            | Some "d"%char => Some (fscale x 86400)
            | Some "h"%char => Some (fscale x 3600)
            | Some "m"%char => Some (fscale x 60)
            | Some "s"%char => Some x
            | Some _ => None
            end); intros H; inversion H; reflexivity.
Qed.

(** Whenever the [switch] returns, [parse_arguments] returns [true]. *)
Lemma switch_exits c arg g out r :
  switch c arg g out = Return r -> exit_now r = true.
Proof.
  destruct c as [[] [] [] [] [] [] [] []]; cbn [switch];
    try (intros H; inversion H; reflexivity);
    destruct arg as [s |]; try discriminate;
    first [apply times_option_exits | apply interval_option_exits].
Qed.

Lemma finish_defined argv ind g out :
  (ind <= List.length argv)%nat -> Z.of_nat (weight argv) <= INT_MAX ->
  exists r, finish argv ind g out = Some r /\ joined argv r.
Proof.
  intros Hind Hfit. unfold finish.
  destruct (Z.eqb_spec (Z.of_nat (List.length argv) - Z.of_nat ind) 0) as [E | E].
  - eexists. split; [reflexivity |]. intros H. discriminate H.
  - destruct (nth_error argv ind) as [first |] eqn:N.
    2: { apply nth_error_None in N. lia. }
    pose proof (nth_error_skipn _ _ _ N) as Hskip.
    pose proof (weight_skipn_le argv ind) as Hw. rewrite Hskip in Hw.
    destruct (use_exec g) eqn:X; cbn [use_exec set_cmd_arg_idx negb].
    + rewrite X. cbn [negb]. eexists. split; [reflexivity |].
      intros _. split; [reflexivity |].
      exists first, (skipn (S ind) argv). cbn. split; [exact Hskip |].
      rewrite X. discriminate.
    + rewrite X. cbn [negb]. rewrite Hskip, join_arguments_spec by lia.
      eexists. split; [reflexivity |].
      intros _. split; [reflexivity |].
      exists first, (skipn (S ind) argv). cbn. split; [exact Hskip | reflexivity].
Qed.

(** The scan and what follows it always come to a result, and a result
    that lets [main] go on carries the joined command. *)
Lemma parse_loop_defined argv fuel : forall st g out,
  in_bounds argv st -> (remaining argv st < fuel)%nat ->
  Z.of_nat (weight argv) <= INT_MAX ->
  exists r, parse_loop fuel argv st g out = Some r /\ joined argv r.
Proof.
  induction fuel as [| fuel IH]; intros st g out Hb Hfuel Hfit; [lia |].
  cbn [parse_loop].
  destruct (getopt_long_in_bounds argv optstring long_options st Hb) as [Hb' Hend].
  pose proof (getopt_long_progress argv optstring long_options st) as Hprog.
  pose proof (switch_defined argv st) as Hdef.
  destruct (ret (getopt_long argv optstring long_options st)) as [c |].
  - specialize (Hdef c g
      (if diagnosed (getopt_long argv optstring long_options st)
       then EvStderr MsgGetopt :: out else out) eq_refl).
    destruct (switch c _ g _) as [g' out' | r |] eqn:S.
    + apply IH; [exact Hb' | | exact Hfit].
      specialize (Hprog ltac:(discriminate)). lia.
    + exists r. split; [reflexivity |].
      intros H. rewrite (switch_exits _ _ _ _ _ S) in H. discriminate H.
    + elim Hdef. reflexivity.
  - apply finish_defined; [| exact Hfit].
    specialize (Hend eq_refl). unfold in_bounds in Hb'. rewrite Hend in Hb'. exact Hb'.
Qed.

Lemma start_in_bounds argv : argv <> [] -> in_bounds argv Getopt.start.
Proof. destruct argv; [congruence |]. unfold in_bounds. cbn. lia. Qed.

Lemma remaining_start argv : (remaining argv Getopt.start <= weight argv)%nat.
Proof. unfold remaining. cbn [nextchar Getopt.start optind]. apply weight_skipn_le. Qed.

Lemma Forall_skipn {A} (P : A -> Prop) (l : list A) : forall n,
  Forall P l -> Forall P (skipn n l).
Proof.
  induction l as [| x l IH]; intros [| n] H; cbn [skipn]; try assumption.
  inversion H; subst. apply IH. assumption.
Qed.

(** [parse_arguments] is defined on every argument vector of a size an
    [int] can count, and what it leaves behind is [joined]. *)
Lemma parse_arguments_defined argv :
  argv <> [] -> Z.of_nat (weight argv) <= INT_MAX ->
  exists r, parse_arguments argv = Some r /\ joined argv r.
Proof.
  intros Hne Hfit. unfold parse_arguments.
  apply parse_loop_defined; [apply start_in_bounds; exact Hne | | exact Hfit].
  pose proof (remaining_start argv). lia.
Qed.

End ParseFacts.

(** What the shell is handed for [repeat -e -t 2 echo -n "a;b" '$HOME']:
    everything from [echo] on, options of [echo] and metacharacters
    included. *)
Example command_keeps_metacharacters :
  option_map (fun r => option_map CString.c_string (Globals.command (Parse.config r)))
    (Parse.parse_arguments (F := Scenarios.whole_numbers)
       ["repeat"; "-e"; "-t"; "2"; "echo"; "-n"; "a;b"; "$HOME"]%string)
  = Some (Some "echo -n a;b $HOME"%string).
Proof. vm_compute. reflexivity. Qed.

(** ** The [-t] option *)

Section TimesOption.
Import CInt Timespec WaitStatus Globals Events CString Strtol Getopt Parse Loop Main.
Context {F : FloatOps}.

(** The scan ends at an argument that is not an option. *)
Lemma getopt_stops_at_command argv os lo ind cmd :
  nth_error argv ind = Some cmd -> looks_like_option cmd = false ->
  getopt_long argv os lo (mkGetopt ind EmptyString) = finished (mkGetopt ind EmptyString).
Proof.
  intros Hnth Hlook. unfold getopt_long. cbn [nextchar optind]. rewrite Hnth.
  destruct cmd as [| a0 [| a1 r]]; try reflexivity.
  - destruct a0 as [[] [] [] [] [] [] [] []]; reflexivity.
  - destruct a0 as [[] [] [] [] [] [] [] []]; try reflexivity.
    cbn in Hlook. discriminate Hlook.
Qed.

(** [-t s] as the first option: [s] is the option's argument, whatever it
    looks like, and the scan goes on after it. *)
Lemma getopt_reads_times prog s rest :
  getopt_long (prog :: "-t" :: s :: rest)%string optstring long_options Getopt.start
  = mkAnswer (Some "t"%char) (Some s) (mkGetopt 3 EmptyString) false.
Proof. reflexivity. Qed.

Lemma parse_loop_step fuel argv st g out :
  parse_loop (S fuel) argv st g out
  = let a := getopt_long argv optstring long_options st in
    let out1 := if diagnosed a then EvStderr MsgGetopt :: out else out in
    match ret a with
    | None => finish argv (optind (next a)) g out1
    | Some c =>
        match switch c (optarg a) g out1 with
        | Go g' out' => parse_loop fuel argv (next a) g' out'
        | Return r => Some r
        | Undefined => None
        end
    end.
Proof. reflexivity. Qed.

(** When the first option is the repeat count, with argument [s]. *)
Lemma parse_times_first_option argv s st' :
  getopt_long argv optstring long_options Getopt.start
    = mkAnswer (Some "t"%char) (Some s) st' false ->
  parse_arguments argv
  = match times_option s Globals.initial [] with
    | Go g' out' => parse_loop (weight argv) argv st' g' out'
    | Return r => Some r
    | Undefined => None
    end.
Proof.
  intros Hopt. unfold parse_arguments.
  rewrite parse_loop_step, Hopt. reflexivity.
Qed.

Lemma parse_times_first prog s rest :
  parse_arguments (prog :: "-t" :: s :: rest)%string
  = match times_option s Globals.initial [] with
    | Go g' out' =>
        parse_loop (weight (prog :: "-t" :: s :: rest)%string)
                   (prog :: "-t" :: s :: rest)%string (mkGetopt 3 EmptyString) g' out'
    | Return r => Some r
    | Undefined => None
    end.
Proof. apply parse_times_first_option. apply getopt_reads_times. Qed.

(** An argument with no leading integer: usage on the error stream,
    [*return_val = 1], [true]. *)
Lemma times_option_rejects s g out :
  snd (strtol s) = 0%nat ->
  exists g', times_option s g out = Return (mkParse true 1 AtBadTimes g' (EvStderr MsgUsage :: out)).
Proof.
  unfold times_option. destruct (strtol s) as [v used]. cbn. intros ->.
  eexists. reflexivity.
Qed.

(** An argument with a leading integer: the count is that integer,
    narrowed to [int]; what follows the digits is not looked at. *)
Lemma times_option_accepts s g out v used :
  strtol s = (v, used) -> used <> 0%nat ->
  times_option s g out = Go (set_times (to_int v) g) out.
Proof.
  unfold times_option. intros -> Hused.
  destruct (Nat.eqb_spec used 0); [contradiction | reflexivity].
Qed.

(** [-t s cmd ...]: the configuration [main] runs with. *)
Lemma parse_times_then_command prog s cmd rest v used :
  strtol s = (v, used) -> used <> 0%nat -> looks_like_option cmd = false ->
  parse_arguments (prog :: "-t" :: s :: cmd :: rest)%string
  = option_map
      (fun buf => mkParse false 0 AtEnd
                    (set_command (Some buf)
                       (set_cmd_arg_idx 3 (set_times (to_int v) Globals.initial))) [])
      (join_arguments (cmd :: rest)).
Proof.
  intros Hs Hused Hlook.
  rewrite parse_times_first, (times_option_accepts _ _ _ _ _ Hs Hused).
  rewrite weight_cons.
  change (S (String.length prog) + weight ("-t" :: s :: cmd :: rest)%string)%nat
    with (S (String.length prog + weight ("-t" :: s :: cmd :: rest)%string)).
  rewrite parse_loop_step.
  rewrite (getopt_stops_at_command (prog :: "-t" :: s :: cmd :: rest)%string
             optstring long_options 3 cmd eq_refl Hlook).
  cbn [ret diagnosed finished next optind]. unfold finish.
  replace (Z.of_nat (List.length (prog :: "-t" :: s :: cmd :: rest)%string) - Z.of_nat 3 =? 0)
    with false
    by (symmetry; apply Z.eqb_neq; cbn [List.length]; lia).
  cbn [use_exec set_cmd_arg_idx set_times Globals.initial negb skipn].
  destruct (join_arguments (cmd :: rest)); reflexivity.
Qed.

End TimesOption.

(** Trailing garbage is not a parse error: [repeat -t 2x job] runs [job]
    twice and exits with its exit code. *)
Lemma times_trailing_garbage_is_accepted :
  exists st,
    Main.main (F := Scenarios.whole_numbers) ["repeat"; "-t"; "2x"; "job"]%string
              (Scenarios.steady (fun _ => WaitStatus.NormalExit 0) (Timespec.mkTimespec 5 0)) 3
      = Some (Loop.Exited Loop.CountExhausted 0, st)
    /\ Events.launch_count (Loop.ls_log st) = 2%nat
    /\ Events.usage_on_stderr (Loop.ls_log st) = false.
Proof. eexists. split; [vm_compute; reflexivity | split; reflexivity]. Qed.

(** C10.  A negative repeat count (the value the [int] [times] holds after
    [-t], as for [-t -3]) makes the loop behave exactly as count 0 does:
    the run with the negative count and the run with count 0 go through
    the same states but for the value of the counter, the counter keeps
    its negative value to the end, and the process never leaves through
    the repeat-count check. *)
Theorem negative_count_runs_like_zero
  (g : Globals.globals) (argv : list string) (env : Loop.environment)
  (fuel : nat) (out : list Events.event) :
  Globals.times g < 0 ->
  Loop.run_loop (Globals.set_times 0 g) argv env fuel out
    = (fst (Loop.run_loop g argv env fuel out),
       Loop.set_ls_times 0 (snd (Loop.run_loop g argv env fuel out)))
  /\ Loop.ls_times (snd (Loop.run_loop g argv env fuel out)) = Globals.times g
  /\ forall c, fst (Loop.run_loop g argv env fuel out)
               <> Loop.Exited Loop.CountExhausted c.
Proof.
  intros Hneg. apply run_loop_without_count. lia.
Qed.

(** [repeat -t -3 job]: after four turns the process is still running, it
    has launched [job] four times and the counter still reads -3. *)
Lemma negative_count_runs_like_zero_witness :
  let r := Loop.run_loop (Scenarios.count_config (-3))
             ["repeat"; "-t"; "-3"; "job"]%string Scenarios.counting 4 [] in
  Loop.run_loop (Globals.set_times 0 (Scenarios.count_config (-3)))
                ["repeat"; "-t"; "-3"; "job"]%string Scenarios.counting 4 []
    = (fst r, Loop.set_ls_times 0 (snd r))
  /\ Loop.ls_times (snd r) = -3
  /\ fst r = Loop.Running
  /\ Loop.ls_launches (snd r) = 4%nat.
Proof.
  intros r.
  destruct (negative_count_runs_like_zero (Scenarios.count_config (-3))
              ["repeat"; "-t"; "-3"; "job"]%string Scenarios.counting 4 [])
    as (Hsame & Hkeep & _).
  - cbn. lia.
  - split; [exact Hsame | split; [exact Hkeep | split; reflexivity]].
Defined.

(** The same from the command line: [repeat -t s cmd ...] with an [s] that
    [-t] stores as a negative count, and [repeat -t 0 cmd ...]. *)
Lemma negative_times_end_to_end
  {F : Parse.FloatOps} (prog s cmd : string) (rest : list string)
  (env : Loop.environment) (fuel : nat) (v : Z) (used : nat) :
  Strtol.strtol s = (v, used) -> used <> 0%nat -> CInt.to_int v < 0 ->
  Getopt.looks_like_option cmd = false ->
  Main.main (prog :: "-t" :: "0" :: cmd :: rest)%string env fuel
    = option_map (fun r => (fst r, Loop.set_ls_times 0 (snd r)))
                 (Main.main (prog :: "-t" :: s :: cmd :: rest)%string env fuel)
  /\ forall s1 st1,
       Main.main (prog :: "-t" :: s :: cmd :: rest)%string env fuel = Some (s1, st1) ->
       Loop.ls_times st1 = CInt.to_int v
       /\ forall c, s1 <> Loop.Exited Loop.CountExhausted c.
Proof.
  intros Hs Hused Hneg Hlook. unfold Main.main.
  rewrite (parse_times_then_command prog s cmd rest v used Hs Hused Hlook).
  rewrite (parse_times_then_command prog "0" cmd rest 0 1 eq_refl ltac:(discriminate) Hlook).
  change (CInt.to_int 0) with 0.
  destruct (Parse.join_arguments (cmd :: rest)) as [buf |]; cbn [option_map];
    [| split; [reflexivity | discriminate]].
  cbn [Parse.exit_now Parse.config Parse.output].
  set (gs := Globals.set_command (Some buf)
               (Globals.set_cmd_arg_idx 3 (Globals.set_times (CInt.to_int v) Globals.initial))).
  set (g0 := Globals.set_command (Some buf)
               (Globals.set_cmd_arg_idx 3 (Globals.set_times 0 Globals.initial))).
  unfold Loop.run_loop, Loop.enter.
  cbn [Globals.precise Globals.debug Globals.times gs g0 Globals.set_command
       Globals.set_cmd_arg_idx Globals.set_times Globals.initial].
  fold gs g0.
  set (st := Loop.mkState (CInt.to_int v) _ 0 0 []).
  rewrite (main_loop_ext g0 gs _ (prog :: "-t" :: s :: cmd :: rest)%string env fuel)
    by reflexivity.
  destruct (main_loop_without_count gs (prog :: "-t" :: s :: cmd :: rest)%string env fuel st)
    as (Hsim & Htimes & Hnever); [cbn; lia |].
  split.
  - cbn [option_map]. f_equal. exact Hsim.
  - intros s1 st1 H. inversion H as [H']. rewrite H' in Htimes, Hnever.
    split; [exact Htimes | exact Hnever].
Qed.

(** [repeat -t -3 job] and [repeat -t 0 job], four turns each. *)
Example minus_three_runs_like_zero :
  Main.main (F := Scenarios.whole_numbers) ["repeat"; "-t"; "0"; "job"]%string
            Scenarios.counting 4
    = option_map (fun r => (fst r, Loop.set_ls_times 0 (snd r)))
        (Main.main (F := Scenarios.whole_numbers) ["repeat"; "-t"; "-3"; "job"]%string
                   Scenarios.counting 4)
  /\ exists st1,
       Main.main (F := Scenarios.whole_numbers) ["repeat"; "-t"; "-3"; "job"]%string
                 Scenarios.counting 4 = Some (Loop.Running, st1)
       /\ Loop.ls_launches st1 = 4%nat
       /\ Loop.ls_times st1 = -3.
Proof.
  destruct (negative_times_end_to_end (F := Scenarios.whole_numbers)
              "repeat" "-3" "job" [] Scenarios.counting 4 (-3) 2)
    as [Hsame Hkeep].
  - reflexivity.
  - discriminate.
  - vm_compute. reflexivity.
  - reflexivity.
  - split; [exact Hsame |].
    eexists. split; [vm_compute; reflexivity | split; reflexivity].
Qed.

(** ** Returns of [parse_arguments] that end the process *)

Section ParseErrors.
Import CInt Timespec Globals Events CString Strtol Getopt Parse Loop Main.
Context {F : FloatOps}.

Lemma quiet_no_launch out : Forall quiet out -> launch_count out = 0%nat.
Proof.
  induction 1 as [| e out [He | He] _ IH]; [reflexivity | |];
    subst e; rewrite launch_count_cons; exact IH.
Qed.

Lemma quiet_no_usage out : Forall quiet out -> usage_on_stderr out = false.
Proof.
  induction 1 as [| e out [He | He] _ IH]; [reflexivity | |];
    subst e; cbn; exact IH.
Qed.

Lemma reported_usage point g out :
  Forall quiet out ->
  match point with AtBadTimes | AtBadInterval | AtNoCommand => True | _ => False end ->
  forall m, is_usage m = true ->
  reported (mkParse true 1 point g (EvStderr m :: out)).
Proof.
  intros Hq Hp m Hm _. cbn [output at_point return_val].
  split; [rewrite launch_count_cons; apply quiet_no_launch; exact Hq |].
  destruct point; try contradiction; (split; [reflexivity |]);
    unfold usage_on_stderr; cbn [existsb]; rewrite Hm; reflexivity.
Qed.

Lemma times_option_reported s g out r :
  Forall quiet out -> times_option s g out = Return r -> reported r.
Proof.
  unfold times_option. destruct (strtol s) as [v used]. intros Hq.
  destruct (used =? 0)%nat; intros H; inversion H; subst.
  apply reported_usage; [exact Hq | exact I | reflexivity].
Qed.

Lemma interval_option_reported s g out r :
  Forall quiet out -> interval_option s g out = Return r -> reported r.
Proof.
  unfold interval_option. destruct (strtof s) as [x used]. intros Hq.
  destruct (used =? 0)%nat.
  - intros H; inversion H; subst.
    apply reported_usage; [exact Hq | exact I | reflexivity].
  - destruct (match String.get used s with
              | None => Some x
              | Some "d"%char => Some (fscale x 86400)
              | Some "h"%char => Some (fscale x 3600)
              | Some "m"%char => Some (fscale x 60)
              | Some "s"%char => Some x
              | Some _ => None
              end); intros H; inversion H; subst.
    intros _. cbn [output at_point return_val].
    split; [rewrite launch_count_cons; apply quiet_no_launch; exact Hq |].
    split; [reflexivity | split; [reflexivity |]].
    cbn. apply quiet_no_usage. exact Hq.
Qed.

Lemma times_option_quiet s g out g' out' :
  Forall quiet out -> times_option s g out = Go g' out' -> Forall quiet out'.
Proof.
  unfold times_option. destruct (strtol s) as [v used]. intros Hq.
  destruct (used =? 0)%nat; intros H; inversion H; subst. exact Hq.
Qed.

Lemma interval_option_quiet s g out g' out' :
  Forall quiet out -> interval_option s g out = Go g' out' -> Forall quiet out'.
Proof.
  unfold interval_option. destruct (strtof s) as [x used]. intros Hq.
  destruct (used =? 0)%nat; [discriminate |].
  destruct (match String.get used s with
            | None => Some x
            | Some "d"%char => Some (fscale x 86400)
            | Some "h"%char => Some (fscale x 3600)
            | Some "m"%char => Some (fscale x 60)
            | Some "s"%char => Some x
            | Some _ => None
            end); intros H; inversion H; subst. exact Hq.
Qed.

Lemma switch_reported c arg g out r :
  Forall quiet out -> switch c arg g out = Return r -> reported r.
Proof.
  intros Hq.
  destruct c as [[] [] [] [] [] [] [] []]; cbn [switch];
    try discriminate;
    try (intros H; inversion H; subst; intros _;
         cbn [output at_point return_val];
         split; [exact (quiet_no_launch out Hq) | exact I]);
    destruct arg as [s |]; try discriminate;
    first [apply times_option_reported | apply interval_option_reported]; exact Hq.
Qed.

Lemma switch_quiet c arg g out g' out' :
  Forall quiet out -> switch c arg g out = Go g' out' -> Forall quiet out'.
Proof.
  intros Hq.
  destruct c as [[] [] [] [] [] [] [] []]; cbn [switch];
    try discriminate;
    try (intros H; inversion H; subst;
         first [exact Hq | constructor; [left; reflexivity | exact Hq]]);
    destruct arg as [s |]; try discriminate;
    first [apply times_option_quiet | apply interval_option_quiet]; exact Hq.
Qed.

Lemma finish_reported argv ind g out r :
  Forall quiet out -> finish argv ind g out = Some r -> reported r.
Proof.
  unfold finish. intros Hq.
  destruct (Z.of_nat (List.length argv) - Z.of_nat ind =? 0).
  - intros H; inversion H; subst.
    apply reported_usage; [exact Hq | exact I | reflexivity].
  - destruct (negb (use_exec (set_cmd_arg_idx ind g))).
    + destruct (join_arguments (skipn ind argv)); intros H; inversion H; subst.
      intros E. discriminate E.
    + intros H; inversion H; subst. intros E. discriminate E.
Qed.

Lemma parse_loop_reported argv fuel : forall st g out r,
  Forall quiet out -> parse_loop fuel argv st g out = Some r -> reported r.
Proof.
  induction fuel as [| fuel IH]; intros st g out r Hq; [discriminate |].
  rewrite parse_loop_step. cbv zeta.
  set (a := getopt_long argv optstring long_options st).
  assert (Hq1 : Forall quiet (if diagnosed a then EvStderr MsgGetopt :: out else out))
    by (destruct (diagnosed a); [constructor; [right; reflexivity | exact Hq] | exact Hq]).
  destruct (ret a) as [c |].
  - destruct (switch c (optarg a) g _) as [g' out' | r' |] eqn:S.
    + apply IH. exact (switch_quiet _ _ _ _ _ _ Hq1 S).
    + intros H; inversion H; subst. exact (switch_reported _ _ _ _ _ Hq1 S).
    + discriminate.
  - apply finish_reported. exact Hq1.
Qed.

End ParseErrors.

(** Two parse errors that print no usage text: [repeat -i 5q job] prints
    the bad-unit message and exits with status 1; [repeat -q job] leaves
    the diagnostic to [getopt_long] and exits with status 0. *)
Lemma parse_errors_without_usage :
  (exists st,
     Main.main (F := Scenarios.whole_numbers) ["repeat"; "-i"; "5q"; "job"]%string
               Scenarios.counting 5
       = Some (Loop.Exited Loop.ParseExit 1, st)
     /\ Loop.ls_log st = [Events.EvStderr Events.MsgBadUnit]
     /\ Events.usage_on_stderr (Loop.ls_log st) = false)
  /\ (exists st,
        Main.main (F := Scenarios.whole_numbers) ["repeat"; "-q"; "job"]%string
                  Scenarios.counting 5
          = Some (Loop.Exited Loop.ParseExit 0, st)
        /\ Loop.ls_log st = [Events.EvStderr Events.MsgGetopt]
        /\ Events.usage_on_stderr (Loop.ls_log st) = false).
Proof.
  split; eexists; (split; [vm_compute; reflexivity | split; reflexivity]).
Qed.

(** ** Precise mode: a fixed cadence *)

Section Cadence.
Import CInt Timespec WaitStatus Globals Events Loop.
Variable g : globals.
Variable argv : list string.
Variable env : environment.
Variable origin : timespec.
Hypothesis is_precise : precise g = true.

Lemma sleep_deadlines_launch log :
  sleep_deadlines (launch_event g argv :: log) = sleep_deadlines log.
Proof. unfold launch_event. destruct (use_exec g); reflexivity. Qed.

(** One more sleep, to the deadline that comes next on the cadence. *)
Lemma sleeps_on_cadence_next log :
  sleeps_on_cadence g origin log ->
  sleeps_on_cadence g origin
    (EvSleep (add_times (S (List.length (sleep_deadlines log))) origin (interval_ts g)) :: log).
Proof.
  unfold sleeps_on_cadence. intros H k d. cbn [sleep_deadlines rev].
  destruct (Nat.lt_ge_cases k (List.length (rev (sleep_deadlines log)))) as [Hk | Hk].
  - rewrite nth_error_app1 by exact Hk. apply H.
  - rewrite nth_error_app2 by exact Hk. rewrite length_rev in *.
    destruct (k - List.length (sleep_deadlines log))%nat as [| j] eqn:E; cbn.
    + intros Hd. inversion Hd. f_equal. f_equal. lia.
    + destruct j; discriminate.
Qed.

(** A turn keeps the deadline on the cadence and reads no clock. *)
Lemma iteration_on_cadence fuel st :
  on_cadence g origin st -> slept_each_turn g st ->
  match iteration g argv env fuel st with
  | Next st' => on_cadence g origin st' /\ slept_each_turn g st'
  | Halt _ st' => on_cadence g origin st'
  end.
Proof.
  intros (Hclk & Hnext & Hlog) Hslept.
  unfold iteration. rewrite is_precise.
  set (st2 := count_launch (log_event (launch_event g argv)
                (set_next_exec (timespec_add (ls_next_exec st) (interval_ts g)) st))).
  assert (H2 : on_cadence g origin st2).
  { unfold on_cadence, st2. cbn [ls_clocks ls_next_exec ls_launches ls_log
                                 count_launch log_event set_next_exec].
    split; [exact Hclk | split; [rewrite Hnext; reflexivity |]].
    unfold sleeps_on_cadence. rewrite sleep_deadlines_launch. exact Hlog. }
  assert (Hstderr : forall m, on_cadence g origin (log_event (EvStderr m) st2)).
  { intros m. destruct H2 as (A & B & C). repeat split; assumption. }
  destruct (run_command g env fuel (ls_launches st)) as [ret | |];
    [| apply Hstderr | exact H2].
  destruct (check_status g ret) as [[why code] |].
  - destruct why; first [apply Hstderr | exact H2].
  - destruct (count_down (ls_times st2)) as [t last].
    assert (H3 : on_cadence g origin (set_ls_times t st2)) by exact H2.
    destruct last; [exact H3 |].
    unfold pause. unfold slept_each_turn in Hslept |- *. rewrite is_precise.
    cbn [negb].
    destruct (negb (tv_sec (interval_ts g) =? 0) || negb (tv_nsec (interval_ts g) =? 0)).
    + assert (H4 : on_cadence g origin
                     (log_event (EvSleep (ls_next_exec (set_ls_times t st2)))
                                (set_ls_times t st2))).
      { destruct H3 as (A & B & C). split; [exact A | split; [exact B |]].
        cbn [ls_log log_event set_ls_times ls_next_exec].
        replace (ls_next_exec st2)
          with (add_times (S (List.length (sleep_deadlines (ls_log st2)))) origin
                          (interval_ts g)).
        - apply sleeps_on_cadence_next. exact C.
        - unfold st2 at 1 2.
          cbn [ls_log ls_next_exec count_launch log_event set_next_exec].
          rewrite sleep_deadlines_launch, Hslept, Hnext. reflexivity. }
      destruct (sleep_loop env (ls_launches st) fuel 0); [| exact H4].
      split; [exact H4 |].
      unfold st2. cbn [ls_log ls_launches log_event set_ls_times count_launch set_next_exec].
      change (sleep_deadlines (EvSleep ?d :: ?l)) with (d :: sleep_deadlines l).
      cbn [List.length]. rewrite sleep_deadlines_launch, Hslept. reflexivity.
    + split; [exact H3 |].
      unfold st2. cbn [ls_log ls_launches log_event set_ls_times count_launch set_next_exec].
      rewrite sleep_deadlines_launch. exact Hslept.
Qed.

Lemma main_loop_on_cadence fuel : forall st,
  on_cadence g origin st -> slept_each_turn g st ->
  on_cadence g origin (snd (main_loop g argv env fuel st)).
Proof.
  induction fuel as [| fuel IH]; intros st Hc Hs; cbn [main_loop].
  - exact Hc.
  - pose proof (iteration_on_cadence fuel st Hc Hs) as H.
    destruct (iteration g argv env fuel st) as [st' | s st'].
    + apply IH; tauto.
    + exact H.
Qed.

End Cadence.

(** C2.  In precise mode the clock is read once, for the origin, before the
    first run.  From then on, whatever the environment answers and however
    long the runs take, the deadline is advanced by adding the interval to
    the previous deadline, once per launch: after [n] launches it is the
    origin plus [n] additions of the interval, the [k]-th sleep goes to the
    origin plus [k] additions, and no further clock read takes place.  For
    a normalized origin and interval (within the range of [time_t]) the
    [k]-th deadline is the instant [origin + k * interval] exactly. *)
Theorem precise_deadlines_on_cadence
  (g : Globals.globals) (argv : list string) (env : Loop.environment)
  (fuel : nat) (out : list Events.event) (err : Z) (origin : Timespec.timespec) :
  Globals.precise g = true ->
  Loop.clock_ret env 0 = (err, origin) -> 0 <= err ->
  Events.sleep_deadlines out = [] ->
  let st := snd (Loop.run_loop g argv env fuel out) in
  Loop.ls_clocks st = 1%nat
  /\ Loop.ls_next_exec st
     = Timespec.add_times (Loop.ls_launches st) origin (Globals.interval_ts g)
  /\ (forall k d,
        nth_error (rev (Events.sleep_deadlines (Loop.ls_log st))) k = Some d ->
        d = Timespec.add_times (S k) origin (Globals.interval_ts g))
  /\ (forall k,
        Timespec.normalized origin -> Timespec.normalized (Globals.interval_ts g) ->
        Timespec.tv_sec origin
          + Z.of_nat k * (Timespec.tv_sec (Globals.interval_ts g) + 1) <= CInt.LONG_MAX ->
        Timespec.to_ns (Timespec.add_times k origin (Globals.interval_ts g))
        = Timespec.to_ns origin + Z.of_nat k * Timespec.to_ns (Globals.interval_ts g)).
Proof.
  intros Hprecise Hclock Herr Hout st.
  assert (Hcad : Loop.on_cadence g origin st).
  { unfold st, Loop.run_loop, Loop.enter. rewrite Hprecise, Hclock.
    destruct (Z.ltb_spec err 0); [lia |].
    apply main_loop_on_cadence; [exact Hprecise | |].
    - split; [reflexivity | split; [reflexivity |]].
      unfold Loop.sleeps_on_cadence. cbn [Loop.ls_log Loop.set_next_exec Loop.count_clock].
      replace (Events.sleep_deadlines (if Globals.debug g then _ else out))
        with (@nil Timespec.timespec) by (destruct (Globals.debug g); cbn; congruence).
      intros [| k] d Hnth; discriminate Hnth.
    - unfold Loop.slept_each_turn.
      cbn [Loop.ls_log Loop.ls_launches Loop.set_next_exec Loop.count_clock].
      replace (Events.sleep_deadlines (if Globals.debug g then _ else out))
        with (@nil Timespec.timespec) by (destruct (Globals.debug g); cbn; congruence).
      destruct (_ || _); reflexivity. }
  destruct Hcad as (A & B & C).
  split; [exact A | split; [exact B | split; [exact C |]]].
  intros k Ho Hi Hfit. apply (add_times_exact k origin _ Ho Hi Hfit).
Qed.

(** [repeat -p -i 1.5 job] from the origin 100.7 s: three launches, whose
    sleeps go to 102.2 s, 103.7 s and 105.2 s; the fuel runs out in the
    third sleep. *)
Lemma precise_deadlines_on_cadence_witness :
  let st := snd (Loop.run_loop Scenarios.cadence_config ["repeat"; "-p"; "-i"; "1.5"; "job"]%string
                               Scenarios.counting 3 []) in
  Loop.ls_clocks st = 1%nat
  /\ Loop.ls_launches st = 3%nat
  /\ rev (Events.sleep_deadlines (Loop.ls_log st))
     = [Timespec.mkTimespec 102 200000000; Timespec.mkTimespec 103 700000000;
        Timespec.mkTimespec 105 200000000]
  /\ Timespec.to_ns (Loop.ls_next_exec st)
     = Timespec.to_ns (Timespec.mkTimespec 100 700000000)
       + 3 * Timespec.to_ns (Timespec.mkTimespec 1 500000000).
Proof.
  intros st.
  destruct (precise_deadlines_on_cadence Scenarios.cadence_config
              ["repeat"; "-p"; "-i"; "1.5"; "job"]%string Scenarios.counting 3 []
              0 (Timespec.mkTimespec 100 700000000))
    as (Hclk & Hnext & _ & Hexact); try reflexivity.
  fold st in Hclk, Hnext.
  split; [exact Hclk | split; [reflexivity | split; [reflexivity |]]].
  rewrite Hnext.
  apply (Hexact 3%nat).
  - apply normalizedb_spec. reflexivity.
  - apply normalizedb_spec. reflexivity.
  - vm_compute. discriminate.
Defined.

(** ** Stop conditions *)

(** C4.  The stop-on-success check reads the exit-status byte without
    asking whether the child exited.  With [--untilsuccess] set and a child
    killed by [SIGKILL] (status word 9: no exit code) the check of line 254
    fires, because that byte is 0, and the process exits with status 0 after
    this one launch, although the child did not terminate normally with
    exit code 0. *)
Theorem stop_on_success_fires_on_signal_death {F : Parse.FloatOps} (fuel : nat) :
  Loop.check_status (Globals.set_exit_on_success true Globals.initial)
                    (WaitStatus.encode (WaitStatus.Signaled WaitStatus.SIGKILL false))
    = Some (Loop.StopOnSuccess, 0)
  /\ exists st,
       Main.main ["repeat"; "--untilsuccess"; "job"]%string
                 (Scenarios.killed_by WaitStatus.SIGKILL) (S fuel)
         = Some (Loop.Exited Loop.StopOnSuccess 0, st)
       /\ Loop.ls_launches st = 1%nat.
Proof.
  split; [reflexivity |].
  assert (Hparse : Parse.parse_arguments ["repeat"; "--untilsuccess"; "job"]%string
                   = Some (Parse.mkParse false 0 Parse.AtEnd
                             (Globals.set_command (Some ["j"; "o"; "b"; "000"]%char)
                                (Globals.set_cmd_arg_idx 2
                                   (Globals.set_exit_on_success true Globals.initial)))
                             []))
    by (vm_compute; reflexivity).
  unfold Main.main. rewrite Hparse.
  eexists. split; reflexivity.
Qed.

(** With [--untilsuccess] set and a child killed by [SIGINT], the process
    leaves through the stop-on-success check of line 254, not through the
    interrupt check of line 258: the interrupt check is not the first. *)
Lemma interrupt_check_is_not_first :
  Loop.check_status (Globals.set_exit_on_success true Globals.initial)
                    (WaitStatus.encode (WaitStatus.Signaled WaitStatus.SIGINT false))
    = Some (Loop.StopOnSuccess, 0)
  /\ Loop.check_status (Globals.set_exit_on_success true Globals.initial)
                       (WaitStatus.encode (WaitStatus.Signaled WaitStatus.SIGINT false))
     <> Some (Loop.ChildInterrupted, 0)
  /\ exists st,
       Main.main (F := Scenarios.whole_numbers) ["repeat"; "--untilsuccess"; "job"]%string
                 (Scenarios.killed_by WaitStatus.SIGINT) 1
         = Some (Loop.Exited Loop.StopOnSuccess 0, st).
Proof.
  split; [reflexivity | split; [discriminate |]].
  eexists. reflexivity.
Qed.

(** C5 (as amended).  When the command's status says it was killed by the
    interrupt or the quit signal, the process exits in that same turn with
    status 0, whatever the remaining count and the stop flags are.  The
    interrupt check comes after the stop-on-error and the stop-on-success
    checks and before the repeat count: for such a child the stop-on-error
    check does not fire, and when the stop-on-success flag is set it is
    that check which ends the process, with status 0 as well. *)
Theorem interrupted_child_ends_the_loop
  (g : Globals.globals) (argv : list string) (env : Loop.environment)
  (fuel : nat) (st : Loop.loop_state) (sig : Z) (core : bool) :
  WaitStatus.well_formed (WaitStatus.Signaled sig core) ->
  WaitStatus.is_interrupt (WaitStatus.Signaled sig core) = true ->
  Loop.run_command g env fuel (Loop.ls_launches st)
    = Loop.Returned (WaitStatus.encode (WaitStatus.Signaled sig core)) ->
  exists st',
    Loop.main_loop g argv env (S fuel) st
      = (Loop.Exited (if Globals.exit_on_success g
                      then Loop.StopOnSuccess else Loop.ChildInterrupted) 0, st')
    /\ Loop.ls_launches st' = S (Loop.ls_launches st).
Proof.
  intros Hwf Hint Hrun. cbn [Loop.main_loop]. unfold Loop.iteration.
  rewrite Hrun, (check_status_signal_death g sig core Hwf), Hint.
  destruct (Globals.exit_on_success g), (Globals.precise g);
    eexists; split; reflexivity.
Qed.

(** [repeat -t 5 job], no stop flag, and the first [job] dies of [SIGQUIT]:
    one launch, exit status 0. *)
Lemma interrupted_child_ends_the_loop_witness :
  exists st',
    Loop.main_loop (Scenarios.count_config 5) ["repeat"; "-t"; "5"; "job"]%string
                   (Scenarios.killed_by WaitStatus.SIGQUIT) 1
                   (Loop.mkState 5 (Timespec.mkTimespec 0 0) 0 0 [])
      = (Loop.Exited Loop.ChildInterrupted 0, st')
    /\ Loop.ls_launches st' = 1%nat.
Proof.
  apply (interrupted_child_ends_the_loop (Scenarios.count_config 5) _
           (Scenarios.killed_by WaitStatus.SIGQUIT) 0
           (Loop.mkState 5 (Timespec.mkTimespec 0 0) 0 0 []) WaitStatus.SIGQUIT false).
  - unfold WaitStatus.well_formed, WaitStatus.SIGQUIT. lia.
  - reflexivity.
  - reflexivity.
Defined.

(** ** Failures of the blocking calls *)

Section StuckSleep.
Import CInt Timespec WaitStatus Globals Events Loop.
Variable g : globals.
Variable argv : list string.
Variable env : environment.

(** A turn of the plain (shell, not precise) loop whose run passes the
    checks and whose sleep fails at every call: the turn never ends. *)
Lemma sleep_failure_blocks_the_turn fuel st now :
  use_exec g = false -> precise g = false ->
  tv_sec (interval_ts g) <> 0 ->
  check_status g (system_ret env (ls_launches st)) = None ->
  ls_times st <= 0 ->
  clock_ret env (ls_clocks st) = (0, now) ->
  (forall i, sleep_ret env (ls_launches st) i <> 0) ->
  exists st',
    main_loop g argv env (S fuel) st = (Running, st')
    /\ ls_launches st' = S (ls_launches st)
    /\ sleep_deadlines (ls_log st')
       = timespec_add now (interval_ts g) :: sleep_deadlines (ls_log st).
Proof.
  intros Hshell Hplain Hint Hpass Htimes Hclock Hfail.
  cbn [main_loop]. unfold iteration, run_command, pause, count_down.
  rewrite Hshell, Hplain, Hpass.
  cbn [count_launch log_event ls_times ls_clocks set_ls_times ls_launches negb].
  destruct (Z.ltb_spec 0 (ls_times st)); [lia |].
  destruct (Z.eqb_spec (tv_sec (interval_ts g)) 0); [contradiction |].
  cbn [negb orb]. rewrite Hclock. cbn [Z.ltb Z.compare].
  rewrite (sleep_loop_never_gives_up env (ls_launches st) fuel 0 Hfail).
  eexists. split; [reflexivity | split; [reflexivity |]].
  cbn [ls_log ls_next_exec log_event set_next_exec count_clock set_ls_times count_launch].
  unfold launch_event. rewrite Hshell. reflexivity.
Qed.

End StuckSleep.

(** C9.  A [clock_nanosleep] that fails with an error other than an
    interruption is not fatal: it is called again and again.  Here the
    error is [EINVAL], as for the deadline before the clock's zero that
    [repeat -i -1000d job] asks for 5000 s after boot: the process runs
    [job] once and then never exits, whatever the fuel. *)
Theorem failing_sleep_is_retried_forever (fuel : nat) :
  Loop.sleep_loop
    (Scenarios.sleepless (fun _ => WaitStatus.NormalExit 0) (Timespec.mkTimespec 5000 0)
                         WaitStatus.EINVAL) 0 fuel 0 = None
  /\ exists st,
       Main.main (F := Scenarios.whole_numbers) ["repeat"; "-i"; "-1000d"; "job"]%string
         (Scenarios.sleepless (fun _ => WaitStatus.NormalExit 0) (Timespec.mkTimespec 5000 0)
                              WaitStatus.EINVAL)
         (S fuel)
       = Some (Loop.Running, st)
       /\ Loop.ls_launches st = 1%nat
       /\ Events.sleep_deadlines (Loop.ls_log st) = [Timespec.mkTimespec (-86395000) 0].
Proof.
  split.
  - apply sleep_loop_never_gives_up. intros i. cbn. discriminate.
  - assert (Hparse : Parse.parse_arguments (F := Scenarios.whole_numbers)
                       ["repeat"; "-i"; "-1000d"; "job"]%string
                     = Some (Parse.mkParse false 0 Parse.AtEnd Scenarios.past_config []))
      by (vm_compute; reflexivity).
    unfold Main.main. rewrite Hparse. cbn [Parse.exit_now Parse.config Parse.output].
    destruct (sleep_failure_blocks_the_turn Scenarios.past_config
                ["repeat"; "-i"; "-1000d"; "job"]%string
                (Scenarios.sleepless (fun _ => WaitStatus.NormalExit 0)
                   (Timespec.mkTimespec 5000 0) WaitStatus.EINVAL)
                fuel (Loop.mkState 0 (Timespec.mkTimespec 0 0) 0 0 [])
                (Timespec.mkTimespec 5000 0))
      as (st & Hrun & Hone & Hdead);
      try reflexivity; try (cbn; discriminate); try (cbn; lia).
    exists st. split; [| split; [exact Hone | exact Hdead]].
    f_equal. exact Hrun.
Qed.

(** What the same loop does with an interruption: with every [wait] and
    every [clock_nanosleep] interrupted twice before it completes,
    [repeat -x -t 2 -i 3 job "a;b"] runs its two turns as if nothing had
    happened, and the program gets its arguments as they are. *)
Example interruptions_are_retried :
  exists st,
    Main.main (F := Scenarios.whole_numbers)
              ["repeat"; "-x"; "-t"; "2"; "-i"; "3"; "job"; "a;b"]%string
              (Scenarios.interrupted 2 (fun _ => WaitStatus.NormalExit 7)
                                     (Timespec.mkTimespec 50 0)) 6
      = Some (Loop.Exited Loop.CountExhausted 7, st)
    /\ Loop.ls_log st
       = [Events.EvFork ["job"; "a;b"]%string;
          Events.EvSleep (Timespec.mkTimespec 53 0);
          Events.EvFork ["job"; "a;b"]%string].
Proof. eexists. split; [vm_compute; reflexivity | reflexivity]. Qed.

(** And with a failure of [wait] that is not an interruption: the process
    dies at once, with a message and status 1. *)
Example wait_failure_is_fatal :
  exists st,
    Main.main (F := Scenarios.whole_numbers) ["repeat"; "-x"; "job"]%string
              Scenarios.childless 4
      = Some (Loop.Exited Loop.FatalWait 1, st)
    /\ Loop.ls_log st
       = [Events.EvStderr Events.MsgFatalWait; Events.EvFork ["job"%string]].
Proof. eexists. split; [vm_compute; reflexivity | reflexivity]. Qed.

(** ** End to end *)

(** [repeat -t 3 job] with exit codes 1, 2, 3: three runs, exit status 3. *)
Example three_runs_end_to_end :
  exists st,
    Main.main (F := Scenarios.whole_numbers) ["repeat"; "-t"; "3"; "job"]%string
              Scenarios.counting 3
      = Some (Loop.Exited Loop.CountExhausted 3, st)
    /\ Loop.ls_log st
       = [Events.EvSystem (Some "job"%string); Events.EvSystem (Some "job"%string);
          Events.EvSystem (Some "job"%string)].
Proof. eexists. split; [vm_compute; reflexivity | reflexivity]. Qed.

(** The configurations of the examples are what the arguments parse to. *)
Example count_config_is_parsed :
  Parse.parse_arguments (F := Scenarios.whole_numbers) ["repeat"; "-t"; "3"; "job"]%string
  = Some (Parse.mkParse false 0 Parse.AtEnd (Scenarios.count_config 3) []).
Proof. vm_compute. reflexivity. Qed.

(** [--untilerr] with a job that fails the third time. *)
Example stop_on_third_failure :
  exists st,
    Main.main (F := Scenarios.whole_numbers) ["repeat"; "--untilerr"; "job"]%string
              (Scenarios.steady
                 (fun n => WaitStatus.NormalExit (if (n =? 2)%nat then 9 else 0))
                 (Timespec.mkTimespec 1 0)) 10
      = Some (Loop.Exited Loop.StopOnError 9, st)
    /\ Loop.ls_launches st = 3%nat.
Proof. eexists. split; [vm_compute; reflexivity | reflexivity]. Qed.

(* ================================================================== *)
(** * Further properties of [timespec_add], [main] and [parse_arguments] *)
(* ================================================================== *)

Section TimespecEdges.
Import CInt Timespec.

(** An instant, with the whole seconds held in [tv_nsec] counted as
    seconds. *)
Lemma to_ns_quot_rem t :
  to_ns t = (tv_sec t + Z.quot (tv_nsec t) NS_IN_SEC) * NS_IN_SEC
            + Z.rem (tv_nsec t) NS_IN_SEC.
Proof.
  unfold to_ns. pose proof (Z.quot_rem' (tv_nsec t) NS_IN_SEC). lia.
Qed.

(** The instant of a sum, as long as the seconds fit: [nsecs] is what
    the conversion to [uint32_t] made of the two remainders. *)
Lemma timespec_add_to_ns_raw a b :
  let nsecs := to_uint32 (Z.rem (tv_nsec a) NS_IN_SEC + Z.rem (tv_nsec b) NS_IN_SEC) in
  let secs := tv_sec a + tv_sec b + Z.quot (tv_nsec a) NS_IN_SEC
              + Z.quot (tv_nsec b) NS_IN_SEC in
  LONG_MIN <= secs + nsecs / NS_IN_SEC <= LONG_MAX ->
  tv_sec (timespec_add a b) = secs + nsecs / NS_IN_SEC
  /\ to_ns (timespec_add a b) = secs * NS_IN_SEC + nsecs.
Proof.
  intros nsecs secs Hfit. unfold timespec_add, to_ns. cbn [tv_sec tv_nsec].
  fold nsecs. fold secs. rewrite to_long_small by exact Hfit.
  pose proof (Z.div_mod nsecs NS_IN_SEC ltac:(discriminate)). lia.
Qed.

End TimespecEdges.

(** X1.  [timespec_add] also takes operands whose nanosecond field holds one
    second or more: for non-negative fields (and seconds that a [time_t] can
    hold) the result is normalized - its nanoseconds are below 1,000,000,000 -
    and it denotes exactly the sum of the two instants. *)
Theorem timespec_add_folds_whole_seconds (a b : Timespec.timespec) :
  0 <= Timespec.tv_sec a -> 0 <= Timespec.tv_sec b ->
  0 <= Timespec.tv_nsec a -> 0 <= Timespec.tv_nsec b ->
  Timespec.tv_sec a + Timespec.tv_sec b
    + Timespec.tv_nsec a / Timespec.NS_IN_SEC
    + Timespec.tv_nsec b / Timespec.NS_IN_SEC + 1 <= CInt.LONG_MAX ->
  Timespec.normalized (Timespec.timespec_add a b)
  /\ Timespec.to_ns (Timespec.timespec_add a b) = Timespec.to_ns a + Timespec.to_ns b.
Proof.
  intros Hsa Hsb Ha Hb Hfit.
  rewrite <- !Z.quot_div_nonneg in Hfit by (unfold Timespec.NS_IN_SEC; lia).
  pose proof (Z.rem_bound_pos (Timespec.tv_nsec a) Timespec.NS_IN_SEC Ha ltac:(reflexivity)) as Ra.
  pose proof (Z.rem_bound_pos (Timespec.tv_nsec b) Timespec.NS_IN_SEC Hb ltac:(reflexivity)) as Rb.
  pose proof (Z.quot_pos (Timespec.tv_nsec a) Timespec.NS_IN_SEC Ha ltac:(reflexivity)) as Qa.
  pose proof (Z.quot_pos (Timespec.tv_nsec b) Timespec.NS_IN_SEC Hb ltac:(reflexivity)) as Qb.
  assert (Hu : CInt.to_uint32 (Z.rem (Timespec.tv_nsec a) Timespec.NS_IN_SEC
                               + Z.rem (Timespec.tv_nsec b) Timespec.NS_IN_SEC)
               = Z.rem (Timespec.tv_nsec a) Timespec.NS_IN_SEC
                 + Z.rem (Timespec.tv_nsec b) Timespec.NS_IN_SEC).
  { apply to_uint32_small. unfold Timespec.NS_IN_SEC in *. lia. }
  assert (Hq : 0 <= (Z.rem (Timespec.tv_nsec a) Timespec.NS_IN_SEC
                     + Z.rem (Timespec.tv_nsec b) Timespec.NS_IN_SEC) / Timespec.NS_IN_SEC <= 1).
  { split; [apply Z.div_pos; unfold Timespec.NS_IN_SEC in *; lia |].
    apply Z.lt_succ_r. apply Z.div_lt_upper_bound; unfold Timespec.NS_IN_SEC in *; lia. }
  destruct (timespec_add_to_ns_raw a b) as [Hsec Hns].
  - rewrite Hu. unfold CInt.LONG_MIN, CInt.LONG_MAX in *. lia.
  - rewrite Hu in Hsec, Hns. split.
    + split; [rewrite Hsec; lia | apply timespec_add_nsec_range].
    + rewrite Hns, (to_ns_quot_rem a), (to_ns_quot_rem b). lia.
Qed.

(** 1 s + 2,500,000,000 ns and 0.7 s: 4.2 s. *)
Lemma timespec_add_folds_whole_seconds_witness :
  Timespec.timespec_add (Timespec.mkTimespec 1 2500000000) (Timespec.mkTimespec 0 700000000)
  = Timespec.mkTimespec 4 200000000
  /\ Timespec.to_ns (Timespec.timespec_add (Timespec.mkTimespec 1 2500000000)
                                           (Timespec.mkTimespec 0 700000000))
     = Timespec.to_ns (Timespec.mkTimespec 1 2500000000)
       + Timespec.to_ns (Timespec.mkTimespec 0 700000000).
Proof.
  split; [reflexivity |].
  apply (timespec_add_folds_whole_seconds (Timespec.mkTimespec 1 2500000000)
           (Timespec.mkTimespec 0 700000000)).
  - cbn. lia.
  - cbn. lia.
  - cbn. lia.
  - cbn. lia.
  - vm_compute. discriminate.
Defined.

(** X2.  The nanoseconds are added in a [uint32_t]: when the two nanosecond
    fields (each within one second of zero) add up to a negative number - as
    they can when the interval has a negative fraction, for [-i -0.5] - the
    sum wraps around, and the result is not the sum of the two instants but
    2^32 ns (about 4.29 s) later, with 2 to 4 seconds carried into [tv_sec]. *)
Theorem timespec_add_negative_nanoseconds_wrap (a b : Timespec.timespec) :
  0 <= Timespec.tv_sec a -> 0 <= Timespec.tv_sec b ->
  - Timespec.NS_IN_SEC < Timespec.tv_nsec a < Timespec.NS_IN_SEC ->
  - Timespec.NS_IN_SEC < Timespec.tv_nsec b < Timespec.NS_IN_SEC ->
  Timespec.tv_nsec a + Timespec.tv_nsec b < 0 ->
  Timespec.tv_sec a + Timespec.tv_sec b + 4 <= CInt.LONG_MAX ->
  Timespec.to_ns (Timespec.timespec_add a b)
  = Timespec.to_ns a + Timespec.to_ns b + 2 ^ 32
  /\ 2 <= Timespec.tv_sec (Timespec.timespec_add a b)
          - (Timespec.tv_sec a + Timespec.tv_sec b) <= 4.
Proof.
  intros Hsa Hsb Ha Hb Hneg Hfit.
  assert (Hra : Z.rem (Timespec.tv_nsec a) Timespec.NS_IN_SEC = Timespec.tv_nsec a).
  { apply Z.rem_small_iff; [discriminate |]. unfold Timespec.NS_IN_SEC in *. lia. }
  assert (Hrb : Z.rem (Timespec.tv_nsec b) Timespec.NS_IN_SEC = Timespec.tv_nsec b).
  { apply Z.rem_small_iff; [discriminate |]. unfold Timespec.NS_IN_SEC in *. lia. }
  assert (Hqa : Z.quot (Timespec.tv_nsec a) Timespec.NS_IN_SEC = 0).
  { apply Z.quot_small_iff; [discriminate |]. unfold Timespec.NS_IN_SEC in *. lia. }
  assert (Hqb : Z.quot (Timespec.tv_nsec b) Timespec.NS_IN_SEC = 0).
  { apply Z.quot_small_iff; [discriminate |]. unfold Timespec.NS_IN_SEC in *. lia. }
  set (r := Timespec.tv_nsec a + Timespec.tv_nsec b) in *.
  assert (Hr : - 2000000000 < r < 0).
  { unfold r, Timespec.NS_IN_SEC in *. lia. }
  assert (Hu : CInt.to_uint32 r = r + 2 ^ 32).
  { unfold CInt.to_uint32, CInt.wrap_unsigned. symmetry.
    apply (Z.mod_unique _ _ (-1)); lia. }
  assert (Hq : 2 <= (r + 2 ^ 32) / Timespec.NS_IN_SEC <= 4).
  { split; [apply Z.div_le_lower_bound; unfold Timespec.NS_IN_SEC; lia |].
    apply Z.lt_succ_r. apply Z.div_lt_upper_bound; unfold Timespec.NS_IN_SEC; lia. }
  destruct (timespec_add_to_ns_raw a b) as [Hsec Hns];
    rewrite ?Hra, ?Hrb, ?Hqa, ?Hqb; fold r; rewrite ?Hu.
  - unfold CInt.LONG_MIN, CInt.LONG_MAX in *. lia.
  - rewrite Hra, Hrb, Hqa, Hqb in Hsec, Hns. fold r in Hsec, Hns. rewrite Hu in Hsec, Hns.
    split; [| lia].
    rewrite Hns. unfold Timespec.to_ns, r. lia.
Qed.

(** 100.2 s and an interval of -0.5 s: not 99.7 s but 103.994967296 s. *)
Lemma timespec_add_negative_nanoseconds_wrap_witness :
  Timespec.timespec_add (Timespec.mkTimespec 100 200000000) (Timespec.mkTimespec 0 (-500000000))
  = Timespec.mkTimespec 103 994967296
  /\ Timespec.to_ns (Timespec.timespec_add (Timespec.mkTimespec 100 200000000)
                                           (Timespec.mkTimespec 0 (-500000000)))
     = Timespec.to_ns (Timespec.mkTimespec 100 200000000)
       + Timespec.to_ns (Timespec.mkTimespec 0 (-500000000)) + 2 ^ 32.
Proof.
  split; [reflexivity |].
  apply (timespec_add_negative_nanoseconds_wrap (Timespec.mkTimespec 100 200000000)
           (Timespec.mkTimespec 0 (-500000000))).
  - cbn. lia.
  - cbn. lia.
  - vm_compute. split; reflexivity.
  - vm_compute. split; reflexivity.
  - vm_compute. reflexivity.
  - vm_compute. discriminate.
Defined.

Section Turns.
Import CInt Timespec WaitStatus Globals Events Loop Views.
Variable g : globals.
Variable argv : list string.
Variable env : environment.

Lemma sleep_deadlines_launch_event log :
  sleep_deadlines (launch_event g argv :: log) = sleep_deadlines log.
Proof. unfold launch_event. destruct (use_exec g); reflexivity. Qed.

(** A pause that completes: one sleep when there is an interval, and
    nothing else changes. *)
Lemma pause_passes fuel n st k :
  clock_works env -> sleep_loop env n fuel 0 = Some k ->
  exists st', pause g env fuel n st = Next st'
              /\ ls_times st' = ls_times st
              /\ ls_launches st' = ls_launches st
              /\ launch_count (ls_log st') = launch_count (ls_log st)
              /\ List.length (sleep_deadlines (ls_log st'))
                 = (List.length (sleep_deadlines (ls_log st))
                    + if pauses g then 1 else 0)%nat.
Proof.
  intros Hclock Hsleep. unfold pause, pauses.
  destruct (negb (tv_sec (interval_ts g) =? 0) || negb (tv_nsec (interval_ts g) =? 0)).
  - destruct (negb (precise g)).
    + specialize (Hclock (ls_clocks st)).
      destruct (clock_ret env (ls_clocks st)) as [err now]. cbn in Hclock.
      destruct (Z.ltb_spec err 0); [lia |].
      rewrite Hsleep. eexists. split; [reflexivity |]. cbn. repeat split; lia.
    + rewrite Hsleep. eexists. split; [reflexivity |]. cbn. repeat split; lia.
  - exists st. repeat split; lia.
Qed.

(** A turn whose run passes the checks and is not the last of the count. *)
Lemma turn_passes st ret :
  clock_works env -> sleep_completes env (ls_launches st) ->
  child_returns g env (ls_launches st) ret -> check_status g ret = None ->
  ls_times st <> 1 ->
  exists M st',
    (forall f, (M <= f)%nat -> iteration g argv env f st = Next st')
    /\ ls_launches st' = S (ls_launches st)
    /\ ls_times st' = (if 0 <? ls_times st then ls_times st - 1 else ls_times st)
    /\ launch_count (ls_log st') = S (launch_count (ls_log st))
    /\ List.length (sleep_deadlines (ls_log st'))
       = (List.length (sleep_deadlines (ls_log st)) + if pauses g then 1 else 0)%nat.
Proof.
  intros Hclock (f2 & k & Hsleep) (f1 & Hrun) Hpass Hnot1.
  set (st1 := if precise g
              then set_next_exec (timespec_add (ls_next_exec st) (interval_ts g)) st
              else st).
  set (st2 := count_launch (log_event (launch_event g argv) st1)).
  set (t := if 0 <? ls_times st then ls_times st - 1 else ls_times st).
  destruct (pause_passes f2 (ls_launches st) (set_ls_times t st2) k Hclock Hsleep)
    as (st4 & Hpause & Ht4 & Hl4 & Hc4 & Hs4).
  exists (f1 + f2)%nat, st4.
  assert (Ht2 : ls_times st2 = ls_times st)
    by (unfold st2, st1; destruct (precise g); reflexivity).
  split; [| repeat split].
  - intros f Hf. unfold iteration.
    rewrite (run_command_more_fuel g env f1 f _ _ Hrun) by (discriminate || lia).
    rewrite Hpass. fold st1. fold st2. unfold count_down. rewrite Ht2. fold t.
    assert (Hlast : (if 0 <? ls_times st then (t, ls_times st - 1 =? 0) else (t, false))
                    = (t, false)).
    { destruct (Z.ltb_spec 0 (ls_times st)); [| reflexivity].
      destruct (Z.eqb_spec (ls_times st - 1) 0); [lia | reflexivity]. }
    replace (if 0 <? ls_times st then (ls_times st - 1, ls_times st - 1 =? 0)
             else (ls_times st, false)) with (t, false).
    2: { rewrite <- Hlast. unfold t. destruct (0 <? ls_times st); reflexivity. }
    apply (pause_more_fuel g env f2); [exact Hpause | discriminate | lia].
  - rewrite Hl4. unfold st2, st1. destruct (precise g); reflexivity.
  - rewrite Ht4. reflexivity.
  - rewrite Hc4. unfold st2. cbn [ls_log set_ls_times count_launch log_event].
    rewrite launch_count_cons, is_launch_launch_event.
    unfold st1. destruct (precise g); reflexivity.
  - rewrite Hs4. unfold st2. cbn [ls_log set_ls_times count_launch log_event].
    rewrite sleep_deadlines_launch_event.
    unfold st1. destruct (precise g); reflexivity.
Qed.

(** [k] such turns in a row take the loop [k] launches further. *)
Lemma turns_pass k : forall st,
  clock_works env -> (forall n, sleep_completes env n) ->
  (forall i, (i < k)%nat ->
     exists ret, child_returns g env (ls_launches st + i) ret
                 /\ check_status g ret = None) ->
  ls_times st <= 0 \/ Z.of_nat k < ls_times st ->
  exists M st',
    (forall f, (M <= f)%nat ->
       main_loop g argv env (k + f) st = main_loop g argv env f st')
    /\ ls_launches st' = (ls_launches st + k)%nat
    /\ ls_times st' = (if 0 <? ls_times st then ls_times st - Z.of_nat k else ls_times st)
    /\ launch_count (ls_log st') = (launch_count (ls_log st) + k)%nat
    /\ List.length (sleep_deadlines (ls_log st'))
       = (List.length (sleep_deadlines (ls_log st)) + if pauses g then k else 0)%nat.
Proof.
  induction k as [| k IH]; intros st Hclock Hsleep Hkids Htimes.
  - exists 0%nat, st. repeat split; try lia.
    + destruct (0 <? ls_times st); lia.
    + destruct (pauses g); lia.
  - destruct (Hkids 0%nat ltac:(lia)) as (ret & Hret & Hpass).
    rewrite Nat.add_0_r in Hret.
    assert (Hnot1 : ls_times st <> 1) by lia.
    destruct (turn_passes st ret Hclock (Hsleep _) Hret Hpass Hnot1)
      as (M0 & st1 & Hturn & Hl1 & Ht1 & Hc1 & Hs1).
    destruct (IH st1 Hclock Hsleep) as (M1 & st' & Hrest & Hl' & Ht' & Hc' & Hs').
    + intros i Hi. rewrite Hl1.
      replace (S (ls_launches st) + i)%nat with (ls_launches st + S i)%nat by lia.
      apply Hkids. lia.
    + rewrite Ht1. destruct (Z.ltb_spec 0 (ls_times st)); lia.
    + exists (Nat.max M0 M1), st'. split; [| repeat split].
      * intros f Hf. cbn [Nat.add main_loop].
        rewrite (Hturn (k + f)%nat) by lia. apply Hrest. lia.
      * rewrite Hl', Hl1. lia.
      * rewrite Ht', Ht1.
        destruct (0 <? ls_times st) eqn:E0; cbv iota; [| rewrite E0; reflexivity].
        apply Z.ltb_lt in E0.
        destruct (Z.ltb_spec 0 (ls_times st - 1)); lia.
      * rewrite Hc', Hc1. lia.
      * rewrite Hs', Hs1. destruct (pauses g); lia.
Qed.

(** A turn whose run fails a check ends the process in that turn. *)
Lemma turn_stops fuel st ret why c :
  run_command g env fuel (ls_launches st) = Returned ret ->
  check_status g ret = Some (why, c) ->
  exists st',
    iteration g argv env fuel st = Halt (Exited why c) st'
    /\ ls_launches st' = S (ls_launches st)
    /\ launch_count (ls_log st') = S (launch_count (ls_log st))
    /\ sleep_deadlines (ls_log st') = sleep_deadlines (ls_log st)
    /\ ls_log st' = ((if ret <? 0 then [EvStderr MsgCouldntRun] else [])
                     ++ launch_event g argv :: ls_log st)%list.
Proof.
  intros Hrun Hcheck. unfold iteration. rewrite Hrun, Hcheck.
  assert (Hwhy : why = LaunchFailed <-> (ret <? 0) = true).
  { unfold check_status in Hcheck. destruct (ret <? 0).
    - inversion Hcheck. tauto.
    - split; [| discriminate]. intros ->.
      repeat match type of Hcheck with
             | (if ?b then _ else _) = _ => destruct b
             end; discriminate. }
  destruct (ret <? 0) eqn:Hneg.
  - assert (why = LaunchFailed) by tauto. subst why.
    eexists. split; [reflexivity |].
    destruct (precise g);
      cbn [ls_launches ls_log log_event count_launch set_next_exec app];
      rewrite !launch_count_cons, is_launch_launch_event;
      change (sleep_deadlines (EvStderr MsgCouldntRun :: ?l)) with (sleep_deadlines l);
      rewrite sleep_deadlines_launch_event; repeat split; reflexivity.
  - assert (why <> LaunchFailed) by (intros E; apply Hwhy in E; discriminate).
    exists (count_launch (log_event (launch_event g argv)
              (if precise g
               then set_next_exec (timespec_add (ls_next_exec st) (interval_ts g)) st
               else st))).
    split; [destruct why; congruence |].
    destruct (precise g);
      cbn [ls_launches ls_log log_event count_launch set_next_exec app];
      rewrite !launch_count_cons, is_launch_launch_event, sleep_deadlines_launch_event;
      repeat split; reflexivity.
Qed.

(** The turn that uses up the count. *)
Lemma turn_exhausts fuel st ret :
  run_command g env fuel (ls_launches st) = Returned ret ->
  check_status g ret = None -> ls_times st = 1 ->
  exists st',
    iteration g argv env fuel st = Halt (Exited CountExhausted (WEXITSTATUS ret)) st'
    /\ ls_launches st' = S (ls_launches st)
    /\ ls_times st' = 0
    /\ launch_count (ls_log st') = S (launch_count (ls_log st))
    /\ sleep_deadlines (ls_log st') = sleep_deadlines (ls_log st).
Proof.
  intros Hrun Hcheck Hone. unfold iteration. rewrite Hrun, Hcheck.
  unfold count_down.
  replace (ls_times (count_launch (log_event (launch_event g argv)
             (if precise g
              then set_next_exec (timespec_add (ls_next_exec st) (interval_ts g)) st
              else st)))) with 1
    by (destruct (precise g); symmetry; exact Hone).
  cbn [Z.ltb Z.compare Z.sub Z.eqb Z.add Z.opp Z.pos_sub].
  eexists. split; [reflexivity |].
  destruct (precise g);
    cbn [ls_launches ls_log ls_times log_event count_launch set_ls_times set_next_exec];
    rewrite launch_count_cons, is_launch_launch_event, sleep_deadlines_launch_event;
    repeat split; reflexivity.
Qed.

(** The loop is entered with nothing launched when the clock works. *)
Lemma enter_next out :
  clock_works env ->
  exists st0, enter g env out = Next st0
              /\ ls_launches st0 = 0%nat /\ ls_times st0 = times g
              /\ launch_count (ls_log st0) = launch_count out
              /\ sleep_deadlines (ls_log st0) = sleep_deadlines out.
Proof.
  intros Hclock. unfold enter.
  assert (Hc : launch_count (if debug g then EvStdout MsgDebugDump :: out else out)
               = launch_count out)
    by (destruct (debug g); [rewrite launch_count_cons |]; reflexivity).
  assert (Hs : sleep_deadlines (if debug g then EvStdout MsgDebugDump :: out else out)
               = sleep_deadlines out)
    by (destruct (debug g); reflexivity).
  destruct (precise g).
  - specialize (Hclock 0%nat). destruct (clock_ret env 0) as [err now]. cbn in Hclock.
    destruct (Z.ltb_spec err 0); [lia |].
    eexists. split; [reflexivity |]. cbn. auto.
  - eexists. split; [reflexivity |]. cbn. auto.
Qed.

(** [k] turns that pass, then one that ends the process: the process ends
    there, with [k + 1] launches, given enough fuel. *)
Lemma runs_then_halt k st why c :
  clock_works env -> (forall n, sleep_completes env n) ->
  (forall i, (i < k)%nat ->
     exists ret, child_returns g env (ls_launches st + i) ret
                 /\ check_status g ret = None) ->
  ls_times st <= 0 \/ Z.of_nat k < ls_times st ->
  (forall stk, ls_launches stk = (ls_launches st + k)%nat ->
     ls_times stk = (if 0 <? ls_times st then ls_times st - Z.of_nat k else ls_times st) ->
     exists f1 st',
       (forall f, (f1 <= f)%nat ->
          iteration g argv env f stk = Halt (Exited why c) st')
       /\ ls_launches st' = S (ls_launches stk)
       /\ launch_count (ls_log st') = S (launch_count (ls_log stk))
       /\ sleep_deadlines (ls_log st') = sleep_deadlines (ls_log stk)) ->
  exists fuel st',
    (forall fuel', (fuel <= fuel')%nat ->
       main_loop g argv env fuel' st = (Exited why c, st'))
    /\ ls_launches st' = (ls_launches st + S k)%nat
    /\ launch_count (ls_log st') = (launch_count (ls_log st) + S k)%nat
    /\ List.length (sleep_deadlines (ls_log st'))
       = (List.length (sleep_deadlines (ls_log st)) + if pauses g then k else 0)%nat.
Proof.
  intros Hclock Hsleep Hkids Htimes Hlast.
  destruct (turns_pass k st Hclock Hsleep Hkids Htimes)
    as (M & stk & Hrun & Hlk & Htk & Hck & Hsk).
  destruct (Hlast stk Hlk Htk) as (f1 & st' & Hhalt & Hl' & Hc' & Hs').
  exists (k + Nat.max M (S f1))%nat, st'. split; [| repeat split].
  - intros fuel' Hle.
    replace fuel' with (k + (fuel' - k))%nat by lia.
    rewrite Hrun by lia.
    destruct (fuel' - k)%nat as [| f] eqn:E; [lia |].
    cbn [main_loop]. rewrite Hhalt by lia. reflexivity.
  - rewrite Hl', Hlk. lia.
  - rewrite Hc', Hck. lia.
  - rewrite Hs', Hsk. reflexivity.
Qed.

End Turns.

Section Stops.
Import CInt Timespec WaitStatus Globals Events Loop Views.
Variable g : globals.
Variable argv : list string.
Variable env : environment.

(** The state a halting turn leaves does not depend on the fuel. *)
Lemma halting_turn st ret why c :
  child_returns g env (ls_launches st) ret ->
  check_status g ret = Some (why, c) ->
  exists f1 st',
    (forall f, (f1 <= f)%nat -> iteration g argv env f st = Halt (Exited why c) st')
    /\ ls_launches st' = S (ls_launches st)
    /\ launch_count (ls_log st') = S (launch_count (ls_log st))
    /\ sleep_deadlines (ls_log st') = sleep_deadlines (ls_log st).
Proof.
  intros (f1 & Hrun) Hcheck.
  destruct (turn_stops g argv env f1 st ret why c Hrun Hcheck)
    as (st' & Hhalt & Hl & Hc & Hs & _).
  exists f1, st'. split; [| auto].
  intros f Hf. apply (iteration_more_fuel g argv env f1 f st _ Hhalt); [discriminate | exact Hf].
Qed.

Lemma exhausting_turn st ret :
  child_returns g env (ls_launches st) ret ->
  check_status g ret = None -> ls_times st = 1 ->
  exists f1 st',
    (forall f, (f1 <= f)%nat ->
       iteration g argv env f st = Halt (Exited CountExhausted (WEXITSTATUS ret)) st')
    /\ ls_launches st' = S (ls_launches st)
    /\ launch_count (ls_log st') = S (launch_count (ls_log st))
    /\ sleep_deadlines (ls_log st') = sleep_deadlines (ls_log st).
Proof.
  intros (f1 & Hrun) Hcheck Hone.
  destruct (turn_exhausts g argv env f1 st ret Hrun Hcheck Hone)
    as (st' & Hhalt & Hl & _ & Hc & Hs).
  exists f1, st'. split; [| auto].
  intros f Hf. apply (iteration_more_fuel g argv env f1 f st _ Hhalt); [discriminate | exact Hf].
Qed.

(** From the entry into the loop: [k] runs that pass, then one that ends
    the process. *)
Lemma run_loop_halts_after k out why c :
  clock_works env -> (forall n, sleep_completes env n) ->
  (forall i, (i < k)%nat ->
     exists ret, child_returns g env i ret /\ check_status g ret = None) ->
  times g <= 0 \/ Z.of_nat k < times g ->
  (forall stk, ls_launches stk = k ->
     ls_times stk = (if 0 <? times g then times g - Z.of_nat k else times g) ->
     exists f1 st',
       (forall f, (f1 <= f)%nat -> iteration g argv env f stk = Halt (Exited why c) st')
       /\ ls_launches st' = S (ls_launches stk)
       /\ launch_count (ls_log st') = S (launch_count (ls_log stk))
       /\ sleep_deadlines (ls_log st') = sleep_deadlines (ls_log stk)) ->
  exists fuel st,
    (forall fuel', (fuel <= fuel')%nat ->
       run_loop g argv env fuel' out = (Exited why c, st))
    /\ ls_launches st = S k
    /\ launch_count (ls_log st) = (launch_count out + S k)%nat
    /\ List.length (sleep_deadlines (ls_log st))
       = (List.length (sleep_deadlines out) + if pauses g then k else 0)%nat.
Proof.
  intros Hclock Hsleep Hkids Htimes Hlast.
  destruct (enter_next g env out Hclock) as (st0 & Henter & Hl0 & Ht0 & Hc0 & Hs0).
  destruct (runs_then_halt g argv env k st0 why c Hclock Hsleep)
    as (fuel & st & Hrun & Hl & Hc & Hs).
  - intros i Hi. rewrite Hl0. apply Hkids. exact Hi.
  - rewrite Ht0. exact Htimes.
  - intros stk Hlk Htk. rewrite Hl0 in Hlk. rewrite Ht0 in Htk. apply Hlast; assumption.
  - exists fuel, st. unfold run_loop. rewrite Henter.
    rewrite Hl0 in Hl. rewrite Hc0 in Hc. rewrite Hs0 in Hs.
    split; [exact Hrun | split; [exact Hl | split; [exact Hc | exact Hs]]].
Qed.

End Stops.

(** X3.  With the stop-on-error flag set (and the stop-on-success flag
    unset): the runs that exit with code 0 pass, and the first run that exits
    with another code [c] ends the process, whose exit status is [c], after
    just that many launches.  (The count does not run out before, the clock
    works and every sleep comes to an end.) *)
Theorem until_error_stops_at_first_failure
  (g : Globals.globals) (argv : list string) (env : Loop.environment)
  (out : list Events.event) (k : nat) (c : Z) :
  Globals.exit_on_error g = true -> Globals.exit_on_success g = false ->
  Globals.times g <= 0 \/ Z.of_nat k < Globals.times g ->
  (forall i, (i < k)%nat ->
     Loop.child_returns g env i (WaitStatus.encode (WaitStatus.NormalExit 0))) ->
  0 < c <= 255 ->
  Loop.child_returns g env k (WaitStatus.encode (WaitStatus.NormalExit c)) ->
  Loop.clock_works env -> (forall n, Loop.sleep_completes env n) ->
  exists fuel st,
    (forall fuel', (fuel <= fuel')%nat ->
       Loop.run_loop g argv env fuel' out = (Loop.Exited Loop.StopOnError c, st))
    /\ Loop.ls_launches st = S k
    /\ Events.launch_count (Loop.ls_log st) = (Events.launch_count out + S k)%nat.
Proof.
  intros Herr Hsucc Htimes Hkids Hc Hlast Hclock Hsleep.
  destruct (run_loop_halts_after g argv env k out Loop.StopOnError c Hclock Hsleep)
    as (fuel & st & Hrun & Hl & Hn & _).
  - intros i Hi. eexists. split; [apply Hkids; exact Hi |].
    rewrite check_status_normal_exit by (cbn; lia).
    rewrite Hsucc. reflexivity.
  - exact Htimes.
  - intros stk Hlk _.
    apply (halting_turn g argv env stk (WaitStatus.encode (WaitStatus.NormalExit c))).
    + rewrite Hlk. exact Hlast.
    + rewrite check_status_normal_exit by (cbn; lia).
      rewrite Herr. destruct (Z.eqb_spec c 0); [lia | reflexivity].
  - exists fuel, st. auto.
Qed.

(** [repeat -e job] with a [job] that exits with 0, 0 and then 9: three runs,
    exit status 9. *)
Lemma until_error_stops_at_first_failure_witness :
  exists fuel st,
    (forall fuel', (fuel <= fuel')%nat ->
       Loop.run_loop Scenarios.until_error_config ["repeat"; "-e"; "job"]%string
         (Scenarios.steady
            (fun n => WaitStatus.NormalExit (if (n =? 2)%nat then 9 else 0))
            (Timespec.mkTimespec 1 0)) fuel' []
       = (Loop.Exited Loop.StopOnError 9, st))
    /\ Loop.ls_launches st = 3%nat
    /\ Events.launch_count (Loop.ls_log st) = 3%nat.
Proof.
  apply (until_error_stops_at_first_failure Scenarios.until_error_config
           ["repeat"; "-e"; "job"]%string
           (Scenarios.steady
              (fun n => WaitStatus.NormalExit (if (n =? 2)%nat then 9 else 0))
              (Timespec.mkTimespec 1 0)) [] 2 9).
  - reflexivity.
  - reflexivity.
  - left. cbn. lia.
  - intros i Hi. exists 0%nat. destruct i as [| [| i]]; [reflexivity | reflexivity | lia].
  - lia.
  - exists 0%nat. reflexivity.
  - intros k. cbn. lia.
  - intros n. exists 1%nat, 1%nat. reflexivity.
Defined.

(** X4.  With the stop-on-success flag set (and the stop-on-error flag
    unset): the runs that exit with a code other than 0 pass, and the first
    run that exits with code 0 ends the process, with exit status 0, after
    just that many launches.  (The count does not run out before, the clock
    works and every sleep comes to an end.) *)
Theorem until_success_stops_at_first_success
  (g : Globals.globals) (argv : list string) (env : Loop.environment)
  (out : list Events.event) (k : nat) (code : nat -> Z) :
  Globals.exit_on_success g = true -> Globals.exit_on_error g = false ->
  Globals.times g <= 0 \/ Z.of_nat k < Globals.times g ->
  (forall i, (i < k)%nat ->
     0 < code i <= 255 /\
     Loop.child_returns g env i (WaitStatus.encode (WaitStatus.NormalExit (code i)))) ->
  Loop.child_returns g env k (WaitStatus.encode (WaitStatus.NormalExit 0)) ->
  Loop.clock_works env -> (forall n, Loop.sleep_completes env n) ->
  exists fuel st,
    (forall fuel', (fuel <= fuel')%nat ->
       Loop.run_loop g argv env fuel' out = (Loop.Exited Loop.StopOnSuccess 0, st))
    /\ Loop.ls_launches st = S k
    /\ Events.launch_count (Loop.ls_log st) = (Events.launch_count out + S k)%nat.
Proof.
  intros Hsucc Herr Htimes Hkids Hlast Hclock Hsleep.
  destruct (run_loop_halts_after g argv env k out Loop.StopOnSuccess 0 Hclock Hsleep)
    as (fuel & st & Hrun & Hl & Hn & _).
  - intros i Hi. destruct (Hkids i Hi) as [Hci Hret].
    eexists. split; [exact Hret |].
    rewrite check_status_normal_exit by (cbn; lia).
    rewrite Herr, andb_false_r. destruct (Z.eqb_spec (code i) 0); [lia | reflexivity].
  - exact Htimes.
  - intros stk Hlk _.
    apply (halting_turn g argv env stk (WaitStatus.encode (WaitStatus.NormalExit 0))).
    + rewrite Hlk. exact Hlast.
    + rewrite check_status_normal_exit by (cbn; lia).
      rewrite Herr, Hsucc. reflexivity.
  - exists fuel, st. auto.
Qed.

(** [repeat --untilsuccess job] with a [job] that fails three times and then
    succeeds: four runs, exit status 0. *)
Lemma until_success_stops_at_first_success_witness :
  exists fuel st,
    (forall fuel', (fuel <= fuel')%nat ->
       Loop.run_loop Scenarios.until_success_config
         ["repeat"; "--untilsuccess"; "job"]%string
         (Scenarios.steady
            (fun n => WaitStatus.NormalExit (if (n =? 3)%nat then 0 else 1))
            (Timespec.mkTimespec 1 0)) fuel' []
       = (Loop.Exited Loop.StopOnSuccess 0, st))
    /\ Loop.ls_launches st = 4%nat
    /\ Events.launch_count (Loop.ls_log st) = 4%nat.
Proof.
  apply (until_success_stops_at_first_success Scenarios.until_success_config
           ["repeat"; "--untilsuccess"; "job"]%string
           (Scenarios.steady
              (fun n => WaitStatus.NormalExit (if (n =? 3)%nat then 0 else 1))
              (Timespec.mkTimespec 1 0)) [] 3 (fun _ => 1)).
  - reflexivity.
  - reflexivity.
  - left. cbn. lia.
  - intros i Hi. split; [lia |]. exists 0%nat.
    destruct i as [| [| [| i]]]; [reflexivity | reflexivity | reflexivity | lia].
  - exists 0%nat. reflexivity.
  - intros k. cbn. lia.
  - intros n. exists 1%nat, 1%nat. reflexivity.
Defined.

Section Harmless.
Import CInt Timespec WaitStatus Globals Events Loop Views.
Variable g : globals.
Variable argv : list string.
Variable env : environment.

(** With both stop flags unset, a normal exit and a death by a signal
    other than the interrupt and the quit signal pass every check. *)
Lemma check_status_passes t :
  exit_on_error g = false -> exit_on_success g = false ->
  well_formed t -> is_interrupt t = false ->
  check_status g (encode t) = None.
Proof.
  intros He Hs Hwf Hint. destruct t as [code | sig core].
  - rewrite check_status_normal_exit by exact Hwf.
    rewrite He, Hs, !andb_false_r. reflexivity.
  - rewrite check_status_signal_death by exact Hwf.
    rewrite Hs, Hint. reflexivity.
Qed.

(** What every turn does, however it ends: one launch, recorded once. *)
Lemma pause_keeps_launches fuel n st :
  match pause g env fuel n st with
  | Next st' | Halt _ st' =>
      ls_launches st' = ls_launches st
      /\ launch_count (ls_log st') = launch_count (ls_log st)
  end.
Proof.
  unfold pause.
  destruct (negb (tv_sec (interval_ts g) =? 0) || negb (tv_nsec (interval_ts g) =? 0));
    [| split; reflexivity].
  destruct (negb (precise g)).
  - destruct (clock_ret env (ls_clocks st)) as [err now].
    destruct (err <? 0); [split; reflexivity |].
    destruct (sleep_loop env n fuel 0); split; reflexivity.
  - destruct (sleep_loop env n fuel 0); split; reflexivity.
Qed.

Lemma iteration_launches_once fuel st :
  match iteration g argv env fuel st with
  | Next st' | Halt _ st' =>
      ls_launches st' = S (ls_launches st)
      /\ launch_count (ls_log st') = S (launch_count (ls_log st))
  end.
Proof.
  unfold iteration.
  set (st2 := count_launch (log_event (launch_event g argv)
                (if precise g
                 then set_next_exec (timespec_add (ls_next_exec st) (interval_ts g)) st
                 else st))).
  assert (H2 : ls_launches st2 = S (ls_launches st)
               /\ launch_count (ls_log st2) = S (launch_count (ls_log st))).
  { unfold st2. cbn [ls_launches ls_log count_launch log_event].
    rewrite launch_count_cons, is_launch_launch_event.
    destruct (precise g); split; reflexivity. }
  assert (Hmsg : forall m, ls_launches (log_event (EvStderr m) st2) = S (ls_launches st)
                           /\ launch_count (ls_log (log_event (EvStderr m) st2))
                              = S (launch_count (ls_log st))).
  { intros m. cbn [ls_launches ls_log log_event]. rewrite launch_count_cons. exact H2. }
  destruct (run_command g env fuel (ls_launches st)) as [ret | |];
    [| apply Hmsg | exact H2].
  destruct (check_status g ret) as [[why c] |].
  - destruct why; first [apply Hmsg | exact H2].
  - destruct (count_down (ls_times st2)) as [t last].
    destruct last; [exact H2 |].
    pose proof (pause_keeps_launches fuel (ls_launches st) (set_ls_times t st2)) as P.
    destruct (pause g env fuel (ls_launches st) (set_ls_times t st2));
      cbn [ls_launches ls_log set_ls_times] in P; destruct P as [P1 P2];
      rewrite P1, P2; exact H2.
Qed.

Lemma main_loop_launches_grow fuel : forall st,
  (ls_launches st <= ls_launches (snd (main_loop g argv env fuel st)))%nat.
Proof.
  induction fuel as [| fuel IH]; intros st; cbn [main_loop]; [apply Nat.le_refl |].
  pose proof (iteration_launches_once fuel st) as H.
  destruct (iteration g argv env fuel st) as [st' | s st'].
  - specialize (IH st'). lia.
  - cbn. lia.
Qed.

(** What [run_command] can answer when the child hands back [ret]. *)
Lemma run_command_agrees fuel n ret :
  child_returns g env n ret ->
  run_command g env fuel n = Returned ret \/ run_command g env fuel n = Blocked.
Proof.
  intros (f0 & H0).
  destruct (run_command g env fuel n) as [ret' | |] eqn:E; [left | exfalso | right; reflexivity].
  - pose proof (run_command_more_fuel g env fuel (Nat.max fuel f0) n _ E
                  ltac:(discriminate) ltac:(lia)) as A.
    pose proof (run_command_more_fuel g env f0 (Nat.max fuel f0) n _ H0
                  ltac:(discriminate) ltac:(lia)) as B.
    congruence.
  - pose proof (run_command_more_fuel g env fuel (Nat.max fuel f0) n _ E
                  ltac:(discriminate) ltac:(lia)) as A.
    pose proof (run_command_more_fuel g env f0 (Nat.max fuel f0) n _ H0
                  ltac:(discriminate) ltac:(lia)) as B.
    congruence.
Qed.

Lemma pause_goes_on fuel n st :
  clock_works env ->
  match pause g env fuel n st with
  | Next st' => ls_times st' = ls_times st
  | Halt s st' => s = Running
  end.
Proof.
  intros Hclock. unfold pause.
  destruct (negb (tv_sec (interval_ts g) =? 0) || negb (tv_nsec (interval_ts g) =? 0));
    [| reflexivity].
  destruct (negb (precise g)).
  - specialize (Hclock (ls_clocks st)).
    destruct (clock_ret env (ls_clocks st)) as [err now]. cbn in Hclock.
    destruct (Z.ltb_spec err 0); [lia |].
    destruct (sleep_loop env n fuel 0); reflexivity.
  - destruct (sleep_loop env n fuel 0); reflexivity.
Qed.

(** Without a count, and with runs that all pass the checks, no turn ends
    the process. *)
Lemma main_loop_goes_on fuel : forall st,
  clock_works env ->
  (forall n, exists ret, child_returns g env n ret /\ check_status g ret = None) ->
  ls_times st <= 0 ->
  fst (main_loop g argv env fuel st) = Running.
Proof.
  induction fuel as [| fuel IH]; intros st Hclock Hkids Htimes; cbn [main_loop];
    [reflexivity |].
  destruct (Hkids (ls_launches st)) as (ret & Hret & Hpass).
  unfold iteration.
  destruct (run_command_agrees fuel (ls_launches st) ret Hret) as [E | E]; rewrite E;
    [| reflexivity].
  rewrite Hpass. unfold count_down.
  replace (ls_times (count_launch (log_event (launch_event g argv)
             (if precise g
              then set_next_exec (timespec_add (ls_next_exec st) (interval_ts g)) st
              else st)))) with (ls_times st)
    by (destruct (precise g); reflexivity).
  destruct (Z.ltb_spec 0 (ls_times st)); [lia |].
  match goal with
  | |- context [pause g env fuel ?n ?s] =>
      pose proof (pause_goes_on fuel n s Hclock) as P;
      destruct (pause g env fuel n s) as [st' | s' st']
  end.
  - apply IH; [exact Hclock | exact Hkids |].
    rewrite P. cbn [ls_times set_ls_times]. lia.
  - cbn. exact P.
Qed.

End Harmless.

(** X5.  A launch that fails ([ret < 0], as when [system] cannot create the
    child) ends the process at once with status 1 and a message on the error
    stream, at any turn and whatever the count and the stop flags are. *)
Theorem failed_launch_is_fatal
  (g : Globals.globals) (argv : list string) (env : Loop.environment)
  (fuel : nat) (st : Loop.loop_state) (ret : Z) :
  Loop.run_command g env fuel (Loop.ls_launches st) = Loop.Returned ret -> ret < 0 ->
  exists st',
    Loop.main_loop g argv env (S fuel) st = (Loop.Exited Loop.LaunchFailed 1, st')
    /\ Loop.ls_log st'
       = Events.EvStderr Events.MsgCouldntRun :: Loop.launch_event g argv :: Loop.ls_log st
    /\ Loop.ls_launches st' = S (Loop.ls_launches st)
    /\ Loop.ls_times st' = Loop.ls_times st.
Proof.
  intros Hrun Hneg. cbn [Loop.main_loop]. unfold Loop.iteration.
  rewrite Hrun. unfold Loop.check_status.
  destruct (Z.ltb_spec ret 0); [| lia].
  destruct (Globals.precise g); eexists; (split; [reflexivity |]); repeat split.
Qed.

(** [repeat -t 5 job] when no child can be created: one attempt, the
    message, exit status 1, whatever is left of the count. *)
Lemma failed_launch_is_fatal_witness :
  exists st',
    Loop.main_loop (Scenarios.count_config 5) ["repeat"; "-t"; "5"; "job"]%string
                   Scenarios.unlaunchable 1
                   (Loop.mkState 5 (Timespec.mkTimespec 0 0) 0 0 [])
    = (Loop.Exited Loop.LaunchFailed 1, st')
    /\ Loop.ls_log st'
       = [Events.EvStderr Events.MsgCouldntRun; Events.EvSystem (Some "job"%string)]
    /\ Loop.ls_launches st' = 1%nat
    /\ Loop.ls_times st' = 5.
Proof.
  apply (failed_launch_is_fatal (Scenarios.count_config 5) ["repeat"; "-t"; "5"; "job"]%string
           Scenarios.unlaunchable 0 (Loop.mkState 5 (Timespec.mkTimespec 0 0) 0 0 []) (-1)).
  - reflexivity.
  - lia.
Defined.

(** X6.  Without a repeat count ([times <= 0]) and with both stop flags
    unset, a command that always terminates - with any exit code, or killed by
    a signal other than the interrupt and the quit signal - is run forever:
    the process never exits, and for every [n] it comes to have launched the
    command [n] times or more.  (The clock works and every sleep comes to an
    end.) *)
Theorem without_count_runs_forever
  (g : Globals.globals) (argv : list string) (env : Loop.environment)
  (out : list Events.event) (t : nat -> WaitStatus.termination) :
  Globals.times g <= 0 ->
  Globals.exit_on_error g = false -> Globals.exit_on_success g = false ->
  (forall n, WaitStatus.well_formed (t n) /\ WaitStatus.is_interrupt (t n) = false
             /\ Loop.child_returns g env n (WaitStatus.encode (t n))) ->
  Loop.clock_works env -> (forall n, Loop.sleep_completes env n) ->
  (forall fuel, fst (Loop.run_loop g argv env fuel out) = Loop.Running)
  /\ (forall n, exists fuel,
        (n <= Loop.ls_launches (snd (Loop.run_loop g argv env fuel out)))%nat).
Proof.
  intros Htimes Herr Hsucc Hkids Hclock Hsleep.
  assert (Hpass : forall n, exists ret,
             Loop.child_returns g env n ret /\ Loop.check_status g ret = None).
  { intros n. destruct (Hkids n) as (Hwf & Hint & Hret).
    eexists. split; [exact Hret |]. apply check_status_passes; assumption. }
  destruct (enter_next g env out Hclock) as (st0 & Henter & Hl0 & Ht0 & _).
  unfold Loop.run_loop. rewrite Henter. split.
  - intros fuel. apply main_loop_goes_on; [exact Hclock | exact Hpass | lia].
  - intros n.
    destruct (turns_pass g argv env n st0 Hclock Hsleep) as (M & st' & Hrun & Hl' & _).
    + intros i _. apply Hpass.
    + left. lia.
    + exists (n + M)%nat. rewrite Hrun by lia.
      pose proof (main_loop_launches_grow g argv env M st'). lia.
Qed.

(** [repeat job], with a [job] that exits with 1, 2, 3, ...: no amount of
    fuel sees the process exit. *)
Lemma without_count_runs_forever_witness :
  (forall fuel,
     fst (Loop.run_loop Scenarios.plain_config ["repeat"; "job"]%string
            Scenarios.counting fuel []) = Loop.Running)
  /\ (forall n, exists fuel,
        (n <= Loop.ls_launches
                (snd (Loop.run_loop Scenarios.plain_config ["repeat"; "job"]%string
                        Scenarios.counting fuel [])))%nat).
Proof.
  apply (without_count_runs_forever Scenarios.plain_config ["repeat"; "job"]%string
           Scenarios.counting [] (fun n => WaitStatus.NormalExit (Z.of_nat (S n) mod 256))).
  - cbn. lia.
  - reflexivity.
  - reflexivity.
  - intros n. split; [| split; [reflexivity | exists 0%nat; reflexivity]].
    cbn. pose proof (Z.mod_pos_bound (Z.of_nat (S n)) 256). lia.
  - intros k. cbn. lia.
  - intros n. exists 1%nat, 1%nat. reflexivity.
Defined.

(** X7.  With a repeat count [N >= 1], both stop flags unset and an interval,
    the [N] runs are separated by [N - 1] pauses: the process does not sleep
    before the first run nor after the last one (and it never sleeps without
    an interval).  The runs may end with any exit code or by a signal other
    than the interrupt and the quit signal; the exit status is the
    exit-status byte of the last run's status word.  (The clock works and
    every sleep comes to an end.) *)
Theorem count_runs_pause_between
  (g : Globals.globals) (argv : list string) (env : Loop.environment)
  (out : list Events.event) (t : nat -> WaitStatus.termination) (N : nat) :
  Globals.times g = Z.of_nat N -> (1 <= N)%nat ->
  Globals.exit_on_error g = false -> Globals.exit_on_success g = false ->
  (forall n, (n < N)%nat ->
     WaitStatus.well_formed (t n) /\ WaitStatus.is_interrupt (t n) = false
     /\ Loop.child_returns g env n (WaitStatus.encode (t n))) ->
  Loop.clock_works env -> (forall n, Loop.sleep_completes env n) ->
  exists fuel st,
    (forall fuel', (fuel <= fuel')%nat ->
       Loop.run_loop g argv env fuel' out
       = (Loop.Exited Loop.CountExhausted
            (WaitStatus.WEXITSTATUS (WaitStatus.encode (t (N - 1)%nat))), st))
    /\ Loop.ls_launches st = N
    /\ List.length (Events.sleep_deadlines (Loop.ls_log st))
       = (List.length (Events.sleep_deadlines out)
          + if Views.pauses g then N - 1 else 0)%nat.
Proof.
  intros Htimes HN Herr Hsucc Hkids Hclock Hsleep.
  destruct N as [| k]; [lia |].
  replace (S k - 1)%nat with k by lia.
  destruct (run_loop_halts_after g argv env k out Loop.CountExhausted
              (WaitStatus.WEXITSTATUS (WaitStatus.encode (t k))) Hclock Hsleep)
    as (fuel & st & Hrun & Hl & _ & Hs).
  - intros i Hi. destruct (Hkids i ltac:(lia)) as (Hwf & Hint & Hret).
    eexists. split; [exact Hret |]. apply check_status_passes; assumption.
  - right. lia.
  - intros stk Hlk Htk.
    destruct (Hkids k ltac:(lia)) as (Hwf & Hint & Hret).
    apply (exhausting_turn g argv env stk (WaitStatus.encode (t k))).
    + rewrite Hlk. exact Hret.
    + apply check_status_passes; assumption.
    + rewrite Htk, Htimes. destruct (Z.ltb_spec 0 (Z.of_nat (S k))); lia.
  - exists fuel, st. auto.
Qed.

(** [repeat -t 3 -i 2 job], the second [job] being killed: three runs, two
    sleeps, and the exit status is the exit code 7 of the third run. *)
Lemma count_runs_pause_between_witness :
  exists fuel st,
    (forall fuel', (fuel <= fuel')%nat ->
       Loop.run_loop Scenarios.paced_config
         ["repeat"; "-t"; "3"; "-i"; "2"; "job"]%string
         (Scenarios.steady Scenarios.second_killed (Timespec.mkTimespec 50 0)) fuel' []
       = (Loop.Exited Loop.CountExhausted 7, st))
    /\ Loop.ls_launches st = 3%nat
    /\ List.length (Events.sleep_deadlines (Loop.ls_log st)) = 2%nat.
Proof.
  apply (count_runs_pause_between Scenarios.paced_config
           ["repeat"; "-t"; "3"; "-i"; "2"; "job"]%string
           (Scenarios.steady Scenarios.second_killed (Timespec.mkTimespec 50 0)) []
           Scenarios.second_killed 3).
  - reflexivity.
  - lia.
  - reflexivity.
  - reflexivity.
  - intros n Hn. destruct n as [| [| [| n]]]; [| | | lia];
      (split; [cbn; unfold WaitStatus.SIGKILL; lia
              | split; [reflexivity | exists 0%nat; reflexivity]]).
  - intros k. cbn. lia.
  - intros n. exists 1%nat, 1%nat. reflexivity.
Defined.

Section CountInvariant.
Import CInt Timespec WaitStatus Globals Events Loop Views.
Variable g : globals.
Variable argv : list string.
Variable env : environment.

Lemma iteration_counts_down fuel st :
  counting_down g st ->
  match iteration g argv env fuel st with
  | Next st' => counting_down g st'
  | Halt s st' =>
      (0 < times g -> Z.of_nat (ls_launches st') <= times g)
      /\ (forall c, s = Exited CountExhausted c ->
            0 < times g /\ Z.of_nat (ls_launches st') = times g /\ ls_times st' = 0)
  end.
Proof.
  intros [Hpos Hnone].
  pose proof (iteration_launches_once g argv env fuel st) as Hone.
  unfold iteration in *.
  set (st2 := count_launch (log_event (launch_event g argv)
                (if precise g
                 then set_next_exec (timespec_add (ls_next_exec st) (interval_ts g)) st
                 else st))) in *.
  assert (Ht2 : ls_times st2 = ls_times st)
    by (unfold st2; destruct (precise g); reflexivity).
  assert (Hl2 : ls_launches st2 = S (ls_launches st))
    by (unfold st2; destruct (precise g); reflexivity).
  assert (Hbound : 0 < times g -> Z.of_nat (S (ls_launches st)) <= times g)
    by (intros H; specialize (Hpos H); lia).
  destruct (run_command g env fuel (ls_launches st)) as [ret | |].
  - destruct (check_status g ret) as [[why c] |] eqn:Hcheck.
    + pose proof (check_status_never_exhausts g _ _ _ Hcheck) as Hwhy.
      destruct why; (try congruence); cbn beta iota in Hone; destruct Hone as [Hone _];
        (split; [rewrite Hone; exact Hbound | intros c' E; inversion E; congruence]).
    + unfold count_down in *. rewrite Ht2 in *.
      destruct (Z.ltb_spec 0 (ls_times st)) as [Hgt | Hle].
      * assert (Hg : 0 < times g).
        { destruct (Z.lt_ge_cases 0 (times g)); [assumption |].
          rewrite Hnone in Hgt by lia. lia. }
        destruct (Hpos Hg) as [_ Heq].
        destruct (Z.eqb_spec (ls_times st - 1) 0) as [E1 | E1].
        -- cbn [ls_launches ls_times set_ls_times]. rewrite Hl2.
           split; [exact Hbound |]. intros c _. repeat split; lia.
        -- pose proof (pause_keeps_times g env fuel (ls_launches st)
                         (set_ls_times (ls_times st - 1) st2)) as K.
           pose proof (pause_never_exhausts g env fuel (ls_launches st)
                         (set_ls_times (ls_times st - 1) st2)) as X.
           destruct (pause g env fuel (ls_launches st) (set_ls_times (ls_times st - 1) st2))
             as [st' | s st']; cbn beta iota in Hone; destruct Hone as [Hone _];
             cbn [ls_times set_ls_times] in K.
           ++ split; [| lia]. intros _. rewrite K, Hone. lia.
           ++ split; [rewrite Hone; exact Hbound |].
              intros c E. elim (X c E).
      * assert (Hg : times g <= 0).
        { destruct (Z.lt_ge_cases 0 (times g)) as [H | H]; [| lia].
          destruct (Hpos H). lia. }
        pose proof (pause_keeps_times g env fuel (ls_launches st)
                      (set_ls_times (ls_times st) st2)) as K.
        pose proof (pause_never_exhausts g env fuel (ls_launches st)
                      (set_ls_times (ls_times st) st2)) as X.
        destruct (pause g env fuel (ls_launches st) (set_ls_times (ls_times st) st2))
          as [st' | s st']; cbn [ls_times set_ls_times] in K.
        -- split; [lia |]. intros _. rewrite K. apply Hnone. exact Hg.
        -- split; [lia |]. intros c E. elim (X c E).
  - cbn beta iota in Hone. destruct Hone as [Hone _].
    split; [rewrite Hone; exact Hbound | discriminate].
  - cbn beta iota in Hone. destruct Hone as [Hone _].
    split; [rewrite Hone; exact Hbound | discriminate].
Qed.

Lemma main_loop_counts_down fuel : forall st,
  counting_down g st ->
  (0 < times g -> Z.of_nat (ls_launches (snd (main_loop g argv env fuel st))) <= times g)
  /\ (forall c, fst (main_loop g argv env fuel st) = Exited CountExhausted c ->
        0 < times g
        /\ Z.of_nat (ls_launches (snd (main_loop g argv env fuel st))) = times g
        /\ ls_times (snd (main_loop g argv env fuel st)) = 0).
Proof.
  induction fuel as [| fuel IH]; intros st Hinv; cbn [main_loop].
  - cbn. split; [| discriminate]. intros H. destruct Hinv as [Hpos _].
    specialize (Hpos H). lia.
  - pose proof (iteration_counts_down fuel st Hinv) as H.
    destruct (iteration g argv env fuel st) as [st' | s st'].
    + apply IH. exact H.
    + exact H.
Qed.

Lemma main_loop_records_launches fuel : forall st,
  (launch_count (ls_log (snd (main_loop g argv env fuel st))) + ls_launches st
   = launch_count (ls_log st) + ls_launches (snd (main_loop g argv env fuel st)))%nat.
Proof.
  induction fuel as [| fuel IH]; intros st; cbn [main_loop]; [reflexivity |].
  pose proof (iteration_launches_once g argv env fuel st) as H.
  destruct (iteration g argv env fuel st) as [st' | s st']; destruct H as [H1 H2].
  - specialize (IH st'). lia.
  - cbn. lia.
Qed.

End CountInvariant.

(** X8.  In any environment and at any time: the launches are recorded one by
    one; with a repeat count [N > 0] the command is never launched more than
    [N] times; and the process leaves through the repeat-count check only when
    it has launched the command exactly [N] times. *)
Theorem count_bounds_the_launches
  (g : Globals.globals) (argv : list string) (env : Loop.environment)
  (fuel : nat) (out : list Events.event) :
  let r := Loop.run_loop g argv env fuel out in
  Events.launch_count (Loop.ls_log (snd r))
    = (Events.launch_count out + Loop.ls_launches (snd r))%nat
  /\ (0 < Globals.times g -> Z.of_nat (Loop.ls_launches (snd r)) <= Globals.times g)
  /\ (forall c, fst r = Loop.Exited Loop.CountExhausted c ->
        0 < Globals.times g
        /\ Z.of_nat (Loop.ls_launches (snd r)) = Globals.times g
        /\ Loop.ls_times (snd r) = 0).
Proof.
  intros r. unfold r, Loop.run_loop, Loop.enter.
  set (st0 := Loop.mkState (Globals.times g) _ 0 0 _).
  assert (Hc0 : Events.launch_count (Loop.ls_log st0) = Events.launch_count out).
  { unfold st0. cbn [Loop.ls_log]. destruct (Globals.debug g); [| reflexivity].
    rewrite launch_count_cons. reflexivity. }
  assert (Hinv : forall st, Loop.ls_times st = Globals.times g ->
                            Loop.ls_launches st = 0%nat ->
                            Views.counting_down g st).
  { intros st Ht Hl. split; intros H; rewrite Ht, ?Hl; [split |]; lia. }
  assert (Hgo : forall st, Loop.ls_times st = Globals.times g ->
                  Loop.ls_launches st = 0%nat ->
                  Events.launch_count (Loop.ls_log st) = Events.launch_count out ->
                  let r := Loop.main_loop g argv env fuel st in
                  Events.launch_count (Loop.ls_log (snd r))
                    = (Events.launch_count out + Loop.ls_launches (snd r))%nat
                  /\ (0 < Globals.times g ->
                      Z.of_nat (Loop.ls_launches (snd r)) <= Globals.times g)
                  /\ (forall c, fst r = Loop.Exited Loop.CountExhausted c ->
                        0 < Globals.times g
                        /\ Z.of_nat (Loop.ls_launches (snd r)) = Globals.times g
                        /\ Loop.ls_times (snd r) = 0)).
  { intros st Ht Hl Hc r'. unfold r'.
    pose proof (main_loop_records_launches g argv env fuel st) as R.
    destruct (main_loop_counts_down g argv env fuel st (Hinv st Ht Hl)) as [A B].
    split; [lia | split; assumption]. }
  destruct (Globals.precise g).
  - destruct (Loop.clock_ret env 0) as [err now]. destruct (err <? 0).
    + cbn [fst snd Loop.ls_log Loop.ls_launches Loop.log_event Loop.count_clock].
      rewrite launch_count_cons. cbn [Events.is_launch]. fold st0 in Hc0.
      split; [unfold st0 in *; cbn in *; lia | split; [cbn; lia | discriminate]].
    + apply Hgo; [reflexivity | reflexivity | exact Hc0].
  - apply Hgo; [reflexivity | reflexivity | exact Hc0].
Qed.

Section ClockReads.
Import CInt Timespec WaitStatus Globals Events Loop Views.
Variable g : globals.
Variable argv : list string.
Variable env : environment.

(** What a turn leaves of the sleeps and the clock reads before it, up to
    the pause. *)
Lemma iteration_until_pause fuel st :
  let st2 := count_launch (log_event (launch_event g argv)
               (if precise g
                then set_next_exec (timespec_add (ls_next_exec st) (interval_ts g)) st
                else st)) in
  (exists t, iteration g argv env fuel st = pause g env fuel (ls_launches st) (set_ls_times t st2))
  \/ (exists s st', iteration g argv env fuel st = Halt s st'
        /\ (forall c, s <> Exited FatalClock c)
        /\ ls_clocks st' = ls_clocks st
        /\ sleep_deadlines (ls_log st') = sleep_deadlines (ls_log st)).
Proof.
  intros st2. unfold iteration. fold st2.
  assert (H2 : ls_clocks st2 = ls_clocks st
               /\ sleep_deadlines (ls_log st2) = sleep_deadlines (ls_log st)).
  { unfold st2. cbn [ls_clocks ls_log count_launch log_event].
    rewrite sleep_deadlines_launch_event. destruct (precise g); split; reflexivity. }
  destruct (run_command g env fuel (ls_launches st)) as [ret | |].
  - destruct (check_status g ret) as [[why c] |] eqn:Hcheck.
    + right.
      assert (Hwhy : why <> FatalClock).
      { unfold check_status in Hcheck.
        repeat match type of Hcheck with
               | (if ?b then _ else _) = _ => destruct b
               end; inversion Hcheck; discriminate. }
      destruct why; (try congruence); eexists _, _;
        (split; [reflexivity | split; [intros c' E; inversion E |]]); exact H2.
    + destruct (count_down (ls_times st2)) as [t last]. destruct last.
      * right. eexists _, _. split; [reflexivity | split; [discriminate | exact H2]].
      * left. exists t. reflexivity.
  - right. eexists _, _. split; [reflexivity | split; [discriminate | exact H2]].
  - right. eexists _, _. split; [reflexivity | split; [discriminate | exact H2]].
Qed.

(** Without an interval the pause does nothing. *)
Lemma pause_without_interval fuel n st :
  pauses g = false -> pause g env fuel n st = Next st.
Proof. unfold pause, pauses. intros ->. reflexivity. Qed.

Lemma main_loop_without_interval fuel : forall st,
  pauses g = false ->
  sleep_deadlines (ls_log (snd (main_loop g argv env fuel st))) = sleep_deadlines (ls_log st)
  /\ ls_clocks (snd (main_loop g argv env fuel st)) = ls_clocks st
  /\ forall c, fst (main_loop g argv env fuel st) <> Exited FatalClock c.
Proof.
  induction fuel as [| fuel IH]; intros st Hno; cbn [main_loop].
  - cbn. repeat split. discriminate.
  - destruct (iteration_until_pause fuel st) as [[t E] | (s & st' & E & Hs & Hc & Hd)];
      rewrite E.
    + rewrite pause_without_interval by exact Hno.
      destruct (IH (set_ls_times t (count_launch (log_event (launch_event g argv)
                      (if precise g
                       then set_next_exec (timespec_add (ls_next_exec st) (interval_ts g)) st
                       else st)))) Hno) as (A & B & C).
      rewrite A, B. cbn [ls_log ls_clocks set_ls_times count_launch log_event].
      rewrite sleep_deadlines_launch_event.
      destruct (precise g); repeat split; assumption.
    + cbn. repeat split; assumption.
Qed.

(** In plain (not precise) mode a pause reads the clock and sleeps to that
    time plus the interval. *)
Lemma pause_follows_clock fuel n st :
  precise g = false ->
  sleeps_follow_clock g env (ls_log st) ->
  ls_clocks st = List.length (sleep_deadlines (ls_log st)) ->
  match pause g env fuel n st with
  | Next st' =>
      sleeps_follow_clock g env (ls_log st')
      /\ ls_clocks st' = List.length (sleep_deadlines (ls_log st'))
  | Halt s st' =>
      sleeps_follow_clock g env (ls_log st')
      /\ (ls_clocks st' = List.length (sleep_deadlines (ls_log st'))
          \/ ls_clocks st' = S (List.length (sleep_deadlines (ls_log st')))
             /\ s = Exited FatalClock 1)
  end.
Proof.
  intros Hplain Hlog Hclocks. unfold pause. rewrite Hplain. cbn [negb].
  destruct (negb (tv_sec (interval_ts g) =? 0) || negb (tv_nsec (interval_ts g) =? 0));
    [| split; assumption].
  destruct (clock_ret env (ls_clocks st)) as [err now] eqn:Hread.
  destruct (err <? 0).
  - cbn [ls_log ls_clocks log_event count_clock].
    split; [exact Hlog | right; split; [rewrite Hclocks; reflexivity | reflexivity]].
  - assert (Hnew : sleeps_follow_clock g env
                     (EvSleep (timespec_add now (interval_ts g)) :: ls_log st)).
    { unfold sleeps_follow_clock in *. intros k d. cbn [sleep_deadlines rev].
      destruct (Nat.lt_ge_cases k (List.length (rev (sleep_deadlines (ls_log st)))))
        as [Hk | Hk].
      - rewrite nth_error_app1 by exact Hk. apply Hlog.
      - rewrite nth_error_app2 by exact Hk. rewrite length_rev in *.
        destruct (k - List.length (sleep_deadlines (ls_log st)))%nat as [| j] eqn:E; cbn.
        + intros Hd. inversion Hd.
          replace k with (ls_clocks st) by lia. rewrite Hread. reflexivity.
        + destruct j; discriminate. }
    assert (Hlen : S (ls_clocks st)
                   = List.length (sleep_deadlines
                       (EvSleep (timespec_add now (interval_ts g)) :: ls_log st)))
      by (cbn [sleep_deadlines List.length]; rewrite Hclocks; reflexivity).
    destruct (sleep_loop env n fuel 0);
      cbn [ls_log ls_clocks ls_next_exec log_event set_next_exec count_clock];
      [split | split; [| left]]; assumption.
Qed.

Lemma main_loop_follows_clock fuel : forall st,
  precise g = false ->
  sleeps_follow_clock g env (ls_log st) ->
  ls_clocks st = List.length (sleep_deadlines (ls_log st)) ->
  let r := main_loop g argv env fuel st in
  sleeps_follow_clock g env (ls_log (snd r))
  /\ (ls_clocks (snd r) = List.length (sleep_deadlines (ls_log (snd r)))
      \/ ls_clocks (snd r) = S (List.length (sleep_deadlines (ls_log (snd r))))
         /\ fst r = Exited FatalClock 1).
Proof.
  induction fuel as [| fuel IH]; intros st Hplain Hlog Hclocks; cbn [main_loop].
  - cbn. split; [exact Hlog | left; exact Hclocks].
  - destruct (iteration_until_pause fuel st) as [[t E] | (s & st' & E & Hs & Hc & Hd)];
      rewrite E.
    + rewrite Hplain.
      set (st3 := set_ls_times t (count_launch (log_event (launch_event g argv) st))).
      assert (Hlog3 : sleeps_follow_clock g env (ls_log st3)).
      { unfold sleeps_follow_clock, st3. cbn [ls_log set_ls_times count_launch log_event].
        rewrite sleep_deadlines_launch_event. exact Hlog. }
      assert (Hclocks3 : ls_clocks st3 = List.length (sleep_deadlines (ls_log st3))).
      { unfold st3. cbn [ls_log ls_clocks set_ls_times count_launch log_event].
        rewrite sleep_deadlines_launch_event. exact Hclocks. }
      pose proof (pause_follows_clock fuel (ls_launches st) st3 Hplain Hlog3 Hclocks3) as P.
      destruct (pause g env fuel (ls_launches st) st3) as [st' | s st'].
      * apply IH; [exact Hplain | apply P | apply P].
      * exact P.
    + cbn. unfold sleeps_follow_clock. rewrite Hd, Hc. split; [exact Hlog | left; exact Hclocks].
Qed.

(** A turn can die of the clock only in plain mode, in its pause, on the
    reading it has just made. *)
Lemma iteration_dies_of_clock fuel st c st' :
  iteration g argv env fuel st = Halt (Exited FatalClock c) st' ->
  c = 1 /\ precise g = false
  /\ ls_clocks st' = S (ls_clocks st)
  /\ fst (clock_ret env (ls_clocks st)) < 0
  /\ (exists rest, ls_log st' = EvStderr MsgFatalTime :: rest)
  /\ (1 <= ls_launches st')%nat.
Proof.
  intros H.
  pose proof (iteration_launches_once g argv env fuel st) as L. rewrite H in L.
  destruct (iteration_until_pause fuel st) as [[t E] | (s & st1 & E & Hs & _)];
    rewrite E in H.
  2: { inversion H; subst. elim (Hs c eq_refl). }
  unfold pause in H.
  destruct (negb (tv_sec (interval_ts g) =? 0) || negb (tv_nsec (interval_ts g) =? 0));
    [| discriminate].
  destruct (precise g).
  - cbn [negb] in H. destruct (sleep_loop env (ls_launches st) fuel 0); discriminate.
  - cbn [negb ls_clocks set_ls_times count_launch log_event] in H.
    destruct (clock_ret env (ls_clocks st)) as [err now].
    destruct (Z.ltb_spec err 0).
    + inversion H; subst. cbn. repeat split; try lia. eexists. reflexivity.
    + destruct (sleep_loop env (ls_launches st) fuel 0); discriminate.
Qed.

Lemma main_loop_dies_of_clock fuel : forall st c,
  fst (main_loop g argv env fuel st) = Exited FatalClock c ->
  let st' := snd (main_loop g argv env fuel st) in
  c = 1 /\ precise g = false
  /\ (1 <= ls_clocks st')%nat
  /\ fst (clock_ret env (Nat.pred (ls_clocks st'))) < 0
  /\ (exists rest, ls_log st' = EvStderr MsgFatalTime :: rest)
  /\ (1 <= ls_launches st')%nat.
Proof.
  induction fuel as [| fuel IH]; intros st c; cbn [main_loop]; [discriminate |].
  destruct (iteration g argv env fuel st) as [st1 | s st1] eqn:E.
  - apply IH.
  - cbn [fst snd]. intros ->.
    destruct (iteration_dies_of_clock fuel st c st1 E) as (A & B & C & D & F & G).
    rewrite C. cbn [Nat.pred]. repeat split; try assumption. lia.
Qed.

End ClockReads.

(** X9.  Without an interval ([interval_ts] is zero, as when [-i] is not
    given) the process never sleeps, and it never reads the clock in the loop:
    in plain mode not at all, in precise mode once, before the first run. *)
Theorem zero_interval_never_sleeps
  (g : Globals.globals) (argv : list string) (env : Loop.environment)
  (fuel : nat) (out : list Events.event) :
  Globals.interval_ts g = Timespec.mkTimespec 0 0 ->
  let r := Loop.run_loop g argv env fuel out in
  Events.sleep_deadlines (Loop.ls_log (snd r)) = Events.sleep_deadlines out
  /\ Loop.ls_clocks (snd r) = (if Globals.precise g then 1 else 0)%nat
  /\ (Globals.precise g = false -> forall c, fst r <> Loop.Exited Loop.FatalClock c).
Proof.
  intros Hzero r.
  assert (Hno : Views.pauses g = false) by (unfold Views.pauses; rewrite Hzero; reflexivity).
  unfold r, Loop.run_loop, Loop.enter.
  set (log0 := if Globals.debug g then _ else out).
  assert (Hlog0 : Events.sleep_deadlines log0 = Events.sleep_deadlines out)
    by (unfold log0; destruct (Globals.debug g); reflexivity).
  destruct (Globals.precise g).
  - destruct (Loop.clock_ret env 0) as [err now]. destruct (err <? 0).
    + cbn. split; [exact Hlog0 | split; [reflexivity | discriminate]].
    + match goal with
      | |- context [Loop.main_loop g argv env fuel ?s] =>
          destruct (main_loop_without_interval g argv env fuel s Hno) as (A & B & C)
      end.
      rewrite A, B. cbn. split; [exact Hlog0 | split; [reflexivity | discriminate]].
  - match goal with
    | |- context [Loop.main_loop g argv env fuel ?s] =>
        destruct (main_loop_without_interval g argv env fuel s Hno) as (A & B & C)
    end.
    rewrite A, B. cbn. split; [exact Hlog0 | split; [reflexivity | intros _; exact C]].
Qed.

(** [repeat -t 3 job]: three runs, no sleep, no clock reading. *)
Lemma zero_interval_never_sleeps_witness :
  let r := Loop.run_loop (Scenarios.count_config 3) ["repeat"; "-t"; "3"; "job"]%string
             Scenarios.counting 5 [] in
  Events.sleep_deadlines (Loop.ls_log (snd r)) = []
  /\ Loop.ls_clocks (snd r) = 0%nat
  /\ Loop.ls_launches (snd r) = 3%nat.
Proof.
  intros r.
  destruct (zero_interval_never_sleeps (Scenarios.count_config 3)
              ["repeat"; "-t"; "3"; "job"]%string Scenarios.counting 5 [])
    as (Hsleeps & Hclocks & _); [reflexivity |].
  split; [exact Hsleeps | split; [exact Hclocks | reflexivity]].
Defined.

(** X10.  In plain mode (no [-p]) every pause reads the clock afresh and
    sleeps to that reading plus the interval: the [k]-th sleep goes to the
    time of the [k]-th clock reading plus the interval, whatever the
    environment answers, and the clock is read once per sleep (and once more
    when the reading fails, which ends the process). *)
Theorem plain_deadlines_follow_the_clock
  (g : Globals.globals) (argv : list string) (env : Loop.environment)
  (fuel : nat) (out : list Events.event) :
  Globals.precise g = false -> Events.sleep_deadlines out = [] ->
  let r := Loop.run_loop g argv env fuel out in
  (forall k d,
     nth_error (rev (Events.sleep_deadlines (Loop.ls_log (snd r)))) k = Some d ->
     d = Timespec.timespec_add (snd (Loop.clock_ret env k)) (Globals.interval_ts g))
  /\ (Loop.ls_clocks (snd r) = List.length (Events.sleep_deadlines (Loop.ls_log (snd r)))
      \/ Loop.ls_clocks (snd r)
         = S (List.length (Events.sleep_deadlines (Loop.ls_log (snd r))))
         /\ fst r = Loop.Exited Loop.FatalClock 1).
Proof.
  intros Hplain Hout r. unfold r, Loop.run_loop, Loop.enter. rewrite Hplain.
  set (log0 := if Globals.debug g then _ else out).
  assert (Hlog0 : Events.sleep_deadlines log0 = [])
    by (unfold log0; destruct (Globals.debug g); exact Hout).
  apply (main_loop_follows_clock g argv env fuel); [exact Hplain | |].
  - unfold Views.sleeps_follow_clock. cbn [Loop.ls_log]. rewrite Hlog0.
    intros [| k] d H; discriminate H.
  - cbn [Loop.ls_log Loop.ls_clocks]. rewrite Hlog0. reflexivity.
Qed.

(** [repeat -i 2 job] under a clock that reads 10 s, 20 s, 30 s, 40 s: the
    sleeps go to 12 s, 22 s, 32 s and 42 s. *)
Lemma plain_deadlines_follow_the_clock_witness :
  let st := snd (Loop.run_loop Scenarios.interval_config ["repeat"; "-i"; "2"; "job"]%string
                   Scenarios.ticking 4 []) in
  (forall k d,
     nth_error (rev (Events.sleep_deadlines (Loop.ls_log st))) k = Some d ->
     d = Timespec.timespec_add (snd (Loop.clock_ret Scenarios.ticking k))
                               (Timespec.mkTimespec 2 0))
  /\ rev (Events.sleep_deadlines (Loop.ls_log st))
     = [Timespec.mkTimespec 12 0; Timespec.mkTimespec 22 0; Timespec.mkTimespec 32 0;
        Timespec.mkTimespec 42 0]
  /\ Loop.ls_clocks st = 4%nat.
Proof.
  intros st.
  destruct (plain_deadlines_follow_the_clock Scenarios.interval_config
              ["repeat"; "-i"; "2"; "job"]%string Scenarios.ticking 4 [])
    as [Hfollow _]; [reflexivity | reflexivity |].
  split; [exact Hfollow | split; reflexivity].
Defined.

(** X11.  The process dies of the clock only when a [clock_gettime] call has
    failed: it then exits with status 1, the message is the last thing it
    wrote, the failed reading is the last one made (it is not repeated), and
    in precise mode nothing has been launched, while in plain mode the failure
    follows a run. *)
Theorem clock_failure_is_fatal
  (g : Globals.globals) (argv : list string) (env : Loop.environment)
  (fuel : nat) (out : list Events.event) (c : Z) :
  fst (Loop.run_loop g argv env fuel out) = Loop.Exited Loop.FatalClock c ->
  let st := snd (Loop.run_loop g argv env fuel out) in
  c = 1
  /\ (1 <= Loop.ls_clocks st)%nat
  /\ fst (Loop.clock_ret env (Nat.pred (Loop.ls_clocks st))) < 0
  /\ (exists rest, Loop.ls_log st = Events.EvStderr Events.MsgFatalTime :: rest)
  /\ (if Globals.precise g
      then Loop.ls_launches st = 0%nat /\ Loop.ls_clocks st = 1%nat
      else (1 <= Loop.ls_launches st)%nat).
Proof.
  unfold Loop.run_loop, Loop.enter.
  destruct (Globals.precise g) eqn:Hp.
  - destruct (Loop.clock_ret env 0) as [err now] eqn:Hread.
    destruct (Z.ltb_spec err 0).
    + cbn. intros Hexit. inversion Hexit. rewrite Hread. cbn.
      repeat split; try lia. eexists. reflexivity.
    + intros Hexit. apply main_loop_dies_of_clock in Hexit.
      destruct Hexit as (_ & Habs & _). congruence.
  - intros Hexit. apply main_loop_dies_of_clock in Hexit.
    destruct Hexit as (A & _ & B & C & D & E). cbv zeta. auto.
Qed.

(** [repeat -p -i 1.5 job] when the clock cannot be read: status 1 and the
    message, before any launch. *)
Lemma clock_failure_is_fatal_witness :
  let r := Loop.run_loop Scenarios.cadence_config ["repeat"; "-p"; "-i"; "1.5"; "job"]%string
             Scenarios.clockless 3 [] in
  fst r = Loop.Exited Loop.FatalClock 1
  /\ Loop.ls_log (snd r) = [Events.EvStderr Events.MsgFatalTime]
  /\ Loop.ls_launches (snd r) = 0%nat /\ Loop.ls_clocks (snd r) = 1%nat.
Proof.
  intros r.
  destruct (clock_failure_is_fatal Scenarios.cadence_config
              ["repeat"; "-p"; "-i"; "1.5"; "job"]%string Scenarios.clockless 3 [] 1)
    as (_ & _ & _ & _ & Hnone & Hone); [reflexivity |].
  split; [reflexivity | split; [reflexivity | split; [exact Hnone | exact Hone]]].
Defined.

Section Waiting.
Import CInt Timespec WaitStatus Globals Events Loop Views.
Variable env : environment.

(** While [wait] keeps being interrupted the loop keeps calling it. *)
Lemma wait_loop_keeps_waiting n fuel : forall j,
  (forall i, (i < fuel)%nat ->
     w_ret (wait_ret env n (j + i)) = -1 /\ w_errno (wait_ret env n (j + i)) = EINTR) ->
  wait_loop env n fuel j = (Blocked, (j + fuel)%nat).
Proof.
  induction fuel as [| fuel IH]; intros j Hintr; cbn [wait_loop].
  - rewrite Nat.add_0_r. reflexivity.
  - destruct (Hintr 0%nat) as [Hr He]; [lia |].
    rewrite Nat.add_0_r in Hr, He. rewrite Hr, He. cbn.
    replace (j + S fuel)%nat with (S j + fuel)%nat by lia.
    apply IH. intros i Hi. replace (S j + i)%nat with (j + S i)%nat by lia.
    apply Hintr. lia.
Qed.

End Waiting.

(** X12.  With [-x], a [wait] that is interrupted ([EINTR]) is called again:
    the parent goes on with the status of the first [wait] that succeeds,
    however many interrupted calls came before it, and until then it stays
    blocked. *)
Theorem interrupted_wait_is_retried
  (g : Globals.globals) (env : Loop.environment) (n k fuel : nat) :
  Globals.use_exec g = true ->
  (forall i, (i < k)%nat ->
     Loop.w_ret (Loop.wait_ret env n i) = -1
     /\ Loop.w_errno (Loop.wait_ret env n i) = WaitStatus.EINTR) ->
  Loop.w_ret (Loop.wait_ret env n k) <> -1 ->
  Loop.run_command g env fuel n
  = if (k <? fuel)%nat
    then Loop.Returned (Loop.w_status (Loop.wait_ret env n k))
    else Loop.Blocked.
Proof.
  intros Hexec Hintr Hok. unfold Loop.run_command. rewrite Hexec.
  destruct (Nat.ltb_spec k fuel) as [Hlt | Hge].
  - rewrite (wait_loop_retries_interruptions env n k 0 fuel); [reflexivity | | | exact Hlt].
    + intros i Hi. apply Hintr. exact Hi.
    + exact Hok.
  - rewrite (wait_loop_keeps_waiting env n fuel 0); [reflexivity |].
    intros i Hi. apply Hintr. cbn. lia.
Qed.

(** [repeat -x job] with every [wait] interrupted twice: the third call
    hands back the exit code 7; two calls are not enough. *)
Lemma interrupted_wait_is_retried_witness :
  Loop.run_command Scenarios.exec_config
    (Scenarios.interrupted 2 (fun _ => WaitStatus.NormalExit 7) (Timespec.mkTimespec 50 0))
    5 0
  = Loop.Returned (WaitStatus.encode (WaitStatus.NormalExit 7))
  /\ Loop.run_command Scenarios.exec_config
       (Scenarios.interrupted 2 (fun _ => WaitStatus.NormalExit 7) (Timespec.mkTimespec 50 0))
       2 0
     = Loop.Blocked.
Proof.
  assert (Hintr : forall i, (i < 2)%nat ->
            Loop.w_ret (Loop.wait_ret
              (Scenarios.interrupted 2 (fun _ => WaitStatus.NormalExit 7)
                 (Timespec.mkTimespec 50 0)) 0 i) = -1
            /\ Loop.w_errno (Loop.wait_ret
                 (Scenarios.interrupted 2 (fun _ => WaitStatus.NormalExit 7)
                    (Timespec.mkTimespec 50 0)) 0 i) = WaitStatus.EINTR).
  { intros i Hi. destruct i as [| [| i]]; [split; reflexivity | split; reflexivity | lia]. }
  split.
  - apply (interrupted_wait_is_retried Scenarios.exec_config _ 0 2 5 eq_refl Hintr).
    cbn. discriminate.
  - apply (interrupted_wait_is_retried Scenarios.exec_config _ 0 2 2 eq_refl Hintr).
    cbn. discriminate.
Defined.

(** X13.  With [-x], a [wait] that fails for another reason than an
    interruption ends the process at once, with status 1 and a message on the
    error stream: the remaining count and the stop flags play no part, and
    [wait] is not called again. *)
Theorem failed_wait_is_fatal
  (g : Globals.globals) (argv : list string) (env : Loop.environment)
  (fuel k : nat) (st : Loop.loop_state) :
  Globals.use_exec g = true ->
  (forall i, (i < k)%nat ->
     Loop.w_ret (Loop.wait_ret env (Loop.ls_launches st) i) = -1
     /\ Loop.w_errno (Loop.wait_ret env (Loop.ls_launches st) i) = WaitStatus.EINTR) ->
  Loop.w_ret (Loop.wait_ret env (Loop.ls_launches st) k) = -1 ->
  Loop.w_errno (Loop.wait_ret env (Loop.ls_launches st) k) <> WaitStatus.EINTR ->
  (k < fuel)%nat ->
  Loop.wait_loop env (Loop.ls_launches st) fuel 0 = (Loop.WaitDied, S k)
  /\ exists st',
       Loop.main_loop g argv env (S fuel) st = (Loop.Exited Loop.FatalWait 1, st')
       /\ Loop.ls_log st'
          = Events.EvStderr Events.MsgFatalWait
            :: Events.EvFork (skipn (Globals.cmd_arg_idx g) argv) :: Loop.ls_log st
       /\ Loop.ls_launches st' = S (Loop.ls_launches st).
Proof.
  intros Hexec Hintr Hfail Herr Hfuel.
  assert (Hwait : Loop.wait_loop env (Loop.ls_launches st) fuel 0 = (Loop.WaitDied, S k)).
  { apply (wait_loop_dies_on_error env (Loop.ls_launches st) k 0 fuel); assumption. }
  split; [exact Hwait |].
  cbn [Loop.main_loop]. unfold Loop.iteration, Loop.run_command, Loop.launch_event.
  rewrite Hexec, Hwait. cbn [fst].
  destruct (Globals.precise g); eexists; (split; [reflexivity |]); split; reflexivity.
Qed.

(** [repeat -x job] when [wait] fails with [ECHILD]: status 1 and the
    message, after one launch. *)
Lemma failed_wait_is_fatal_witness :
  exists st',
    Loop.main_loop Scenarios.exec_config ["repeat"; "-x"; "job"]%string
                   Scenarios.childless 2 (Loop.mkState 0 (Timespec.mkTimespec 0 0) 0 0 [])
    = (Loop.Exited Loop.FatalWait 1, st')
    /\ Loop.ls_log st'
       = [Events.EvStderr Events.MsgFatalWait; Events.EvFork ["job"%string]]
    /\ Loop.ls_launches st' = 1%nat.
Proof.
  apply (failed_wait_is_fatal Scenarios.exec_config ["repeat"; "-x"; "job"]%string
           Scenarios.childless 1 0 (Loop.mkState 0 (Timespec.mkTimespec 0 0) 0 0 [])).
  - reflexivity.
  - intros i Hi. lia.
  - reflexivity.
  - cbn. discriminate.
  - lia.
Defined.

Section Flags.
Import CInt Timespec Globals Events CString Strtol Getopt Parse Spellings.
Context {F : FloatOps}.

Lemma letter_of_cases a c :
  letter_of a = Some c -> In (a, c) setting_flags.
Proof.
  unfold letter_of.
  destruct (find (fun p => String.eqb (fst p) a) setting_flags) as [[a' c'] |] eqn:E;
    [| discriminate].
  apply find_some in E. destruct E as [Hin Heq].
  apply String.eqb_eq in Heq. cbn in Heq. subst a'.
  cbn. intros H. inversion H; subst. exact Hin.
Qed.

(** [getopt_long] reads such an argument, wherever it stands, as its
    letter, with no [optarg], and moves to the next argument. *)
Lemma getopt_reads_flag argv i a c :
  nth_error argv i = Some a -> letter_of a = Some c ->
  getopt_long argv optstring long_options (mkGetopt i EmptyString)
  = mkAnswer (Some c) None (mkGetopt (S i) EmptyString) false.
Proof.
  intros Hnth Hletter. apply letter_of_cases in Hletter.
  unfold getopt_long. cbn [nextchar optind]. rewrite Hnth.
  cbn [setting_flags In] in Hletter.
  repeat (destruct Hletter as [E | Hletter]; [inversion E; subst; reflexivity |]).
  contradiction.
Qed.

(** What the [switch] does with the letter of such an argument. *)
Lemma switch_sets_flag a c flags g out :
  letter_of a = Some c ->
  switch c None g out
  = Go (with_flags [a] g)
       (debug_lines [a] ++ out)
  /\ with_flags flags (with_flags [a] g) = with_flags (a :: flags) g
  /\ (debug_lines flags ++ debug_lines [a] ++ out = debug_lines (a :: flags) ++ out)%list.
Proof.
  intros Hletter. pose proof (letter_of_cases a c Hletter) as Hin.
  assert (Hrep : forall n, (repeat (EvStdout MsgDebugEnabled) n
                            ++ EvStdout MsgDebugEnabled :: out
                            = EvStdout MsgDebugEnabled
                              :: repeat (EvStdout MsgDebugEnabled) n ++ out)%list).
  { induction n as [| n IHn]; cbn; [reflexivity | rewrite IHn; reflexivity]. }
  cbn [setting_flags In] in Hin.
  repeat (destruct Hin as [E | Hin];
          [inversion E; subst; clear E;
           (split; [destruct g; reflexivity |]);
           (split; [unfold with_flags, mentions; cbn;
                    rewrite ?orb_true_r; reflexivity
                   | unfold debug_lines; cbn [count_occ];
                     destruct (string_dec _ _) as [Eq | Ne];
                     first [discriminate Eq | elim Ne; reflexivity
                           | cbn; try rewrite Hrep; reflexivity]]) |]).
  contradiction.
Qed.

Lemma with_no_flags g : with_flags [] g = g.
Proof. destruct g. reflexivity. Qed.

(** The scan reads a run of such arguments one by one. *)
Lemma scan_reads_flags prog tail : forall flags done g out fuel,
  Forall (fun a => letter_of a <> None) flags ->
  parse_loop (List.length flags + fuel) (prog :: done ++ flags ++ tail)
             (mkGetopt (S (List.length done)) EmptyString) g out
  = parse_loop fuel (prog :: done ++ flags ++ tail)
               (mkGetopt (S (List.length done + List.length flags)) EmptyString)
               (with_flags flags g) (debug_lines flags ++ out).
Proof.
  induction flags as [| a flags IH]; intros done g out fuel Hknown.
  - cbn [List.length Nat.add app]. rewrite Nat.add_0_r, with_no_flags. reflexivity.
  - inversion Hknown as [| ? ? Ha Hrest]; subst.
    destruct (letter_of a) as [c |] eqn:Hletter; [clear Ha | congruence].
    cbn [List.length Nat.add]. rewrite parse_loop_step. cbv zeta.
    change ((a :: flags) ++ tail)%list with (a :: flags ++ tail)%list.
    rewrite (getopt_reads_flag (prog :: done ++ a :: flags ++ tail) (S (List.length done)) a c).
    2: { cbn [nth_error]. rewrite nth_error_app2 by apply Nat.le_refl.
         rewrite Nat.sub_diag. reflexivity. }
    2: exact Hletter.
    cbn [ret diagnosed optarg next].
    destruct (switch_sets_flag a c flags g out Hletter) as (Hswitch & Hg & Hout).
    rewrite Hswitch.
    replace (done ++ a :: flags ++ tail)%list with ((done ++ [a]) ++ flags ++ tail)%list
      by (rewrite <- app_assoc; reflexivity).
    replace (S (List.length done)) with (List.length (done ++ [a]))
      by (rewrite length_app; cbn; lia).
    rewrite (IH (done ++ [a])%list _ _ fuel Hrest), Hg, Hout.
    f_equal. f_equal. rewrite length_app. cbn [List.length]. lia.
Qed.

(** The scan ends at [--]: the command starts after it. *)
Lemma getopt_stops_at_dashes argv os lo ind :
  nth_error argv ind = Some "--"%string ->
  getopt_long argv os lo (mkGetopt ind EmptyString)
  = finished (mkGetopt (S ind) EmptyString).
Proof.
  intros Hnth. unfold getopt_long. cbn [nextchar optind]. rewrite Hnth. reflexivity.
Qed.

Lemma length_le_weight l : (List.length l <= weight l)%nat.
Proof. rewrite weight_split. lia. Qed.

(** After the scan, when there is a command: lines 153-176. *)
Lemma finish_with_command argv ind g out cmd rest :
  skipn ind argv = cmd :: rest -> (ind <= List.length argv)%nat ->
  Z.of_nat (weight argv) <= INT_MAX ->
  finish argv ind g out
  = Some (mkParse false 0 AtEnd
            (set_command
               (if use_exec g then command g
                else Some (list_ascii_of_string (String.concat " " (cmd :: rest))
                           ++ [NUL])%list)
               (set_cmd_arg_idx ind g)) out).
Proof.
  intros Hskip Hind Hfit. unfold finish.
  assert (Hlen : List.length (skipn ind argv) = S (List.length rest))
    by (rewrite Hskip; reflexivity).
  rewrite length_skipn in Hlen.
  destruct (Z.eqb_spec (Z.of_nat (List.length argv) - Z.of_nat ind) 0); [lia |].
  cbn [use_exec set_cmd_arg_idx].
  destruct (use_exec g) eqn:X; cbn [negb].
  - destruct g; cbn in *; subst; reflexivity.
  - rewrite Hskip, join_arguments_spec; [reflexivity |].
    pose proof (weight_skipn_le argv ind) as Hw. rewrite Hskip in Hw. lia.
Qed.

(** [parse_arguments] on a command line that starts with such flags: the
    scan is at the argument after them, with the flags' variables set. *)
Lemma parse_arguments_after_flags prog flags tail :
  Forall (fun a => letter_of a <> None) flags ->
  parse_arguments (prog :: flags ++ tail)
  = parse_loop (S (weight (prog :: flags ++ tail) - List.length flags))
               (prog :: flags ++ tail)
               (mkGetopt (S (List.length flags)) EmptyString)
               (with_flags flags Globals.initial) (debug_lines flags).
Proof.
  intros Hknown. unfold parse_arguments.
  pose proof (length_le_weight (prog :: flags ++ tail)) as Hw.
  cbn [List.length] in Hw. rewrite length_app in Hw.
  replace (S (weight (prog :: flags ++ tail)))
    with (List.length flags + S (weight (prog :: flags ++ tail) - List.length flags))%nat
    by lia.
  rewrite (scan_reads_flags prog tail flags [] Globals.initial [] _ Hknown).
  cbn [List.length Nat.add app]. rewrite app_nil_r. reflexivity.
Qed.

Lemma nth_error_after_flags {A} (prog : A) flags a rest :
  nth_error (prog :: flags ++ a :: rest) (S (List.length flags)) = Some a.
Proof.
  cbn [nth_error]. rewrite nth_error_app2 by apply Nat.le_refl.
  rewrite Nat.sub_diag. reflexivity.
Qed.

Lemma skipn_after_flags {A} (prog : A) flags tail :
  skipn (S (List.length flags)) (prog :: flags ++ tail) = tail.
Proof. cbn [skipn]. rewrite skipn_app, skipn_all, Nat.sub_diag. reflexivity. Qed.

End Flags.

(** X14.  Any number of the flags [-d], [-p], [--precise], [-e], [--untilerr],
    [--untilsuccess], [-x], [--noshell], in any order and with any repetition,
    before a command word that is not read as an option: [parse_arguments]
    returns [false], each variable is set exactly when one of its spellings
    occurs, the count and the interval keep their initial 0, [Debug enabled.]
    is printed once for each [-d], the command starts right after the flags
    and takes everything that follows it - whatever it looks like - and it is
    joined into one string unless [-x] is among the flags.  (The arguments
    have a size an [int] can count.) *)
Theorem setting_flags_accumulate
  {F : Parse.FloatOps} (prog : string) (flags : list string) (cmd : string)
  (rest : list string) :
  Forall (fun a => Spellings.letter_of a <> None) flags ->
  Getopt.looks_like_option cmd = false ->
  Z.of_nat (CString.weight (prog :: flags ++ cmd :: rest)) <= CInt.INT_MAX ->
  Parse.parse_arguments (prog :: flags ++ cmd :: rest)
  = Some (Parse.mkParse false 0 Parse.AtEnd
            (Globals.set_command
               (if Spellings.mentions "x" flags then None
                else Some (list_ascii_of_string (String.concat " " (cmd :: rest))
                           ++ [CString.NUL])%list)
               (Globals.set_cmd_arg_idx (S (List.length flags))
                  (Spellings.with_flags flags Globals.initial)))
            (Spellings.debug_lines flags)).
Proof.
  intros Hknown Hcmd Hfit.
  rewrite (parse_arguments_after_flags prog flags (cmd :: rest) Hknown), parse_loop_step.
  rewrite (getopt_stops_at_command _ Parse.optstring Parse.long_options
             (S (List.length flags)) cmd (nth_error_after_flags prog flags cmd rest) Hcmd).
  cbn [Getopt.ret Getopt.diagnosed Getopt.finished Getopt.next Getopt.optind].
  rewrite (finish_with_command _ (S (List.length flags)) _ _ cmd rest).
  - unfold Spellings.with_flags at 1 2. cbn [Globals.use_exec Globals.command Globals.initial].
    rewrite orb_false_r. reflexivity.
  - apply skipn_after_flags.
  - cbn [List.length]. rewrite length_app. lia.
  - exact Hfit.
Qed.

(** [repeat -e --precise -d -e make -k all]: the [-k] belongs to [make]. *)
Lemma setting_flags_accumulate_witness :
  exists r,
    Parse.parse_arguments (F := Scenarios.whole_numbers)
      ("repeat" :: ["-e"; "--precise"; "-d"; "-e"] ++ "make" :: ["-k"; "all"])%string
    = Some r
    /\ Globals.precise (Parse.config r) = true
    /\ Globals.exit_on_error (Parse.config r) = true
    /\ Globals.exit_on_success (Parse.config r) = false
    /\ Globals.use_exec (Parse.config r) = false
    /\ Globals.debug (Parse.config r) = true
    /\ Globals.cmd_arg_idx (Parse.config r) = 5%nat
    /\ option_map CString.c_string (Globals.command (Parse.config r))
       = Some "make -k all"%string
    /\ Parse.output r = [Events.EvStdout Events.MsgDebugEnabled].
Proof.
  eexists. split.
  - apply (setting_flags_accumulate (F := Scenarios.whole_numbers) "repeat"
             ["-e"; "--precise"; "-d"; "-e"]%string "make" ["-k"; "all"]%string).
    + repeat constructor; discriminate.
    + reflexivity.
    + vm_compute. discriminate.
  - repeat split; reflexivity.
Defined.

(** X15.  [--] ends the options: the command starts after it, whatever its
    first word looks like, and the [--] is not part of it. *)
Theorem double_dash_ends_the_options
  {F : Parse.FloatOps} (prog : string) (flags : list string) (cmd : string)
  (rest : list string) :
  Forall (fun a => Spellings.letter_of a <> None) flags ->
  Z.of_nat (CString.weight (prog :: flags ++ "--"%string :: cmd :: rest)) <= CInt.INT_MAX ->
  Parse.parse_arguments (prog :: flags ++ "--"%string :: cmd :: rest)
  = Some (Parse.mkParse false 0 Parse.AtEnd
            (Globals.set_command
               (if Spellings.mentions "x" flags then None
                else Some (list_ascii_of_string (String.concat " " (cmd :: rest))
                           ++ [CString.NUL])%list)
               (Globals.set_cmd_arg_idx (S (S (List.length flags)))
                  (Spellings.with_flags flags Globals.initial)))
            (Spellings.debug_lines flags)).
Proof.
  intros Hknown Hfit.
  rewrite (parse_arguments_after_flags prog flags ("--"%string :: cmd :: rest) Hknown),
    parse_loop_step.
  rewrite (getopt_stops_at_dashes _ Parse.optstring Parse.long_options
             (S (List.length flags)) (nth_error_after_flags prog flags "--"%string (cmd :: rest))).
  cbn [Getopt.ret Getopt.diagnosed Getopt.finished Getopt.next Getopt.optind].
  rewrite (finish_with_command _ (S (S (List.length flags))) _ _ cmd rest).
  - unfold Spellings.with_flags at 1 2. cbn [Globals.use_exec Globals.command Globals.initial].
    rewrite orb_false_r. reflexivity.
  - change (S (S (List.length flags))) with (1 + S (List.length flags))%nat.
    rewrite <- skipn_skipn, skipn_after_flags. reflexivity.
  - cbn [List.length]. rewrite length_app. cbn [List.length]. lia.
  - exact Hfit.
Qed.

(** [repeat -x -- -weird -t 5]: the command is [-weird -t 5], and the count
    stays 0. *)
Lemma double_dash_ends_the_options_witness :
  exists r,
    Parse.parse_arguments (F := Scenarios.whole_numbers)
      ("repeat" :: ["-x"] ++ "--" :: "-weird" :: ["-t"; "5"])%string
    = Some r
    /\ Parse.exit_now r = false
    /\ Globals.times (Parse.config r) = 0
    /\ Globals.command (Parse.config r) = None
    /\ skipn (Globals.cmd_arg_idx (Parse.config r))
             ["repeat"; "-x"; "--"; "-weird"; "-t"; "5"]%string
       = ["-weird"; "-t"; "5"]%string.
Proof.
  eexists. split.
  - apply (double_dash_ends_the_options (F := Scenarios.whole_numbers) "repeat"
             ["-x"]%string "-weird" ["-t"; "5"]%string).
    + repeat constructor; discriminate.
    + vm_compute. discriminate.
  - repeat split; reflexivity.
Defined.

Section Informational.
Import CInt Timespec Globals Events CString Strtol Getopt Parse Spellings.
Context {F : FloatOps}.

Lemma getopt_reads_informational argv i a m :
  nth_error argv i = Some a -> In (a, m) informational ->
  exists c,
    getopt_long argv optstring long_options (mkGetopt i EmptyString)
    = mkAnswer (Some c) None (mkGetopt (S i) EmptyString) false
    /\ forall g out,
         switch c None g out
         = Return (mkParse true 0 (match m with MsgVersion => AtVersion | _ => AtHelp end)
                           g (EvStdout m :: out)).
Proof.
  intros Hnth Hin. unfold getopt_long. cbn [nextchar optind]. rewrite Hnth.
  cbn [informational In] in Hin.
  repeat (destruct Hin as [E | Hin];
          [inversion E; subst; eexists; split; [reflexivity | intros; reflexivity] |]).
  contradiction.
Qed.

(** An error mark comes with a diagnostic: no option of this program has
    the value ['?']. *)
Lemma error_is_diagnosed argv st :
  ret (getopt_long argv optstring long_options st) = Some "?"%char ->
  getopt_long argv optstring long_options st
  = bad (next (getopt_long argv optstring long_options st)).
Proof.
  assert (Hshort : forall ind c rest,
            ret (short_option argv optstring ind c rest) = Some "?"%char ->
            short_option argv optstring ind c rest
            = bad (next (short_option argv optstring ind c rest))).
  { intros ind c rest. unfold short_option.
    destruct ((c =? ":")%char || (c =? ";")%char); [reflexivity |].
    destruct (lookup_short c optstring) as [[|] |] eqn:L; [| | reflexivity].
    - destruct rest as [| r rest].
      + destruct (nth_error argv (S ind)); [| reflexivity].
        cbn. intros H. inversion H; subst. discriminate L.
      + cbn. intros H. inversion H; subst. discriminate L.
    - cbn. intros H. inversion H; subst. discriminate L. }
  assert (Hlong : forall ind body,
            ret (long_option_at argv long_options ind body) = Some "?"%char ->
            long_option_at argv long_options ind body
            = bad (next (long_option_at argv long_options ind body))).
  { intros ind body. unfold long_option_at. destruct (split_eq body) as [nm value].
    destruct (lookup_long long_options nm) as [o | |] eqn:L; try reflexivity.
    pose proof (lookup_long_in long_options nm o L) as Hin.
    assert (Hval : val o <> "?"%char).
    { cbn [long_options In] in Hin.
      repeat (destruct Hin as [E | Hin]; [subst o; discriminate |]). contradiction. }
    destruct value as [v |], (has_arg o); try reflexivity;
      try (cbn; intros H; inversion H; congruence).
    destruct (nth_error argv (S ind)); [| reflexivity].
    cbn. intros H. inversion H; congruence. }
  unfold getopt_long. destruct st as [ind [| c rest]]; cbn [nextchar optind].
  - destruct (nth_error argv ind) as [arg |]; [| discriminate].
    destruct arg as [| a0 [| a1 arg]]; try discriminate.
    + destruct a0 as [[] [] [] [] [] [] [] []]; discriminate.
    + destruct a0 as [[] [] [] [] [] [] [] []]; try discriminate.
      destruct a1 as [[] [] [] [] [] [] [] []]; try apply Hshort.
      destruct arg as [| a2 arg]; [discriminate | apply Hlong].
  - apply Hshort.
Qed.

End Informational.

(** X16.  [-h], [--help], [-V] and [--version], after any number of flags: the
    program prints the usage text, or the version, on the standard output and
    exits with status 0 without looking at what follows: no command is needed
    and none is run. *)
Theorem help_and_version_exit_at_once
  {F : Parse.FloatOps} (prog : string) (flags : list string) (a : string)
  (m : Events.message) (rest : list string) (env : Loop.environment) (fuel : nat) :
  Forall (fun f => Spellings.letter_of f <> None) flags ->
  In (a, m) Spellings.informational ->
  Main.main (prog :: flags ++ a :: rest) env fuel
  = Some (Loop.Exited Loop.ParseExit 0,
          Loop.mkState 0 (Timespec.mkTimespec 0 0) 0 0
                       (Events.EvStdout m :: Spellings.debug_lines flags)).
Proof.
  intros Hknown Hin. unfold Main.main.
  rewrite (parse_arguments_after_flags prog flags (a :: rest) Hknown), parse_loop_step.
  destruct (getopt_reads_informational (prog :: flags ++ a :: rest) (S (List.length flags))
              a m (nth_error_after_flags prog flags a rest) Hin) as (c & Hget & Hswitch).
  rewrite Hget. cbn [Getopt.ret Getopt.diagnosed Getopt.optarg Getopt.next].
  rewrite Hswitch. reflexivity.
Qed.

(** [repeat -d --help --bogus]: the usage text, status 0; [--bogus] is never
    looked at. *)
Lemma help_and_version_exit_at_once_witness :
  Main.main (F := Scenarios.whole_numbers)
    ("repeat" :: ["-d"] ++ "--help" :: ["--bogus"])%string Scenarios.counting 3
  = Some (Loop.Exited Loop.ParseExit 0,
          Loop.mkState 0 (Timespec.mkTimespec 0 0) 0 0
            [Events.EvStdout Events.MsgUsage; Events.EvStdout Events.MsgDebugEnabled]).
Proof.
  apply (help_and_version_exit_at_once (F := Scenarios.whole_numbers) "repeat"
           ["-d"]%string "--help" Events.MsgUsage ["--bogus"]%string Scenarios.counting 3).
  - repeat constructor; discriminate.
  - right. left. reflexivity.
Defined.

(** X18.  The option string of line 80 has a letter, [z], that the [switch]
    has no case for: [-z] reaches the [default] branch, and the process exits
    with status 1 after the message of line 140. *)
Theorem letter_z_reaches_the_default_branch
  {F : Parse.FloatOps} (prog : string) (flags : list string) (more : string)
  (rest : list string) (env : Loop.environment) (fuel : nat) :
  Forall (fun f => Spellings.letter_of f <> None) flags ->
  Main.main (prog :: flags ++ String "-" (String "z" more) :: rest) env fuel
  = Some (Loop.Exited Loop.ParseExit 1,
          Loop.mkState 0 (Timespec.mkTimespec 0 0) 0 0
                       (Events.EvStderr Events.MsgCantHappen :: Spellings.debug_lines flags)).
Proof.
  intros Hknown. unfold Main.main.
  rewrite (parse_arguments_after_flags prog flags _ Hknown), parse_loop_step.
  assert (Hget : Getopt.getopt_long (prog :: flags ++ String "-" (String "z" more) :: rest)
                   Parse.optstring Parse.long_options
                   (Getopt.mkGetopt (S (List.length flags)) EmptyString)
                 = Getopt.mkAnswer (Some "z"%char) None
                     (Getopt.mkGetopt (match more with
                                       | EmptyString => S (S (List.length flags))
                                       | _ => S (List.length flags)
                                       end) more) false).
  { unfold Getopt.getopt_long. cbn [Getopt.nextchar Getopt.optind].
    rewrite nth_error_after_flags. reflexivity. }
  rewrite Hget. reflexivity.
Qed.

(** [repeat -p -z job]. *)
Lemma letter_z_reaches_the_default_branch_witness :
  Main.main (F := Scenarios.whole_numbers)
    ("repeat" :: ["-p"] ++ "-z" :: ["job"])%string Scenarios.counting 3
  = Some (Loop.Exited Loop.ParseExit 1,
          Loop.mkState 0 (Timespec.mkTimespec 0 0) 0 0 [Events.EvStderr Events.MsgCantHappen]).
Proof.
  apply (letter_z_reaches_the_default_branch (F := Scenarios.whole_numbers) "repeat"
           ["-p"]%string "" ["job"]%string Scenarios.counting 3).
  repeat constructor; discriminate.
Defined.

Section ScanInvariants.
Import CInt Timespec Globals Events CString Strtol Getopt Parse.

(** [optind] never goes back. *)
Lemma getopt_long_optind_grows argv os lo st :
  (optind st <= optind (next (getopt_long argv os lo st)))%nat.
Proof.
  assert (Hshort : forall ind c rest,
            (ind <= optind (next (short_option argv os ind c rest)))%nat).
  { intros ind c rest. unfold short_option.
    destruct (if (c =? ":")%char || (c =? ";")%char then None else lookup_short c os)
      as [[|] |].
    - destruct rest as [| r rest]; [| cbn; lia].
      destruct (nth_error argv (S ind)); cbn; lia.
    - destruct rest; cbn; lia.
    - destruct rest; cbn; lia. }
  assert (Hlong : forall ind body,
            (ind <= optind (next (long_option_at argv lo ind body)))%nat).
  { intros ind body. unfold long_option_at. destruct (split_eq body) as [nm value].
    destruct (lookup_long lo nm) as [o | |]; try (cbn; lia).
    destruct value as [v |], (has_arg o); try (cbn; lia).
    destruct (nth_error argv (S ind)); cbn; lia. }
  unfold getopt_long. destruct st as [ind [| c rest]]; cbn [nextchar optind].
  - destruct (nth_error argv ind) as [arg |]; [| cbn; lia].
    destruct arg as [| a0 [| a1 arg]]; try (cbn; lia).
    + destruct a0 as [[] [] [] [] [] [] [] []]; cbn; lia.
    + destruct a0 as [[] [] [] [] [] [] [] []]; try (cbn; lia).
      destruct a1 as [[] [] [] [] [] [] [] []]; try apply Hshort.
      destruct arg as [| a2 arg]; [cbn; lia | apply Hlong].
  - apply Hshort.
Qed.

(** A diagnostic comes with the error mark. *)
Lemma diagnosed_is_error argv os lo st :
  diagnosed (getopt_long argv os lo st) = true ->
  ret (getopt_long argv os lo st) = Some "?"%char.
Proof.
  assert (Hshort : forall ind c rest,
            diagnosed (short_option argv os ind c rest) = true ->
            ret (short_option argv os ind c rest) = Some "?"%char).
  { intros ind c rest. unfold short_option.
    destruct (if (c =? ":")%char || (c =? ";")%char then None else lookup_short c os)
      as [[|] |]; try (cbn; discriminate); try reflexivity.
    destruct rest as [| r rest]; [| cbn; discriminate].
    destruct (nth_error argv (S ind)); [cbn; discriminate | reflexivity]. }
  assert (Hlong : forall ind body,
            diagnosed (long_option_at argv lo ind body) = true ->
            ret (long_option_at argv lo ind body) = Some "?"%char).
  { intros ind body. unfold long_option_at. destruct (split_eq body) as [nm value].
    destruct (lookup_long lo nm) as [o | |]; try reflexivity.
    destruct value as [v |], (has_arg o); try (cbn; discriminate); try reflexivity.
    destruct (nth_error argv (S ind)); [cbn; discriminate | reflexivity]. }
  unfold getopt_long. destruct st as [ind [| c rest]]; cbn [nextchar optind].
  - destruct (nth_error argv ind) as [arg |]; [| discriminate].
    destruct arg as [| a0 [| a1 arg]]; try discriminate.
    + destruct a0 as [[] [] [] [] [] [] [] []]; discriminate.
    + destruct a0 as [[] [] [] [] [] [] [] []]; try discriminate.
      destruct a1 as [[] [] [] [] [] [] [] []]; try apply Hshort.
      destruct arg as [| a2 arg]; [discriminate | apply Hlong].
  - apply Hshort.
Qed.

Context {F : FloatOps}.

(** What the [switch] leaves alone when the scan goes on: it never
    touches [command], and it prints nothing but the line of [-d]. *)
Lemma switch_goes_on c arg g out g' out' :
  switch c arg g out = Go g' out' ->
  c <> "?"%char /\ command g' = command g
  /\ (out' = out \/ out' = EvStdout MsgDebugEnabled :: out).
Proof.
  destruct c as [[] [] [] [] [] [] [] []]; cbn [switch];
    try discriminate;
    try (intros H; inversion H; subst;
         split; [discriminate | split; [reflexivity | auto]]).
  - destruct arg as [s |]; [| discriminate]. unfold interval_option.
    destruct (strtof s) as [x used]. destruct (used =? 0)%nat; [discriminate |].
    destruct (match String.get used s with
              | None => Some x
              | Some "d"%char => Some (fscale x 86400)
              | Some "h"%char => Some (fscale x 3600)
              | Some "m"%char => Some (fscale x 60)
              | Some "s"%char => Some x
              | Some _ => None
              end); [| discriminate].
    intros H; inversion H; subst. split; [discriminate | split; [reflexivity | auto]].
  - destruct arg as [s |]; [| discriminate]. unfold times_option.
    destruct (strtol s) as [v used]. destruct (used =? 0)%nat; [discriminate |].
    intros H; inversion H; subst. split; [discriminate | split; [reflexivity | auto]].
Qed.

Lemma switch_return_val c arg g out r :
  switch c arg g out = Return r -> return_val r = 0 \/ return_val r = 1.
Proof.
  destruct c as [[] [] [] [] [] [] [] []]; cbn [switch];
    try discriminate;
    try (intros H; inversion H; subst; cbn; auto; fail).
  - destruct arg as [s |]; [| discriminate]. unfold interval_option.
    destruct (strtof s) as [x used].
    destruct (used =? 0)%nat; [intros H; inversion H; subst; cbn; auto |].
    destruct (match String.get used s with
              | None => Some x
              | Some "d"%char => Some (fscale x 86400)
              | Some "h"%char => Some (fscale x 3600)
              | Some "m"%char => Some (fscale x 60)
              | Some "s"%char => Some x
              | Some _ => None
              end); [discriminate |].
    intros H; inversion H; subst. cbn. auto.
  - destruct arg as [s |]; [| discriminate]. unfold times_option.
    destruct (strtol s) as [v used]. destruct (used =? 0)%nat; [| discriminate].
    intros H; inversion H; subst. cbn. auto.
Qed.

Lemma finish_return_val argv ind g out r :
  finish argv ind g out = Some r -> return_val r = 0 \/ return_val r = 1.
Proof.
  unfold finish.
  destruct (Z.of_nat (List.length argv) - Z.of_nat ind =? 0);
    [intros H; inversion H; subst; cbn; auto |].
  destruct (negb (use_exec (set_cmd_arg_idx ind g))).
  - destruct (join_arguments (skipn ind argv)); intros H; inversion H; subst; cbn; auto.
  - intros H; inversion H; subst; cbn; auto.
Qed.

Lemma parse_loop_return_val argv fuel : forall st g out r,
  parse_loop fuel argv st g out = Some r -> return_val r = 0 \/ return_val r = 1.
Proof.
  induction fuel as [| fuel IH]; intros st g out r; [discriminate |].
  rewrite parse_loop_step. cbv zeta.
  destruct (ret (getopt_long argv optstring long_options st)) as [c |].
  - destruct (switch c _ g _) as [g' out' | r' |] eqn:S.
    + apply IH.
    + intros H; inversion H; subst. exact (switch_return_val _ _ _ _ _ S).
    + discriminate.
  - apply finish_return_val.
Qed.

(** What holds of the scan at every turn, and what it gives when
    [parse_arguments] returns [false]. *)
Lemma parse_loop_goes_on argv fuel : forall st g out r,
  (1 <= optind st)%nat -> in_bounds argv st -> command g = None ->
  Forall (fun e => e = EvStdout MsgDebugEnabled) out ->
  parse_loop fuel argv st g out = Some r -> exit_now r = false ->
  return_val r = 0
  /\ (1 <= cmd_arg_idx (config r) < List.length argv)%nat
  /\ (use_exec (config r) = true -> command (config r) = None)
  /\ (use_exec (config r) = false -> command (config r) <> None)
  /\ Forall (fun e => e = EvStdout MsgDebugEnabled) (output r).
Proof.
  induction fuel as [| fuel IH]; intros st g out r Hone Hb Hcmd Hout; [discriminate |].
  rewrite parse_loop_step. cbv zeta.
  pose proof (getopt_long_optind_grows argv optstring long_options st) as Hgrow.
  destruct (getopt_long_in_bounds argv optstring long_options st Hb) as [Hb' Hend].
  pose proof (diagnosed_is_error argv optstring long_options st) as Hdiag.
  destruct (ret (getopt_long argv optstring long_options st)) as [c |] eqn:Hret.
  - destruct (switch c _ g _) as [g' out' | r' |] eqn:S.
    + destruct (switch_goes_on _ _ _ _ _ _ S) as (Hc & Hcmd' & Hout').
      destruct (diagnosed (getopt_long argv optstring long_options st)).
      * specialize (Hdiag eq_refl). congruence.
      * apply IH; [lia | exact Hb' | congruence |].
        destruct Hout' as [-> | ->]; [exact Hout | constructor; [reflexivity | exact Hout]].
    + intros H; inversion H; subst. intros Hgo.
      rewrite (switch_exits _ _ _ _ _ S) in Hgo. discriminate.
    + discriminate.
  - destruct (diagnosed (getopt_long argv optstring long_options st));
      [specialize (Hdiag eq_refl); discriminate |].
    specialize (Hend eq_refl). unfold in_bounds in Hb'. rewrite Hend in Hb'.
    set (ind := optind (next (getopt_long argv optstring long_options st))) in *.
    unfold finish.
    destruct (Z.eqb_spec (Z.of_nat (List.length argv) - Z.of_nat ind) 0) as [E | E];
      [intros H; inversion H; subst; discriminate |].
    cbn [use_exec set_cmd_arg_idx].
    destruct (use_exec g) eqn:X; cbn [negb].
    + intros H _; inversion H; subst. cbn.
      repeat split; try lia; try assumption; intros; congruence.
    + destruct (join_arguments (skipn ind argv)); intros H _; inversion H; subst. cbn.
      repeat split; try lia; try assumption; intros; congruence.
Qed.

End ScanInvariants.

(** X19.  Whenever [parse_arguments] returns [false]: [*return_val] is 0;
    [cmd_arg_idx] is the index of an argument after the program name, so there
    is a command word for [execvp]; [command] is [NULL] exactly when
    [use_exec] is set, so that [system] is never handed a null pointer; and
    nothing has been printed but a line for each [-d]. *)
Theorem parse_success_leaves_a_command
  {F : Parse.FloatOps} (argv : list string) (r : Parse.parse_result) :
  Parse.parse_arguments argv = Some r -> Parse.exit_now r = false ->
  Parse.return_val r = 0
  /\ (1 <= Globals.cmd_arg_idx (Parse.config r) < List.length argv)%nat
  /\ (Globals.use_exec (Parse.config r) = true -> Globals.command (Parse.config r) = None)
  /\ (Globals.use_exec (Parse.config r) = false -> Globals.command (Parse.config r) <> None)
  /\ Forall (fun e => e = Events.EvStdout Events.MsgDebugEnabled) (Parse.output r).
Proof.
  intros Hparse Hgo. unfold Parse.parse_arguments in Hparse.
  destruct argv as [| prog rest].
  - cbn in Hparse. discriminate.
  - apply (parse_loop_goes_on (prog :: rest) (S (CString.weight (prog :: rest)))
             Getopt.start Globals.initial [] r);
      try assumption.
    + cbn. lia.
    + apply start_in_bounds. discriminate.
    + reflexivity.
    + constructor.
Qed.

(** [repeat -x -t 2 job a]. *)
Lemma parse_success_leaves_a_command_witness :
  exists r,
    Parse.parse_arguments (F := Scenarios.whole_numbers)
      ["repeat"; "-x"; "-t"; "2"; "job"; "a"]%string = Some r
    /\ Parse.return_val r = 0
    /\ (1 <= Globals.cmd_arg_idx (Parse.config r) < 6)%nat
    /\ Globals.command (Parse.config r) = None.
Proof.
  eexists. split; [vm_compute; reflexivity |].
  destruct (parse_success_leaves_a_command (F := Scenarios.whole_numbers)
              ["repeat"; "-x"; "-t"; "2"; "job"; "a"]%string _
              ltac:(vm_compute; reflexivity) eq_refl)
    as (Hret & Hidx & Hnull & _ & _).
  split; [exact Hret | split; [exact Hidx | exact (Hnull eq_refl)]].
Defined.

Section WhatIsLaunched.
Import CInt Timespec WaitStatus Globals Events Loop Views.
Variable g : globals.
Variable argv : list string.
Variable env : environment.

(** A launch among the events of a turn is the turn's own launch or was
    there before. *)
Lemma pause_launches_nothing fuel n st e :
  match pause g env fuel n st with
  | Next st' | Halt _ st' =>
      In e (ls_log st') -> is_launch e = true -> In e (ls_log st)
  end.
Proof.
  unfold pause.
  destruct (negb (tv_sec (interval_ts g) =? 0) || negb (tv_nsec (interval_ts g) =? 0));
    [| auto].
  destruct (negb (precise g)).
  - destruct (clock_ret env (ls_clocks st)) as [err now].
    destruct (err <? 0).
    + cbn. intros [<- | H] Hl; [discriminate | exact H].
    + destruct (sleep_loop env n fuel 0); cbn; intros [<- | H] Hl;
        first [discriminate | exact H].
  - destruct (sleep_loop env n fuel 0); cbn; intros [<- | H] Hl;
      first [discriminate | exact H].
Qed.

Lemma iteration_launches_the_command fuel st e :
  match iteration g argv env fuel st with
  | Next st' | Halt _ st' =>
      In e (ls_log st') -> is_launch e = true ->
      e = launch_event g argv \/ In e (ls_log st)
  end.
Proof.
  unfold iteration.
  set (st2 := count_launch (log_event (launch_event g argv)
                (if precise g
                 then set_next_exec (timespec_add (ls_next_exec st) (interval_ts g)) st
                 else st))).
  assert (H2 : In e (ls_log st2) -> e = launch_event g argv \/ In e (ls_log st)).
  { unfold st2. cbn [ls_log count_launch log_event].
    intros [<- | H]; [left; reflexivity | right].
    destruct (precise g); exact H. }
  assert (Hmsg : forall m, In e (ls_log (log_event (EvStderr m) st2)) ->
                           is_launch e = true ->
                           e = launch_event g argv \/ In e (ls_log st)).
  { intros m. cbn [ls_log log_event]. intros [<- | H] Hl; [discriminate | auto]. }
  destruct (run_command g env fuel (ls_launches st)) as [ret | |];
    [| apply Hmsg | auto].
  destruct (check_status g ret) as [[why c] |].
  - destruct why; first [apply Hmsg | auto].
  - destruct (count_down (ls_times st2)) as [t last].
    destruct last; [auto |].
    pose proof (pause_launches_nothing fuel (ls_launches st) (set_ls_times t st2) e) as P.
    destruct (pause g env fuel (ls_launches st) (set_ls_times t st2));
      cbn [ls_log set_ls_times] in P; auto.
Qed.

Lemma main_loop_launches_the_command fuel e : forall st,
  In e (ls_log (snd (main_loop g argv env fuel st))) -> is_launch e = true ->
  e = launch_event g argv \/ In e (ls_log st).
Proof.
  induction fuel as [| fuel IH]; intros st; cbn [main_loop]; [auto |].
  pose proof (iteration_launches_the_command fuel st e) as H.
  destruct (iteration g argv env fuel st) as [st' | s st'].
  - intros Hin Hl. destruct (IH st' Hin Hl) as [E | Hin']; auto.
  - exact H.
Qed.

Lemma run_loop_launches_the_command fuel out e :
  In e (ls_log (snd (run_loop g argv env fuel out))) -> is_launch e = true ->
  e = launch_event g argv \/ In e out.
Proof.
  unfold run_loop, enter.
  assert (H0 : In e (if debug g then EvStdout MsgDebugDump :: out else out) ->
               is_launch e = true -> In e out).
  { destruct (debug g); [| auto]. intros [<- | H] Hl; [discriminate | exact H]. }
  destruct (precise g).
  - destruct (clock_ret env 0) as [err now]. destruct (err <? 0).
    + cbn. intros [<- | H] Hl; [discriminate | right; auto].
    + intros Hin Hl.
      destruct (main_loop_launches_the_command fuel e _ Hin Hl) as [E | Hin'];
        [left; exact E | right; auto].
  - intros Hin Hl.
    destruct (main_loop_launches_the_command fuel e _ Hin Hl) as [E | Hin'];
      [left; exact E | right; auto].
Qed.

(** The exit-status byte is a byte. *)
Lemma WEXITSTATUS_range s : 0 <= WEXITSTATUS s <= 255.
Proof.
  unfold WEXITSTATUS. rewrite Z.shiftr_land.
  change (Z.shiftr 65280 8) with (Z.ones 8).
  rewrite Z.land_ones by lia.
  pose proof (Z.mod_pos_bound (Z.shiftr s 8) (2 ^ 8) ltac:(reflexivity)). lia.
Qed.

Lemma check_status_code ret why c :
  check_status g ret = Some (why, c) -> 0 <= c <= 255 /\ why <> ParseExit.
Proof.
  unfold check_status. pose proof (WEXITSTATUS_range ret).
  repeat match goal with |- context [if ?b then _ else _] => destruct b end;
    intros E; inversion E; subst; split; (lia || discriminate).
Qed.

Lemma iteration_exit_code fuel st why c st' :
  iteration g argv env fuel st = Halt (Exited why c) st' ->
  0 <= c <= 255 /\ why <> ParseExit.
Proof.
  unfold iteration.
  destruct (run_command g env fuel (ls_launches st)) as [ret | |].
  - destruct (check_status g ret) as [[why' c'] |] eqn:Hcheck.
    + destruct (check_status_code _ _ _ Hcheck) as [Hc Hw].
      destruct why'; intros E; inversion E; subst; split; (lia || congruence).
    + destruct (count_down _) as [t last]. destruct last.
      * intros E; inversion E; subst. split; [apply WEXITSTATUS_range | discriminate].
      * unfold pause.
        destruct (negb (tv_sec (interval_ts g) =? 0) || negb (tv_nsec (interval_ts g) =? 0));
          [| discriminate].
        destruct (negb (precise g)).
        -- destruct (clock_ret env _) as [err now]. destruct (err <? 0).
           ++ intros E; inversion E; subst. split; [lia | discriminate].
           ++ destruct (sleep_loop env _ fuel 0); discriminate.
        -- destruct (sleep_loop env _ fuel 0); discriminate.
  - intros E; inversion E; subst. split; [lia | discriminate].
  - discriminate.
Qed.

Lemma main_loop_exit_code fuel : forall st why c,
  fst (main_loop g argv env fuel st) = Exited why c ->
  0 <= c <= 255 /\ why <> ParseExit.
Proof.
  induction fuel as [| fuel IH]; intros st why c; cbn [main_loop]; [discriminate |].
  destruct (iteration g argv env fuel st) as [st' | s st'] eqn:E.
  - apply IH.
  - cbn. intros ->. exact (iteration_exit_code fuel st why c st' E).
Qed.

Lemma run_loop_exit_code fuel out why c :
  fst (run_loop g argv env fuel out) = Exited why c ->
  0 <= c <= 255 /\ why <> ParseExit.
Proof.
  unfold run_loop, enter.
  destruct (precise g).
  - destruct (clock_ret env 0) as [err now]. destruct (err <? 0).
    + cbn. intros E; inversion E; subst. split; [lia | discriminate].
    + apply main_loop_exit_code.
  - apply main_loop_exit_code.
Qed.

End WhatIsLaunched.

(** X20.  Every launch runs the command that [parse_arguments] found: with
    [-x], each child is handed the words from [cmd_arg_idx] on, as they are;
    without it, each call of [system] gets those words joined by single
    spaces.  The first run and every later one are the same, and nothing else
    is ever launched.  (Arguments are C strings, and together they have a size
    an [int] can count.) *)
Theorem every_launch_runs_the_command
  {F : Parse.FloatOps} (argv : list string) (env : Loop.environment) (fuel : nat)
  (r : Parse.parse_result) (s : Loop.status) (st : Loop.loop_state) (e : Events.event) :
  Forall CString.nul_free argv ->
  Z.of_nat (CString.weight argv) <= CInt.INT_MAX ->
  Parse.parse_arguments argv = Some r ->
  Main.main argv env fuel = Some (s, st) ->
  In e (Loop.ls_log st) -> Events.is_launch e = true ->
  e = if Globals.use_exec (Parse.config r)
      then Events.EvFork (skipn (Globals.cmd_arg_idx (Parse.config r)) argv)
      else Events.EvSystem
             (Some (String.concat " " (skipn (Globals.cmd_arg_idx (Parse.config r)) argv))).
Proof.
  intros Hnul Hfit Hparse Hmain Hin Hlaunch.
  assert (Hne : argv <> []).
  { intros ->. cbn in Hparse. discriminate. }
  destruct (parse_arguments_defined argv Hne Hfit) as (r' & Hr' & Hjoined).
  rewrite Hparse in Hr'. inversion Hr'; subst r'. clear Hr'.
  unfold Main.main in Hmain. rewrite Hparse in Hmain.
  destruct (Parse.exit_now r) eqn:Hexit.
  - inversion Hmain; subst. cbn [Loop.ls_log] in Hin.
    destruct (parse_loop_reported argv _ _ _ _ r (Forall_nil _) Hparse Hexit) as [Hnone _].
    exfalso. unfold Events.launch_count in Hnone.
    assert (Hf : In e (filter Events.is_launch (Parse.output r)))
      by (apply filter_In; split; assumption).
    destruct (filter Events.is_launch (Parse.output r)); [exact Hf | discriminate].
  - inversion Hmain as [Hrun].
    assert (Hst : st = snd (Loop.run_loop (Parse.config r) argv env fuel (Parse.output r)))
      by (rewrite Hrun; reflexivity).
    rewrite Hst in Hin.
    destruct (run_loop_launches_the_command _ _ _ _ _ _ Hin Hlaunch) as [E | Hout].
    + subst e. unfold Loop.launch_event.
      destruct (Hjoined Hexit) as (_ & first & rest & Hskip & Hcmd).
      destruct (Globals.use_exec (Parse.config r)); [reflexivity |].
      rewrite (Hcmd eq_refl). cbn [option_map]. rewrite Hskip. f_equal. f_equal.
      apply c_string_chars.
      pose proof (Forall_skipn _ argv (Globals.cmd_arg_idx (Parse.config r)) Hnul) as Hn.
      rewrite Hskip in Hn. inversion Hn; subst.
      rewrite concat_spaced. apply nul_free_app; [assumption |].
      apply nul_free_spaced. assumption.
    + exfalso.
      unfold Parse.parse_arguments in Hparse.
      destruct argv as [| prog rest]; [congruence |].
      destruct (parse_loop_goes_on (prog :: rest) (S (CString.weight (prog :: rest)))
                  Getopt.start Globals.initial [] r)
        as (_ & _ & _ & _ & Hdebug); try assumption.
      * cbn. lia.
      * apply start_in_bounds. discriminate.
      * reflexivity.
      * constructor.
      * rewrite Forall_forall in Hdebug. rewrite (Hdebug e Hout) in Hlaunch.
        discriminate.
Qed.

(** [repeat -t 2 echo "a b" c]: the shell is handed [echo a b c]. *)
Lemma every_launch_runs_the_command_witness :
  exists r s st,
    Parse.parse_arguments (F := Scenarios.whole_numbers)
      ["repeat"; "-t"; "2"; "echo"; "a b"; "c"]%string = Some r
    /\ Main.main (F := Scenarios.whole_numbers)
         ["repeat"; "-t"; "2"; "echo"; "a b"; "c"]%string Scenarios.counting 3 = Some (s, st)
    /\ In (Events.EvSystem (Some "echo a b c"%string)) (Loop.ls_log st)
    /\ Events.EvSystem (Some "echo a b c"%string)
       = if Globals.use_exec (Parse.config r)
         then Events.EvFork (skipn (Globals.cmd_arg_idx (Parse.config r))
                               ["repeat"; "-t"; "2"; "echo"; "a b"; "c"]%string)
         else Events.EvSystem
                (Some (String.concat " "
                         (skipn (Globals.cmd_arg_idx (Parse.config r))
                            ["repeat"; "-t"; "2"; "echo"; "a b"; "c"]%string))).
Proof.
  eexists _, _, _.
  split; [vm_compute; reflexivity |].
  split; [vm_compute; reflexivity |].
  split; [left; reflexivity |].
  eapply (every_launch_runs_the_command (F := Scenarios.whole_numbers)
            ["repeat"; "-t"; "2"; "echo"; "a b"; "c"]%string Scenarios.counting 3).
  - repeat constructor; unfold CString.nul_free; cbn; intuition discriminate.
  - vm_compute. discriminate.
  - vm_compute. reflexivity.
  - vm_compute. reflexivity.
  - left. reflexivity.
  - reflexivity.
Defined.

(** X21.  Whenever the process exits, its exit status is between 0 and 255; an
    exit decided by [parse_arguments] has status 0 or 1. *)
Theorem exit_status_fits_a_byte
  {F : Parse.FloatOps} (argv : list string) (env : Loop.environment) (fuel : nat)
  (why : Loop.stop_reason) (c : Z) (st : Loop.loop_state) :
  Main.main argv env fuel = Some (Loop.Exited why c, st) ->
  0 <= c <= 255 /\ (why = Loop.ParseExit -> c = 0 \/ c = 1).
Proof.
  unfold Main.main.
  destruct (Parse.parse_arguments argv) as [r |] eqn:Hparse; [| discriminate].
  destruct (Parse.exit_now r).
  - intros E; inversion E; subst.
    unfold Parse.parse_arguments in Hparse.
    destruct (parse_loop_return_val _ _ _ _ _ _ Hparse) as [-> | ->];
      split; (lia || auto).
  - intros E; inversion E as [Hrun].
    assert (Hfst : fst (Loop.run_loop (Parse.config r) argv env fuel (Parse.output r))
                   = Loop.Exited why c) by (rewrite Hrun; reflexivity).
    destruct (run_loop_exit_code _ _ _ _ _ _ _ Hfst) as [Hc Hw].
    split; [exact Hc | intros; contradiction].
Qed.

(** [repeat -t 2 job] with exit codes 1 and 2. *)
Lemma exit_status_fits_a_byte_witness :
  exists st,
    Main.main (F := Scenarios.whole_numbers) ["repeat"; "-t"; "2"; "job"]%string
              Scenarios.counting 2
    = Some (Loop.Exited Loop.CountExhausted 2, st)
    /\ 0 <= 2 <= 255.
Proof.
  assert (E : exists st,
             Main.main (F := Scenarios.whole_numbers) ["repeat"; "-t"; "2"; "job"]%string
                       Scenarios.counting 2
             = Some (Loop.Exited Loop.CountExhausted 2, st))
    by (eexists; vm_compute; reflexivity).
  destruct E as [st E]. exists st. split; [exact E |].
  exact (proj1 (exit_status_fits_a_byte _ _ _ _ _ _ E)).
Defined.

Section WriteOnly.
Import CInt Timespec WaitStatus Globals Events Loop Views.
Variable g : globals.
Variable argv : list string.
Variable env : environment.

(** The loop writes its events and never reads them back: what was
    written before a turn is carried along unchanged. *)
Lemma pause_preceded_by earlier fuel n st :
  pause g env fuel n (preceded_by earlier st)
  = step_preceded_by earlier (pause g env fuel n st).
Proof.
  unfold pause, preceded_by.
  destruct (negb (tv_sec (interval_ts g) =? 0) || negb (tv_nsec (interval_ts g) =? 0));
    [| reflexivity].
  destruct (negb (precise g)).
  - cbn [ls_clocks]. destruct (clock_ret env (ls_clocks st)) as [err now].
    destruct (err <? 0); [reflexivity |].
    destruct (sleep_loop env n fuel 0); reflexivity.
  - destruct (sleep_loop env n fuel 0); reflexivity.
Qed.

Lemma iteration_preceded_by earlier fuel st :
  iteration g argv env fuel (preceded_by earlier st)
  = step_preceded_by earlier (iteration g argv env fuel st).
Proof.
  unfold iteration. cbn [ls_launches preceded_by].
  destruct (run_command g env fuel (ls_launches st)) as [ret | |].
  - destruct (check_status g ret) as [[why c] |].
    + destruct why, (precise g); reflexivity.
    + replace (count_launch (log_event (launch_event g argv)
                 (if precise g
                  then set_next_exec
                         (timespec_add (ls_next_exec (preceded_by earlier st)) (interval_ts g))
                         (preceded_by earlier st)
                  else preceded_by earlier st)))
        with (preceded_by earlier
                (count_launch (log_event (launch_event g argv)
                   (if precise g
                    then set_next_exec (timespec_add (ls_next_exec st) (interval_ts g)) st
                    else st))))
        by (destruct (precise g); reflexivity).
      cbn [ls_times preceded_by].
      destruct (count_down _) as [t last]. destruct last; [reflexivity |].
      apply (pause_preceded_by earlier fuel (ls_launches st)
               (set_ls_times t (count_launch (log_event (launch_event g argv)
                  (if precise g
                   then set_next_exec (timespec_add (ls_next_exec st) (interval_ts g)) st
                   else st))))).
  - destruct (precise g); reflexivity.
  - destruct (precise g); reflexivity.
Qed.

Lemma main_loop_preceded_by earlier fuel : forall st,
  main_loop g argv env fuel (preceded_by earlier st)
  = (fst (main_loop g argv env fuel st),
     preceded_by earlier (snd (main_loop g argv env fuel st))).
Proof.
  induction fuel as [| fuel IH]; intros st; cbn [main_loop]; [reflexivity |].
  rewrite iteration_preceded_by.
  destruct (iteration g argv env fuel st) as [st' | s st']; cbn [step_preceded_by].
  - apply IH.
  - reflexivity.
Qed.

End WriteOnly.

(** X22.  The debug flag changes what is printed and nothing else: next to the
    run without it, the run with [debug] set ends in the same way, with the
    same count, deadline, launches and clock reads, and its events are the
    same but for the dump of lines 203-208, which comes after what
    [parse_arguments] printed and before everything the loop does. *)
Theorem debug_only_adds_output
  (g : Globals.globals) (argv : list string) (env : Loop.environment)
  (fuel : nat) (out : list Events.event) :
  Globals.debug g = false ->
  let r := Loop.run_loop g argv env fuel out in
  let r' := Loop.run_loop (Globals.set_debug true g) argv env fuel out in
  fst r' = fst r
  /\ Loop.ls_times (snd r') = Loop.ls_times (snd r)
  /\ Loop.ls_next_exec (snd r') = Loop.ls_next_exec (snd r)
  /\ Loop.ls_launches (snd r') = Loop.ls_launches (snd r)
  /\ Loop.ls_clocks (snd r') = Loop.ls_clocks (snd r)
  /\ exists during,
       Loop.ls_log (snd r) = (during ++ out)%list
       /\ Loop.ls_log (snd r')
          = (during ++ Events.EvStdout Events.MsgDebugDump :: out)%list.
Proof.
  intros Hplain r r'. unfold r, r', Loop.run_loop, Loop.enter.
  cbn [Globals.debug Globals.precise Globals.times Globals.set_debug]. rewrite Hplain.
  set (st0 := Loop.mkState (Globals.times g) (Timespec.mkTimespec 0 0) 0 0 []).
  change (Loop.mkState (Globals.times g) {| Timespec.tv_sec := 0; Timespec.tv_nsec := 0 |}
            0 0 out)
    with (Views.preceded_by out st0).
  change (Loop.mkState (Globals.times g) {| Timespec.tv_sec := 0; Timespec.tv_nsec := 0 |}
            0 0 (Events.EvStdout Events.MsgDebugDump :: out))
    with (Views.preceded_by (Events.EvStdout Events.MsgDebugDump :: out) st0).
  assert (Hgo : forall st,
            let a := Loop.main_loop g argv env fuel (Views.preceded_by out st) in
            let b := Loop.main_loop (Globals.set_debug true g) argv env fuel
                       (Views.preceded_by (Events.EvStdout Events.MsgDebugDump :: out) st) in
            fst b = fst a
            /\ Loop.ls_times (snd b) = Loop.ls_times (snd a)
            /\ Loop.ls_next_exec (snd b) = Loop.ls_next_exec (snd a)
            /\ Loop.ls_launches (snd b) = Loop.ls_launches (snd a)
            /\ Loop.ls_clocks (snd b) = Loop.ls_clocks (snd a)
            /\ exists during,
                 Loop.ls_log (snd a) = (during ++ out)%list
                 /\ Loop.ls_log (snd b)
                    = (during ++ Events.EvStdout Events.MsgDebugDump :: out)%list).
  { intros st a b. unfold a, b.
    rewrite (main_loop_ext (Globals.set_debug true g) g argv argv env fuel) by reflexivity.
    rewrite !main_loop_preceded_by. cbn [fst snd].
    repeat split. eexists. split; reflexivity. }
  destruct (Globals.precise g).
  - destruct (Loop.clock_ret env 0) as [err now]. destruct (err <? 0).
    + cbn. repeat split. exists [Events.EvStderr Events.MsgFatalTime]. split; reflexivity.
    + apply (Hgo (Loop.set_next_exec now (Loop.count_clock st0))).
  - apply (Hgo st0).
Qed.

(** [repeat -d -t 2 job] next to [repeat -t 2 job]. *)
Lemma debug_only_adds_output_witness :
  let r := Loop.run_loop (Scenarios.count_config 2) ["repeat"; "-t"; "2"; "job"]%string
             Scenarios.counting 3 [] in
  let r' := Loop.run_loop (Globals.set_debug true (Scenarios.count_config 2))
              ["repeat"; "-d"; "-t"; "2"; "job"]%string Scenarios.counting 3
              [Events.EvStdout Events.MsgDebugEnabled] in
  fst r' = fst r
  /\ Loop.ls_launches (snd r') = Loop.ls_launches (snd r)
  /\ Loop.ls_log (snd r')
     = [Events.EvSystem (Some "job"%string); Events.EvSystem (Some "job"%string);
        Events.EvStdout Events.MsgDebugDump; Events.EvStdout Events.MsgDebugEnabled].
Proof.
  intros r r'.
  destruct (debug_only_adds_output (Scenarios.count_config 2)
              ["repeat"; "-d"; "-t"; "2"; "job"]%string Scenarios.counting 3
              [Events.EvStdout Events.MsgDebugEnabled])
    as (Hstatus & _ & _ & Hlaunches & _); [reflexivity |].
  split; [reflexivity | split; reflexivity].
Defined.

Section Uninitialised.
Import CInt Timespec WaitStatus Globals Events Loop Views.
Variable g : globals.
Variable argv : list string.
Variable env : environment.
Hypothesis is_plain : precise g = false.

(** In plain mode a pause writes the deadline before it reads it. *)
Lemma pause_ignores_deadline fuel n st1 st2 :
  without_deadline st1 = without_deadline st2 ->
  match pause g env fuel n st1, pause g env fuel n st2 with
  | Next a, Next b => without_deadline a = without_deadline b /\ ls_log a = ls_log b
  | Halt s a, Halt s' b =>
      s = s' /\ without_deadline a = without_deadline b /\ ls_log a = ls_log b
  | _, _ => False
  end.
Proof.
  intros H.
  assert (Hlog : ls_log st1 = ls_log st2)
    by (destruct st1, st2; inversion H; reflexivity).
  assert (Hclk : ls_clocks st1 = ls_clocks st2)
    by (destruct st1, st2; inversion H; reflexivity).
  unfold pause. rewrite is_plain. cbn [negb].
  destruct (negb (tv_sec (interval_ts g) =? 0) || negb (tv_nsec (interval_ts g) =? 0));
    [| split; assumption].
  rewrite Hclk. destruct (clock_ret env (ls_clocks st2)) as [err now].
  destruct (err <? 0).
  - destruct st1, st2; inversion H; subst. repeat split.
  - destruct (sleep_loop env n fuel 0); destruct st1, st2; inversion H; subst; repeat split.
Qed.

Lemma iteration_ignores_deadline fuel st1 st2 :
  without_deadline st1 = without_deadline st2 ->
  match iteration g argv env fuel st1, iteration g argv env fuel st2 with
  | Next a, Next b => without_deadline a = without_deadline b /\ ls_log a = ls_log b
  | Halt s a, Halt s' b =>
      s = s' /\ without_deadline a = without_deadline b /\ ls_log a = ls_log b
  | _, _ => False
  end.
Proof.
  intros H. unfold iteration. rewrite is_plain.
  assert (Hl : ls_launches st1 = ls_launches st2)
    by (destruct st1, st2; inversion H; reflexivity).
  assert (Ht : ls_times st1 = ls_times st2)
    by (destruct st1, st2; inversion H; reflexivity).
  rewrite Hl.
  assert (H2 : forall t e,
            without_deadline (set_ls_times t (count_launch (log_event e st1)))
            = without_deadline (set_ls_times t (count_launch (log_event e st2))))
    by (intros t e; destruct st1, st2; inversion H; subst; reflexivity).
  assert (H3 : forall e,
            without_deadline (count_launch (log_event e st1))
            = without_deadline (count_launch (log_event e st2))
            /\ ls_log (count_launch (log_event e st1))
               = ls_log (count_launch (log_event e st2)))
    by (intros e; destruct st1, st2; inversion H; subst; split; reflexivity).
  assert (H4 : forall m e,
            without_deadline (log_event (EvStderr m) (count_launch (log_event e st1)))
            = without_deadline (log_event (EvStderr m) (count_launch (log_event e st2)))
            /\ ls_log (log_event (EvStderr m) (count_launch (log_event e st1)))
               = ls_log (log_event (EvStderr m) (count_launch (log_event e st2))))
    by (intros m e; destruct st1, st2; inversion H; subst; split; reflexivity).
  destruct (run_command g env fuel (ls_launches st2)) as [ret | |].
  - destruct (check_status g ret) as [[why c] |].
    + destruct why; (split; [reflexivity |]); first [apply H4 | apply H3].
    + cbn [ls_times count_launch log_event]. rewrite Ht.
      destruct (count_down (ls_times st2)) as [t last]. destruct last.
      * split; [reflexivity |]. split; [apply H2 |]. apply (H3 (launch_event g argv)).
      * apply pause_ignores_deadline. apply H2.
  - split; [reflexivity |]. apply H4.
  - split; [reflexivity |]. apply H3.
Qed.

Lemma main_loop_ignores_deadline fuel : forall st1 st2,
  without_deadline st1 = without_deadline st2 -> ls_log st1 = ls_log st2 ->
  fst (main_loop g argv env fuel st1) = fst (main_loop g argv env fuel st2)
  /\ without_deadline (snd (main_loop g argv env fuel st1))
     = without_deadline (snd (main_loop g argv env fuel st2))
  /\ ls_log (snd (main_loop g argv env fuel st1))
     = ls_log (snd (main_loop g argv env fuel st2)).
Proof.
  induction fuel as [| fuel IH]; intros st1 st2 H Hlog; cbn [main_loop].
  - cbn. auto.
  - pose proof (iteration_ignores_deadline fuel st1 st2 H) as I.
    destruct (iteration g argv env fuel st1) as [a | s a],
             (iteration g argv env fuel st2) as [b | s' b]; try contradiction.
    + apply IH; apply I.
    + destruct I as (-> & Hw & Hl). cbn. auto.
Qed.

End Uninitialised.

(** X23.  In plain mode (no [-p]) the variable [next_exec], which [main]
    leaves uninitialised, is written by line 273 before it is ever read:
    whatever value it starts with, the process ends in the same way, with
    the same events, count, launches and clock reads. *)
Theorem plain_mode_never_reads_stale_deadline
  (g : Globals.globals) (argv : list string) (env : Loop.environment)
  (fuel : nat) (st : Loop.loop_state) (garbage : Timespec.timespec) :
  Globals.precise g = false ->
  let a := Loop.main_loop g argv env fuel st in
  let b := Loop.main_loop g argv env fuel (Loop.set_next_exec garbage st) in
  fst b = fst a
  /\ Loop.ls_log (snd b) = Loop.ls_log (snd a)
  /\ Loop.ls_times (snd b) = Loop.ls_times (snd a)
  /\ Loop.ls_launches (snd b) = Loop.ls_launches (snd a)
  /\ Loop.ls_clocks (snd b) = Loop.ls_clocks (snd a).
Proof.
  intros Hplain a b.
  destruct (main_loop_ignores_deadline g argv env Hplain fuel
              (Loop.set_next_exec garbage st) st) as (Hs & Hw & Hl);
    [reflexivity | reflexivity |].
  fold a b in Hs, Hw, Hl.
  split; [exact Hs | split; [exact Hl |]].
  destruct (snd a), (snd b). inversion Hw. cbn. auto.
Qed.

(** [repeat -i 2 job], four turns, from a deadline of zero and from
    another one. *)
Lemma plain_mode_never_reads_stale_deadline_witness :
  let a := Loop.main_loop Scenarios.interval_config ["repeat"; "-i"; "2"; "job"]%string
             Scenarios.ticking 4 (Loop.mkState 0 (Timespec.mkTimespec 0 0) 0 0 []) in
  let b := Loop.main_loop Scenarios.interval_config ["repeat"; "-i"; "2"; "job"]%string
             Scenarios.ticking 4
             (Loop.mkState 0 (Timespec.mkTimespec 12345 678) 0 0 []) in
  fst b = fst a /\ Loop.ls_log (snd b) = Loop.ls_log (snd a)
  /\ Loop.ls_launches (snd a) = 4%nat.
Proof.
  intros a b.
  destruct (plain_mode_never_reads_stale_deadline Scenarios.interval_config
              ["repeat"; "-i"; "2"; "job"]%string Scenarios.ticking 4
              (Loop.mkState 0 (Timespec.mkTimespec 0 0) 0 0 [])
              (Timespec.mkTimespec 12345 678) eq_refl)
    as (Hs & Hl & _).
  split; [exact Hs | split; [exact Hl | reflexivity]].
Defined.

Section Narrowing.
Import CInt.

(** The conversion to [int] does not tell apart two values that differ by
    a multiple of 2^32. *)
Lemma to_int_periodic v k : to_int (v + k * 2 ^ 32) = to_int v.
Proof.
  unfold to_int, wrap_signed.
  replace (v + k * 2 ^ 32 + 2 ^ (32 - 1)) with (v + 2 ^ (32 - 1) + k * 2 ^ 32) by lia.
  rewrite Z_mod_plus_full. reflexivity.
Qed.

(** The loop looks at [argv] through its launches only. *)
Lemma run_loop_same_launches g argv argv' env fuel out :
  Loop.launch_event g argv = Loop.launch_event g argv' ->
  Loop.run_loop g argv env fuel out = Loop.run_loop g argv' env fuel out.
Proof.
  intros H. unfold Loop.run_loop.
  destruct (Loop.enter g env out) as [st | st0 st]; [| reflexivity].
  apply main_loop_ext; (reflexivity || exact H).
Qed.

End Narrowing.

(** X24.  The repeat count is what [strtol] returns, a [long], stored in the
    [int] [times] (line 85): two counts that differ by a multiple of 2^32
    make the program behave in the same way.  A count of 4294967297 is a
    count of 1, and a count of 4294967296 is no count at all. *)
Theorem count_is_narrowed_to_int
  {F : Parse.FloatOps} (prog s s' cmd : string) (rest : list string)
  (env : Loop.environment) (fuel : nat) (v : Z) (used used' : nat) (k : Z) :
  Strtol.strtol s = (v, used) -> used <> 0%nat ->
  Strtol.strtol s' = (v + k * 2 ^ 32, used') -> used' <> 0%nat ->
  Getopt.looks_like_option cmd = false ->
  Main.main (prog :: "-t" :: s' :: cmd :: rest)%string env fuel
  = Main.main (prog :: "-t" :: s :: cmd :: rest)%string env fuel.
Proof.
  intros Hs Hused Hs' Hused' Hcmd. unfold Main.main.
  rewrite (parse_times_then_command prog s cmd rest v used Hs Hused Hcmd).
  rewrite (parse_times_then_command prog s' cmd rest _ used' Hs' Hused' Hcmd).
  rewrite to_int_periodic.
  destruct (Parse.join_arguments (cmd :: rest)) as [buf |]; cbn [option_map];
    [| reflexivity].
  cbn [Parse.exit_now Parse.config Parse.output].
  apply (f_equal Some).
  apply run_loop_same_launches; reflexivity.
Qed.

(** [repeat -t 4294967297 job] and [repeat -t 1 job]: one run each. *)
Lemma count_is_narrowed_to_int_witness :
  Main.main (F := Scenarios.whole_numbers) ["repeat"; "-t"; "4294967297"; "job"]%string
            Scenarios.counting 3
  = Main.main (F := Scenarios.whole_numbers) ["repeat"; "-t"; "1"; "job"]%string
              Scenarios.counting 3
  /\ exists st,
       Main.main (F := Scenarios.whole_numbers) ["repeat"; "-t"; "4294967297"; "job"]%string
                 Scenarios.counting 3
       = Some (Loop.Exited Loop.CountExhausted 1, st)
       /\ Loop.ls_launches st = 1%nat.
Proof.
  split.
  - apply (count_is_narrowed_to_int (F := Scenarios.whole_numbers)
             "repeat" "1" "4294967297" "job" [] Scenarios.counting 3 1 1 10 1).
    + reflexivity.
    + discriminate.
    + vm_compute. reflexivity.
    + discriminate.
    + reflexivity.
  - eexists. split; [vm_compute; reflexivity | reflexivity].
Defined.

(* ================================================================== *)
(** * The command line, option by option *)
(* ================================================================== *)

Section Typed.
Import CInt Timespec Globals Events CString Strtol Getopt Parse CommandLine.
Context {F : FloatOps}.

Lemma is_flag_letter_cases c :
  is_flag_letter c = true -> In c ["d"; "p"; "e"; "s"; "x"]%char.
Proof.
  unfold is_flag_letter. intros H. apply existsb_exists in H.
  destruct H as (x & Hin & Heq). apply Ascii.eqb_eq in Heq. subst x. exact Hin.
Qed.

Lemma short_flag_cases c :
  short_flag c = true -> In c ["d"; "p"; "e"; "x"]%char.
Proof.
  unfold short_flag. intros H. apply andb_true_iff in H. destruct H as [Hl Hs].
  apply is_flag_letter_cases in Hl. cbn [In] in Hl |- *.
  repeat (destruct Hl as [E | Hl]; [subst c; first [discriminate Hs | tauto] |]).
  contradiction.
Qed.

Lemma value_letter_cases c : value_letter c = true -> c = "t"%char \/ c = "i"%char.
Proof.
  unfold value_letter. intros H. apply orb_true_iff in H.
  destruct H as [H | H]; apply Ascii.eqb_eq in H; auto.
Qed.

(** What [getopt_long] answers for a letter that is a flag, and for one
    that takes an argument. *)
Lemma short_option_flag argv i c rest :
  short_flag c = true ->
  short_option argv optstring i c rest = mkAnswer (Some c) None (after_letter i rest) false.
Proof.
  intros H. apply short_flag_cases in H. cbn [In] in H.
  repeat (destruct H as [E | H]; [subst c; reflexivity |]). contradiction.
Qed.

Lemma short_option_value_attached argv i c a r :
  value_letter c = true ->
  short_option argv optstring i c (String a r)
  = mkAnswer (Some c) (Some (String a r)) (at_word (S i)) false.
Proof. intros H. destruct (value_letter_cases c H); subst c; reflexivity. Qed.

Lemma short_option_value_next argv i c s :
  value_letter c = true -> nth_error argv (S i) = Some s ->
  short_option argv optstring i c EmptyString
  = mkAnswer (Some c) (Some s) (at_word (S (S i))) false.
Proof.
  intros H Hn. destruct (value_letter_cases c H); subst c;
    unfold short_option; cbn -[nth_error]; rewrite Hn; reflexivity.
Qed.

(** A word that starts with one dash is read letter by letter. *)
Lemma getopt_long_enters argv os lo i c rest :
  nth_error argv i = Some (String "-" (String c rest)) -> c <> "-"%char ->
  getopt_long argv os lo (at_word i) = short_option argv os i c rest.
Proof.
  intros Hn Hc. unfold getopt_long, at_word. cbn [nextchar optind]. rewrite Hn.
  destruct c as [[] [] [] [] [] [] [] []]; first [reflexivity | elim Hc; reflexivity].
Qed.

Lemma getopt_long_inside argv os lo i c rest :
  getopt_long argv os lo (mkGetopt i (String c rest)) = short_option argv os i c rest.
Proof. reflexivity. Qed.

Lemma getopt_long_long argv os lo i a body :
  nth_error argv i = Some (String "-" (String "-" (String a body))) ->
  getopt_long argv os lo (at_word i) = long_option_at argv lo i (String a body).
Proof.
  intros Hn. unfold getopt_long, at_word. cbn [nextchar optind]. rewrite Hn. reflexivity.
Qed.

Lemma split_eq_plain nm :
  forallb (fun c => negb (Ascii.eqb c "=")) (list_ascii_of_string nm) = true ->
  split_eq nm = (nm, None) /\ forall s, split_eq (nm ++ String "=" s) = (nm, Some s).
Proof.
  induction nm as [| c nm IH]; cbn [list_ascii_of_string forallb split_eq append].
  - intros _. split; [reflexivity | intros s; reflexivity].
  - intros H. apply andb_true_iff in H. destruct H as [Hc Hrest].
    destruct (IH Hrest) as [IH1 IH2].
    destruct (Ascii.eqb c "="); [discriminate Hc |].
    split; [rewrite IH1; reflexivity | intros s; rewrite IH2; reflexivity].
Qed.

Lemma plain_spec nm :
  plain nm = true ->
  (exists a body, nm = String a body)
  /\ split_eq nm = (nm, None) /\ forall s, split_eq (nm ++ String "=" s) = (nm, Some s).
Proof.
  unfold plain. intros H. apply andb_true_iff in H. destruct H as [Hne Hp].
  split; [| apply split_eq_plain; exact Hp].
  destruct nm as [| a body]; [discriminate Hne | eauto].
Qed.

Lemma long_named_spec nm o : long_named nm = Some o -> lookup_long long_options nm = Found o.
Proof. unfold long_named. destruct (lookup_long long_options nm); congruence. Qed.

Lemma has_arg_eqb_eq a b : has_arg_eqb a b = true -> a = b.
Proof. destruct a, b; (reflexivity || discriminate). Qed.

(** The turns of the [switch] for a flag and for an argument that is
    accepted. *)
Lemma switch_flag c g out :
  is_flag_letter c = true ->
  switch c None g out
  = Go (apply_setting g (SetFlag c)) (debug_output [SetFlag c] ++ out).
Proof.
  intros H. apply is_flag_letter_cases in H. cbn [In] in H.
  repeat (destruct H as [E | H]; [subst c; reflexivity |]). contradiction.
Qed.

Lemma times_option_accepted s g out :
  accepted (SetTimes s) = true ->
  times_option s g out = Go (apply_setting g (SetTimes s)) out.
Proof.
  unfold accepted, times_option, apply_setting.
  destruct (strtol s) as [v used]. cbn [fst snd].
  destruct (used =? 0)%nat; [discriminate | reflexivity].
Qed.

Lemma interval_option_accepted s g out :
  accepted (SetInterval s) = true ->
  interval_option s g out = Go (apply_setting g (SetInterval s)) out.
Proof.
  unfold accepted, interval_option, apply_setting, interval_of.
  destruct (strtof s) as [x used].
  destruct (used =? 0)%nat; [discriminate |].
  destruct (String.get used s) as [u |]; [| reflexivity].
  destruct u as [[] [] [] [] [] [] [] []]; cbn; first [discriminate | reflexivity].
Qed.

Lemma switch_value c s g out :
  value_letter c = true -> accepted (value_setting c s) = true ->
  switch c (Some s) g out = Go (apply_setting g (value_setting c s)) out.
Proof.
  intros H. destruct (value_letter_cases c H); subst c; cbn [switch value_setting Ascii.eqb].
  - apply times_option_accepted.
  - apply interval_option_accepted.
Qed.


(** One turn of the loop of line 80, by what [getopt_long] answers. *)
Lemma flag_turn fuel argv st g out c st' :
  getopt_long argv optstring long_options st = mkAnswer (Some c) None st' false ->
  is_flag_letter c = true ->
  parse_loop (S fuel) argv st g out
  = parse_loop fuel argv st' (apply_setting g (SetFlag c))
               (debug_output [SetFlag c] ++ out).
Proof.
  intros Hget Hc. rewrite parse_loop_step, Hget. cbv zeta.
  cbn [ret diagnosed optarg next]. rewrite (switch_flag c g out Hc). reflexivity.
Qed.

Lemma value_turn fuel argv st g out c s st' :
  getopt_long argv optstring long_options st = mkAnswer (Some c) (Some s) st' false ->
  parse_loop (S fuel) argv st g out
  = match switch c (Some s) g out with
    | Go g' out' => parse_loop fuel argv st' g' out'
    | Return r => Some r
    | Undefined => None
    end.
Proof. intros Hget. rewrite parse_loop_step, Hget. reflexivity. Qed.

(** The lines of [-d] come out in the order the options are read. *)
Lemma debug_output_app xs ys out :
  (debug_output ys ++ debug_output xs ++ out = debug_output (xs ++ ys) ++ out)%list.
Proof.
  unfold debug_output. rewrite filter_app, length_app, Nat.add_comm, repeat_app, <- app_assoc.
  reflexivity.
Qed.

Lemma configure_app xs ys g : configure (xs ++ ys) g = configure ys (configure xs g).
Proof. unfold configure. apply fold_left_app. Qed.

(** Entering a word that starts with one dash. *)
Lemma enter_word fuel argv i c rest g out :
  nth_error argv i = Some (String "-" (String c rest)) -> c <> "-"%char ->
  parse_loop fuel argv (at_word i) g out
  = parse_loop fuel argv (mkGetopt i (String c rest)) g out.
Proof.
  intros Hn Hc. destruct fuel as [| fuel]; [reflexivity |].
  rewrite !parse_loop_step, (getopt_long_enters argv _ _ i c rest Hn Hc), getopt_long_inside.
  reflexivity.
Qed.

(** The flag letters of a word are read one by one. *)
Lemma scan_reads_letters argv i : forall ls suffix g out fuel,
  forallb short_flag (list_ascii_of_string ls) = true ->
  parse_loop (String.length ls + fuel) argv (after_letter i (ls ++ suffix)) g out
  = parse_loop fuel argv (after_letter i suffix)
               (configure (map SetFlag (list_ascii_of_string ls)) g)
               (debug_output (map SetFlag (list_ascii_of_string ls)) ++ out).
Proof.
  induction ls as [| c ls IH]; intros suffix g out fuel Hls.
  - reflexivity.
  - cbn [list_ascii_of_string forallb] in Hls. apply andb_true_iff in Hls.
    destruct Hls as [Hc Hls].
    cbn [String.length Nat.add append list_ascii_of_string map].
    change (after_letter i (String c (ls ++ suffix)))
      with (mkGetopt i (String c (ls ++ suffix))).
    rewrite (flag_turn _ argv _ g out c (after_letter i (ls ++ suffix))).
    + rewrite (IH suffix _ _ fuel Hls).
      change (SetFlag c :: map SetFlag (list_ascii_of_string ls))
        with ([SetFlag c] ++ map SetFlag (list_ascii_of_string ls))%list.
      rewrite configure_app, debug_output_app. reflexivity.
    + rewrite getopt_long_inside. apply short_option_flag. exact Hc.
    + unfold short_flag in Hc. apply andb_true_iff in Hc. tauto.
Qed.

Lemma short_flag_not_dash c : short_flag c = true -> c <> "-"%char.
Proof. intros H E. subst c. discriminate H. Qed.

Lemma value_letter_not_dash c : value_letter c = true -> c <> "-"%char.
Proof. intros H E. subst c. discriminate H. Qed.

(** A word of letters: through the flags, up to what is left of it. *)
Lemma scan_reads_cluster argv i ls suffix g out fuel :
  forallb short_flag (list_ascii_of_string ls) = true ->
  nth_error argv i = Some (String "-" (ls ++ suffix)) ->
  (ls = EmptyString -> exists c r, suffix = String c r /\ c <> "-"%char) ->
  parse_loop (String.length ls + fuel) argv (at_word i) g out
  = parse_loop fuel argv (after_letter i suffix)
               (configure (map SetFlag (list_ascii_of_string ls)) g)
               (debug_output (map SetFlag (list_ascii_of_string ls)) ++ out).
Proof.
  intros Hls Hn Hfirst.
  rewrite <- (scan_reads_letters argv i ls suffix g out fuel Hls).
  destruct ls as [| c ls].
  - destruct (Hfirst eq_refl) as (c & r & -> & Hc).
    cbn [append] in Hn |- *. apply (enter_word _ argv i c r); assumption.
  - cbn [append] in Hn |- *.
    apply (enter_word _ argv i c (ls ++ suffix)); [exact Hn |].
    cbn [list_ascii_of_string forallb] in Hls. apply andb_true_iff in Hls.
    apply short_flag_not_dash. tauto.
Qed.

Lemma string_length_chars ls : List.length (list_ascii_of_string ls) = String.length ls.
Proof. induction ls as [| c ls IH]; cbn; [reflexivity | rewrite IH; reflexivity]. Qed.

(** One option: the scan reads its flags, hands its argument, if it has
    one, to the [switch], and is then at the word after it. *)
Lemma scan_reads_option argv i o g out fuel :
  well_typed o = true ->
  (forall k w, nth_error (words o) k = Some w -> nth_error argv (i + k) = Some w) ->
  parse_loop (List.length (settings o) + fuel) argv (at_word i) g out
  = let g1 := configure (map SetFlag (flags_of o)) g in
    let out1 := (debug_output (map SetFlag (flags_of o)) ++ out)%list in
    match value_of o with
    | None => parse_loop fuel argv (at_word (i + List.length (words o))) g1 out1
    | Some (c, s) =>
        match switch c (Some s) g1 out1 with
        | Go g' out' => parse_loop fuel argv (at_word (i + List.length (words o))) g' out'
        | Return r => Some r
        | Undefined => None
        end
    end.
Proof.
  intros Hwt Hwords. cbv zeta. unfold settings. rewrite length_app, length_map.
  destruct o as [ls | ls c s attached | nm | nm s attached];
    cbn [well_typed flags_of value_of words List.length] in *.
  - (* -dpx *)
    apply andb_true_iff in Hwt. destruct Hwt as [Hne Hls].
    rewrite Nat.add_0_r, string_length_chars.
    pose proof (Hwords 0%nat _ eq_refl) as Hn. rewrite Nat.add_0_r in Hn.
    rewrite (scan_reads_cluster argv i ls EmptyString g out fuel Hls).
    + unfold after_letter, at_word. rewrite Nat.add_1_r. reflexivity.
    + rewrite string_app_nil_r. exact Hn.
    + intros ->. discriminate Hne.
  - (* -et5, -et 5 *)
    apply andb_true_iff in Hwt. destruct Hwt as [Hwt Hatt].
    apply andb_true_iff in Hwt. destruct Hwt as [Hls Hc].
    rewrite string_length_chars.
    replace (String.length ls + 1 + fuel)%nat with (String.length ls + S fuel)%nat by lia.
    destruct attached.
    + destruct s as [| a r]; [discriminate Hatt |].
      pose proof (Hwords 0%nat _ eq_refl) as Hn. rewrite Nat.add_0_r in Hn.
      rewrite (scan_reads_cluster argv i ls (String c (String a r)) g out (S fuel) Hls Hn).
      2: { intros _. exists c, (String a r). split; [reflexivity |].
           apply value_letter_not_dash. exact Hc. }
      change (after_letter i (String c (String a r)))
        with (mkGetopt i (String c (String a r))).
      rewrite (value_turn fuel argv _ _ _ c (String a r) (at_word (S i))).
      * cbn [List.length]. rewrite Nat.add_1_r. reflexivity.
      * rewrite getopt_long_inside. apply short_option_value_attached. exact Hc.
    + pose proof (Hwords 0%nat _ eq_refl) as Hn. rewrite Nat.add_0_r in Hn.
      pose proof (Hwords 1%nat _ eq_refl) as Hn1. rewrite Nat.add_1_r in Hn1.
      rewrite (scan_reads_cluster argv i ls (String c EmptyString) g out (S fuel) Hls Hn).
      2: { intros _. exists c, EmptyString. split; [reflexivity |].
           apply value_letter_not_dash. exact Hc. }
      change (after_letter i (String c EmptyString)) with (mkGetopt i (String c EmptyString)).
      rewrite (value_turn fuel argv _ _ _ c s (at_word (S (S i)))).
      * cbn [List.length]. replace (i + 2)%nat with (S (S i)) by lia. reflexivity.
      * rewrite getopt_long_inside. apply short_option_value_next; assumption.
  - (* --precise *)
    apply andb_true_iff in Hwt. destruct Hwt as [Hplain Hnamed].
    destruct (plain_spec nm Hplain) as ((a & body & ->) & Hsplit & _).
    destruct (long_named (String a body)) as [o |] eqn:Hlook; [| discriminate Hnamed].
    apply andb_true_iff in Hnamed. destruct Hnamed as [Harg Hflag].
    apply has_arg_eqb_eq in Harg. apply long_named_spec in Hlook.
    pose proof (Hwords 0%nat _ eq_refl) as Hn. rewrite Nat.add_0_r in Hn.
    cbn [map List.length Nat.add].
    rewrite (flag_turn fuel argv _ g out (val o) (at_word (S i))).
    + rewrite Nat.add_1_r. reflexivity.
    + rewrite (getopt_long_long argv _ _ i a body Hn). unfold long_option_at.
      rewrite Hsplit, Hlook, Harg. reflexivity.
    + exact Hflag.
  - (* --times=5, --times 5 *)
    apply andb_true_iff in Hwt. destruct Hwt as [Hplain Hnamed].
    destruct (plain_spec nm Hplain) as ((a & body & ->) & Hsplit & Hsplit_eq).
    destruct (long_named (String a body)) as [o |] eqn:Hlook; [| discriminate Hnamed].
    apply andb_true_iff in Hnamed. destruct Hnamed as [Harg Hval].
    apply has_arg_eqb_eq in Harg. apply long_named_spec in Hlook.
    cbn [map List.length Nat.add app].
    destruct attached.
    + pose proof (Hwords 0%nat _ eq_refl) as Hn. rewrite Nat.add_0_r in Hn.
      cbn [append] in Hn.
      rewrite (value_turn fuel argv _ _ _ (val o) s (at_word (S i))).
      * cbn [List.length]. rewrite Nat.add_1_r. reflexivity.
      * rewrite (getopt_long_long argv _ _ i a (body ++ String "=" s) Hn).
        unfold long_option_at.
        change (String a (body ++ String "=" s)) with (String a body ++ String "=" s)%string.
        rewrite Hsplit_eq, Hlook, Harg. reflexivity.
    + pose proof (Hwords 0%nat _ eq_refl) as Hn. rewrite Nat.add_0_r in Hn.
      pose proof (Hwords 1%nat _ eq_refl) as Hn1. rewrite Nat.add_1_r in Hn1.
      rewrite (value_turn fuel argv _ _ _ (val o) s (at_word (S (S i)))).
      * cbn [List.length]. replace (i + 2)%nat with (S (S i)) by lia. reflexivity.
      * rewrite (getopt_long_long argv _ _ i a body Hn). unfold long_option_at.
        rewrite Hsplit, Hlook, Harg, Hn1. reflexivity.
Qed.


Lemma well_typed_value o c s :
  well_typed o = true -> value_of o = Some (c, s) -> value_letter c = true.
Proof.
  destruct o as [ls | ls c' s' attached | nm | nm s' attached];
    cbn [well_typed value_of]; try discriminate.
  - intros Hwt E. inversion E; subst.
    apply andb_true_iff in Hwt. destruct Hwt as [Hwt _].
    apply andb_true_iff in Hwt. tauto.
  - intros Hwt. apply andb_true_iff in Hwt. destruct Hwt as [_ Hn].
    destruct (long_named nm) as [o |]; [| discriminate].
    intros E. inversion E; subst. apply andb_true_iff in Hn. tauto.
Qed.

Lemma debug_output_flags_value flags c s :
  debug_output (map SetFlag flags ++ [value_setting c s]) = debug_output (map SetFlag flags).
Proof.
  unfold debug_output. rewrite filter_app, length_app.
  replace (filter _ [value_setting c s]) with (@nil setting).
  - rewrite Nat.add_0_r. reflexivity.
  - unfold value_setting. destruct (Ascii.eqb c "t"); reflexivity.
Qed.

(** An option whose argument, if it has one, is accepted. *)
Lemma scan_reads_accepted_option argv i o g out fuel :
  well_typed o = true -> forallb accepted (settings o) = true ->
  (forall k w, nth_error (words o) k = Some w -> nth_error argv (i + k) = Some w) ->
  parse_loop (List.length (settings o) + fuel) argv (at_word i) g out
  = parse_loop fuel argv (at_word (i + List.length (words o)))
               (configure (settings o) g) (debug_output (settings o) ++ out).
Proof.
  intros Hwt Hacc Hwords.
  rewrite (scan_reads_option argv i o g out fuel Hwt Hwords). cbv zeta.
  unfold settings in *.
  destruct (value_of o) as [[c s] |] eqn:Hv.
  - pose proof (well_typed_value o c s Hwt Hv) as Hc.
    rewrite forallb_app in Hacc. apply andb_true_iff in Hacc. destruct Hacc as [_ Hacc].
    cbn [forallb] in Hacc. rewrite andb_true_r in Hacc.
    rewrite (switch_value c s _ _ Hc Hacc), configure_app, debug_output_flags_value.
    reflexivity.
  - rewrite app_nil_r. reflexivity.
Qed.

Lemma nth_error_middle {A} (prog : A) done ws tail k w :
  nth_error ws k = Some w ->
  nth_error (prog :: done ++ ws ++ tail) (S (List.length done) + k) = Some w.
Proof.
  intros H. cbn [Nat.add nth_error].
  rewrite nth_error_app2 by lia.
  replace (List.length done + k - List.length done)%nat with k by lia.
  rewrite nth_error_app1; [exact H |].
  apply nth_error_Some. rewrite H. discriminate.
Qed.

(** The scan reads a run of options one by one. *)
Lemma scan_reads_options prog tail : forall opts done g out fuel,
  forallb well_typed opts = true -> forallb accepted (all_settings opts) = true ->
  parse_loop (List.length (all_settings opts) + fuel) (prog :: done ++ all_words opts ++ tail)
             (at_word (S (List.length done))) g out
  = parse_loop fuel (prog :: done ++ all_words opts ++ tail)
               (at_word (S (List.length done + List.length (all_words opts))))
               (configure (all_settings opts) g) (debug_output (all_settings opts) ++ out).
Proof.
  induction opts as [| o opts IH]; intros done g out fuel Hwt Hacc.
  - cbn [all_words all_settings flat_map List.length Nat.add app].
    rewrite Nat.add_0_r. reflexivity.
  - cbn [forallb] in Hwt. apply andb_true_iff in Hwt. destruct Hwt as [Ho Hwt].
    unfold all_settings in Hacc |- *. unfold all_words.
    cbn [flat_map] in Hacc |- *.
    rewrite forallb_app in Hacc. apply andb_true_iff in Hacc. destruct Hacc as [Hao Hacc].
    fold (all_settings opts) in Hacc |- *. fold (all_words opts).
    rewrite !length_app, <- Nat.add_assoc, <- app_assoc.
    rewrite (scan_reads_accepted_option _ (S (List.length done)) o g out _ Ho Hao).
    2: { intros k w Hk. apply nth_error_middle. exact Hk. }
    specialize (IH (done ++ words o)%list (configure (settings o) g)
                   (debug_output (settings o) ++ out)%list fuel Hwt Hacc).
    rewrite length_app, <- app_assoc in IH.
    replace (S (List.length done) + List.length (words o))%nat
      with (S (List.length done + List.length (words o))) by lia.
    rewrite IH, configure_app, debug_output_app.
    f_equal. unfold at_word. f_equal. lia.
Qed.

Lemma weight_app a b : weight (a ++ b) = (weight a + weight b)%nat.
Proof. unfold weight. rewrite map_app, list_sum_app. reflexivity. Qed.

Lemma settings_le_weight o : (List.length (settings o) <= weight (words o))%nat.
Proof.
  unfold settings. rewrite length_app, length_map.
  assert (Hv : (List.length (match value_of o with
                             | Some (c, s) => [value_setting c s]
                             | None => []
                             end) <= 1)%nat)
    by (destruct (value_of o) as [[c s] |]; cbn; lia).
  destruct o as [ls | ls c s attached | nm | nm s attached];
    cbn [flags_of value_of words] in *.
  - rewrite string_length_chars. unfold weight. cbn. lia.
  - rewrite string_length_chars.
    destruct attached; unfold weight; cbn; rewrite string_app_length; cbn; lia.
  - assert ((List.length (match long_named nm with Some o => [val o] | None => [] end)
             <= 1)%nat) by (destruct (long_named nm); cbn; lia).
    unfold weight. cbn. lia.
  - destruct attached; unfold weight; cbn; lia.
Qed.

Lemma all_settings_le_weight opts :
  (List.length (all_settings opts) <= weight (all_words opts))%nat.
Proof.
  induction opts as [| o opts IH]; [cbn; lia |].
  unfold all_settings, all_words in *. cbn [flat_map].
  rewrite length_app, weight_app. pose proof (settings_le_weight o). lia.
Qed.

(** [parse_arguments] on a command line that starts with well-formed
    options: the scan is at the word after them, with their settings
    made, and fuel is left for what follows. *)
Lemma parse_arguments_after_options prog opts tail :
  forallb well_typed opts = true -> forallb accepted (all_settings opts) = true ->
  exists extra,
    parse_arguments (prog :: all_words opts ++ tail)
    = parse_loop (S (S (weight tail + extra))) (prog :: all_words opts ++ tail)
                 (at_word (S (List.length (all_words opts))))
                 (configure (all_settings opts) Globals.initial)
                 (debug_output (all_settings opts)).
Proof.
  intros Hwt Hacc. unfold parse_arguments.
  pose proof (all_settings_le_weight opts) as Hle.
  exists (String.length prog + (weight (all_words opts) - List.length (all_settings opts)))%nat.
  pose proof (scan_reads_options prog tail opts [] Globals.initial []
                (S (S (weight tail + (String.length prog
                   + (weight (all_words opts) - List.length (all_settings opts))))))
                Hwt Hacc) as H.
  cbn [List.length Nat.add app] in H. rewrite app_nil_r in H.
  rewrite <- H. f_equal.
  rewrite weight_cons, weight_app. lia.
Qed.

(** The end of the options: a word that is not one, or [--]. *)
Lemma scan_ends argv i sep cmd rest g out fuel :
  starts_command sep cmd = true ->
  skipn i argv = (sep ++ cmd :: rest)%list -> (i <= List.length argv)%nat ->
  parse_loop (S fuel) argv (at_word i) g out
  = finish argv (i + List.length sep) g out.
Proof.
  intros Hsep Hskip Hi. rewrite parse_loop_step.
  destruct sep as [| dd [| more sep]]; cbn [starts_command] in Hsep; try discriminate.
  - cbn [app List.length] in *. rewrite Nat.add_0_r.
    assert (Hn : nth_error argv i = Some cmd).
    { rewrite <- (Nat.add_0_r i), <- List.nth_error_skipn, Hskip. reflexivity. }
    unfold at_word.
    rewrite (getopt_stops_at_command argv _ _ i cmd Hn).
    + reflexivity.
    + destruct (looks_like_option cmd); [discriminate Hsep | reflexivity].
  - apply String.eqb_eq in Hsep. subst dd. cbn [app List.length] in *.
    assert (Hn : nth_error argv i = Some "--"%string).
    { rewrite <- (Nat.add_0_r i), <- List.nth_error_skipn, Hskip. reflexivity. }
    unfold at_word. rewrite (getopt_stops_at_dashes argv _ _ i Hn).
    cbn [ret diagnosed finished next optind]. rewrite Nat.add_1_r. reflexivity.
Qed.


(** What the settings leave in the variables. *)
Lemma apply_setting_flags g x :
  precise (apply_setting g x) = asks "p" [x] || precise g
  /\ exit_on_error (apply_setting g x) = asks "e" [x] || exit_on_error g
  /\ exit_on_success (apply_setting g x) = asks "s" [x] || exit_on_success g
  /\ use_exec (apply_setting g x) = asks "x" [x] || use_exec g
  /\ debug (apply_setting g x) = asks "d" [x] || debug g
  /\ cmd_arg_idx (apply_setting g x) = cmd_arg_idx g
  /\ command (apply_setting g x) = command g.
Proof.
  destruct x as [c | s | s]; cbn [apply_setting asks existsb].
  - destruct (Ascii.eqb_spec c "d"); [subst; cbn; tauto |].
    destruct (Ascii.eqb_spec c "p"); [subst; cbn; tauto |].
    destruct (Ascii.eqb_spec c "e"); [subst; cbn; tauto |].
    destruct (Ascii.eqb_spec c "s"); [subst; cbn; tauto |].
    destruct (Ascii.eqb_spec c "x"); [subst; cbn; tauto |].
    cbn. tauto.
  - cbn. tauto.
  - destruct (interval_of s); cbn; tauto.
Qed.

Lemma asks_cons c x xs : asks c (x :: xs) = asks c [x] || asks c xs.
Proof. unfold asks. cbn [existsb]. rewrite orb_false_r. reflexivity. Qed.

Lemma configure_flags xs : forall g,
  precise (configure xs g) = asks "p" xs || precise g
  /\ exit_on_error (configure xs g) = asks "e" xs || exit_on_error g
  /\ exit_on_success (configure xs g) = asks "s" xs || exit_on_success g
  /\ use_exec (configure xs g) = asks "x" xs || use_exec g
  /\ debug (configure xs g) = asks "d" xs || debug g
  /\ cmd_arg_idx (configure xs g) = cmd_arg_idx g
  /\ command (configure xs g) = command g.
Proof.
  induction xs as [| x xs IH]; intros g.
  - cbn. tauto.
  - change (configure (x :: xs) g) with (configure xs (apply_setting g x)).
    destruct (IH (apply_setting g x)) as (-> & -> & -> & -> & -> & -> & ->).
    destruct (apply_setting_flags g x) as (-> & -> & -> & -> & -> & -> & ->).
    rewrite !(asks_cons _ x xs), !orb_assoc.
    repeat split; f_equal; apply orb_comm.
Qed.

Lemma typed_count_last xs x :
  typed_count (xs ++ [x])
  = match x with SetTimes s => Some s | _ => typed_count xs end.
Proof. unfold typed_count. rewrite fold_left_app. reflexivity. Qed.

(** The count is that of the last count option. *)
Lemma configure_times xs g :
  times (configure xs g)
  = match typed_count xs with
    | Some s => to_int (fst (strtol s))
    | None => times g
    end.
Proof.
  induction xs as [| x xs IH] using rev_ind; [reflexivity |].
  rewrite configure_app, typed_count_last.
  change (configure [x] (configure xs g)) with (apply_setting (configure xs g) x).
  destruct x as [c | s | s]; cbn [apply_setting].
  - rewrite <- IH.
    repeat match goal with |- context [if ?b then _ else _] => destruct b end; reflexivity.
  - reflexivity.
  - rewrite <- IH. destruct (interval_of s); reflexivity.
Qed.

(** A command line of well-formed options and a command:
    [parse_arguments] returns [false] with the settings made, the command
    found where the options end and, without [-x], joined. *)
Lemma parse_arguments_options prog opts sep cmd rest :
  forallb well_typed opts = true -> forallb accepted (all_settings opts) = true ->
  starts_command sep cmd = true ->
  Z.of_nat (weight (prog :: all_words opts ++ sep ++ cmd :: rest)) <= INT_MAX ->
  parse_arguments (prog :: all_words opts ++ sep ++ cmd :: rest)
  = Some (mkParse false 0 AtEnd
            (set_command
               (if asks "x" (all_settings opts) then None
                else Some (list_ascii_of_string (String.concat " " (cmd :: rest))
                           ++ [NUL])%list)
               (set_cmd_arg_idx (S (List.length (all_words opts) + List.length sep))
                  (configure (all_settings opts) Globals.initial)))
            (debug_output (all_settings opts))).
Proof.
  intros Hwt Hacc Hsep Hfit.
  destruct (parse_arguments_after_options prog opts (sep ++ cmd :: rest) Hwt Hacc)
    as [extra ->].
  assert (Hskip : skipn (S (List.length (all_words opts)))
                        (prog :: all_words opts ++ sep ++ cmd :: rest)
                  = (sep ++ cmd :: rest)%list)
    by (cbn [skipn]; rewrite skipn_app, skipn_all, Nat.sub_diag; reflexivity).
  rewrite (scan_ends _ _ sep cmd rest _ _ _ Hsep Hskip)
    by (cbn [List.length]; rewrite length_app; lia).
  rewrite (finish_with_command _ _ _ _ cmd rest).
  - destruct (configure_flags (all_settings opts) Globals.initial)
      as (_ & _ & _ & -> & _ & _ & ->).
    cbn [use_exec command Globals.initial]. rewrite orb_false_r.
    replace (S (List.length (all_words opts)) + List.length sep)%nat
      with (S (List.length (all_words opts) + List.length sep)) by lia.
    reflexivity.
  - rewrite Nat.add_comm, <- skipn_skipn, Hskip, skipn_app, skipn_all, Nat.sub_diag.
    reflexivity.
  - cbn [List.length]. rewrite !length_app. cbn [List.length]. lia.
  - exact Hfit.
Qed.


Lemma typed_count_app xs ys :
  typed_count (xs ++ ys)
  = match typed_count ys with Some s => Some s | None => typed_count xs end.
Proof.
  induction ys as [| y ys IH] using rev_ind.
  - rewrite app_nil_r. reflexivity.
  - rewrite app_assoc, !typed_count_last. destruct y; try reflexivity; exact IH.
Qed.

Lemma launch_count_debug_output xs : launch_count (debug_output xs) = 0%nat.
Proof.
  unfold debug_output.
  induction (List.length _) as [| n IH]; [reflexivity |].
  cbn [repeat]. rewrite launch_count_cons. exact IH.
Qed.

Lemma usage_debug_output xs tail :
  usage_on_stderr (debug_output xs ++ tail) = usage_on_stderr tail.
Proof.
  unfold debug_output.
  induction (List.length _) as [| n IH]; [reflexivity |].
  cbn [repeat app]. exact IH.
Qed.

Lemma in_debug_output e xs : In e (debug_output xs) -> e = EvStdout MsgDebugEnabled.
Proof. unfold debug_output. intros H. apply repeat_spec in H. exact H. Qed.

(** The turn of the [switch] for an argument that is not accepted. *)
Lemma times_option_unread s g out :
  snd (strtol s) = 0%nat ->
  exists g',
    times_option s g out = Return (mkParse true 1 AtBadTimes g' (EvStderr MsgUsage :: out)).
Proof. apply times_option_rejects. Qed.

Lemma interval_option_unread s g out :
  snd (strtof s) = 0%nat ->
  interval_option s g out = Return (mkParse true 1 AtBadInterval g (EvStderr MsgUsage :: out)).
Proof.
  unfold interval_option. destruct (strtof s) as [x used]. cbn [snd]. intros ->. reflexivity.
Qed.

Lemma interval_option_bad_unit s g out u :
  snd (strtof s) <> 0%nat -> String.get (snd (strtof s)) s = Some u ->
  unit_factor u = None ->
  interval_option s g out = Return (mkParse true 1 AtBadUnit g (EvStderr MsgBadUnit :: out)).
Proof.
  unfold interval_option. destruct (strtof s) as [x used]. cbn [snd]. intros Hused Hget Hu.
  destruct (Nat.eqb_spec used 0); [contradiction |]. rewrite Hget.
  destruct u as [[] [] [] [] [] [] [] []]; first [reflexivity | discriminate Hu].
Qed.

(** After well-formed options, an option whose argument the [switch]
    does not accept. *)
Lemma parse_arguments_bad_value prog opts o c s more code pt m :
  forallb well_typed opts = true -> forallb accepted (all_settings opts) = true ->
  well_typed o = true -> value_of o = Some (c, s) ->
  (forall g out,
     exists g', switch c (Some s) g out
                = Return (mkParse true code pt g' (EvStderr m :: out))) ->
  exists g',
    parse_arguments (prog :: all_words opts ++ words o ++ more)
    = Some (mkParse true code pt g'
              (EvStderr m :: debug_output (all_settings opts ++ map SetFlag (flags_of o)))).
Proof.
  intros Hwt Hacc Ho Hv Hswitch.
  destruct (parse_arguments_after_options prog opts (words o ++ more) Hwt Hacc)
    as [extra ->].
  pose proof (settings_le_weight o) as Hle.
  assert (Hfuel : exists fuel,
            S (S (weight (words o ++ more) + extra))
            = (List.length (settings o) + fuel)%nat).
  { exists (S (S (weight (words o ++ more) + extra)) - List.length (settings o))%nat.
    rewrite weight_app. lia. }
  destruct Hfuel as [fuel ->].
  rewrite (scan_reads_option _ (S (List.length (all_words opts))) o _ _ fuel Ho).
  2: { intros k w Hk.
       exact (nth_error_middle prog (all_words opts) (words o) more k w Hk). }
  cbv zeta. rewrite Hv.
  destruct (Hswitch (configure (map SetFlag (flags_of o))
                       (configure (all_settings opts) Globals.initial))
                    (debug_output (map SetFlag (flags_of o))
                     ++ debug_output (all_settings opts))%list) as [g' ->].
  exists g'. f_equal. f_equal. f_equal.
  pose proof (debug_output_app (all_settings opts) (map SetFlag (flags_of o)) []) as H.
  rewrite !app_nil_r in H. exact H.
Qed.

(** After well-formed options, nothing, or [--] and nothing. *)
Lemma parse_arguments_no_command prog opts sep :
  forallb well_typed opts = true -> forallb accepted (all_settings opts) = true ->
  sep = [] \/ sep = ["--"%string] ->
  parse_arguments (prog :: all_words opts ++ sep)
  = Some (mkParse true 1 AtNoCommand (configure (all_settings opts) Globals.initial)
            (EvStderr MsgUsageRaw :: debug_output (all_settings opts))).
Proof.
  intros Hwt Hacc Hsep.
  destruct (parse_arguments_after_options prog opts sep Hwt Hacc) as [extra ->].
  rewrite parse_loop_step. unfold getopt_long, at_word. cbn [nextchar optind nth_error].
  rewrite nth_error_app2 by apply Nat.le_refl. rewrite Nat.sub_diag.
  destruct Hsep as [-> | ->]; cbn [nth_error]; cbv zeta;
    cbn [ret diagnosed finished next optind]; unfold finish;
    cbn [List.length]; rewrite length_app; cbn [List.length].
  - replace (Z.of_nat (S (List.length (all_words opts) + 0))
             - Z.of_nat (S (List.length (all_words opts))) =? 0) with true
      by (symmetry; apply Z.eqb_eq; lia).
    reflexivity.
  - replace (Z.of_nat (S (List.length (all_words opts) + 1))
             - Z.of_nat (S (S (List.length (all_words opts)))) =? 0) with true
      by (symmetry; apply Z.eqb_eq; lia).
    reflexivity.
Qed.

(** Each of them ends [parse_arguments] with [true], status 1, the
    message on the error stream, after the lines of the [-d]s. *)
Lemma goes_wrong_reported prog opts tail m flags :
  forallb well_typed opts = true -> forallb accepted (all_settings opts) = true ->
  goes_wrong tail m flags ->
  exists pt g',
    parse_arguments (prog :: all_words opts ++ tail)
    = Some (mkParse true 1 pt g'
              (EvStderr m :: debug_output (all_settings opts ++ map SetFlag flags))).
Proof.
  intros Hwt Hacc Hwrong.
  destruct Hwrong as [o s more Ho Hv Hs | o s more Ho Hv Hs | o s more u Ho Hv Hs Hget Hu | |].
  - exists AtBadTimes.
    apply (parse_arguments_bad_value prog opts o "t" s more 1 AtBadTimes MsgUsage);
      try assumption.
    intros g out. cbn [switch]. apply times_option_unread. exact Hs.
  - exists AtBadInterval.
    apply (parse_arguments_bad_value prog opts o "i" s more 1 AtBadInterval MsgUsage);
      try assumption.
    intros g out. exists g. cbn [switch]. apply interval_option_unread. exact Hs.
  - exists AtBadUnit.
    apply (parse_arguments_bad_value prog opts o "i" s more 1 AtBadUnit MsgBadUnit);
      try assumption.
    intros g out. exists g. cbn [switch]. apply (interval_option_bad_unit s g out u Hs Hget Hu).
  - exists AtNoCommand, (configure (all_settings opts) Globals.initial).
    cbn [map]. rewrite (app_nil_r (all_settings opts)).
    apply (parse_arguments_no_command prog opts []); auto.
  - exists AtNoCommand, (configure (all_settings opts) Globals.initial).
    cbn [map]. rewrite (app_nil_r (all_settings opts)).
    apply (parse_arguments_no_command prog opts ["--"%string]); auto.
Qed.

Lemma accepted_flags flags : forallb accepted (map SetFlag flags) = true.
Proof. induction flags as [| c flags IH]; [reflexivity | exact IH]. Qed.

End Typed.

(** C8.  In shell mode (no [-x] among the options) [parse_arguments] goes on
    and leaves in [command] the words of the command line from the first one
    that is not an option on (or from the word after [--]), all of them, in
    order, joined by single spaces and copied as they are: nothing is quoted
    or escaped.  The options before the command are any that [getopt_long]
    reads and the [switch] accepts, in any spelling.  (Arguments are C
    strings, and together they have a size an [int] can count.) *)
Theorem shell_command_is_arguments_joined
  {F : Parse.FloatOps} (prog : string) (opts : list CommandLine.typed)
  (sep : list string) (cmd : string) (rest : list string) :
  forallb CommandLine.well_typed opts = true ->
  forallb CommandLine.accepted (CommandLine.all_settings opts) = true ->
  CommandLine.asks "x" (CommandLine.all_settings opts) = false ->
  CommandLine.starts_command sep cmd = true ->
  Forall CString.nul_free (cmd :: rest) ->
  Z.of_nat (CString.weight (CommandLine.command_line prog opts sep cmd rest))
    <= CInt.INT_MAX ->
  exists r,
    Parse.parse_arguments (CommandLine.command_line prog opts sep cmd rest) = Some r
    /\ Parse.exit_now r = false
    /\ Globals.use_exec (Parse.config r) = false
    /\ Globals.command (Parse.config r)
       = Some (list_ascii_of_string (String.concat " " (cmd :: rest)) ++ [CString.NUL])%list
    /\ option_map CString.c_string (Globals.command (Parse.config r))
       = Some (String.concat " " (cmd :: rest)).
Proof.
  intros Hwt Hacc Hshell Hsep Hnul Hfit. unfold CommandLine.command_line in *.
  eexists. split; [apply parse_arguments_options; assumption |].
  rewrite Hshell. cbn [Parse.exit_now Parse.config Globals.use_exec Globals.command
                       Globals.set_command Globals.set_cmd_arg_idx option_map].
  destruct (configure_flags (CommandLine.all_settings opts) Globals.initial)
    as (_ & _ & _ & -> & _).
  rewrite Hshell. repeat split.
  f_equal. apply c_string_chars.
  inversion Hnul; subst. rewrite concat_spaced.
  apply nul_free_app; [assumption | apply nul_free_spaced; assumption].
Qed.

(** [repeat -et2 --interval 5m --prec -- -n "a;b" '$HOME']: the shell is
    handed [-n a;b $HOME]. *)
Lemma shell_command_is_arguments_joined_witness :
  exists r,
    Parse.parse_arguments (F := Scenarios.whole_numbers)
      ["repeat"; "-et2"; "--interval"; "5m"; "--prec"; "--"; "-n"; "a;b"; "$HOME"]%string
    = Some r
    /\ Parse.exit_now r = false
    /\ option_map CString.c_string (Globals.command (Parse.config r))
       = Some "-n a;b $HOME"%string.
Proof.
  destruct (shell_command_is_arguments_joined (F := Scenarios.whole_numbers) "repeat"
              [CommandLine.LettersValue "e" "t" "2" true;
               CommandLine.LongValue "interval" "5m" false;
               CommandLine.LongFlag "prec"]
              ["--"%string] "-n" ["a;b"; "$HOME"]%string)
    as (r & Hparse & Hgo & _ & _ & Hcmd).
  - reflexivity.
  - reflexivity.
  - reflexivity.
  - reflexivity.
  - repeat constructor; unfold CString.nul_free; cbn; intuition discriminate.
  - vm_compute. discriminate.
  - exists r. split; [exact Hparse | split; [exact Hgo | exact Hcmd]].
Defined.

(** C6 (as amended).  Whenever [parse_arguments] returns [true] the process
    exits at once with [*return_val] as its status, and no command is
    invoked.  After any well-formed options, a repeat count or an interval
    with no number at its start, and a command line with no command, make
    the function print the usage text on the error stream, and the status
    is 1.  An interval whose number is followed by an unknown unit makes it
    print its own message, not the usage text, and the status is 1 as
    well.  Before the message come only the lines of the [-d]s read so
    far. *)
Theorem parse_errors_reported
  {F : Parse.FloatOps} (prog : string) (opts : list CommandLine.typed)
  (tail : list string) (m : Events.message) (flags : list ascii)
  (env : Loop.environment) (fuel : nat) :
  forallb CommandLine.well_typed opts = true ->
  forallb CommandLine.accepted (CommandLine.all_settings opts) = true ->
  CommandLine.goes_wrong tail m flags ->
  (exists st,
     Main.main (prog :: CommandLine.all_words opts ++ tail) env fuel
       = Some (Loop.Exited Loop.ParseExit 1, st)
     /\ Loop.ls_log st
        = Events.EvStderr m
          :: CommandLine.debug_output
               (CommandLine.all_settings opts ++ map CommandLine.SetFlag flags)
     /\ Events.usage_on_stderr (Loop.ls_log st) = Events.is_usage m
     /\ Events.launch_count (Loop.ls_log st) = 0%nat)
  /\ forall argv r,
       Parse.parse_arguments argv = Some r -> Parse.exit_now r = true ->
       exists st,
         Main.main argv env fuel
           = Some (Loop.Exited Loop.ParseExit (Parse.return_val r), st)
         /\ Loop.ls_log st = Parse.output r
         /\ Events.launch_count (Loop.ls_log st) = 0%nat.
Proof.
  intros Hwt Hacc Hwrong. split.
  - destruct (goes_wrong_reported prog opts tail m flags Hwt Hacc Hwrong)
      as (pt & g' & Hparse).
    unfold Main.main. rewrite Hparse. cbn [Parse.exit_now Parse.return_val Parse.output].
    eexists. split; [reflexivity |]. cbn [Loop.ls_log].
    split; [reflexivity |]. split.
    + unfold Events.usage_on_stderr. cbn [existsb].
      change (existsb _ (CommandLine.debug_output ?xs))
        with (Events.usage_on_stderr (CommandLine.debug_output xs)).
      pose proof (usage_debug_output
                    (CommandLine.all_settings opts ++ map CommandLine.SetFlag flags) [])
        as H.
      rewrite app_nil_r in H. rewrite H. cbn. apply orb_false_r.
    + rewrite launch_count_cons. cbn [Events.is_launch Nat.add].
      apply launch_count_debug_output.
  - intros argv r Hparse Hexit.
    destruct (parse_loop_reported argv _ _ _ _ r (Forall_nil _) Hparse Hexit) as [Hnone _].
    unfold Main.main. rewrite Hparse, Hexit.
    eexists. split; [reflexivity | split; [reflexivity | exact Hnone]].
Qed.

(** [repeat -d --untilerr -di 5q job], a bad unit after two [-d]s;
    [repeat -e -t abc job], a count with no number; [repeat -e --], no
    command. *)
Lemma parse_errors_reported_witness :
  (exists st,
     Main.main (F := Scenarios.whole_numbers)
       ["repeat"; "-d"; "--untilerr"; "-di"; "5q"; "job"]%string Scenarios.counting 5
       = Some (Loop.Exited Loop.ParseExit 1, st)
     /\ Loop.ls_log st
        = [Events.EvStderr Events.MsgBadUnit; Events.EvStdout Events.MsgDebugEnabled;
           Events.EvStdout Events.MsgDebugEnabled]
     /\ Events.usage_on_stderr (Loop.ls_log st) = false)
  /\ (exists st,
        Main.main (F := Scenarios.whole_numbers)
          ["repeat"; "-e"; "-t"; "abc"; "job"]%string Scenarios.counting 5
          = Some (Loop.Exited Loop.ParseExit 1, st)
        /\ Loop.ls_log st = [Events.EvStderr Events.MsgUsage])
  /\ (exists st,
        Main.main (F := Scenarios.whole_numbers)
          ["repeat"; "-e"; "--"]%string Scenarios.counting 5
          = Some (Loop.Exited Loop.ParseExit 1, st)
        /\ Loop.ls_log st = [Events.EvStderr Events.MsgUsageRaw]).
Proof.
  split; [| split].
  - destruct (parse_errors_reported (F := Scenarios.whole_numbers) "repeat"
                [CommandLine.Letters "d"; CommandLine.LongFlag "untilerr"]
                ["-di"; "5q"; "job"]%string Events.MsgBadUnit ["d"%char]
                Scenarios.counting 5 eq_refl eq_refl)
      as [(st & Hmain & Hlog & Husage & _) _].
    + apply (CommandLine.wrong_unit (F := Scenarios.whole_numbers)
               (CommandLine.LettersValue "d" "i" "5q" false) "5q" ["job"%string] "q");
        first [reflexivity | discriminate].
    + exists st. split; [exact Hmain | split; [exact Hlog | exact Husage]].
  - destruct (parse_errors_reported (F := Scenarios.whole_numbers) "repeat"
                [CommandLine.Letters "e"]
                ["-t"; "abc"; "job"]%string Events.MsgUsage []
                Scenarios.counting 5 eq_refl eq_refl)
      as [(st & Hmain & Hlog & _) _].
    + apply (CommandLine.wrong_count (F := Scenarios.whole_numbers)
               (CommandLine.LettersValue "" "t" "abc" false) "abc" ["job"%string]);
        reflexivity.
    + exists st. split; [exact Hmain | exact Hlog].
  - destruct (parse_errors_reported (F := Scenarios.whole_numbers) "repeat"
                [CommandLine.Letters "e"]
                ["--"]%string Events.MsgUsageRaw []
                Scenarios.counting 5 eq_refl eq_refl)
      as [(st & Hmain & Hlog & _) _].
    + apply CommandLine.no_command_after_dashes.
    + exists st. split; [exact Hmain | exact Hlog].
Defined.

(** C7 (as amended).  The argument of the repeat-count option must start
    with an integer (optional white space, an optional sign, digits).  Take
    a count option with argument [s], in any spelling ([-t s], [-ts],
    [--times s], [--times=s], an abbreviation of [--times], or [t] at the
    end of a word of flag letters as in [-et s]), after any well-formed
    options.  When [strtol] converts nothing of [s] (as for ["abc"]), the
    program prints the usage text on the error stream and exits with status
    1 whatever follows, and the command is never invoked.  Otherwise what
    follows the integer in [s] is not examined: the scan goes on, and with
    well-formed options (no other count among them) and a command after it
    [parse_arguments] returns [false] with the count set to the value
    [strtol] gives for the leading integer, narrowed to [int]. *)
Theorem times_argument_needs_leading_integer
  {F : Parse.FloatOps} (prog : string) (opts : list CommandLine.typed)
  (o : CommandLine.typed) (s : string) (env : Loop.environment) (fuel : nat) :
  forallb CommandLine.well_typed opts = true ->
  forallb CommandLine.accepted (CommandLine.all_settings opts) = true ->
  CommandLine.well_typed o = true ->
  CommandLine.value_of o = Some ("t"%char, s) ->
  match Strtol.strtol s with
  | (_, O) =>
      forall tail,
      exists st,
        Main.main (prog :: CommandLine.all_words opts ++ CommandLine.words o ++ tail) env fuel
          = Some (Loop.Exited Loop.ParseExit 1, st)
        /\ Loop.ls_log st
           = Events.EvStderr Events.MsgUsage
             :: CommandLine.debug_output
                  (CommandLine.all_settings opts
                   ++ map CommandLine.SetFlag (CommandLine.flags_of o))
        /\ Events.usage_on_stderr (Loop.ls_log st) = true
        /\ Events.launch_count (Loop.ls_log st) = 0%nat
  | (v, S _) =>
      forall more sep cmd rest,
        forallb CommandLine.well_typed more = true ->
        forallb CommandLine.accepted (CommandLine.all_settings more) = true ->
        CommandLine.typed_count (CommandLine.all_settings more) = None ->
        CommandLine.starts_command sep cmd = true ->
        Z.of_nat (CString.weight
                    (CommandLine.command_line prog (opts ++ o :: more) sep cmd rest))
          <= CInt.INT_MAX ->
        exists r,
          Parse.parse_arguments
            (CommandLine.command_line prog (opts ++ o :: more) sep cmd rest) = Some r
          /\ Parse.exit_now r = false
          /\ Parse.output r
             = CommandLine.debug_output (CommandLine.all_settings (opts ++ o :: more))
          /\ Globals.times (Parse.config r) = CInt.to_int v
  end.
Proof.
  intros Hwt Hacc Ho Hv.
  destruct (Strtol.strtol s) as [v [| used]] eqn:E.
  - intros tail.
    destruct (goes_wrong_reported prog opts (CommandLine.words o ++ tail) Events.MsgUsage
                (CommandLine.flags_of o) Hwt Hacc) as (pt & g' & Hparse).
    { apply (CommandLine.wrong_count o s tail Ho Hv). rewrite E. reflexivity. }
    unfold Main.main. rewrite Hparse. cbn [Parse.exit_now Parse.return_val Parse.output].
    eexists. split; [reflexivity |]. cbn [Loop.ls_log].
    split; [reflexivity |]. split; [reflexivity |].
    rewrite launch_count_cons. apply launch_count_debug_output.
  - intros more sep cmd rest Hwt' Hacc' Hcount Hsep Hfit.
    assert (Hsettings : CommandLine.settings o
                        = (map CommandLine.SetFlag (CommandLine.flags_of o)
                           ++ [CommandLine.SetTimes s])%list)
      by (unfold CommandLine.settings; rewrite Hv; reflexivity).
    assert (Hall : CommandLine.all_settings (opts ++ o :: more)
                   = (CommandLine.all_settings opts
                      ++ (map CommandLine.SetFlag (CommandLine.flags_of o)
                          ++ [CommandLine.SetTimes s])
                      ++ CommandLine.all_settings more)%list).
    { unfold CommandLine.all_settings. rewrite flat_map_app. cbn [flat_map].
      rewrite Hsettings. reflexivity. }
    eexists. split.
    + unfold CommandLine.command_line in *. apply parse_arguments_options; try assumption.
      * rewrite forallb_app. cbn [forallb]. rewrite Hwt, Ho, Hwt'. reflexivity.
      * rewrite Hall, !forallb_app, Hacc, Hacc'. cbn [forallb CommandLine.accepted].
        rewrite E. cbn [snd Nat.eqb negb].
        rewrite accepted_flags. reflexivity.
    + cbn [Parse.exit_now Parse.output Parse.config Globals.times Globals.set_command
           Globals.set_cmd_arg_idx].
      split; [reflexivity |]. split; [reflexivity |].
      rewrite configure_times, Hall, !typed_count_app, Hcount.
      cbn [CommandLine.typed_count fold_left]. rewrite E. reflexivity.
Qed.

(** [repeat -e --times=abc job] is rejected; [repeat -et 2x -p job] goes on
    with the count 2. *)
Lemma times_argument_needs_leading_integer_witness :
  (exists st,
     Main.main (F := Scenarios.whole_numbers)
       ["repeat"; "-e"; "--times=abc"; "job"]%string Scenarios.counting 5
       = Some (Loop.Exited Loop.ParseExit 1, st)
     /\ Loop.ls_log st = [Events.EvStderr Events.MsgUsage]
     /\ Events.launch_count (Loop.ls_log st) = 0%nat)
  /\ (exists r,
        Parse.parse_arguments (F := Scenarios.whole_numbers)
          ["repeat"; "-et"; "2x"; "-p"; "job"]%string = Some r
        /\ Parse.exit_now r = false
        /\ Globals.times (Parse.config r) = 2).
Proof.
  split.
  - destruct (times_argument_needs_leading_integer (F := Scenarios.whole_numbers) "repeat"
                [CommandLine.Letters "e"] (CommandLine.LongValue "times" "abc" true) "abc"
                Scenarios.counting 5 eq_refl eq_refl eq_refl eq_refl ["job"%string])
      as (st & Hmain & Hlog & _ & Hnone).
    exists st. split; [exact Hmain | split; [exact Hlog | exact Hnone]].
  - destruct (times_argument_needs_leading_integer (F := Scenarios.whole_numbers) "repeat"
                [] (CommandLine.LettersValue "e" "t" "2x" false) "2x"
                Scenarios.counting 5 eq_refl eq_refl eq_refl eq_refl
                [CommandLine.Letters "p"] [] "job"%string [] eq_refl eq_refl eq_refl eq_refl)
      as (r & Hparse & Hgo & _ & Htimes).
    + vm_compute. discriminate.
    + exists r. split; [exact Hparse | split; [exact Hgo | exact Htimes]].
Defined.

(** C1.  Take a command line of well-formed options and a command, whose
    last repeat-count option has an argument that [-t] stores as the count
    [N >= 1], and that has no stop-on-error and no stop-on-success flag.
    When every child hands back the status of a normal exit (in an
    environment whose clock works and whose sleeps come to an end), the
    process launches the command - the words from the command on, joined by
    single spaces for the shell, or handed to [execvp] as they are with
    [-x] - exactly [N] times and launches nothing else, and it exits,
    through the repeat-count check, with the exit code of the [N]-th launch.
    The result is reached with some amount of fuel and stays the same with
    any more.  (Arguments are C strings, and together they have a size an
    [int] can count.) *)
Theorem repeat_count_runs_exactly
  {F : Parse.FloatOps} (prog : string) (opts : list CommandLine.typed)
  (sep : list string) (cmd : string) (rest : list string)
  (env : Loop.environment) (code : nat -> Z) (s : string) (N : nat) :
  forallb CommandLine.well_typed opts = true ->
  forallb CommandLine.accepted (CommandLine.all_settings opts) = true ->
  CommandLine.starts_command sep cmd = true ->
  Forall CString.nul_free (cmd :: rest) ->
  Z.of_nat (CString.weight (CommandLine.command_line prog opts sep cmd rest))
    <= CInt.INT_MAX ->
  CommandLine.typed_count (CommandLine.all_settings opts) = Some s ->
  CInt.to_int (fst (Strtol.strtol s)) = Z.of_nat N -> (1 <= N)%nat ->
  CommandLine.asks "e" (CommandLine.all_settings opts) = false ->
  CommandLine.asks "s" (CommandLine.all_settings opts) = false ->
  (forall n, (n < N)%nat ->
     WaitStatus.well_formed (WaitStatus.NormalExit (code n)) /\
     Loop.child_returns (CommandLine.configure (CommandLine.all_settings opts) Globals.initial)
                        env n (WaitStatus.encode (WaitStatus.NormalExit (code n)))) ->
  Loop.clock_works env -> (forall n, Loop.sleep_completes env n) ->
  exists fuel st,
    (forall fuel', (fuel <= fuel')%nat ->
       Main.main (CommandLine.command_line prog opts sep cmd rest) env fuel'
         = Some (Loop.Exited Loop.CountExhausted (code (N - 1)%nat), st))
    /\ Loop.ls_launches st = N
    /\ filter Events.is_launch (Loop.ls_log st)
       = repeat (if CommandLine.asks "x" (CommandLine.all_settings opts)
                 then Events.EvFork (cmd :: rest)
                 else Events.EvSystem (Some (String.concat " " (cmd :: rest))))
                N.
Proof.
  intros Hwt Hacc Hsep Hnul Hfit Hcount HN Hpos Herr Hsucc Hkids Hclock Hsleep.
  unfold CommandLine.command_line in *.
  set (xs := CommandLine.all_settings opts) in *.
  set (argv := prog :: CommandLine.all_words opts ++ sep ++ cmd :: rest) in *.
  pose proof (parse_arguments_options prog opts sep cmd rest Hwt Hacc Hsep Hfit) as Hparse.
  fold xs argv in Hparse.
  set (g := Globals.set_command _ _) in Hparse.
  destruct (configure_flags xs Globals.initial) as (_ & He & Hs & Hx & _).
  destruct (run_loop_counted g argv env (CommandLine.debug_output xs) code N)
    as (fuel & st & Hrun & Hl & Hc).
  - unfold g. cbn [Globals.times Globals.set_command Globals.set_cmd_arg_idx].
    rewrite configure_times, Hcount. exact HN.
  - exact Hpos.
  - unfold g. cbn [Globals.exit_on_error Globals.set_command Globals.set_cmd_arg_idx].
    rewrite He, Herr. reflexivity.
  - unfold g. cbn [Globals.exit_on_success Globals.set_command Globals.set_cmd_arg_idx].
    rewrite Hs, Hsucc. reflexivity.
  - intros n Hn. exact (Hkids n Hn).
  - exact Hclock.
  - exact Hsleep.
  - assert (Hmain : forall fuel', (fuel <= fuel')%nat ->
              Main.main argv env fuel'
              = Some (Loop.Exited Loop.CountExhausted (code (N - 1)%nat), st)).
    { intros fuel' Hle. unfold Main.main. rewrite Hparse.
      cbn [Parse.exit_now Parse.config Parse.output]. rewrite (Hrun fuel' Hle).
      reflexivity. }
    exists fuel, st. split; [exact Hmain |]. split; [exact Hl |].
    rewrite launch_count_debug_output in Hc. cbn [Nat.add] in Hc.
    unfold Events.launch_count in Hc. rewrite <- Hc.
    apply Forall_eq_repeat. apply Forall_forall. intros e Hin.
    apply filter_In in Hin. destruct Hin as [Hin Hlaunch].
    assert (Hst : st = snd (Loop.run_loop g argv env fuel (CommandLine.debug_output xs)))
      by (rewrite (Hrun fuel (Nat.le_refl _)); reflexivity).
    rewrite Hst in Hin.
    destruct (run_loop_launches_the_command _ _ _ _ _ _ Hin Hlaunch) as [E | Hout].
    + subst e. unfold Loop.launch_event, g.
      cbn [Globals.use_exec Globals.command Globals.cmd_arg_idx Globals.set_command
           Globals.set_cmd_arg_idx].
      rewrite Hx. cbn [Globals.use_exec Globals.initial]. rewrite orb_false_r.
      destruct (CommandLine.asks "x" xs).
      * f_equal. unfold argv.
        rewrite <- Nat.add_succ_l, Nat.add_comm, <- skipn_skipn.
        cbn [skipn]. rewrite skipn_app, skipn_all, Nat.sub_diag. cbn [skipn app].
        rewrite skipn_app, skipn_all, Nat.sub_diag. reflexivity.
      * cbn [option_map]. f_equal. f_equal. symmetry. apply c_string_chars.
        inversion Hnul; subst. rewrite concat_spaced.
        apply nul_free_app; [assumption | apply nul_free_spaced; assumption].
    + apply in_debug_output in Hout. subst e. discriminate Hlaunch.
Qed.

(** [repeat -p -t 3 --interval=2 job now], with exit codes 1, 2 and 3: the
    shell is handed [job now] three times, and the process exits with 3. *)
Lemma repeat_count_runs_exactly_witness :
  exists fuel st,
    (forall fuel', (fuel <= fuel')%nat ->
       Main.main (F := Scenarios.whole_numbers)
         ["repeat"; "-p"; "-t"; "3"; "--interval=2"; "job"; "now"]%string
         Scenarios.counting fuel'
       = Some (Loop.Exited Loop.CountExhausted 3, st))
    /\ Loop.ls_launches st = 3%nat
    /\ filter Events.is_launch (Loop.ls_log st)
       = [Events.EvSystem (Some "job now"%string); Events.EvSystem (Some "job now"%string);
          Events.EvSystem (Some "job now"%string)].
Proof.
  apply (repeat_count_runs_exactly (F := Scenarios.whole_numbers) "repeat"
           [CommandLine.Letters "p"; CommandLine.LettersValue "" "t" "3" false;
            CommandLine.LongValue "interval" "2" true]
           [] "job" ["now"%string] Scenarios.counting
           (fun n => Z.of_nat (S n) mod 256) "3" 3).
  - reflexivity.
  - reflexivity.
  - reflexivity.
  - repeat constructor; unfold CString.nul_free; cbn; intuition discriminate.
  - vm_compute. discriminate.
  - reflexivity.
  - reflexivity.
  - lia.
  - reflexivity.
  - reflexivity.
  - intros n Hn. split.
    + cbn. pose proof (Z.mod_pos_bound (Z.of_nat (S n)) 256). lia.
    + exists 0%nat. reflexivity.
  - intros k. cbn. lia.
  - intros n. exists 1%nat, 1%nat. reflexivity.
Defined.

(** X17.  What [getopt_long] rejects - a letter that is not in the option
    string (as [-s], [-v] and [-n] are not), first in its word or after flag
    letters of the same word (as in [-eq]), an unknown long option, an option
    whose argument is missing - after any well-formed options: the function
    returns at line 83 with [*return_val] still 0, so that the process exits
    with status 0 and runs nothing.  Its output is the diagnostic of
    [getopt_long], after the lines of the [-d]s read before it. *)
Theorem rejected_option_exits_with_zero
  {F : Parse.FloatOps} (prog : string) (opts : list CommandLine.typed)
  (ls rem : string) (more : list string) (env : Loop.environment) (fuel : nat) :
  forallb CommandLine.well_typed opts = true ->
  forallb CommandLine.accepted (CommandLine.all_settings opts) = true ->
  forallb CommandLine.short_flag (list_ascii_of_string ls) = true ->
  Getopt.ret (Getopt.getopt_long
                (prog :: CommandLine.all_words opts ++ String "-" (ls ++ rem) :: more)
                Parse.optstring Parse.long_options
                (CommandLine.reading (S (List.length (CommandLine.all_words opts))) ls rem))
    = Some "?"%char ->
  exists st,
    Main.main (prog :: CommandLine.all_words opts ++ String "-" (ls ++ rem) :: more) env fuel
      = Some (Loop.Exited Loop.ParseExit 0, st)
    /\ Loop.ls_log st
       = Events.EvStderr Events.MsgGetopt
         :: CommandLine.debug_output
              (CommandLine.all_settings opts
               ++ map CommandLine.SetFlag (list_ascii_of_string ls))
    /\ Events.launch_count (Loop.ls_log st) = 0%nat
    /\ Loop.ls_launches st = 0%nat.
Proof.
  intros Hwt Hacc Hls Hbad. unfold Main.main.
  destruct (parse_arguments_after_options prog opts (String "-" (ls ++ rem) :: more) Hwt Hacc)
    as [extra ->].
  set (argv := prog :: CommandLine.all_words opts ++ String "-" (ls ++ rem) :: more) in *.
  set (i := S (List.length (CommandLine.all_words opts))) in *.
  assert (Hword : nth_error argv i = Some (String "-" (ls ++ rem))).
  { unfold argv, i. cbn [nth_error]. rewrite nth_error_app2 by apply Nat.le_refl.
    rewrite Nat.sub_diag. reflexivity. }
  assert (Hfuel : exists fuel0,
            S (S (CString.weight (String "-" (ls ++ rem) :: more) + extra))
            = (String.length ls + S fuel0)%nat).
  { exists (S (S (S (String.length rem + CString.weight more + extra)))).
    rewrite weight_cons. cbn [String.length]. rewrite string_app_length. lia. }
  destruct Hfuel as [fuel0 ->].
  assert (Hscan :
    Parse.parse_loop (String.length ls + S fuel0) argv (CommandLine.at_word i)
      (CommandLine.configure (CommandLine.all_settings opts) Globals.initial)
      (CommandLine.debug_output (CommandLine.all_settings opts))
    = Parse.parse_loop (S fuel0) argv (CommandLine.reading i ls rem)
        (CommandLine.configure (map CommandLine.SetFlag (list_ascii_of_string ls))
           (CommandLine.configure (CommandLine.all_settings opts) Globals.initial))
        (CommandLine.debug_output (map CommandLine.SetFlag (list_ascii_of_string ls))
         ++ CommandLine.debug_output (CommandLine.all_settings opts))%list).
  { destruct ls as [| c ls]; [reflexivity |].
    apply (scan_reads_cluster argv i (String c ls) rem); [exact Hls | exact Hword |].
    discriminate. }
  rewrite Hscan, parse_loop_step, (error_is_diagnosed _ _ Hbad).
  cbn [Getopt.ret Getopt.diagnosed Getopt.optarg Getopt.next Getopt.bad Parse.switch].
  cbv zeta. cbn [Parse.exit_now Parse.return_val Parse.output].
  eexists. split; [reflexivity |]. cbn [Loop.ls_log Loop.ls_launches].
  pose proof (debug_output_app (CommandLine.all_settings opts)
                (map CommandLine.SetFlag (list_ascii_of_string ls)) []) as Hout.
  rewrite !app_nil_r in Hout. rewrite Hout.
  split; [reflexivity |]. split; [| reflexivity].
  rewrite launch_count_cons. apply launch_count_debug_output.
Qed.

(** [repeat -d -t 2 -s job] ([-s] is not in the option string), [repeat -edq
    job] (nor is [q]), [repeat --bogus job] and [repeat -p -t] (no argument):
    status 0 each time. *)
Lemma rejected_option_exits_with_zero_witness :
  (exists st,
     Main.main (F := Scenarios.whole_numbers)
       ["repeat"; "-d"; "-t"; "2"; "-s"; "job"]%string Scenarios.counting 3
       = Some (Loop.Exited Loop.ParseExit 0, st)
     /\ Loop.ls_log st
        = [Events.EvStderr Events.MsgGetopt; Events.EvStdout Events.MsgDebugEnabled])
  /\ (exists st,
        Main.main (F := Scenarios.whole_numbers)
          ["repeat"; "-edq"; "job"]%string Scenarios.counting 3
          = Some (Loop.Exited Loop.ParseExit 0, st)
        /\ Loop.ls_log st
           = [Events.EvStderr Events.MsgGetopt; Events.EvStdout Events.MsgDebugEnabled])
  /\ (exists st,
        Main.main (F := Scenarios.whole_numbers)
          ["repeat"; "--bogus"; "job"]%string Scenarios.counting 3
          = Some (Loop.Exited Loop.ParseExit 0, st)
        /\ Loop.ls_log st = [Events.EvStderr Events.MsgGetopt])
  /\ (exists st,
        Main.main (F := Scenarios.whole_numbers)
          ["repeat"; "-p"; "-t"]%string Scenarios.counting 3
          = Some (Loop.Exited Loop.ParseExit 0, st)
        /\ Loop.ls_log st = [Events.EvStderr Events.MsgGetopt]).
Proof.
  split; [| split; [| split]].
  - destruct (rejected_option_exits_with_zero (F := Scenarios.whole_numbers) "repeat"
                [CommandLine.Letters "d"; CommandLine.LettersValue "" "t" "2" false]
                "" "s" ["job"%string] Scenarios.counting 3 eq_refl eq_refl eq_refl eq_refl)
      as (st & Hmain & Hlog & _).
    exists st. split; [exact Hmain | exact Hlog].
  - destruct (rejected_option_exits_with_zero (F := Scenarios.whole_numbers) "repeat"
                [] "ed" "q" ["job"%string] Scenarios.counting 3
                eq_refl eq_refl eq_refl eq_refl)
      as (st & Hmain & Hlog & _).
    exists st. split; [exact Hmain | exact Hlog].
  - destruct (rejected_option_exits_with_zero (F := Scenarios.whole_numbers) "repeat"
                [] "" "-bogus" ["job"%string] Scenarios.counting 3
                eq_refl eq_refl eq_refl eq_refl)
      as (st & Hmain & Hlog & _).
    exists st. split; [exact Hmain | exact Hlog].
  - destruct (rejected_option_exits_with_zero (F := Scenarios.whole_numbers) "repeat"
                [CommandLine.Letters "p"] "" "t" [] Scenarios.counting 3
                eq_refl eq_refl eq_refl eq_refl)
      as (st & Hmain & Hlog & _).
    exists st. split; [exact Hmain | exact Hlog].
Defined.

Section OnlyTyped.
Import CInt Timespec Globals Events CString Strtol Getopt Parse CommandLine.
Context {F : FloatOps}.

Lemma interval_option_goes_on s g out g' out' :
  interval_option s g out = Go g' out' -> accepted (SetInterval s) = true.
Proof.
  unfold interval_option, accepted, interval_of.
  destruct (strtof s) as [x used]. destruct (used =? 0)%nat; [discriminate |].
  destruct (String.get used s) as [u |]; [| reflexivity].
  destruct u as [[] [] [] [] [] [] [] []]; cbn; first [discriminate | reflexivity].
Qed.

Lemma times_option_goes_on s g out g' out' :
  times_option s g out = Go g' out' -> accepted (SetTimes s) = true.
Proof.
  unfold times_option, accepted. destruct (strtol s) as [v used]. cbn [snd].
  destruct (used =? 0)%nat; [discriminate | reflexivity].
Qed.

(** When the [switch] goes on, it has read a flag, or a count or an
    interval that it accepts. *)
Lemma switch_goes_on_cases c arg g out g' out' :
  switch c arg g out = Go g' out' ->
  is_flag_letter c = true
  \/ (value_letter c = true
      /\ exists s, arg = Some s /\ accepted (value_setting c s) = true).
Proof.
  destruct c as [[] [] [] [] [] [] [] []]; cbn [switch];
    try discriminate; try (intros _; left; reflexivity).
  - destruct arg as [s |]; [| discriminate]. intros H. right.
    split; [reflexivity |]. exists s. split; [reflexivity |].
    exact (interval_option_goes_on _ _ _ _ _ H).
  - destruct arg as [s |]; [| discriminate]. intros H. right.
    split; [reflexivity |]. exists s. split; [reflexivity |].
    exact (times_option_goes_on _ _ _ _ _ H).
Qed.


Lemma not_an_option_letter : is_flag_letter "?" = false /\ value_letter "?" = false.
Proof. split; reflexivity. Qed.

Lemma flag_letter_takes_no_argument c :
  is_flag_letter c = true -> lookup_short c optstring <> Some true.
Proof.
  intros H. apply is_flag_letter_cases in H. cbn [In] in H.
  repeat (destruct H as [E | H]; [subst c; discriminate |]). contradiction.
Qed.

(** A letter after which the scan goes on is a flag, or takes an argument
    that is accepted. *)
Lemma short_option_goes_on argv i c0 r0 g out g' out' c :
  ret (short_option argv optstring i c0 r0) = Some c ->
  switch c (optarg (short_option argv optstring i c0 r0)) g out = Go g' out' ->
  (short_flag c0 = true
   /\ next (short_option argv optstring i c0 r0) = after_letter i r0)
  \/ (value_letter c0 = true
      /\ ((r0 <> EmptyString /\ accepted (value_setting c0 r0) = true
           /\ next (short_option argv optstring i c0 r0) = at_word (S i))
          \/ (r0 = EmptyString
              /\ exists s, nth_error argv (S i) = Some s
                           /\ accepted (value_setting c0 s) = true
                           /\ next (short_option argv optstring i c0 r0)
                              = at_word (S (S i))))).
Proof.
  intros Hret Hgo.
  pose proof (switch_goes_on_cases _ _ _ _ _ _ Hgo) as Hcases.
  destruct not_an_option_letter as [Hq1 Hq2].
  unfold short_option in *.
  destruct ((c0 =? ":")%char || (c0 =? ";")%char).
  { cbn in Hret. inversion Hret; subst c.
    destruct Hcases as [H | [H _]]; congruence. }
  destruct (lookup_short c0 optstring) as [[|] |] eqn:L.
  - destruct r0 as [| a r].
    + destruct (nth_error argv (S i)) as [s |] eqn:N.
      * cbn in Hret, Hcases |- *. inversion Hret; subst c.
        destruct Hcases as [H | (Hv & s' & Hs & Hacc)].
        -- elim (flag_letter_takes_no_argument c0 H L).
        -- inversion Hs; subst s'. right. split; [exact Hv |]. right.
           split; [reflexivity |]. exists s. auto.
      * cbn in Hret. inversion Hret; subst c.
        destruct Hcases as [H | [H _]]; congruence.
    + cbn in Hret, Hcases |- *. inversion Hret; subst c.
      destruct Hcases as [H | (Hv & s' & Hs & Hacc)].
      * elim (flag_letter_takes_no_argument c0 H L).
      * inversion Hs; subst s'. right. split; [exact Hv |]. left.
        split; [discriminate | auto].
  - cbn in Hret, Hcases |- *. inversion Hret; subst c.
    destruct Hcases as [H | (Hv & s' & Hs & _)]; [| discriminate Hs].
    left. split; [| reflexivity]. unfold short_flag.
    apply andb_true_intro. split; [exact H | rewrite L; reflexivity].
  - cbn in Hret. inversion Hret; subst c.
    destruct Hcases as [H | [H _]]; congruence.
Qed.

(** How a word reads: [--], a long option, letters, or not an option. *)
Lemma word_cases w :
  w = "--"%string
  \/ (exists a body, w = String "-" (String "-" (String a body)))
  \/ (exists c rest, w = String "-" (String c rest) /\ c <> "-"%char)
  \/ looks_like_option w = false.
Proof.
  destruct w as [| a0 [| a1 w]].
  - right. right. right. reflexivity.
  - right. right. right. destruct a0 as [[] [] [] [] [] [] [] []]; reflexivity.
  - destruct (Ascii.eqb_spec a0 "-") as [-> | Ha0].
    + destruct (Ascii.eqb_spec a1 "-") as [-> | Ha1].
      * destruct w as [| a body]; [left; reflexivity | right; left; eauto].
      * right. right. left. eauto.
    + right. right. right.
      destruct a0 as [[] [] [] [] [] [] [] []]; first [reflexivity | elim Ha0; reflexivity].
Qed.

Lemma split_eq_spec body : forall nm v,
  split_eq body = (nm, v) ->
  forallb (fun c => negb (Ascii.eqb c "=")) (list_ascii_of_string nm) = true
  /\ body = match v with Some s => (nm ++ String "=" s)%string | None => nm end.
Proof.
  induction body as [| c body IH]; intros nm v; cbn [split_eq].
  - intros E. inversion E; subst. split; reflexivity.
  - destruct (Ascii.eqb c "=") eqn:Ec.
    + intros E. inversion E; subst. apply Ascii.eqb_eq in Ec. subst c.
      split; reflexivity.
    + destruct (split_eq body) as [n' v'].
      intros E. inversion E; subst.
      destruct (IH n' v eq_refl) as [Hp Hb].
      split.
      * cbn [list_ascii_of_string forallb]. rewrite Ec, Hp. reflexivity.
      * rewrite Hb at 1. destruct v; reflexivity.
Qed.

(** A long option after which the scan goes on. *)
Lemma long_option_goes_on argv i body g out g' out' c :
  ret (long_option_at argv long_options i body) = Some c ->
  switch c (optarg (long_option_at argv long_options i body)) g out = Go g' out' ->
  exists nm o,
    plain nm = true /\ long_named nm = Some o
    /\ ((body = nm /\ has_arg o = no_argument /\ is_flag_letter (val o) = true
         /\ next (long_option_at argv long_options i body) = at_word (S i))
        \/ (has_arg o = required_argument /\ value_letter (val o) = true
            /\ exists s,
                 accepted (value_setting (val o) s) = true
                 /\ ((body = (nm ++ String "=" s)%string
                      /\ next (long_option_at argv long_options i body) = at_word (S i))
                     \/ (body = nm /\ nth_error argv (S i) = Some s
                         /\ next (long_option_at argv long_options i body)
                            = at_word (S (S i)))))).
Proof.
  intros Hret Hgo.
  pose proof (switch_goes_on_cases _ _ _ _ _ _ Hgo) as Hcases.
  destruct not_an_option_letter as [Hq1 Hq2].
  unfold long_option_at in *.
  destruct (split_eq body) as [nm v] eqn:Hsplit.
  destruct (split_eq_spec body nm v Hsplit) as [Hnoeq Hbody].
  assert (Hbad : forall st, ret (bad st) = Some c -> False).
  { intros st E. cbn in E. inversion E; subst c.
    destruct Hcases as [H | [H _]]; congruence. }
  destruct (lookup_long long_options nm) as [o | |] eqn:Hlook;
    try (exfalso; exact (Hbad _ Hret)).
  assert (Hplain : plain nm = true).
  { unfold plain. rewrite Hnoeq, andb_true_r.
    destruct nm; [discriminate Hlook | reflexivity]. }
  assert (Hnamed : long_named nm = Some o) by (unfold long_named; rewrite Hlook; reflexivity).
  exists nm, o. split; [exact Hplain |]. split; [exact Hnamed |].
  pose proof (lookup_long_in long_options nm o Hlook) as Hin.
  destruct v as [s |], (has_arg o) eqn:Harg; try (exfalso; exact (Hbad _ Hret)).
  - (* --name=s *)
    cbn in Hret, Hcases |- *. inversion Hret; subst c.
    destruct Hcases as [H | (Hv & s' & Hs & Hacc)].
    + exfalso. cbn [long_options In] in Hin.
      repeat (destruct Hin as [E | Hin]; [subst o; discriminate |]). contradiction.
    + inversion Hs; subst s'. right. split; [reflexivity |]. split; [exact Hv |].
      exists s. split; [exact Hacc |]. left. split; [exact Hbody | reflexivity].
  - (* --name *)
    cbn in Hret, Hcases |- *. inversion Hret; subst c.
    destruct Hcases as [H | (Hv & s' & Hs & _)]; [| discriminate Hs].
    left. repeat split; assumption.
  - (* --name s *)
    destruct (nth_error argv (S i)) as [s |] eqn:N; [| exfalso; exact (Hbad _ Hret)].
    cbn in Hret, Hcases |- *. inversion Hret; subst c.
    destruct Hcases as [H | (Hv & s' & Hs & Hacc)].
    + exfalso. cbn [long_options In] in Hin.
      repeat (destruct Hin as [E | Hin]; [subst o; discriminate |]). contradiction.
    + inversion Hs; subst s'. right. split; [reflexivity |]. split; [exact Hv |].
      exists s. split; [exact Hacc |]. right. split; [exact Hbody |]. split; reflexivity.
Qed.


Lemma all_words_snoc opts o : all_words (opts ++ [o]) = (all_words opts ++ words o)%list.
Proof. unfold all_words. rewrite flat_map_app. cbn [flat_map]. rewrite app_nil_r. reflexivity. Qed.

Lemma all_settings_snoc opts o :
  all_settings (opts ++ [o]) = (all_settings opts ++ settings o)%list.
Proof.
  unfold all_settings. rewrite flat_map_app. cbn [flat_map]. rewrite app_nil_r. reflexivity.
Qed.

Lemma well_typed_snoc opts o :
  forallb well_typed opts = true -> well_typed o = true ->
  forallb well_typed (opts ++ [o]) = true.
Proof. intros H1 H2. rewrite forallb_app, H1. cbn [forallb]. rewrite H2. reflexivity. Qed.

Lemma accepted_snoc opts o :
  forallb accepted (all_settings opts) = true -> forallb accepted (settings o) = true ->
  forallb accepted (all_settings (opts ++ [o])) = true.
Proof. intros H1 H2. rewrite all_settings_snoc, forallb_app, H1, H2. reflexivity. Qed.

Lemma accepted_flags_value flags c s :
  accepted (value_setting c s) = true ->
  forallb accepted (map SetFlag flags ++ [value_setting c s]) = true.
Proof.
  intros H. rewrite forallb_app, accepted_flags. cbn [forallb]. rewrite H. reflexivity.
Qed.

Lemma nth_error_after {A} (prog : A) done more :
  nth_error (prog :: done ++ more) (S (List.length done)) = nth_error more 0.
Proof.
  cbn [nth_error]. rewrite nth_error_app2 by apply Nat.le_refl.
  rewrite Nat.sub_diag. reflexivity.
Qed.

Lemma nth_error_after_next {A} (prog : A) done w more :
  nth_error (prog :: done ++ w :: more) (S (S (List.length done))) = nth_error more 0.
Proof.
  change (prog :: done ++ w :: more) with ((prog :: done) ++ w :: more)%list.
  rewrite nth_error_app2 by (cbn [List.length]; lia). cbn [List.length].
  replace (S (S (List.length done)) - S (List.length done))%nat with 1%nat by lia.
  reflexivity.
Qed.

(** Only command lines of well-formed, accepted options and a command
    make [parse_arguments] return [false]: an invariant of the scan. *)
Lemma parse_loop_only_typed prog argv fuel : forall st g out r opts ls rem,
  parse_loop fuel argv st g out = Some r -> exit_now r = false ->
  forallb well_typed opts = true -> forallb accepted (all_settings opts) = true ->
  forallb short_flag (list_ascii_of_string ls) = true ->
  (exists more,
     (ls = EmptyString /\ st = at_word (S (List.length (all_words opts)))
      /\ argv = prog :: all_words opts ++ more)
     \/ (ls <> EmptyString /\ rem <> EmptyString
         /\ st = mkGetopt (S (List.length (all_words opts))) rem
         /\ argv = prog :: all_words opts ++ String "-" (ls ++ rem) :: more)) ->
  exists opts' sep cmd rest,
    argv = command_line prog opts' sep cmd rest
    /\ forallb well_typed opts' = true
    /\ forallb accepted (all_settings opts') = true
    /\ starts_command sep cmd = true.
Proof.
  induction fuel as [| fuel IH]; intros st g out r opts ls rem Hparse Hgo Hwt Hacc Hls Hst;
    [discriminate |].
  rewrite parse_loop_step in Hparse. cbv zeta in Hparse.
  set (i := S (List.length (all_words opts))) in *.
  (* the turn for a letter of a word *)
  assert (Hshort : forall ls c0 r0 more,
            forallb short_flag (list_ascii_of_string ls) = true ->
            argv = prog :: all_words opts ++ String "-" (ls ++ String c0 r0) :: more ->
            getopt_long argv optstring long_options st = short_option argv optstring i c0 r0 ->
            exists opts' sep cmd rest,
              argv = command_line prog opts' sep cmd rest
              /\ forallb well_typed opts' = true
              /\ forallb accepted (all_settings opts') = true
              /\ starts_command sep cmd = true).
  { clear ls rem Hls Hst. intros ls c0 r0 more Hls Hargv Hget.
    rewrite Hget in Hparse.
    pose proof (short_option_returns argv optstring i c0 r0) as Hsome.
    destruct (ret (short_option argv optstring i c0 r0)) as [c |] eqn:Hret;
      [clear Hsome | elim Hsome; reflexivity].
    destruct (switch c _ g _) as [g' out' | r' |] eqn:Hswitch;
      [| inversion Hparse; subst r';
         rewrite (switch_exits _ _ _ _ _ Hswitch) in Hgo; discriminate Hgo
       | discriminate Hparse].
    destruct (short_option_goes_on argv i c0 r0 _ _ _ _ c Hret Hswitch)
      as [[Hflag Hnext] | [Hval [(Hr0 & Hok & Hnext) | (Hr0 & s & Hnth & Hok & Hnext)]]];
      rewrite Hnext in Hparse.
    - (* a flag letter *)
      assert (Hls' : forallb short_flag (list_ascii_of_string (ls ++ String c0 EmptyString))
                     = true).
      { rewrite chars_app, forallb_app, Hls. cbn [list_ascii_of_string forallb].
        rewrite Hflag. reflexivity. }
      destruct r0 as [| a r0].
      + apply (IH _ _ _ r (opts ++ [Letters (ls ++ String c0 EmptyString)])%list
                  EmptyString EmptyString Hparse Hgo).
        * apply well_typed_snoc; [exact Hwt |]. cbn [well_typed]. rewrite Hls'.
          destruct ls; reflexivity.
        * apply accepted_snoc; [exact Hacc |]. unfold settings. cbn [flags_of value_of].
          rewrite app_nil_r. apply accepted_flags.
        * reflexivity.
        * exists more. left. split; [reflexivity |].
          rewrite all_words_snoc, length_app. cbn [words List.length after_letter].
          split; [unfold after_letter, at_word, i; f_equal; lia |].
          rewrite <- app_assoc. exact Hargv.
      + apply (IH _ _ _ r opts (ls ++ String c0 EmptyString)%string (String a r0)
                  Hparse Hgo Hwt Hacc Hls').
        exists more. right. split; [destruct ls; discriminate |].
        split; [discriminate |]. split; [reflexivity |].
        rewrite string_app_assoc. exact Hargv.
    - (* a count or an interval, the argument attached *)
      apply (IH _ _ _ r (opts ++ [LettersValue ls c0 r0 true])%list
                EmptyString EmptyString Hparse Hgo).
      + apply well_typed_snoc; [exact Hwt |]. cbn [well_typed]. rewrite Hls, Hval.
        destruct r0; [elim Hr0; reflexivity | reflexivity].
      + apply accepted_snoc; [exact Hacc |]. unfold settings. cbn [flags_of value_of].
        apply accepted_flags_value. exact Hok.
      + reflexivity.
      + exists more. left. split; [reflexivity |].
        rewrite all_words_snoc, length_app. cbn [words List.length].
        split; [unfold after_letter, at_word, i; f_equal; lia |].
        rewrite <- app_assoc. exact Hargv.
    - (* a count or an interval, the argument in the next word *)
      subst r0.
      assert (Hmore : exists more', more = s :: more').
      { rewrite Hargv in Hnth. unfold i in Hnth. rewrite nth_error_after_next in Hnth.
        destruct more as [| s' more']; [discriminate Hnth |].
        inversion Hnth; subst. eauto. }
      destruct Hmore as [more' ->].
      apply (IH _ _ _ r (opts ++ [LettersValue ls c0 s false])%list
                EmptyString EmptyString Hparse Hgo).
      + apply well_typed_snoc; [exact Hwt |]. cbn [well_typed]. rewrite Hls, Hval.
        reflexivity.
      + apply accepted_snoc; [exact Hacc |]. unfold settings. cbn [flags_of value_of].
        apply accepted_flags_value. exact Hok.
      + reflexivity.
      + exists more'. left. split; [reflexivity |].
        rewrite all_words_snoc, length_app. cbn [words List.length].
        split; [unfold after_letter, at_word, i; f_equal; lia |].
        rewrite <- app_assoc. exact Hargv. }
  destruct Hst as [more [(-> & -> & Hargv) | (Hne & Hrem & -> & Hargv)]].
  2: { (* inside a word *)
       destruct rem as [| c0 r0]; [elim Hrem; reflexivity |].
       apply (Hshort ls c0 r0 more Hls Hargv). reflexivity. }
  (* between two words *)
  assert (Hword : nth_error argv i = nth_error more 0)
    by (rewrite Hargv; apply nth_error_after).
  destruct more as [| w more].
  { (* nothing is left *)
    exfalso. cbn [nth_error] in Hword.
    unfold getopt_long, at_word in Hparse. cbn [nextchar optind] in Hparse.
    rewrite Hword in Hparse. cbn [ret finished diagnosed next optind] in Hparse.
    unfold finish in Hparse.
    replace (Z.of_nat (List.length argv) - Z.of_nat i =? 0) with true in Hparse.
    - inversion Hparse; subst r. discriminate Hgo.
    - symmetry. apply Z.eqb_eq. rewrite Hargv. cbn [List.length].
      rewrite length_app. cbn [List.length]. unfold i. lia. }
  cbn [nth_error] in Hword.
  destruct (word_cases w) as [-> | [(a & body & ->) | [(c0 & r0 & -> & Hc0) | Hplain]]].
  - (* -- *)
    unfold at_word in Hparse. rewrite (getopt_stops_at_dashes argv _ _ i Hword) in Hparse.
    cbn [ret finished diagnosed next optind] in Hparse.
    destruct more as [| cmd rest].
    + exfalso. unfold finish in Hparse.
      replace (Z.of_nat (List.length argv) - Z.of_nat (S i) =? 0) with true in Hparse.
      * inversion Hparse; subst r. discriminate Hgo.
      * symmetry. apply Z.eqb_eq. rewrite Hargv. cbn [List.length].
        rewrite length_app. cbn [List.length]. unfold i. lia.
    + exists opts, ["--"%string], cmd, rest. repeat split; assumption.
  - (* a long option *)
    rewrite (getopt_long_long argv _ _ i a body Hword) in Hparse.
    pose proof (long_option_returns argv long_options i (String a body)) as Hsome.
    destruct (ret (long_option_at argv long_options i (String a body))) as [c |] eqn:Hret;
      [clear Hsome | elim Hsome; reflexivity].
    destruct (switch c _ g _) as [g' out' | r' |] eqn:Hswitch;
      [| inversion Hparse; subst r';
         rewrite (switch_exits _ _ _ _ _ Hswitch) in Hgo; discriminate Hgo
       | discriminate Hparse].
    destruct (long_option_goes_on argv i (String a body) _ _ _ _ c Hret Hswitch)
      as (nm & o & Hplain & Hnamed
          & [(Hbody & Harg & Hflag & Hnext)
            | (Harg & Hval & s & Hok & [(Hbody & Hnext) | (Hbody & Hnth & Hnext)])]);
      rewrite Hnext in Hparse; rewrite Hbody in Hargv.
    + apply (IH _ _ _ r (opts ++ [LongFlag nm])%list
                EmptyString EmptyString Hparse Hgo).
      * apply well_typed_snoc; [exact Hwt |]. cbn [well_typed].
        rewrite Hplain, Hnamed, Harg, Hflag. reflexivity.
      * apply accepted_snoc; [exact Hacc |]. unfold settings. cbn [flags_of value_of].
        rewrite app_nil_r. apply accepted_flags.
      * reflexivity.
      * exists more. left. split; [reflexivity |].
        rewrite all_words_snoc, length_app. cbn [words List.length].
        split; [unfold after_letter, at_word, i; f_equal; lia |].
        rewrite <- app_assoc. exact Hargv.
    + apply (IH _ _ _ r (opts ++ [LongValue nm s true])%list
                EmptyString EmptyString Hparse Hgo).
      * apply well_typed_snoc; [exact Hwt |]. cbn [well_typed].
        rewrite Hplain, Hnamed, Harg, Hval. reflexivity.
      * apply accepted_snoc; [exact Hacc |]. unfold settings. cbn [flags_of value_of].
        rewrite Hnamed. cbn [map app forallb]. rewrite Hok. reflexivity.
      * reflexivity.
      * exists more. left. split; [reflexivity |].
        rewrite all_words_snoc, length_app. cbn [words List.length].
        split; [unfold after_letter, at_word, i; f_equal; lia |].
        rewrite <- app_assoc. exact Hargv.
    + assert (Hmore : exists more', more = s :: more').
      { rewrite Hargv in Hnth. unfold i in Hnth. rewrite nth_error_after_next in Hnth.
        destruct more as [| s' more']; [discriminate Hnth |].
        inversion Hnth; subst. eauto. }
      destruct Hmore as [more' ->].
      apply (IH _ _ _ r (opts ++ [LongValue nm s false])%list
                EmptyString EmptyString Hparse Hgo).
      * apply well_typed_snoc; [exact Hwt |]. cbn [well_typed].
        rewrite Hplain, Hnamed, Harg, Hval. reflexivity.
      * apply accepted_snoc; [exact Hacc |]. unfold settings. cbn [flags_of value_of].
        rewrite Hnamed. cbn [map app forallb]. rewrite Hok. reflexivity.
      * reflexivity.
      * exists more'. left. split; [reflexivity |].
        rewrite all_words_snoc, length_app. cbn [words List.length].
        split; [unfold after_letter, at_word, i; f_equal; lia |].
        rewrite <- app_assoc. exact Hargv.
  - (* letters *)
    apply (Hshort EmptyString c0 r0 more eq_refl Hargv).
    apply (getopt_long_enters argv _ _ i c0 r0 Hword Hc0).
  - (* the command *)
    exists opts, [], w, more. repeat split; try assumption.
    cbn [starts_command]. rewrite Hplain. reflexivity.
Qed.

End OnlyTyped.

(** X25.  On every command line (of a size an [int] can count)
    [parse_arguments] returns, and it returns [false], so that [main] goes on
    to run something, on exactly those that are made of the program's name,
    options that are well formed and accepted, and then a command.  The
    options are flags ([-d], [-p], [-e], [-x], alone or several in one word,
    and the long options [--precise], [--untilerr], [--untilsuccess],
    [--noshell]) and counts and intervals ([-t], [-i], [--times],
    [--interval], the argument attached or in the next word) whose argument
    starts with a number and, for an interval, goes on with nothing or with
    one of the units [d], [h], [m], [s].  The command is a word that is not
    read as an option, or any word after [--].  On every other command line
    the function returns [true], and [main] exits without running
    anything. *)
Theorem goes_on_exactly_on_options_then_command
  {F : Parse.FloatOps} (argv : list string) :
  argv <> [] -> Z.of_nat (CString.weight argv) <= CInt.INT_MAX ->
  exists r,
    Parse.parse_arguments argv = Some r
    /\ (Parse.exit_now r = false
        <-> exists prog opts sep cmd rest,
              argv = CommandLine.command_line prog opts sep cmd rest
              /\ forallb CommandLine.well_typed opts = true
              /\ forallb CommandLine.accepted (CommandLine.all_settings opts) = true
              /\ CommandLine.starts_command sep cmd = true)
    /\ (Parse.exit_now r = true ->
        forall env fuel,
        exists st,
          Main.main argv env fuel
            = Some (Loop.Exited Loop.ParseExit (Parse.return_val r), st)
          /\ Events.launch_count (Loop.ls_log st) = 0%nat).
Proof.
  intros Hne Hfit.
  destruct (parse_arguments_defined argv Hne Hfit) as (r & Hparse & _).
  exists r. split; [exact Hparse |]. split; [| intros Hexit env fuel].
  2: { destruct (parse_loop_reported argv _ _ _ _ r (Forall_nil _) Hparse Hexit)
         as [Hnone _].
       unfold Main.main. rewrite Hparse, Hexit.
       eexists. split; [reflexivity | exact Hnone]. }
  split.
  - intros Hgo. destruct argv as [| prog words]; [contradiction |].
    unfold Parse.parse_arguments in Hparse. exists prog.
    apply (parse_loop_only_typed prog (prog :: words) _ _ _ _ r [] EmptyString EmptyString
             Hparse Hgo); try reflexivity.
    exists words. left. repeat split.
  - intros (prog & opts & sep & cmd & rest & -> & Hwt & Hacc & Hsep).
    unfold CommandLine.command_line in *.
    rewrite (parse_arguments_options prog opts sep cmd rest Hwt Hacc Hsep Hfit) in Hparse.
    inversion Hparse. reflexivity.
Qed.

(** [repeat -et2 -- -n] goes on, with [-n] for a command; [repeat -et2 -n]
    does not, and is not such a command line. *)
Lemma goes_on_exactly_on_options_then_command_witness :
  (exists r,
     Parse.parse_arguments (F := Scenarios.whole_numbers)
       ["repeat"; "-et2"; "--"; "-n"]%string = Some r
     /\ Parse.exit_now r = false)
  /\ (exists r,
        Parse.parse_arguments (F := Scenarios.whole_numbers)
          ["repeat"; "-et2"; "-n"]%string = Some r
        /\ Parse.exit_now r = true
        /\ ~ (exists prog opts sep cmd rest,
                ["repeat"; "-et2"; "-n"]%string
                = CommandLine.command_line prog opts sep cmd rest
                /\ forallb CommandLine.well_typed opts = true
                /\ forallb (CommandLine.accepted (F := Scenarios.whole_numbers))
                           (CommandLine.all_settings opts) = true
                /\ CommandLine.starts_command sep cmd = true)).
Proof.
  split.
  - destruct (goes_on_exactly_on_options_then_command (F := Scenarios.whole_numbers)
                ["repeat"; "-et2"; "--"; "-n"]%string)
      as (r & Hparse & Hiff & _).
    + discriminate.
    + vm_compute. discriminate.
    + exists r. split; [exact Hparse |]. apply Hiff.
      exists "repeat"%string, [CommandLine.LettersValue "e" "t" "2" true],
             ["--"%string], "-n"%string, [].
      repeat split.
  - destruct (goes_on_exactly_on_options_then_command (F := Scenarios.whole_numbers)
                ["repeat"; "-et2"; "-n"]%string)
      as (r & Hparse & Hiff & _).
    + discriminate.
    + vm_compute. discriminate.
    + exists r. split; [exact Hparse |].
      assert (Hexit : Parse.exit_now r = true)
        by (vm_compute in Hparse; inversion Hparse; reflexivity).
      split; [exact Hexit |].
      intros H. apply Hiff in H. rewrite Hexit in H. discriminate H.
Defined.

(* End of the development. *)
